(** * Training criterion nodes of the computation network library

    A shallow embedding of [TrainingCriterionNodes.h]: the criterion nodes
    (SquareError, CrossEntropyWithSoftmax, CrossEntropy, MatrixL1Reg,
    MatrixL2Reg, NoiseContrastiveEstimation, ClassBasedCrossEntropyWithSoftmax,
    CRF, DummyCriterion), their forward evaluation, their gradient
    computation, their validation and the persisted NCE evaluation mode.

    The nodes are templates over [ElemType] (float and double are
    instantiated); the embedding is generic over a [Scalar] interface and is
    instantiated at [Z] (exact integer-valued scalars, everything computes)
    and at [R] (exact real arithmetic, where [LogAdd] is the true
    log-sum-exp).

    C++ exceptions keep whatever the node mutated before the throw, so
    member functions live in a state monad whose outcome is a value or a
    thrown exception, next to the state reached. *)

From Stdlib Require Import ZArith NArith List String Bool Arith Lia.
From Stdlib Require Import Reals Lra Ring.
Import ListNotations.

Set Implicit Arguments.

(* ================================================================== *)
(** ** Scalars: the [ElemType] template parameter *)
(* ================================================================== *)

Declare Scope scalar_scope.
Delimit Scope scalar_scope with E.

(** The operations the nodes apply to single elements.  [snonzero x] is the
    C++ test [x != 0], [sgt0 x] is [x > 0], [slt0 x] is [x < 0] and
    [to_size_t x] is the cast [(size_t) x]. *)
Class Scalar (E : Type) : Type := {
  s0 : E;
  s1 : E;
  sadd : E -> E -> E;
  ssub : E -> E -> E;
  smul : E -> E -> E;
  sdiv : E -> E -> E;
  sopp : E -> E;
  snonzero : E -> bool;
  sgt0 : E -> bool;
  slt0 : E -> bool;
  to_size_t : E -> N;
  EPS_IN_INVERSE : E
}.

Notation "x + y" := (sadd x y) : scalar_scope.
Notation "x - y" := (ssub x y) : scalar_scope.
Notation "x * y" := (smul x y) : scalar_scope.
Notation "x / y" := (sdiv x y) : scalar_scope.
Notation "- x" := (sopp x) : scalar_scope.

(** The log-domain part of the tensor engine used by the CRF node: the
    sentinel [LZERO] that stands for the logarithm of zero and the stable
    log-sum-exp of two values, [Matrix::LogAdd].  Neither is defined in this
    header; they are taken as an interface. *)
Class LogScalar (E : Type) : Type := {
  LZERO : E;
  LogAdd : E -> E -> E
}.

(** The ring laws of exact arithmetic, for the statements that compare what
    the code computes with a closed formula; zero is zero and one is not
    for the test [x != 0]. *)
Class ScalarLaws (E : Type) {SE : Scalar E} : Prop := {
  scalar_ring : ring_theory s0 s1 sadd smul ssub sopp (@eq E);
  snonzero_s0 : snonzero s0 = false;
  snonzero_s1 : snonzero s1 = true
}.

Arguments ScalarLaws E {SE}.

(* ================================================================== *)
(** ** Exceptions and the state monad of member functions *)
(* ================================================================== *)

(** [InvalidArgument], [LogicError] and [RuntimeError] throw the standard
    exceptions of the same kind.  [OutOfRange] marks an access the source
    leaves unchecked (an input index beyond [m_children], a tensor read at
    a negative index).  [AssertionFailed] marks an [assert] that does not
    hold in a build that keeps assertions: the run ends there. *)
Inductive Exn : Type :=
| InvalidArgument (msg : string)
| LogicError (msg : string)
| RuntimeError (msg : string)
| OutOfRange (msg : string)
| AssertionFailed (msg : string).

Inductive Outcome (A : Type) : Type :=
| Returned (a : A)
| Thrown (e : Exn).

Arguments Returned {A} a.
Arguments Thrown {A} e.

Definition M (S A : Type) : Type := S -> Outcome A * S.

Definition ret {S A : Type} (a : A) : M S A := fun s => (Returned a, s).

Definition bind {S A B : Type} (c : M S A) (k : A -> M S B) : M S B :=
  fun s =>
    match c s with
    | (Returned a, s') => k a s'
    | (Thrown e, s') => (Thrown e, s')
    end.

Definition throw {S A : Type} (e : Exn) : M S A := fun s => (Thrown e, s).

Definition gets {S A : Type} (f : S -> A) : M S A := fun s => (Returned (f s), s).

Definition modify {S : Type} (f : S -> S) : M S unit := fun s => (Returned tt, f s).

Declare Scope monad_scope.
Delimit Scope monad_scope with monad.

Notation "x <- c1 ;; c2" := (bind c1 (fun x => c2))
  (at level 61, c1 at next level, right associativity) : monad_scope.
Notation "c1 ;; c2" := (bind c1 (fun _ => c2))
  (at level 61, right associativity) : monad_scope.

Local Open Scope monad_scope.

(** [when_ b c] is the statement [if (b) c;]. *)
Definition when_ {S : Type} (b : bool) (c : M S unit) : M S unit :=
  if b then c else ret tt.

(** [for_from start count body] is
    [for (t = start; t < start + count; t++) body(t)]. *)
Fixpoint for_from {S : Type} (start count : nat) (body : nat -> M S unit) : M S unit :=
  match count with
  | O => ret tt
  | Datatypes.S c => body start ;; for_from (Datatypes.S start) c body
  end.

Definition for_loop {S : Type} (n : nat) (body : nat -> M S unit) : M S unit :=
  for_from 0 n body.

(** A loop that carries a local variable of type [A] from one iteration to
    the next (the running offset [sz] of the class-based node); [continue]
    is an iteration that returns the variable unchanged. *)
Fixpoint for_acc {S A : Type} (start count : nat) (body : nat -> A -> M S A) (a : A)
  : M S A :=
  match count with
  | O => ret a
  | Datatypes.S c => a' <- body start a ;; for_acc (Datatypes.S start) c body a'
  end.

(** Did the call return normally? *)
Definition returned {A : Type} (o : Outcome A) : bool :=
  match o with Returned _ => true | Thrown _ => false end.

Definition threw {A : Type} (o : Outcome A) : bool := negb (returned o).


(** A function [h] on states that a computation does not notice: running
    it from [h s] gives the outcome it gives from [s], and the state it
    reaches from [s] with [h] applied. *)
Definition commutes {S A : Type} (h : S -> S) (c : M S A) : Prop :=
  forall s, c (h s) = (fst (c s), h (snd (c s))).

(** A computation that leaves the observation [f] of the state as it was,
    whether it returns or throws. *)
Definition preserves {S A X : Type} (f : S -> X) (c : M S A) : Prop :=
  forall s, f (snd (c s)) = f s.

(* ================================================================== *)
(** ** The dense tensor type consumed from the numeric engine *)
(* ================================================================== *)

(** [DEVICEID_TYPE] is an integer; [CPUDEVICE] is a constant of the tensor
    library that this header only compares against, so it stays a parameter
    of the definitions that use it. *)
Definition DEVICEID_TYPE : Type := Z.

Section Matrices.
Context {E : Type} {SE : Scalar E}.
Local Open Scope scalar_scope.

(** Modelled from the spec: the tensor is 2-D with a row count and a
    column count; [elem m i j] is [m(i, j)].  The [Matrix] class itself
    (storage, bounds checks) is not part of this header: an element read
    outside the dimensions is whatever [elem] holds there, and every
    statement below reads inside the dimensions. *)
Record Matrix : Type := mkMatrix {
  GetNumRows : nat;
  GetNumCols : nat;
  elem : nat -> nat -> E;
  GetDeviceId : DEVICEID_TYPE
}.

Definition GetNumElements (m : Matrix) : nat := GetNumRows m * GetNumCols m.

Definition HasNoElements (m : Matrix) : bool := GetNumElements m =? 0.

Definition Get00Element (m : Matrix) : E := elem m 0 0.

(** Same dimensions, same elements inside them. *)
Definition same_shape (a b : Matrix) : Prop :=
  GetNumRows a = GetNumRows b /\ GetNumCols a = GetNumCols b.

Definition with_elem (m : Matrix) (f : nat -> nat -> E) : Matrix :=
  mkMatrix (GetNumRows m) (GetNumCols m) f (GetDeviceId m).

(** Modelled from the spec: [resize(rows, cols)].  Only the dimensions are
    specified; the elements are kept as they are. *)
Definition Resize (rows cols : nat) (m : Matrix) : Matrix :=
  mkMatrix rows cols (elem m) (GetDeviceId m).

(** [m.SetValue(v)] for a scalar [v]. *)
Definition SetValueScalar (v : E) (m : Matrix) : Matrix :=
  with_elem m (fun _ _ => v).

(** [m.SetValue(src)] for a matrix [src]: dimensions and elements of
    [src], on the device of [m]. *)
Definition SetValue (src m : Matrix) : Matrix :=
  mkMatrix (GetNumRows src) (GetNumCols src) (elem src) (GetDeviceId m).

(** the sum of [f k] over [k < n], added from the left. *)
Fixpoint sum_upto (n : nat) (f : nat -> E) : E :=
  match n with
  | O => s0
  | S n' => sum_upto n' f + f n'
  end.

(** Modelled from the spec: [AddWithScaleOf], [c += alpha * a]. *)
Definition AddWithScaleOf (alpha : E) (a c : Matrix) : Matrix :=
  with_elem c (fun i j => elem c i j + alpha * elem a i j).

(** Modelled from the spec: [ScaleAndAdd(alpha, a, c)], [c += alpha * a]. *)
Definition ScaleAndAdd (alpha : E) (a c : Matrix) : Matrix :=
  with_elem c (fun i j => elem c i j + alpha * elem a i j).

(** Modelled from the spec: [AddScaledDifference(alpha, a, b, c)] with a
    1x1 matrix [alpha], [c += alpha(0,0) * (a - b)]. *)
Definition AddScaledDifference (alpha a b c : Matrix) : Matrix :=
  with_elem c (fun i j => elem c i j + Get00Element alpha * (elem a i j - elem b i j)).

(** Modelled from the spec: [AssignDifferenceOf], [this = a - b]. *)
Definition AssignDifferenceOf (a b this : Matrix) : Matrix :=
  mkMatrix (GetNumRows a) (GetNumCols a) (fun i j => elem a i j - elem b i j)
           (GetDeviceId this).

(** Modelled from the spec: [AssignElementDivisionOf], [this = a ./ b]. *)
Definition AssignElementDivisionOf (a b this : Matrix) : Matrix :=
  mkMatrix (GetNumRows a) (GetNumCols a) (fun i j => elem a i j / elem b i j)
           (GetDeviceId this).

Definition sign_of (x : E) : E :=
  if sgt0 x then s1 else if slt0 x then - s1 else s0.

(** Modelled from the spec: [AssignSignOf], [this = sign(a)]. *)
Definition AssignSignOf (a this : Matrix) : Matrix :=
  mkMatrix (GetNumRows a) (GetNumCols a) (fun i j => sign_of (elem a i j))
           (GetDeviceId this).

(** [m.ColumnSlice(start, n)] is a view of [n] columns of [m]: reading it
    reads [m], and what is written through it lands in [m]
    ([PutColumnSlice]).  [FrameSlice(frameRange, start, n)] is the same
    view. *)
Definition ColumnSlice (start n : nat) (m : Matrix) : Matrix :=
  mkMatrix (GetNumRows m) n (fun i j => elem m i (start + j)) (GetDeviceId m).

Definition PutColumnSlice (start n : nat) (v m : Matrix) : Matrix :=
  with_elem m (fun i j =>
    if (start <=? j) && (j <? start + n) then elem v i (j - start) else elem m i j).

(** Run [f] on the view [m.ColumnSlice(start, n)], writing through. *)
Definition OnColumnSlice (start n : nat) (f : Matrix -> Matrix) (m : Matrix) : Matrix :=
  PutColumnSlice start n (f (ColumnSlice start n m)) m.

Definition FrameSlice (start n : nat) (m : Matrix) : Matrix := ColumnSlice start n m.

Definition Transposed (b : bool) (m : Matrix) : Matrix :=
  if b then mkMatrix (GetNumCols m) (GetNumRows m) (fun i j => elem m j i) (GetDeviceId m)
  else m.

(** Modelled from the spec: [MultiplyAndAdd(a, transposeA, b, transposeB, c)],
    [c += op(a) * op(b)]. *)
Definition MultiplyAndAdd (a : Matrix) (ta : bool) (b : Matrix) (tb : bool) (c : Matrix)
  : Matrix :=
  let a' := Transposed ta a in
  let b' := Transposed tb b in
  with_elem c (fun i j =>
    elem c i j + sum_upto (GetNumCols a') (fun k => elem a' i k * elem b' k j)).

(** Modelled from the spec: [AssignProductOf(a, transposeA, b, transposeB)],
    [this = op(a) * op(b)]. *)
Definition AssignProductOf (a : Matrix) (ta : bool) (b : Matrix) (tb : bool) (this : Matrix)
  : Matrix :=
  let a' := Transposed ta a in
  let b' := Transposed tb b in
  mkMatrix (GetNumRows a') (GetNumCols b')
           (fun i j => sum_upto (GetNumCols a') (fun k => elem a' i k * elem b' k j))
           (GetDeviceId this).

(** Modelled from the spec: [MinusOneAt(c, position)] subtracts one from
    the element at linear (column-major) position [position]. *)
Definition MinusOneAt (position : nat) (c : Matrix) : Matrix :=
  with_elem c (fun i j =>
    if (j * GetNumRows c + i =? position) && (i <? GetNumRows c)
    then elem c i j - s1 else elem c i j).

(** Modelled from the spec: [Scale(alpha, a)] with a 1x1 matrix [alpha],
    [a *= alpha(0,0)]. *)
Definition Scale (alpha a : Matrix) : Matrix :=
  with_elem a (fun i j => Get00Element alpha * elem a i j).

(** [m *= v] for a scalar [v]. *)
Definition ScaleBy (v : E) (m : Matrix) : Matrix :=
  with_elem m (fun i j => elem m i j * v).

(** [m += a]. *)
Definition PlusAssign (a m : Matrix) : Matrix :=
  with_elem m (fun i j => elem m i j + elem a i j).

(** Modelled from the spec: [AssignInnerProductOfMatrices(a, b)], the 1x1
    matrix holding the sum of [a(i,j) * b(i,j)] over all elements. *)
Definition InnerProduct (a b : Matrix) : E :=
  sum_upto (GetNumCols a) (fun j =>
    sum_upto (GetNumRows a) (fun i => elem a i j * elem b i j)).

Definition AssignInnerProductOfMatrices (a b this : Matrix) : Matrix :=
  mkMatrix 1 1 (fun _ _ => InnerProduct a b) (GetDeviceId this).

(** [m(i, j) = v]. *)
Definition SetElem (i j : nat) (v : E) (m : Matrix) : Matrix :=
  with_elem m (fun i' j' => if (i' =? i) && (j' =? j) then v else elem m i' j').

(** [m.Reshape(rows, cols)]: the elements keep their linear
    (column-major) position. *)
Definition Reshape (rows cols : nat) (m : Matrix) : Matrix :=
  mkMatrix rows cols
           (fun i j => elem m ((j * rows + i) mod GetNumRows m) ((j * rows + i) / GetNumRows m))
           (GetDeviceId m).

(** Modelled from the spec: [AddElementToElement(a, ai, aj, c, ci, cj)],
    [c(ci, cj) += a(ai, aj)].  The class-based node wraps its call in a
    handler for the exception thrown when an index is out of range. *)
Definition AddElementToElement (a : Matrix) (ai aj : nat) (c : Matrix) (ci cj : nat)
  : Outcome Matrix :=
  if (ai <? GetNumRows a) && (aj <? GetNumCols a) && (ci <? GetNumRows c) && (cj <? GetNumCols c)
  then Returned (SetElem ci cj (elem c ci cj + elem a ai aj) c)
  else Thrown (InvalidArgument "AddElementToElement: index out of range.").

(** All columns of [m] for which [invalid] holds are set to zero. *)
Definition ZeroColumns (invalid : nat -> bool) (m : Matrix) : Matrix :=
  with_elem m (fun i j => if invalid j then s0 else elem m i j).

End Matrices.

Arguments Matrix E : clear implicits.

(* ================================================================== *)
(** ** What a criterion node sees of the graph *)
(* ================================================================== *)

(** Which cells of a minibatch the layout is asked about. *)
Inductive MinibatchPackingFlags : Type :=
| NoLabel
| NoFeature
| NoLabelOrNoFeature.

(** Modelled from the spec: the Sequence Mask.  [Is t f] asks whether some
    parallel sequence carries flag [f] at time [t], [IsAt s t f] asks it for
    sequence [s] at time [t]. *)
Record MBLayout : Type := mkMBLayout {
  LayoutNumParallelSequences : nat;
  IsAllNone : bool;
  Is : nat -> MinibatchPackingFlags -> bool;
  IsAt : nat -> nat -> MinibatchPackingFlags -> bool
}.

Section Nodes.
Context {E : Type} {SE : Scalar E}.
Local Open Scope scalar_scope.

(** An input node, as far as a criterion node touches it through
    [Inputs(i)]: its operation name, its value and its gradient.  The
    inputs of one node are taken to be distinct nodes. *)
Record InputNode : Type := mkInput {
  OperationName : string;
  FunctionValues : Matrix E;
  GradientValues : Matrix E
}.

(** The members every node inherits from [ComputationNode]. *)
Record ComputationNode : Type := mkNode {
  m_children : list InputNode;
  m_functionValues : Matrix E;
  m_gradientValues : Matrix E;
  m_pMBLayout : option MBLayout;
  m_outputChannels : nat;
  m_outputWidth : nat;
  m_outputHeight : nat
}.

Definition set_children (cs : list InputNode) (n : ComputationNode) : ComputationNode :=
  mkNode cs (m_functionValues n) (m_gradientValues n) (m_pMBLayout n)
         (m_outputChannels n) (m_outputWidth n) (m_outputHeight n).

Definition set_functionValues (m : Matrix E) (n : ComputationNode) : ComputationNode :=
  mkNode (m_children n) m (m_gradientValues n) (m_pMBLayout n)
         (m_outputChannels n) (m_outputWidth n) (m_outputHeight n).

Definition set_outputImage (channels width height : nat) (n : ComputationNode)
  : ComputationNode :=
  mkNode (m_children n) (m_functionValues n) (m_gradientValues n) (m_pMBLayout n)
         channels width height.

Definition set_FunctionValues (m : Matrix E) (c : InputNode) : InputNode :=
  mkInput (OperationName c) m (GradientValues c).

Definition set_GradientValues (m : Matrix E) (c : InputNode) : InputNode :=
  mkInput (OperationName c) (FunctionValues c) m.

(** [l[i] = x], nothing when [i] is out of range. *)
Fixpoint list_set {A : Type} (i : nat) (x : A) (l : list A) : list A :=
  match l, i with
  | [], _ => []
  | _ :: tl, O => x :: tl
  | hd :: tl, S i' => hd :: list_set i' x tl
  end.

(** A node class extends [ComputationNode]: its state contains the base
    members. *)
Class NodeState (S : Type) : Type := {
  get_base : S -> ComputationNode;
  set_base : ComputationNode -> S -> S;
  get_set_base : forall b s, get_base (set_base b s) = b;
  set_set_base : forall b b' s, set_base b (set_base b' s) = set_base b s
}.

Section Members.
Context {S : Type} {NS : NodeState S}.

(** [Inputs(i)]. *)
Definition Inputs (i : nat) : M S InputNode :=
  fun s =>
    match nth_error (m_children (get_base s)) i with
    | Some c => (Returned c, s)
    | None => (Thrown (OutOfRange "Inputs"), s)
    end.

Definition SetInput (i : nat) (c : InputNode) : M S unit :=
  modify (fun s => set_base (set_children (list_set i c (m_children (get_base s)))
                                          (get_base s)) s).

(** The in-place operation [f] applied to [Inputs(i)->GradientValues()]. *)
Definition OnInputGradientValues (i : nat) (f : Matrix E -> Matrix E) : M S unit :=
  c <- Inputs i ;;
  SetInput i (set_GradientValues (f (GradientValues c)) c).

(** The in-place operation [f] applied to [Inputs(i)->FunctionValues()]. *)
Definition OnInputFunctionValues (i : nat) (f : Matrix E -> Matrix E) : M S unit :=
  c <- Inputs i ;;
  SetInput i (set_FunctionValues (f (FunctionValues c)) c).

(** [Inputs(i)->FunctionValues()], read. *)
Definition InputFunctionValues (i : nat) : M S (Matrix E) :=
  c <- Inputs i ;; ret (FunctionValues c).

(** [GradientValues()] and [FunctionValues()] of the node itself. *)
Definition NodeGradientValues : M S (Matrix E) :=
  gets (fun s => m_gradientValues (get_base s)).

Definition NodeFunctionValues : M S (Matrix E) :=
  gets (fun s => m_functionValues (get_base s)).

Definition OnFunctionValues (f : Matrix E -> Matrix E) : M S unit :=
  modify (fun s => set_base (set_functionValues (f (m_functionValues (get_base s)))
                                                (get_base s)) s).

(** Modelled from the spec: [Base::MaskToZeroWhenLabelAndFeatureMissing],
    which is declared in [ComputationNode.h].  Column [t] holds parallel
    sequence [t mod nS] at time [t / nS]; every column whose cell is
    flagged as carrying no label or no feature is set to zero. *)
Definition invalid_column (layout : option MBLayout) (t : nat) : bool :=
  match layout with
  | None => false
  | Some L =>
      negb (IsAllNone L) &&
      IsAt L (t mod LayoutNumParallelSequences L) (t / LayoutNumParallelSequences L)
           NoLabelOrNoFeature
  end.

Definition MaskToZeroWhenLabelAndFeatureMissing (layout : option MBLayout) (m : Matrix E)
  : Matrix E :=
  ZeroColumns (invalid_column layout) m.

(** The gradient tensor of input [i] in state [s], and the state with
    that tensor replaced. *)
Definition input_gradient (i : nat) (s : S) : option (Matrix E) :=
  option_map GradientValues (nth_error (m_children (get_base s)) i).

Definition input_value (i : nat) (s : S) : option (Matrix E) :=
  option_map FunctionValues (nth_error (m_children (get_base s)) i).

Definition all_input_gradients (s : S) : list (Matrix E) :=
  map GradientValues (m_children (get_base s)).

(** The gradient tensors a call could write: those of the inputs and the
    node's own. *)
Definition gradient_tensors (s : S) : list (Matrix E) :=
  m_gradientValues (get_base s) :: all_input_gradients s.

Definition with_input_gradient (i : nat) (G : Matrix E) (s : S) : S :=
  match nth_error (m_children (get_base s)) i with
  | Some c =>
      set_base (set_children (list_set i (set_GradientValues G c) (m_children (get_base s)))
                             (get_base s)) s
  | None => s
  end.

(** Running [c] from [s] returns normally and leaves in the gradient
    tensor of input [i] what was there plus [C], element by element. *)
Definition adds_contribution (c : M S unit) (i : nat) (s : S) (C : nat -> nat -> E) : Prop :=
  exists G G',
    input_gradient i s = Some G /\
    fst (c s) = Returned tt /\
    input_gradient i (snd (c s)) = Some G' /\
    same_shape G G' /\
    forall r k, elem G' r k = elem G r k + C r k.

(** [c] accumulates into the gradient of input [i] at [s]: whatever the
    gradient tensor held before (with the dimensions it has in [s]), the
    call adds one and the same contribution to it. *)
Definition accumulates (c : M S unit) (i : nat) (s : S) : Prop :=
  exists C, forall G,
    (forall G0, input_gradient i s = Some G0 -> same_shape G0 G) ->
    adds_contribution c i (with_input_gradient i G s) C.

(** [c] writes no tensor of an input: the values and the gradients of all
    inputs are after the call what they were before it, whether it returns
    or throws. *)
Definition leaves_inputs {A : Type} (c : M S A) : Prop :=
  (forall j, preserves (input_value j) c) /\
  (forall j, preserves (input_gradient j) c).

(** The block that the [Validate] functions of SquareError,
    CrossEntropyWithSoftmax and CrossEntropy repeat for [index] 0 and 1: an
    input that is a LearnableParameter takes each dimension it has as zero
    from the other input, [Inputs(1 - index)]. *)
Definition ResizeLearnableParameter (index : nat) : M S unit :=
  c <- Inputs index ;;
  when_ (String.eqb (OperationName c) "LearnableParameter")
    (a <- Inputs index ;;
     rows <- (if GetNumRows (FunctionValues a) =? 0
              then b <- Inputs (1 - index) ;; ret (GetNumRows (FunctionValues b))
              else ret (GetNumRows (FunctionValues a))) ;;
     a <- Inputs index ;;
     cols <- (if GetNumCols (FunctionValues a) =? 0
              then b <- Inputs (1 - index) ;; ret (GetNumCols (FunctionValues b))
              else ret (GetNumCols (FunctionValues a))) ;;
     OnInputFunctionValues index (Resize rows cols)).

(** The input [c] after that block, [other] being the other input. *)
Definition with_inferred_shape (c other : InputNode) : InputNode :=
  if String.eqb (OperationName c) "LearnableParameter"
  then set_FunctionValues
         (Resize (if GetNumRows (FunctionValues c) =? 0
                  then GetNumRows (FunctionValues other)
                  else GetNumRows (FunctionValues c))
                 (if GetNumCols (FunctionValues c) =? 0
                  then GetNumCols (FunctionValues other)
                  else GetNumCols (FunctionValues c))
                 (FunctionValues c)) c
  else c.

(** The tensors of the node itself that the graph reads and writes: its
    value, its gradient and the layout of the minibatch. *)
Definition own_tensors (s : S) : Matrix E * Matrix E * option MBLayout :=
  (m_functionValues (get_base s), m_gradientValues (get_base s), m_pMBLayout (get_base s)).

(** [c] writes no tensor of the graph but the gradient of input [i]: the
    values of all inputs, the gradients of the other inputs and the node's
    own tensors are after the call what they were before it, whether it
    returns or throws. *)
Definition writes_gradient_only (c : M S unit) (i : nat) : Prop :=
  (forall j, preserves (input_value j) c) /\
  (forall j, j <> i -> preserves (input_gradient j) c) /\
  preserves own_tensors c.

End Members.
End Nodes.

Arguments InputNode E : clear implicits.
Arguments ComputationNode E : clear implicits.
Arguments NodeState E S : clear implicits.

(** Read a hypothesis about the inputs of a node through [get_base]. *)
Ltac to_get_base H :=
  match type of H with
  | nth_error (m_children (?b ?s)) ?i = ?r =>
      change (nth_error (m_children (get_base s)) i = r) in H
  end.

(* ================================================================== *)
(** ** Two instances of the scalar interface *)
(* ================================================================== *)

(** Exact integer-valued scalars: sums, differences and products of small
    integers are exact in float and double as well, and here they compute. *)
#[export] Instance ZScalar : Scalar Z := {|
  s0 := 0%Z;
  s1 := 1%Z;
  sadd := Z.add;
  ssub := Z.sub;
  smul := Z.mul;
  sdiv := Z.quot;
  sopp := Z.opp;
  snonzero := fun x => negb (x =? 0)%Z;
  sgt0 := fun x => (0 <? x)%Z;
  slt0 := fun x => (x <? 0)%Z;
  to_size_t := fun x => (Z.to_N x mod 2 ^ 64)%N;
  EPS_IN_INVERSE := 1%Z
|}.

#[export] Instance ZScalarLaws : ScalarLaws Z.
Proof.
  constructor; [|reflexivity|reflexivity].
  constructor; intros; cbn [s0 s1 sadd smul ssub sopp ZScalar]; lia.
Qed.

(** Exact real arithmetic. *)
#[export] Instance RScalar : Scalar R := {|
  s0 := 0%R;
  s1 := 1%R;
  sadd := Rplus;
  ssub := Rminus;
  smul := Rmult;
  sdiv := Rdiv;
  sopp := Ropp;
  snonzero := fun x => if Req_dec_T x 0 then false else true;
  sgt0 := fun x => if Rlt_dec 0 x then true else false;
  slt0 := fun x => if Rlt_dec x 0 then true else false;
  to_size_t := fun x => (Z.to_N (Int_part x) mod 2 ^ 64)%N;
  EPS_IN_INVERSE := (/ 10 ^ 30)%R
|}.

#[export] Instance RScalarLaws : ScalarLaws R.
Proof.
  constructor.
  - constructor; intros; cbn [s0 s1 sadd smul ssub sopp RScalar]; lra.
  - cbn. destruct (Req_dec_T 0 0); [reflexivity|contradiction].
  - cbn. destruct (Req_dec_T 1 0); [lra|reflexivity].
Qed.

(** In exact arithmetic the log-sum-exp of two values is
    [ln (exp x + exp y)]; the sentinel is a large negative number. *)
#[export] Instance RLogScalar : LogScalar R := {|
  LZERO := (- 10 ^ 11)%R;
  LogAdd := fun x y => ln (exp x + exp y)
|}.

(** Read the element [(r, k)] that a gradient request leaves, out of a
    statement of accumulation on a concrete node over the integers. *)
Ltac element_after H r k :=
  let Ga := fresh "Ga" in
  let Gb := fresh "Gb" in
  let Hin := fresh "Hin" in
  let Hout := fresh "Hout" in
  let Hadd := fresh "Hadd" in
  destruct H as (Ga & Gb & Hin & _ & Hout & _ & Hadd);
  specialize (Hadd r k);
  vm_compute in Hin; injection Hin as Hin; subst Ga;
  vm_compute in Hout; injection Hout as Hout; subst Gb;
  cbn [elem sadd ZScalar] in Hadd.

(* ================================================================== *)
(** ** SquareError *)
(* ================================================================== *)

Module SquareErrorNode.
Section WithScalar.
Context {E : Type} {SE : Scalar E}.
Local Open Scope scalar_scope.

Record Node : Type := mk {
  base : ComputationNode E;
  m_leftMinusRight : Matrix E
}.

#[global] Instance node_state : NodeState E Node := {|
  get_base := base;
  set_base := fun b n => mk b (m_leftMinusRight n);
  get_set_base := fun _ _ => eq_refl;
  set_set_base := fun _ _ _ => eq_refl
|}.

Definition ComputeInputPartialLeft (inputGradientValues gradientValues leftMinusRight : Matrix E)
  : Matrix E :=
  AddWithScaleOf (Get00Element gradientValues) leftMinusRight inputGradientValues.

Definition ComputeInputPartialRight (inputGradientValues gradientValues leftMinusRight : Matrix E)
  : Matrix E :=
  AddWithScaleOf (- Get00Element gradientValues) leftMinusRight inputGradientValues.

Definition ComputeInputPartial (inputIndex : nat) : M Node unit :=
  when_ (1 <? inputIndex)
        (throw (InvalidArgument "SquareError criteria only takes two inputs.")) ;;
  g <- NodeGradientValues ;;
  d <- gets m_leftMinusRight ;;
  if inputIndex =? 0
  then OnInputGradientValues 0 (fun G => ComputeInputPartialLeft G g d)
  else OnInputGradientValues 1 (fun G => ComputeInputPartialRight G g d).

(** What the node adds to the gradient of input [i]: [g * d] on the left,
    [-g * d] on the right, with [g] the upstream gradient and [d] the
    cached difference of the inputs. *)
Definition contribution (i : nat) (s : Node) (r k : nat) : E :=
  (if i =? 0 then Get00Element (m_gradientValues (base s))
   else - Get00Element (m_gradientValues (base s))) * elem (m_leftMinusRight s) r k.

(** *** Forward evaluation *)

Definition set_leftMinusRight (m : Matrix E) (n : Node) : Node := mk (base n) m.

Section Forward.
(** [FrobeniusNorm] is a routine of the tensor library. *)
Variable FrobeniusNorm : Matrix E -> E.

(** The static helper writes [functionValues] and [leftMinusRight]; both
    are returned.  [curNode] is asked for the layout only.  The divisor 2
    is the scalar [1 + 1]. *)
Definition EvaluateThisNodeS (layout : option MBLayout)
  (functionValues inputFunctionValues0 inputFunctionValues1 leftMinusRight : Matrix E)
  : Matrix E * Matrix E :=
  let leftMinusRight1 :=
    AssignDifferenceOf inputFunctionValues0 inputFunctionValues1 leftMinusRight in
  let leftMinusRight2 := MaskToZeroWhenLabelAndFeatureMissing layout leftMinusRight1 in
  let v := FrobeniusNorm leftMinusRight2 in
  (SetValueScalar (v * v / (s1 + s1)) (Resize 1 1 functionValues), leftMinusRight2).

Definition EvaluateThisNode : M Node unit :=
  fv <- NodeFunctionValues ;;
  in0 <- Inputs 0 ;;
  in1 <- Inputs 1 ;;
  d <- gets m_leftMinusRight ;;
  layout <- gets (fun n => m_pMBLayout (base n)) ;;
  let r := EvaluateThisNodeS layout fv (FunctionValues in0) (FunctionValues in1) d in
  OnFunctionValues (fun _ => fst r) ;;
  modify (set_leftMinusRight (snd r)).

End Forward.

(** *** Validation *)

Section Validation.
(** [Base::Validate] and [InferImageDimsFromInput] are members of
    [ComputationNode], declared outside this header. *)
Variable BaseValidate : M Node unit.
Variable InferImageDimsFromInput : nat -> bool -> M Node unit.

Definition InferImageDimsFromInputs : M Node unit :=
  InferImageDimsFromInput 0 false ;;
  modify (fun n => mk (set_outputImage 1 1 1 (base n)) (m_leftMinusRight n)).

Definition Validate : M Node unit :=
  BaseValidate ;;
  size <- gets (fun n => List.length (m_children (base n))) ;;
  when_ (negb (size =? 2))
        (throw (LogicError "SquareError operation requires two inputs.")) ;;
  ResizeLearnableParameter 0 ;;
  ResizeLearnableParameter 1 ;;
  in0 <- Inputs 0 ;;
  in1 <- Inputs 1 ;;
  when_ (HasNoElements (FunctionValues in0) || HasNoElements (FunctionValues in1))
        (throw (LogicError "SquareError operation: one of the operants has 0 element.")) ;;
  when_ (negb ((GetNumRows (FunctionValues in0) =? GetNumRows (FunctionValues in1))
               && (GetNumCols (FunctionValues in0) =? GetNumCols (FunctionValues in1))))
        (throw (LogicError
           "The Matrix dimension in the SquareError operation does not match.")) ;;
  OnFunctionValues (Resize 1 1) ;;
  in0 <- Inputs 0 ;;
  modify (fun n => set_leftMinusRight
            (Resize (GetNumRows (FunctionValues in0)) (GetNumCols (FunctionValues in0))
                    (m_leftMinusRight n)) n) ;;
  InferImageDimsFromInputs.

End Validation.

End WithScalar.

Arguments Node E : clear implicits.
End SquareErrorNode.

(* ================================================================== *)
(** ** CrossEntropyWithSoftmax *)
(* ================================================================== *)

Module CrossEntropyWithSoftmaxNode.
Section WithScalar.
Context {E : Type} {SE : Scalar E}.
Local Open Scope scalar_scope.

Record Node : Type := mk {
  base : ComputationNode E;
  m_logSoftmaxOfRight : Matrix E;
  m_softmaxOfRight : Matrix E
}.

#[global] Instance node_state : NodeState E Node := {|
  get_base := base;
  set_base := fun b n => mk b (m_logSoftmaxOfRight n) (m_softmaxOfRight n);
  get_set_base := fun _ _ => eq_refl;
  set_set_base := fun _ _ _ => eq_refl
|}.

Definition ComputeInputPartialLeft (logSoftmaxOfRight inputGradientValues gradientValues
  : Matrix E) : Matrix E :=
  ScaleAndAdd (- Get00Element gradientValues) logSoftmaxOfRight inputGradientValues.

Definition ComputeInputPartialRight (softmaxOfRight inputFunctionValues inputGradientValues
  gradientValues : Matrix E) : Matrix E :=
  AddScaledDifference gradientValues softmaxOfRight inputFunctionValues inputGradientValues.

Definition ComputeInputPartial (inputIndex : nat) : M Node unit :=
  when_ (1 <? inputIndex)
        (throw (InvalidArgument
                  "CrossEntropyWithSoftmaxNode criterion only takes two inputs.")) ;;
  if inputIndex =? 0
  then
    logSoftmax <- gets m_logSoftmaxOfRight ;;
    g <- NodeGradientValues ;;
    OnInputGradientValues inputIndex (fun G => ComputeInputPartialLeft logSoftmax G g)
  else
    softmax <- gets m_softmaxOfRight ;;
    label <- Inputs 0 ;;
    g <- NodeGradientValues ;;
    OnInputGradientValues inputIndex
      (fun G => ComputeInputPartialRight softmax (FunctionValues label) G g) ;;
    layout <- gets (fun s => m_pMBLayout (base s)) ;;
    OnInputGradientValues inputIndex (MaskToZeroWhenLabelAndFeatureMissing layout).

(** The upstream gradient [g], a scalar. *)
Definition upstream (s : Node) : E := Get00Element (m_gradientValues (base s)).

(** *** Forward evaluation *)

Definition set_logSoftmaxOfRight (m : Matrix E) (n : Node) : Node :=
  mk (base n) m (m_softmaxOfRight n).

Definition set_softmaxOfRight (m : Matrix E) (n : Node) : Node :=
  mk (base n) (m_logSoftmaxOfRight n) m.

Section Forward.
(** [AssignLogSoftmaxOf(a, isColWise)] and [InplaceExp] are routines of the
    tensor library; each takes the tensor it writes last and returns what
    it wrote. *)
Variable AssignLogSoftmaxOf : Matrix E -> bool -> Matrix E -> Matrix E.
Variable InplaceExp : Matrix E -> Matrix E.

(** What [EvaluateThisNodeS] leaves in [functionValues], [softmaxOfRight]
    and [logSoftmaxOfRight]. *)
Record Evaluated : Type := mkEvaluated {
  out_functionValues : Matrix E;
  out_softmaxOfRight : Matrix E;
  out_logSoftmaxOfRight : Matrix E
}.

Definition EvaluateThisNodeS (layout : option MBLayout)
  (functionValues inputFunctionValues0 inputFunctionValues1 softmaxOfRight logSoftmaxOfRight
   : Matrix E) : Evaluated :=
  let logSoftmaxOfRight1 := AssignLogSoftmaxOf inputFunctionValues1 true logSoftmaxOfRight in
  let softmaxOfRight1 := SetValue logSoftmaxOfRight1 softmaxOfRight in
  let softmaxOfRight2 := InplaceExp softmaxOfRight1 in
  let logSoftmaxOfRight2 := MaskToZeroWhenLabelAndFeatureMissing layout logSoftmaxOfRight1 in
  let functionValues1 :=
    AssignInnerProductOfMatrices inputFunctionValues0 logSoftmaxOfRight2 functionValues in
  mkEvaluated (ScaleBy (- s1) functionValues1) softmaxOfRight2 logSoftmaxOfRight2.

Definition EvaluateThisNode : M Node unit :=
  fv <- NodeFunctionValues ;;
  in0 <- Inputs 0 ;;
  in1 <- Inputs 1 ;;
  softmax <- gets m_softmaxOfRight ;;
  logSoftmax <- gets m_logSoftmaxOfRight ;;
  layout <- gets (fun n => m_pMBLayout (base n)) ;;
  let r := EvaluateThisNodeS layout fv (FunctionValues in0) (FunctionValues in1)
                             softmax logSoftmax in
  OnFunctionValues (fun _ => out_functionValues r) ;;
  modify (set_softmaxOfRight (out_softmaxOfRight r)) ;;
  modify (set_logSoftmaxOfRight (out_logSoftmaxOfRight r)).

End Forward.

End WithScalar.

Arguments Node E : clear implicits.
End CrossEntropyWithSoftmaxNode.

(* ================================================================== *)
(** ** CrossEntropy *)
(* ================================================================== *)

Module CrossEntropyNode.
Section WithScalar.
Context {E : Type} {SE : Scalar E}.
Local Open Scope scalar_scope.

Record Node : Type := mk {
  base : ComputationNode E;
  m_logOfRight : Matrix E;
  m_leftDivRight : Matrix E
}.

#[global] Instance node_state : NodeState E Node := {|
  get_base := base;
  set_base := fun b n => mk b (m_logOfRight n) (m_leftDivRight n);
  get_set_base := fun _ _ => eq_refl;
  set_set_base := fun _ _ _ => eq_refl
|}.

Definition set_leftDivRight (m : Matrix E) (n : Node) : Node :=
  mk (base n) (m_logOfRight n) m.

Definition ComputeInputPartialLeft (logOfRight inputGradientValues gradientValues : Matrix E)
  : Matrix E :=
  ScaleAndAdd (- Get00Element gradientValues) logOfRight inputGradientValues.

(** The static helper writes two of its arguments: [leftDivRight] and
    [inputGradientValues]; both are returned. *)
Definition ComputeInputPartialRight (layout : option MBLayout)
  (leftDivRight inputFunctionValues0 inputFunctionValues1 inputGradientValues gradientValues
   : Matrix E) : Matrix E * Matrix E :=
  let leftDivRight1 :=
    AssignElementDivisionOf inputFunctionValues0 inputFunctionValues1 leftDivRight in
  let leftDivRight2 := MaskToZeroWhenLabelAndFeatureMissing layout leftDivRight1 in
  (leftDivRight2,
   ScaleAndAdd (- Get00Element gradientValues) leftDivRight2 inputGradientValues).

Definition ComputeInputPartial (inputIndex : nat) : M Node unit :=
  when_ (1 <? inputIndex)
        (throw (InvalidArgument "CrossEntropy criterion only takes two inputs.")) ;;
  if inputIndex =? 0
  then
    logOfRight <- gets m_logOfRight ;;
    g <- NodeGradientValues ;;
    OnInputGradientValues inputIndex (fun G => ComputeInputPartialLeft logOfRight G g)
  else
    leftDivRight <- gets m_leftDivRight ;;
    in0 <- Inputs 0 ;;
    in1 <- Inputs 1 ;;
    g <- NodeGradientValues ;;
    layout <- gets (fun s => m_pMBLayout (base s)) ;;
    modify (set_leftDivRight
              (fst (ComputeInputPartialRight layout leftDivRight (FunctionValues in0)
                      (FunctionValues in1) (GradientValues in1) g))) ;;
    OnInputGradientValues inputIndex
      (fun G => snd (ComputeInputPartialRight layout leftDivRight (FunctionValues in0)
                       (FunctionValues in1) G g)).

(** *** Forward evaluation *)

Definition set_logOfRight (m : Matrix E) (n : Node) : Node :=
  mk (base n) m (m_leftDivRight n).

Section Forward.
(** [InplaceLog] is a routine of the tensor library. *)
Variable InplaceLog : Matrix E -> Matrix E.

(** The static helper writes [functionValues] and [logOfRight]. *)
Definition EvaluateThisNodeS (layout : option MBLayout)
  (functionValues inputFunctionValues0 inputFunctionValues1 logOfRight : Matrix E)
  : Matrix E * Matrix E :=
  let logOfRight1 := SetValue inputFunctionValues1 logOfRight in
  let logOfRight2 := InplaceLog logOfRight1 in
  let logOfRight3 := MaskToZeroWhenLabelAndFeatureMissing layout logOfRight2 in
  let functionValues1 :=
    AssignInnerProductOfMatrices inputFunctionValues0 logOfRight3 functionValues in
  (ScaleBy (- s1) functionValues1, logOfRight3).

Definition EvaluateThisNode : M Node unit :=
  fv <- NodeFunctionValues ;;
  in0 <- Inputs 0 ;;
  in1 <- Inputs 1 ;;
  logOfRight <- gets m_logOfRight ;;
  layout <- gets (fun n => m_pMBLayout (base n)) ;;
  let r := EvaluateThisNodeS layout fv (FunctionValues in0) (FunctionValues in1) logOfRight in
  OnFunctionValues (fun _ => fst r) ;;
  modify (set_logOfRight (snd r)).

End Forward.

(** *** Validation *)

Section Validation.
(** [Base::Validate] and [InferImageDimsFromInput] are members of
    [ComputationNode], declared outside this header. *)
Variable BaseValidate : M Node unit.
Variable InferImageDimsFromInput : nat -> bool -> M Node unit.

Definition InferImageDimsFromInputs : M Node unit :=
  InferImageDimsFromInput 0 false ;;
  modify (fun n => mk (set_outputImage 1 1 1 (base n)) (m_logOfRight n) (m_leftDivRight n)).

Definition Validate : M Node unit :=
  BaseValidate ;;
  size <- gets (fun n => List.length (m_children (base n))) ;;
  when_ (negb (size =? 2))
        (throw (LogicError "CrossEntropyNode criterion requires two inputs.")) ;;
  in0 <- Inputs 0 ;;
  when_ (negb (String.eqb (OperationName in0) "InputValue"))
        (throw (LogicError
           "CrossEntropyNode criterion requires the first input to be the label.")) ;;
  ResizeLearnableParameter 0 ;;
  ResizeLearnableParameter 1 ;;
  in0 <- Inputs 0 ;;
  in1 <- Inputs 1 ;;
  when_ (HasNoElements (FunctionValues in0) || HasNoElements (FunctionValues in1))
        (throw (LogicError "CrossEntropyNode operation: one of the operants has 0 element.")) ;;
  when_ (negb ((GetNumRows (FunctionValues in0) =? GetNumRows (FunctionValues in1))
               && (GetNumCols (FunctionValues in0) =? GetNumCols (FunctionValues in1))))
        (throw (LogicError
           "The Matrix dimension in the CrossEntropyNode operation does not match.")) ;;
  OnFunctionValues (Resize 1 1) ;;
  in1 <- Inputs 1 ;;
  modify (fun n => set_logOfRight
            (Resize (GetNumRows (FunctionValues in1)) (GetNumCols (FunctionValues in1))
                    (m_logOfRight n)) n) ;;
  in1 <- Inputs 1 ;;
  modify (fun n => set_leftDivRight
            (Resize (GetNumRows (FunctionValues in1)) (GetNumCols (FunctionValues in1))
                    (m_leftDivRight n)) n) ;;
  InferImageDimsFromInputs.

End Validation.

End WithScalar.

Arguments Node E : clear implicits.
End CrossEntropyNode.

(* ================================================================== *)
(** ** MatrixL1Reg and MatrixL2Reg *)
(* ================================================================== *)

Module MatrixL1RegNode.
Section WithScalar.
Context {E : Type} {SE : Scalar E}.
Local Open Scope scalar_scope.

Record Node : Type := mk {
  base : ComputationNode E;
  m_gradientOfL1Norm : Matrix E
}.

#[global] Instance node_state : NodeState E Node := {|
  get_base := base;
  set_base := fun b n => mk b (m_gradientOfL1Norm n);
  get_set_base := fun _ _ => eq_refl;
  set_set_base := fun _ _ _ => eq_refl
|}.

(** Writes [gradientOfL1Norm] and [inputGradientValues]. *)
Definition ComputeInputPartialS (gradientOfL1Norm inputGradientValues gradientValues
  inputFunctionValues : Matrix E) : Matrix E * Matrix E :=
  let gradientOfL1Norm1 := AssignSignOf inputFunctionValues gradientOfL1Norm in
  (gradientOfL1Norm1,
   AddWithScaleOf (Get00Element gradientValues) gradientOfL1Norm1 inputGradientValues).

Definition ComputeInputPartial (inputIndex : nat) : M Node unit :=
  when_ (negb (inputIndex =? 0))
        (throw (InvalidArgument "MatrixL1RegNode only has one input.")) ;;
  scratch <- gets m_gradientOfL1Norm ;;
  in0 <- Inputs 0 ;;
  g <- NodeGradientValues ;;
  modify (fun n => mk (base n)
            (fst (ComputeInputPartialS scratch (GradientValues in0) g (FunctionValues in0)))) ;;
  OnInputGradientValues 0
    (fun G => snd (ComputeInputPartialS scratch G g (FunctionValues in0))).

(** *** Forward evaluation *)

Section Forward.
(** [MatrixNorm1] is a routine of the tensor library. *)
Variable MatrixNorm1 : Matrix E -> E.

Definition EvaluateThisNodeS (functionValues inputFunctionValues : Matrix E) : Matrix E :=
  SetValueScalar (MatrixNorm1 inputFunctionValues) (Resize 1 1 functionValues).

(** The mask is applied to the value tensor of the input itself. *)
Definition EvaluateThisNode : M Node unit :=
  layout <- gets (fun n => m_pMBLayout (base n)) ;;
  OnInputFunctionValues 0 (MaskToZeroWhenLabelAndFeatureMissing layout) ;;
  in0 <- Inputs 0 ;;
  OnFunctionValues (fun fv => EvaluateThisNodeS fv (FunctionValues in0)).

End Forward.

End WithScalar.

Arguments Node E : clear implicits.
End MatrixL1RegNode.

Module MatrixL2RegNode.
Section WithScalar.
Context {E : Type} {SE : Scalar E}.
Local Open Scope scalar_scope.

Record Node : Type := mk {
  base : ComputationNode E;
  m_temp : Matrix E
}.

#[global] Instance node_state : NodeState E Node := {|
  get_base := base;
  set_base := fun b n => mk b (m_temp n);
  get_set_base := fun _ _ => eq_refl;
  set_set_base := fun _ _ _ => eq_refl
|}.

Definition ComputeInputPartialS (inputGradientValues gradientValues inputFunctionValues
  functionValues : Matrix E) : Matrix E :=
  let v := Get00Element gradientValues / (Get00Element functionValues + EPS_IN_INVERSE) in
  AddWithScaleOf v inputFunctionValues inputGradientValues.

Definition ComputeInputPartial (inputIndex : nat) : M Node unit :=
  when_ (negb (inputIndex =? 0))
        (throw (InvalidArgument "MatrixL2RegNode only has one input.")) ;;
  in0 <- Inputs 0 ;;
  g <- NodeGradientValues ;;
  fv <- NodeFunctionValues ;;
  OnInputGradientValues 0 (fun G => ComputeInputPartialS G g (FunctionValues in0) fv).

(** *** Forward evaluation *)

Section Forward.
(** [FrobeniusNorm] is a routine of the tensor library. *)
Variable FrobeniusNorm : Matrix E -> E.

Definition EvaluateThisNodeS (functionValues inputFunctionValues : Matrix E) : Matrix E :=
  SetValueScalar (FrobeniusNorm inputFunctionValues) (Resize 1 1 functionValues).

(** The mask is applied to the value tensor of the input itself. *)
Definition EvaluateThisNode : M Node unit :=
  layout <- gets (fun n => m_pMBLayout (base n)) ;;
  OnInputFunctionValues 0 (MaskToZeroWhenLabelAndFeatureMissing layout) ;;
  in0 <- Inputs 0 ;;
  OnFunctionValues (fun fv => EvaluateThisNodeS fv (FunctionValues in0)).

End Forward.

End WithScalar.

Arguments Node E : clear implicits.
End MatrixL2RegNode.

(* ================================================================== *)
(** ** DummyCriterion *)
(* ================================================================== *)

Module DummyCriterionNode.
Section WithScalar.
Context {E : Type} {SE : Scalar E}.
Local Open Scope scalar_scope.

(** The node has no members of its own. *)
Record Node : Type := mk {
  base : ComputationNode E
}.

#[global] Instance node_state : NodeState E Node := {|
  get_base := base;
  set_base := fun b _ => mk b;
  get_set_base := fun _ _ => eq_refl;
  set_set_base := fun _ _ _ => eq_refl
|}.

Definition ComputeInputPartialThree (inputFunctionValues1 inputGradientValues gradientValues
  : Matrix E) : Matrix E :=
  ScaleAndAdd (Get00Element gradientValues) inputFunctionValues1 inputGradientValues.

Definition ComputeInputPartial (inputIndex : nat) : M Node unit :=
  if 2 <? inputIndex then
    throw (InvalidArgument "DummyCriterionNode only takes three inputs.")
  else if inputIndex =? 0 then
    throw (LogicError "DummyCriterionNode: derivatives with respect to objective features are not necessary, not implemented yet.\n")
  else if inputIndex =? 1 then
    throw (LogicError "DummyCriterionNode: derivatives with respect to derivative features are not necessary, not implemented yet.\n")
  else
    in1 <- Inputs 1 ;;
    g <- NodeGradientValues ;;
    OnInputGradientValues inputIndex
      (fun G => ComputeInputPartialThree (FunctionValues in1) G g).

Definition EvaluateThisNodeS (functionValues inputFunctionValues0 : Matrix E)
  : Outcome (Matrix E) :=
  if negb (GetNumRows inputFunctionValues0 =? 1) || negb (GetNumCols inputFunctionValues0 =? 1)
  then Thrown (LogicError "DummyCriterionNode expects first input has dimension (1, 1).\n")
  else Returned (SetValueScalar (Get00Element inputFunctionValues0)
                                (Resize 1 1 functionValues)).

Definition EvaluateThisNode : M Node unit :=
  fv <- NodeFunctionValues ;;
  in0 <- Inputs 0 ;;
  match EvaluateThisNodeS fv (FunctionValues in0) with
  | Returned fv' => OnFunctionValues (fun _ => fv')
  | Thrown e => throw e
  end.

Section Validation.
(** [Base::Validate] and [InferImageDimsFromInput] are members of
    [ComputationNode], declared outside this header. *)
Variable BaseValidate : M Node unit.
Variable InferImageDimsFromInput : nat -> bool -> M Node unit.

Definition InferImageDimsFromInputs : M Node unit :=
  InferImageDimsFromInput 0 false ;;
  modify (fun n => mk (set_outputImage 1 1 1 (base n))).

Definition Validate : M Node unit :=
  BaseValidate ;;
  size <- gets (fun n => List.length (m_children (base n))) ;;
  when_ (negb (size =? 3))
        (throw (LogicError "DummyCriterionNode criterion requires three inputs.")) ;;
  in0 <- Inputs 0 ;;
  when_ (negb (String.eqb (OperationName in0) "InputValue"))
        (throw (LogicError
           "DummyCriterionNode criterion requires the first input to be computed objectives.")) ;;
  in0 <- Inputs 0 ;;
  when_ (negb (String.eqb (OperationName in0) "InputValue"))
        (throw (LogicError
           "DummyCriterionNode criterion requires the first input to be computed derivatives.")) ;;
  in0 <- Inputs 0 ;;
  when_ (negb (GetNumRows (FunctionValues in0) =? 1))
        (throw (LogicError
           "DummyCriterionNode criterion requires the first input to have dimension 1.")) ;;
  in0 <- Inputs 0 ;;
  in1 <- Inputs 1 ;;
  in2 <- Inputs 2 ;;
  when_ (HasNoElements (FunctionValues in0) || HasNoElements (FunctionValues in1)
         || HasNoElements (FunctionValues in2))
        (throw (LogicError
           "DummyCriterionNode operation: one of the operants has 0 element.")) ;;
  when_ (negb (GetNumRows (FunctionValues in1) =? GetNumRows (FunctionValues in2)))
        (throw (LogicError
           "The Matrix dimension in the DummyCriterionNode operation does not match.")) ;;
  when_ (negb (GetNumCols (FunctionValues in1) =? GetNumCols (FunctionValues in2)))
        (OnInputFunctionValues 1
           (Resize (GetNumRows (FunctionValues in1)) (GetNumCols (FunctionValues in2)))) ;;
  OnFunctionValues (Resize 1 1) ;;
  InferImageDimsFromInputs.

End Validation.

(** The derivatives input after validation: resized to the column count of
    the prediction input when the two column counts differ. *)
Definition validated_derivatives (in1 in2 : InputNode E) : InputNode E :=
  if GetNumCols (FunctionValues in1) =? GetNumCols (FunctionValues in2) then in1
  else set_FunctionValues
         (Resize (GetNumRows (FunctionValues in1)) (GetNumCols (FunctionValues in2))
                 (FunctionValues in1)) in1.

End WithScalar.

Arguments Node E : clear implicits.
End DummyCriterionNode.

(* ================================================================== *)
(** ** The numeric routines the nodes delegate to the tensor engine *)
(* ================================================================== *)

(** These routines are implemented in the tensor library, not in this
    header; the nodes only call them.  Each takes the tensors it reads and
    the tensor it writes ([this], last) and returns what it wrote. *)
Class TensorEngine (E : Type) : Type := {
  InplaceExp : Matrix E -> Matrix E;
  InplaceLogSoftmax : bool -> Matrix E -> Matrix E;
  AssignSoftmaxSum : Matrix E -> Matrix E -> Matrix E -> Matrix E;
  AssignNceUnnormalizedEval : Matrix E -> Matrix E -> Matrix E -> Matrix E -> Matrix E -> Matrix E;
  (** writes [this] and the scratch tensor [tmp] (returned in this order) *)
  AssignNoiseContrastiveEstimation :
    Matrix E -> Matrix E -> Matrix E -> Matrix E -> Matrix E -> Matrix E -> Matrix E * Matrix E;
  AssignNCEDerivative :
    Matrix E -> Matrix E -> Matrix E -> Matrix E -> nat -> Matrix E -> Matrix E;
  (** [RCRFBackwardCompute(alpha, beta, functionValues, lbls, pos_scores,
      pair_scores, shift)] writes [beta] and [functionValues]. *)
  RCRFBackwardCompute :
    Matrix E -> Matrix E -> Matrix E -> Matrix E -> Matrix E -> Matrix E -> Z ->
    Matrix E * Matrix E;
  (** [RCRFTransGrdCompute(lbls, alpha, beta, pair_scores, grd, startLbl,
      shift)] writes [grd]. *)
  RCRFTransGrdCompute :
    Matrix E -> Matrix E -> Matrix E -> Matrix E -> Matrix E -> Z -> Z -> Matrix E
}.

(* ================================================================== *)
(** ** The stream a model is saved to and loaded from *)
(* ================================================================== *)

(** Modelled from the spec: the serialization surface writes and reads a
    single enumerated value at the stream cursor.  The [File] class is not
    part of this header.  A stream is its bytes and its cursor. *)
Record File : Type := mkFile {
  contents : list Z;
  position : nat
}.

Definition GetPosition : M File nat := gets position.

Definition SetPosition (p : nat) : M File unit :=
  modify (fun f => mkFile (contents f) p).

(** Read [n] bytes at the cursor and advance it; reading past the end of the
    stream throws. *)
Definition ReadBytes (n : nat) : M File (list Z) :=
  fun f =>
    if position f + n <=? List.length (contents f)
    then (Returned (firstn n (skipn (position f) (contents f))),
          mkFile (contents f) (position f + n))
    else (Thrown (RuntimeError "error reading from file"), f).

(** Write bytes at the cursor, over what is there, and advance it. *)
Definition WriteBytes (bs : list Z) : M File unit :=
  modify (fun f =>
    mkFile (firstn (position f) (contents f) ++ bs
            ++ skipn (position f + List.length bs) (contents f))
           (position f + List.length bs)).

(** The [n] bytes under the cursor. *)
Definition bytes_at_cursor (n : nat) (f : File) : list Z :=
  firstn n (skipn (position f) (contents f)).

(* ================================================================== *)
(** ** NoiseContrastiveEstimation *)
(* ================================================================== *)

(** [enum NCEEvalMode { Softmax = 0, Unnormalized = 1, None = 2 }].  A
    member of this type is stored as its integer value, and after a load it
    can hold an integer that is none of the three. *)
Module NCEEvalMode.
Definition t : Type := Z.
Definition Softmax : t := 0%Z.
Definition Unnormalized : t := 1%Z.
Definition None : t := 2%Z.
End NCEEvalMode.

Module NoiseContrastiveEstimationNode.
Section WithScalar.
Context {E : Type} {SE : Scalar E} {TE : TensorEngine E}.
Local Open Scope scalar_scope.

Record Node : Type := mk {
  base : ComputationNode E;
  m_logSoftmax : Matrix E;
  m_softMax : Matrix E;
  m_ncePrediction : Matrix E;
  m_grdToSoftMaxInput : Matrix E;
  m_needRecomputeGradientToSoftmaxInput : bool;
  m_evalMode : NCEEvalMode.t
}.

#[global] Instance node_state : NodeState E Node := {|
  get_base := base;
  set_base := fun b n =>
    mk b (m_logSoftmax n) (m_softMax n) (m_ncePrediction n) (m_grdToSoftMaxInput n)
       (m_needRecomputeGradientToSoftmaxInput n) (m_evalMode n);
  get_set_base := fun _ _ => eq_refl;
  set_set_base := fun _ _ _ => eq_refl
|}.

Definition set_logSoftmax (m : Matrix E) (n : Node) : Node :=
  mk (base n) m (m_softMax n) (m_ncePrediction n) (m_grdToSoftMaxInput n)
     (m_needRecomputeGradientToSoftmaxInput n) (m_evalMode n).

Definition set_ncePrediction (m : Matrix E) (n : Node) : Node :=
  mk (base n) (m_logSoftmax n) (m_softMax n) m (m_grdToSoftMaxInput n)
     (m_needRecomputeGradientToSoftmaxInput n) (m_evalMode n).

Definition set_needRecompute (b : bool) (n : Node) : Node :=
  mk (base n) (m_logSoftmax n) (m_softMax n) (m_ncePrediction n) (m_grdToSoftMaxInput n)
     b (m_evalMode n).

Definition set_evalMode (v : NCEEvalMode.t) (n : Node) : Node :=
  mk (base n) (m_logSoftmax n) (m_softMax n) (m_ncePrediction n) (m_grdToSoftMaxInput n)
     (m_needRecomputeGradientToSoftmaxInput n) v.

(** *** Gradient *)

Definition ComputeInputPartial (inputIndex : nat) : M Node unit :=
  modify (set_needRecompute false) ;;
  mode <- gets m_evalMode ;;
  when_ (negb (mode =? NCEEvalMode.None)%Z)
        (throw (LogicError "ComputeInputPartial should only be called in training mode")) ;;
  when_ (inputIndex =? 0)
        (throw (InvalidArgument "ComputeInput partial should not be called for label")) ;;
  prediction <- gets m_ncePrediction ;;
  in0 <- Inputs 0 ;;
  in1 <- Inputs 1 ;;
  in2 <- Inputs 2 ;;
  OnInputGradientValues inputIndex
    (AssignNCEDerivative prediction (FunctionValues in0) (FunctionValues in1)
                         (FunctionValues in2) inputIndex).

(** *** Forward evaluation *)

(** The counters [positive] and [negative] after the loop over the label
    row. *)
Fixpoint count_cols (test : E -> bool) (lbl : Matrix E) (n : nat) : nat :=
  match n with
  | O => O
  | S n' => count_cols test lbl n' + (if test (elem lbl 0 n') then 1 else 0)
  end.

Definition count_positive (lbl : Matrix E) : nat :=
  if GetNumRows lbl =? 1 then count_cols sgt0 lbl (GetNumCols lbl) else 0.

(** [else if (... < 0) negative++]: an entry counts as negative only when
    it did not count as positive. *)
Definition count_negative (lbl : Matrix E) : nat :=
  if GetNumRows lbl =? 1
  then count_cols (fun x => negb (sgt0 x) && slt0 x) lbl (GetNumCols lbl)
  else 0.

(** The three bodies of the branch in [EvaluateThisNode]. *)
Definition EvaluateWithSoftmax : M Node unit :=
  in0 <- Inputs 0 ;;
  in1 <- Inputs 1 ;;
  in2 <- Inputs 2 ;;
  in3 <- Inputs 3 ;;
  modify (fun n => set_logSoftmax
            (AssignProductOf (FunctionValues in1) true (FunctionValues in2) false
                             (m_logSoftmax n)) n) ;;
  modify (fun n => set_logSoftmax (PlusAssign (FunctionValues in3) (m_logSoftmax n)) n) ;;
  modify (fun n => set_logSoftmax (InplaceLogSoftmax false (m_logSoftmax n)) n) ;;
  logSoftmax <- gets m_logSoftmax ;;
  OnFunctionValues (AssignSoftmaxSum (FunctionValues in0) logSoftmax).

Definition EvaluateUnnormalized : M Node unit :=
  in0 <- Inputs 0 ;;
  in1 <- Inputs 1 ;;
  in2 <- Inputs 2 ;;
  in3 <- Inputs 3 ;;
  OnFunctionValues (AssignNceUnnormalizedEval (FunctionValues in0) (FunctionValues in1)
                                              (FunctionValues in2) (FunctionValues in3)).

Definition EvaluateNCE : M Node unit :=
  in0 <- Inputs 0 ;;
  in1 <- Inputs 1 ;;
  in2 <- Inputs 2 ;;
  in3 <- Inputs 3 ;;
  prediction <- gets m_ncePrediction ;;
  fv <- NodeFunctionValues ;;
  let r := AssignNoiseContrastiveEstimation (FunctionValues in0) (FunctionValues in1)
             (FunctionValues in2) (FunctionValues in3) prediction fv in
  OnFunctionValues (fun _ => fst r) ;;
  modify (set_ncePrediction (snd r)).

(** Which of the three branches of [EvaluateThisNode] runs. *)
Inductive EvalPath : Type :=
| SoftmaxPath
| UnnormalizedPath
| NCEPath.

Section Forward.
(** Whether the build defines [NDEBUG], which compiles [assert] to
    nothing. *)
Variable NDEBUG : bool.

(** [assert(positive * negative == 0)], which sits inside the test for a
    label of one row, and then the two conditions of the branch, in the
    order the source tests them. *)
Definition selected_path (mode : NCEEvalMode.t) (lbl : Matrix E) : Outcome EvalPath :=
  let oneRow := GetNumRows lbl =? 1 in
  let positive := count_positive lbl in
  let negative := count_negative lbl in
  if negb NDEBUG && oneRow && negb (positive * negative =? 0)
  then Thrown (AssertionFailed "positive * negative == 0")
  else if (mode =? NCEEvalMode.Softmax)%Z || (oneRow && (0 <? positive))
  then Returned SoftmaxPath
  else if (mode =? NCEEvalMode.Unnormalized)%Z || (oneRow && (0 <? negative))
  then Returned UnnormalizedPath
  else Returned NCEPath.




Definition EvaluateThisNode : M Node unit :=
  lbl <- Inputs 0 ;;
  mode <- gets m_evalMode ;;
  match selected_path mode (FunctionValues lbl) with
  | Thrown e => throw e
  | Returned SoftmaxPath => EvaluateWithSoftmax
  | Returned UnnormalizedPath => EvaluateUnnormalized
  | Returned NCEPath => EvaluateNCE
  end ;;
  modify (set_needRecompute true).

End Forward.

(** *** Persisting the evaluation mode *)

Section Persistence.
(** How a value of the enumeration is laid out in the stream:
    [sizeof_evalMode] bytes. *)
Variable sizeof_evalMode : nat.
Variable encode : Z -> list Z.
Variable decode : list Z -> Z.

(** [Base::SaveToFile] and [Base::LoadFromFile], defined with
    [ComputationNode]. *)
Variable BaseSaveToFile : Node -> M File unit.
Variable BaseLoadFromFile : nat -> M (Node * File) unit.

(** A stream operation, run on the stream of a (node, stream) pair. *)
Definition on_stream {A : Type} (c : M File A) : M (Node * File) A :=
  fun nf => let (o, f') := c (snd nf) in (o, (fst nf, f')).

Definition on_node (f : Node -> Node) : M (Node * File) unit :=
  modify (fun nf => (f (fst nf), snd nf)).

(** [fstream << m_evalMode]. *)
Definition SaveToFile (n : Node) : M File unit :=
  BaseSaveToFile n ;;
  WriteBytes (encode (m_evalMode n)).

(** [fstream >> m_evalMode], then the clamp. *)
Definition LoadFromFile (modelVersion : nat) : M (Node * File) unit :=
  BaseLoadFromFile modelVersion ;;
  bytes <- on_stream (ReadBytes sizeof_evalMode) ;;
  on_node (set_evalMode (decode bytes)) ;;
  mode <- gets (fun nf => m_evalMode (fst nf)) ;;
  when_ (NCEEvalMode.None <? mode)%Z
        (on_node (set_evalMode NCEEvalMode.None) ;;
         pos <- on_stream GetPosition ;;
         on_stream (SetPosition (pos - sizeof_evalMode))).

End Persistence.

End WithScalar.

Arguments Node E : clear implicits.
End NoiseContrastiveEstimationNode.

(* ================================================================== *)
(** ** ClassBasedCrossEntropyWithSoftmax *)
(* ================================================================== *)

(** [size_t] arithmetic wraps around at [2^64]. *)
Definition size_t_add (a b : N) : N := ((a + b) mod 2 ^ 64)%N.

Definition size_t_sub (a b : N) : N := Z.to_N ((Z.of_N a - Z.of_N b) mod 2 ^ 64).

Module ClassBasedCrossEntropyWithSoftmaxNode.
Section WithScalar.
Context {E : Type} {SE : Scalar E}.
Local Open Scope scalar_scope.

Record Node : Type := mk {
  base : ComputationNode E;
  m_logSoftmax : Matrix E;
  m_softMax : Matrix E;
  m_clsLogSoftmax : Matrix E;
  m_clsSoftmax : Matrix E;
  m_grdToSoftMaxInput : Matrix E;
  m_needRecomputeGradientToSoftmaxInput : bool;
  m_nbrCls : nat;
  m_totalNbrWords : N
}.

#[global] Instance node_state : NodeState E Node := {|
  get_base := base;
  set_base := fun b n =>
    mk b (m_logSoftmax n) (m_softMax n) (m_clsLogSoftmax n) (m_clsSoftmax n)
       (m_grdToSoftMaxInput n) (m_needRecomputeGradientToSoftmaxInput n)
       (m_nbrCls n) (m_totalNbrWords n);
  get_set_base := fun _ _ => eq_refl;
  set_set_base := fun _ _ _ => eq_refl
|}.

Definition set_logSoftmax (m : Matrix E) (n : Node) : Node :=
  mk (base n) m (m_softMax n) (m_clsLogSoftmax n) (m_clsSoftmax n)
     (m_grdToSoftMaxInput n) (m_needRecomputeGradientToSoftmaxInput n)
     (m_nbrCls n) (m_totalNbrWords n).

Definition set_softMax (m : Matrix E) (n : Node) : Node :=
  mk (base n) (m_logSoftmax n) m (m_clsLogSoftmax n) (m_clsSoftmax n)
     (m_grdToSoftMaxInput n) (m_needRecomputeGradientToSoftmaxInput n)
     (m_nbrCls n) (m_totalNbrWords n).

Definition set_clsLogSoftmax (m : Matrix E) (n : Node) : Node :=
  mk (base n) (m_logSoftmax n) (m_softMax n) m (m_clsSoftmax n)
     (m_grdToSoftMaxInput n) (m_needRecomputeGradientToSoftmaxInput n)
     (m_nbrCls n) (m_totalNbrWords n).

Definition set_clsSoftmax (m : Matrix E) (n : Node) : Node :=
  mk (base n) (m_logSoftmax n) (m_softMax n) (m_clsLogSoftmax n) m
     (m_grdToSoftMaxInput n) (m_needRecomputeGradientToSoftmaxInput n)
     (m_nbrCls n) (m_totalNbrWords n).

Definition set_grdToSoftMaxInput (m : Matrix E) (n : Node) : Node :=
  mk (base n) (m_logSoftmax n) (m_softMax n) (m_clsLogSoftmax n) (m_clsSoftmax n)
     m (m_needRecomputeGradientToSoftmaxInput n)
     (m_nbrCls n) (m_totalNbrWords n).

Definition set_needRecompute (b : bool) (n : Node) : Node :=
  mk (base n) (m_logSoftmax n) (m_softMax n) (m_clsLogSoftmax n) (m_clsSoftmax n)
     (m_grdToSoftMaxInput n) b (m_nbrCls n) (m_totalNbrWords n).

Definition set_totalNbrWords (w : N) (n : Node) : Node :=
  mk (base n) (m_logSoftmax n) (m_softMax n) (m_clsLogSoftmax n) (m_clsSoftmax n)
     (m_grdToSoftMaxInput n) (m_needRecomputeGradientToSoftmaxInput n)
     (m_nbrCls n) w.

(** The four rows of label column [t]: word index, class index, first word
    of the class, first word of the next class. *)
Definition y_of (lbls : Matrix E) (t : nat) : N := to_size_t (elem (ColumnSlice t 1 lbls) 0 0).
Definition c_of (lbls : Matrix E) (t : nat) : N := to_size_t (elem (ColumnSlice t 1 lbls) 1 0).
Definition lft_bnd_of (lbls : Matrix E) (t : nat) : N :=
  to_size_t (elem (ColumnSlice t 1 lbls) 2 0).
Definition rgt_bnd_of (lbls : Matrix E) (t : nat) : N :=
  to_size_t (elem (ColumnSlice t 1 lbls) 3 0).
Definition nbr_wrd_of (lbls : Matrix E) (t : nat) : N :=
  size_t_sub (rgt_bnd_of lbls t) (lft_bnd_of lbls t).

(** The class range of column [t] is empty. *)
Definition empty_class (lbls : Matrix E) (t : nat) : Prop :=
  rgt_bnd_of lbls t = lft_bnd_of lbls t.

(** *** Gradient *)

Definition ComputeInputPartialRight (inputFunctionValues inputGradientValues gradientValues
  : Matrix E) : Matrix E :=
  MultiplyAndAdd inputFunctionValues false gradientValues true inputGradientValues.

Definition ComputeInputPartialLeft (obs inputGradientValues gradientValues : Matrix E)
  : Matrix E :=
  MultiplyAndAdd obs false gradientValues false inputGradientValues.

Definition ComputeCEPartialToSoftmaxInputs (inputGradientValues gradientValues : Matrix E)
  (y_t : N) : Matrix E :=
  Scale gradientValues (MinusOneAt (N.to_nat y_t) inputGradientValues).

(** One iteration of the loop over time in [ComputeSoftMaxPartial]; [sz] is
    the running offset into the per-word tensors. *)
Definition ComputeSoftMaxPartial_step (t : nat) (sz : N) : M Node N :=
  lbl <- InputFunctionValues 0 ;;
  let lbl_t := FrameSlice t 1 lbl in
  let y_t := to_size_t (elem lbl_t 0 0) in
  let lft_bnd := to_size_t (elem lbl_t 2 0) in
  let rgt_bnd := to_size_t (elem lbl_t 3 0) in
  let nbr_wrd := size_t_sub rgt_bnd lft_bnd in
  if (nbr_wrd =? 0)%N then
    if (y_t =? 0)%N then ret sz
    else throw (LogicError "ClassbasedCrossEntropyWithSoftmax::ComputeSoftMaxPartial label provided but the size of its class is zero. Should never happen. Probably misuse of ClassbasedCrossEntropyWithSoftmax.")
  else
    g <- NodeGradientValues ;;
    modify (fun n => set_softMax
              (OnColumnSlice (N.to_nat sz) (N.to_nat nbr_wrd)
                 (fun softMax => ComputeCEPartialToSoftmaxInputs softMax g
                                   (size_t_sub y_t lft_bnd))
                 (m_softMax n)) n) ;;
    modify (fun n => set_grdToSoftMaxInput
              (OnColumnSlice (N.to_nat sz) (N.to_nat nbr_wrd)
                 (SetValue (ColumnSlice (N.to_nat sz) (N.to_nat nbr_wrd) (m_softMax n)))
                 (m_grdToSoftMaxInput n)) n) ;;
    ret (size_t_add sz nbr_wrd).

Definition ComputeSoftMaxPartial : M Node unit :=
  stale <- gets m_needRecomputeGradientToSoftmaxInput ;;
  when_ stale
    (modify (fun n => set_grdToSoftMaxInput
               (Resize 1 (N.to_nat (m_totalNbrWords n)) (m_grdToSoftMaxInput n)) n) ;;
     in1 <- InputFunctionValues 1 ;;
     for_acc 0 (GetNumCols in1) ComputeSoftMaxPartial_step 0%N ;;
     modify (set_needRecompute false)).

(** One iteration of the loop over time in [ComputeInputPartial]. *)
Definition ComputeInputPartial_step (inputIndex : nat) (t : nat) (sz : N) : M Node N :=
  lbl <- InputFunctionValues 0 ;;
  let lbl_t := FrameSlice t 1 lbl in
  let c_t := to_size_t (elem lbl_t 1 0) in
  let lft_bnd := to_size_t (elem lbl_t 2 0) in
  let rgt_bnd := to_size_t (elem lbl_t 3 0) in
  let nbr_wrd := size_t_sub rgt_bnd lft_bnd in
  if (nbr_wrd =? 0)%N then ret sz
  else
    in2 <- InputFunctionValues 2 ;;
    let input_weight_t := ColumnSlice (N.to_nat lft_bnd) (N.to_nat nbr_wrd) in2 in
    in1 <- InputFunctionValues 1 ;;
    let obs := FrameSlice t 1 in1 in
    grd <- gets m_grdToSoftMaxInput ;;
    let grd_to_soft_max_input := ColumnSlice (N.to_nat sz) (N.to_nat nbr_wrd) grd in
    (match inputIndex with
     | 1 =>
         OnInputGradientValues 1
           (OnColumnSlice t 1
              (fun grd_t => ComputeInputPartialRight input_weight_t grd_t grd_to_soft_max_input))
     | 2 =>
         OnInputGradientValues 2
           (OnColumnSlice (N.to_nat lft_bnd) (N.to_nat nbr_wrd)
              (fun grd_to_wgt_t => ComputeInputPartialLeft obs grd_to_wgt_t grd_to_soft_max_input))
     | 3 =>
         clsSoftmax <- gets m_clsSoftmax ;;
         g <- NodeGradientValues ;;
         OnInputGradientValues 3
           (OnColumnSlice t 1
              (fun grd_t => ComputeCEPartialToSoftmaxInputs
                              (SetValue (FrameSlice t 1 clsSoftmax) grd_t) g c_t))
     | _ =>
         throw (RuntimeError "ClassCrossEntropyWithSoftmaxNode criterion only takes with respect to input, weight to the input and class log posterior probability.")
     end) ;;
    ret (size_t_add sz nbr_wrd).

Definition ComputeInputPartial (inputIndex : nat) : M Node unit :=
  when_ (negb (inputIndex =? 1) && negb (inputIndex =? 2) && negb (inputIndex =? 3))
        (throw (InvalidArgument "ClassCrossEntropyWithSoftmaxNode criterion only takes with respect to input, weight to the input and class log posterior probability.")) ;;
  lbl <- InputFunctionValues 0 ;;
  let nT := GetNumCols lbl in
  ComputeSoftMaxPartial ;;
  for_acc 0 nT (ComputeInputPartial_step inputIndex) 0%N ;;
  ret tt.

(** The offset [sz] after the iteration for column [t]; the loops of
    [ComputeSoftMaxPartial] and [ComputeInputPartial] advance it alike. *)
Definition next_offset (lbls : Matrix E) (t : nat) (sz : N) : N :=
  if (nbr_wrd_of lbls t =? 0)%N then sz else size_t_add sz (nbr_wrd_of lbls t).

(** What the iteration for column [t] of [ComputeInputPartial] adds to
    element [(r, k)] of the gradient of input 1 (the observations: column
    [t] receives the class's weights times the softmax gradient of the
    class's words) and of input 2 (the weights: the columns of the class
    receive the observation of column [t] times that gradient). *)
Definition step_contribution (inputIndex : nat) (lbls in1 in2 grd : Matrix E)
  (t : nat) (sz : N) (r k : nat) : E :=
  let lft := N.to_nat (lft_bnd_of lbls t) in
  let nbr := N.to_nat (nbr_wrd_of lbls t) in
  if (nbr_wrd_of lbls t =? 0)%N then s0
  else
    match inputIndex with
    | 1 =>
        if k =? t
        then sum_upto nbr (fun j => elem in2 r (lft + j) * elem grd 0 (N.to_nat sz + j))
        else s0
    | 2 =>
        if (lft <=? k) && (k <? lft + nbr)
        then elem in1 r t * elem grd 0 (N.to_nat sz + (k - lft))
        else s0
    | _ => s0
    end.

(** The sum of these over the columns from [start] on, in loop order. *)
Fixpoint contribution_from (inputIndex : nat) (lbls in1 in2 grd : Matrix E)
  (start count : nat) (sz : N) (r k : nat) : E :=
  match count with
  | O => s0
  | S n =>
      step_contribution inputIndex lbls in1 in2 grd start sz r k
      + contribution_from inputIndex lbls in1 in2 grd (S start) n
                          (next_offset lbls start sz) r k
  end.

(** What a gradient request for input 3 (the class posteriors) leaves in
    element [(r, k)] of that input's gradient tensor [G]: a column of the
    minibatch that has a class is set to [g] times the class softmax minus
    the indicator of the true class; the other columns are kept. *)
Definition class_gradient_after (lbls clsSoftmax g G : Matrix E) (start count r k : nat)
  : E :=
  if (start <=? k) && (k <? start + count) && negb (nbr_wrd_of lbls k =? 0)%N
  then Get00Element g
       * (if (r =? N.to_nat (c_of lbls k)) && (r <? GetNumRows clsSoftmax)
          then elem clsSoftmax r k - s1
          else elem clsSoftmax r k)
  else elem G r k.

(** *** Forward evaluation *)

(** The node's own [MaskToZeroWhenLabelAndFeatureMissing(matrixToBeMasked, t)]:
    column [t] of the tensor it is given is set to zero when the layout
    flags parallel sequence [t mod nS] at time [t / nS] as carrying no
    label; the result tells whether it did so. *)
Definition MaskToZeroWhenLabelAndFeatureMissing_t (layout : option MBLayout)
  (matrixToBeMasked : Matrix E) (t : nat) : bool * Matrix E :=
  match layout with
  | Some L =>
      if negb (IsAllNone L) then
        let nS := LayoutNumParallelSequences L in
        let j := (t / nS)%nat in
        let i := (t mod nS)%nat in
        if Is L j NoLabel then
          if IsAt L i j NoLabel
          then (true, OnColumnSlice t 1 (SetValueScalar s0) matrixToBeMasked)
          else (false, matrixToBeMasked)
        else (false, matrixToBeMasked)
      else (false, matrixToBeMasked)
  | None => (false, matrixToBeMasked)
  end.

(** [totalWords] after the first loop of [EvaluateThisNodeS]. *)
Fixpoint total_words (lbls : Matrix E) (n : nat) : N :=
  match n with
  | O => 0%N
  | S n' => size_t_add (total_words lbls n') (nbr_wrd_of lbls n')
  end.

(** The class sizes of the first [n] columns added up as numbers, without
    the wrap-around of [size_t]. *)
Fixpoint words_before (lbls : Matrix E) (n : nat) : N :=
  match n with
  | O => 0%N
  | S n' => (words_before lbls n' + nbr_wrd_of lbls n')%N
  end.

(** The test of [MaskToZeroWhenLabelAndFeatureMissing(matrixToBeMasked, t)]:
    there is a layout, it is not all-none, and it flags parallel sequence
    [t mod nS] at time [t / nS] as carrying no label. *)
Definition column_has_no_label (layout : option MBLayout) (t : nat) : bool :=
  match layout with
  | Some L =>
      negb (IsAllNone L)
      && Is L (t / LayoutNumParallelSequences L) NoLabel
      && IsAt L (t mod LayoutNumParallelSequences L) (t / LayoutNumParallelSequences L) NoLabel
  | None => false
  end.

(** [AddElementToElement(a, ai, aj, functionValues, 0, 0)]. *)
Definition AddToFunctionValues (a : Matrix E) (ai aj : nat) : M Node unit :=
  fv <- NodeFunctionValues ;;
  match AddElementToElement a ai aj fv 0 0 with
  | Returned fv' => OnFunctionValues (fun _ => fv')
  | Thrown e => throw e
  end.

Section Forward.
Context {TE : TensorEngine E}.
Variable CPUDEVICE : DEVICEID_TYPE.

(** One iteration of the loop over time in [EvaluateThisNodeS]. *)
Definition EvaluateThisNodeS_step (lbls inputs input_weight : Matrix E) (t : nat) (sz : N)
  : M Node N :=
  let lblInfo := ColumnSlice t 1 lbls in
  let y_t := to_size_t (elem lblInfo 0 0) in
  let c_t := to_size_t (elem lblInfo 1 0) in
  let lft_bnd := to_size_t (elem lblInfo 2 0) in
  let rgt_bnd := to_size_t (elem lblInfo 3 0) in
  let nbr_wrd := size_t_sub rgt_bnd lft_bnd in
  if (nbr_wrd =? 0)%N then
    if (y_t =? 0)%N then ret sz
    else throw (LogicError "ClassbasedCrossEntropyWithSoftmax::EvaluateThisNodeS label provided but the size of its class is zero. Should never happen. Probably misuse of ClassbasedCrossEntropyWithSoftmax.")
  else
    let weightForClass := ColumnSlice (N.to_nat lft_bnd) (N.to_nat nbr_wrd) input_weight in
    let at_sz := OnColumnSlice (N.to_nat sz) (N.to_nat nbr_wrd) in
    layout <- gets (fun n => m_pMBLayout (base n)) ;;
    logSoftmax <- gets m_logSoftmax ;;
    let masked :=
      MaskToZeroWhenLabelAndFeatureMissing_t layout
        (ColumnSlice (N.to_nat sz) (N.to_nat nbr_wrd) logSoftmax) t in
    modify (set_logSoftmax
              (PutColumnSlice (N.to_nat sz) (N.to_nat nbr_wrd) (snd masked) logSoftmax)) ;;
    when_ (negb (fst masked))
      (let obs := Reshape 1 (GetNumRows inputs) (ColumnSlice t 1 inputs) in
       modify (fun n => set_logSoftmax
                 (at_sz (AssignProductOf obs false weightForClass false) (m_logSoftmax n)) n) ;;
       modify (fun n => set_logSoftmax
                 (at_sz (InplaceLogSoftmax false) (m_logSoftmax n)) n) ;;
       modify (fun n => set_softMax
                 (at_sz (SetValue (ColumnSlice (N.to_nat sz) (N.to_nat nbr_wrd)
                                               (m_logSoftmax n)))
                        (m_softMax n)) n) ;;
       modify (fun n => set_softMax (at_sz InplaceExp (m_softMax n)) n) ;;
       when_ (y_t <? lft_bnd)%N
         (throw (LogicError "ClassBasedCrossEntropyWithSoftmax::EvaluateThisNodeS : the word index is smaller than its left bound of its class. This could happen because of reader issues. ")) ;;
       let idx_in_class := size_t_sub y_t lft_bnd in
       logSoftmax' <- gets m_logSoftmax ;;
       AddToFunctionValues (ColumnSlice (N.to_nat sz) (N.to_nat nbr_wrd) logSoftmax')
                           0 (N.to_nat idx_in_class)) ;;
    clsLogSoftmax <- gets m_clsLogSoftmax ;;
    let masked_cls := MaskToZeroWhenLabelAndFeatureMissing_t layout clsLogSoftmax t in
    modify (set_clsLogSoftmax (snd masked_cls)) ;;
    when_ (negb (fst masked_cls))
      (AddToFunctionValues (snd masked_cls) (N.to_nat c_t) t) ;;
    ret (size_t_add sz nbr_wrd).

(** The static helper is called with the node's own tensors for its
    output parameters ([functionValues], [logSoftmax], [softMax],
    [clsLogSoftmax], [clsSoftmax], [totalWords]) and with the node
    itself as [curNode]; it is modelled on the node. *)
Definition EvaluateThisNodeS (lbls inputs input_weight input_cls_log_post_prob : Matrix E)
  : M Node unit :=
  let nT := GetNumCols lbls in
  let totalWords := total_words lbls (GetNumCols lbls) in
  modify (set_totalNbrWords totalWords) ;;
  let sz := N.to_nat totalWords in
  modify (fun n => set_softMax (Resize 1 sz (m_softMax n)) n) ;;
  modify (fun n => set_logSoftmax (Resize 1 sz (m_logSoftmax n)) n) ;;
  modify (fun n => set_clsLogSoftmax
            (Resize (GetNumRows input_cls_log_post_prob) nT (m_clsLogSoftmax n)) n) ;;
  modify (fun n => set_clsSoftmax
            (Resize (GetNumRows input_cls_log_post_prob) nT (m_clsSoftmax n)) n) ;;
  modify (fun n => set_clsLogSoftmax (SetValue input_cls_log_post_prob (m_clsLogSoftmax n)) n) ;;
  modify (fun n => set_clsLogSoftmax (InplaceLogSoftmax true (m_clsLogSoftmax n)) n) ;;
  modify (fun n => set_clsSoftmax
            (InplaceExp (SetValue (m_clsLogSoftmax n) (m_clsSoftmax n))) n) ;;
  OnFunctionValues (SetValueScalar s0) ;;
  for_acc 0 (GetNumCols lbls) (EvaluateThisNodeS_step lbls inputs input_weight) 0%N ;;
  OnFunctionValues (ScaleBy (- s1)).

Definition EvaluateThisNode : M Node unit :=
  lbl <- Inputs 0 ;;
  when_ (negb (GetDeviceId (FunctionValues lbl) =? CPUDEVICE)%Z)
    (throw (LogicError "ClassBasedCrossEntropyWithSoftmax: evaluatethisnode. the label matrix is not using CPU device. This will make computation slow, even though the label data is probably saved on GPU. Because of the external loop over time with explicit class id retrieved from the label matrix, the computation will be very slow if the label matrix is saved on GPU. However, this is only a constraint for label matrix and other matrices such as data are suggested to reside on GPU. ")) ;;
  in0 <- Inputs 0 ;;
  in1 <- Inputs 1 ;;
  in2 <- Inputs 2 ;;
  in3 <- Inputs 3 ;;
  EvaluateThisNodeS (FunctionValues in0) (FunctionValues in1) (FunctionValues in2)
                    (FunctionValues in3) ;;
  modify (set_needRecompute true).

End Forward.

End WithScalar.

Arguments Node E : clear implicits.
End ClassBasedCrossEntropyWithSoftmaxNode.

(* ================================================================== *)
(** ** CRF *)
(* ================================================================== *)

(* ================================================================== *)
(** ** References to matrices in CUDA memory ([cudabasetypes.h]) *)
(* ================================================================== *)

Module cuda.

Definition size_t_mul (a b : N) : N := ((a * b) mod 2 ^ 64)%N.

Section WithElements.
Variable T : Type.

(** The memory of the device as a [cuda_ptr<T>] sees it: the element at
    each address, addresses counted in elements of [T]. *)
Definition memory : Type := N -> T.

Record matrixref : Type := mk_matrixref {
  p : N;
  numrows : N;
  numcols : N;
  colstride : N
}.

(** [return j * colstride + i;] in [size_t]. *)
Definition locate (m : matrixref) (i j : N) : N :=
  size_t_add (size_t_mul j (colstride m)) i.

Definition rows (m : matrixref) : N := numrows m.
Definition cols (m : matrixref) : N := numcols m.
Definition getcolstride (m : matrixref) : N := colstride m.

(** [reshape]: the assertion that the number of elements stays the same
    fails ([None]) or the two dimensions are replaced; the pointer and the
    column stride stay. *)
Definition reshape (newrows newcols : N) (m : matrixref) : option matrixref :=
  if (size_t_mul (rows m) (cols m) =? size_t_mul newrows newcols)%N
  then Some (mk_matrixref (p m) newrows newcols (colstride m))
  else None.

(** [m(i, j)] read, and [m(i, j) = v]: [p[locate(i, j)]]. *)
Definition get (m : matrixref) (mem : memory) (i j : N) : T :=
  mem (p m + locate m i j)%N.

Definition put (m : matrixref) (mem : memory) (i j : N) (v : T) : memory :=
  fun a => if (a =? p m + locate m i j)%N then v else mem a.

End WithElements.

End cuda.

(** The value of an [int] initialised from a [size_t]: it wraps around to
    the signed 32-bit range. *)
Definition int_of_size_t (n : nat) : Z :=
  ((Z.of_nat n + 2 ^ 31) mod 2 ^ 32 - 2 ^ 31)%Z.

Module CRFNode.
Section WithScalar.
Context {E : Type} {SE : Scalar E} {LS : LogScalar E} {TE : TensorEngine E}.
Local Open Scope scalar_scope.

Record Node : Type := mk {
  base : ComputationNode E;
  mAlpha : Matrix E;
  mBeta : Matrix E;
  mPostProb : Matrix E;
  mStartLbl : Z;
  mEndLbl : Z
}.

#[global] Instance node_state : NodeState E Node := {|
  get_base := base;
  set_base := fun b n => mk b (mAlpha n) (mBeta n) (mPostProb n) (mStartLbl n) (mEndLbl n);
  get_set_base := fun _ _ => eq_refl;
  set_set_base := fun _ _ _ => eq_refl
|}.

(** [for (int ik = 0; ik < lbls.GetNumRows(); ik++) if (lbls(ik, col) != 0)
    { lbl = ik; break; }] with [lbl] initialised to [-1]. *)
Fixpoint find_label_from (lbls : Matrix E) (col ik count : nat) : Z :=
  match count with
  | O => (-1)%Z
  | S c => if snonzero (elem lbls ik col) then Z.of_nat ik
           else find_label_from lbls col (S ik) c
  end.

Definition find_label (lbls : Matrix E) (col : nat) : Z :=
  find_label_from lbls col 0 (GetNumRows lbls).

(** [fTmp = LZERO; for (j = 0; j < n; j++) fTmp = LogAdd(fTmp, f j)]: the
    log-sum-exp of [f 0 .. f (n-1)]. *)
Fixpoint logAddOver (n : nat) (f : nat -> E) : E :=
  match n with
  | O => LZERO
  | S n' => LogAdd (logAddOver n' f) (f n')
  end.

(** Modelled from the spec: [LogAddSumOfElements] of a column, the
    log-sum-exp of its elements. *)
Definition LogAddSumOfElements (a : Matrix E) : E :=
  logAddOver (GetNumRows a) (fun k => elem a k 0).

(** A pure loop [for (i = start; i < start + count; i++) a = f i a]. *)
Fixpoint iterate {A : Type} (start count : nat) (f : nat -> A -> A) (a : A) : A :=
  match count with
  | O => a
  | S c => iterate (S start) c f (f start a)
  end.

(** The value [fAlpha] of the innermost loop. *)
Definition fAlpha_at (alpha : Matrix E) (firstLbl : Z) (t j : nat) : E :=
  if 0 <? t then elem alpha j (t - 1)
  else if (Z.of_nat j =? firstLbl)%Z then s0 else LZERO.

(** The body of the loop over [k]: [alpha(k, t) = fTmp]. *)
Definition ForwardCompute_cell (iNumLab : nat) (firstLbl : Z)
  (pos_scores pair_scores : Matrix E) (t k : nat) (alpha : Matrix E) : Matrix E :=
  let fTmp := logAddOver iNumLab (fun j => fAlpha_at alpha firstLbl t j + elem pair_scores k j) in
  SetElem k t (fTmp + elem pos_scores k t) alpha.

Definition ForwardCompute (alpha lbls pos_scores pair_scores : Matrix E) : Matrix E :=
  let iNumPos := int_of_size_t (GetNumCols lbls) in
  let iNumLab := int_of_size_t (GetNumRows lbls) in
  let firstLbl := find_label lbls 0 in
  let alpha0 := Resize (Z.to_nat iNumLab) (Z.to_nat iNumPos) alpha in
  iterate 0 (Z.to_nat iNumPos)
    (fun t => iterate 0 (Z.to_nat iNumLab)
                (ForwardCompute_cell (Z.to_nat iNumLab) firstLbl pos_scores pair_scores t))
    alpha0.

(** What the loops of [ForwardCompute] store in cell [(k, t)], read off a
    tensor [A] that already holds column [t - 1]. *)
Definition cell_value (lbls pos_scores pair_scores A : Matrix E) (t k : nat) : E :=
  logAddOver (GetNumRows lbls)
    (fun j => fAlpha_at A (find_label lbls 0) t j + elem pair_scores k j)
  + elem pos_scores k t.

(** Every cell before [(k, t)], in the order of the loops, holds its
    value. *)
Definition filled_before (lbls pos_scores pair_scores A : Matrix E) (t k : nat) : Prop :=
  forall t' k', k' < GetNumRows lbls -> t' < t \/ (t' = t /\ k' < k) ->
                elem A k' t' = cell_value lbls pos_scores pair_scores A t' k'.

(** Writes [beta] and [functionValues]. *)
Definition BackwardCompute (alpha beta functionValues lbls pos_scores pair_scores : Matrix E)
  (shift : Z) : Matrix E * Matrix E :=
  RCRFBackwardCompute alpha beta functionValues lbls pos_scores pair_scores shift.

Definition TransGrdCompute (lbls alpha beta pair_scores grd : Matrix E) (startLbl shift : Z)
  : Matrix E :=
  RCRFTransGrdCompute lbls alpha beta pair_scores grd startLbl shift.

Definition PostProbCompute (postprob alpha beta : Matrix E) : Matrix E :=
  let iNumPos := int_of_size_t (GetNumCols alpha) in
  let iNumLab := int_of_size_t (GetNumRows alpha) in
  InplaceExp (SetValue beta (Resize (Z.to_nat iNumLab) (Z.to_nat iNumPos) postprob)).

(** [pair_scores(j, i)] with the two labels as [int] indices.  A column
    in which no label was found has the label [-1], and the source reads
    the tensor at it all the same: that read is outside the tensor. *)
Definition pair_score_at (pair_scores : Matrix E) (j i : Z) : option E :=
  if (j <? 0)%Z || (i <? 0)%Z then None
  else Some (elem pair_scores (Z.to_nat j) (Z.to_nat i)).

(** The transition score of the labelled path: the loop over [t] that adds
    [pair_scores(j, i)] for the label [i] at [t] and the label [j] at
    [t + 1].  [None] once a read was outside the tensor. *)
Definition transition_score (lbls pair_scores : Matrix E) (nObs : Z) : option E :=
  iterate 0 (Z.to_nat (nObs - 1))
    (fun t tscore =>
       let i := find_label lbls t in
       let j := find_label lbls (t + 1) in
       match tscore, pair_score_at pair_scores j i with
       | Some ts, Some p => Some (ts + p)
       | _, _ => None
       end)
    (Some s0).

(** What [EvaluateThisNodeS] leaves in its output parameters, and whether
    it has returned. *)
Record Evaluated : Type := mkEvaluated {
  out_outcome : Outcome unit;
  out_postprob : Matrix E;
  out_alpha : Matrix E;
  out_beta : Matrix E;
  out_functionValues : Matrix E;
  out_firstLbl : Z;
  out_lastLbl : Z
}.

(** [nObs - 1] is the column of the last label and of the last column of
    [alpha]; without a column it is [-1], outside both tensors.  The
    output parameters then hold what was written before the read. *)
Definition EvaluateThisNodeS (postprob alpha beta functionValues lbls pos_scores pair_scores
  : Matrix E) (iStep : Z) : Evaluated :=
  let nObs := int_of_size_t (GetNumCols lbls) in
  let alpha1 := ForwardCompute alpha lbls pos_scores pair_scores in
  let bf := BackwardCompute alpha1 beta functionValues lbls pos_scores pair_scores iStep in
  let postprob1 := PostProbCompute postprob alpha1 (fst bf) in
  let firstLbl := find_label lbls 0 in
  if (nObs - 1 <? 0)%Z then
    mkEvaluated (Thrown (OutOfRange "nObs - 1")) postprob1 alpha1 (fst bf) (snd bf) firstLbl (-1)
  else
  let lastLbl := find_label lbls (Z.to_nat (nObs - 1)) in
  let fv1 := AssignInnerProductOfMatrices lbls pos_scores (snd bf) in
  let a := ColumnSlice (Z.to_nat (nObs - 1)) 1 alpha1 in
  let fAlpha := LogAddSumOfElements a in
  match transition_score lbls pair_scores nObs with
  | None =>
      mkEvaluated (Thrown (OutOfRange "pair_scores")) postprob1 alpha1 (fst bf) fv1
                  firstLbl lastLbl
  | Some tscore =>
      let tscore1 := tscore + Get00Element fv1 in
      let tscore2 := tscore1 - fAlpha in
      let fv2 := SetValueScalar tscore2 fv1 in
      mkEvaluated (Returned tt) postprob1 alpha1 (fst bf) (ScaleBy (- s1) fv2)
                  firstLbl lastLbl
  end.

(** Modelled from the spec: [GetNumParallelSequences()], the number of
    parallel sequences of the batch, read from the layout. *)
Definition GetNumParallelSequences : M Node nat :=
  fun n =>
    match m_pMBLayout (base n) with
    | Some L => (Returned (LayoutNumParallelSequences L), n)
    | None => (Thrown (OutOfRange "m_pMBLayout"), n)
    end.

(** One iteration of the loop over the parallel sequences; [funcVal] is
    the local copy that every call of [EvaluateThisNodeS] overwrites.  The
    slices are views of the members, and the two labels are references to
    them: what [EvaluateThisNodeS] wrote is in the node also when it did
    not return. *)
Definition EvaluateThisNode_step (nstep : nat) (i : nat) (funcVal : Matrix E)
  : M Node (Matrix E) :=
  lbl <- InputFunctionValues 0 ;;
  pos <- InputFunctionValues 1 ;;
  pair <- InputFunctionValues 2 ;;
  n <- gets (fun n => n) ;;
  let at_i := ColumnSlice (i * nstep) nstep in
  let r := EvaluateThisNodeS (at_i (mPostProb n)) (at_i (mAlpha n)) (at_i (mBeta n)) funcVal
                             (at_i lbl) (at_i pos) pair 1 in
  modify (fun n =>
    mk (base n)
       (PutColumnSlice (i * nstep) nstep (out_alpha r) (mAlpha n))
       (PutColumnSlice (i * nstep) nstep (out_beta r) (mBeta n))
       (PutColumnSlice (i * nstep) nstep (out_postprob r) (mPostProb n))
       (out_firstLbl r) (out_lastLbl r)) ;;
  match out_outcome r with
  | Thrown e => throw e
  | Returned _ =>
      OnFunctionValues (PlusAssign (out_functionValues r)) ;;
      ret (out_functionValues r)
  end.

Definition EvaluateThisNode : M Node unit :=
  lbl <- InputFunctionValues 0 ;;
  let nrow := GetNumRows lbl in
  let ncol := GetNumCols lbl in
  modify (fun n => mk (base n) (Resize nrow ncol (mAlpha n)) (Resize nrow ncol (mBeta n))
                      (Resize nrow ncol (mPostProb n)) (mStartLbl n) (mEndLbl n)) ;;
  OnFunctionValues (SetValueScalar s0) ;;
  funcVal <- NodeFunctionValues ;;
  nS <- GetNumParallelSequences ;;
  let nstep := (ncol / nS)%nat in
  for_acc 0 nS (EvaluateThisNode_step nstep) funcVal ;;
  ret tt.

(** *** What the forward pass computes *)

(** Column [t] of the label tensor is one-hot at [l]. *)
Definition one_hot_column (lbls : Matrix E) (t l : nat) : Prop :=
  l < GetNumRows lbls /\
  elem lbls l t = s1 /\
  forall i, i < GetNumRows lbls -> i <> l -> elem lbls i t = s0.

(** The position score and the transition score of the labelled path, and
    the log partition function read off [alpha]. *)
Definition path_position_score (pos_scores : Matrix E) (label : nat -> nat) (T : nat) : E :=
  sum_upto T (fun t => elem pos_scores (label t) t).

Definition path_transition_score (pair_scores : Matrix E) (label : nat -> nat) (T : nat) : E :=
  sum_upto (T - 1) (fun t => elem pair_scores (label (t + 1)%nat) (label t)).

Definition log_partition (alpha : Matrix E) (L T : nat) : E :=
  logAddOver L (fun k => elem alpha k (T - 1)).

(** The forward table of a sequence.  The tensor the pass starts from does
    not matter; an empty one is taken. *)
Definition forward_table (lbls pos_scores pair_scores : Matrix E) : Matrix E :=
  ForwardCompute (mkMatrix 0 0 (fun _ _ => s0) 0%Z) lbls pos_scores pair_scores.

(** The negative log-likelihood of the labelled path of one sequence. *)
Definition sequence_nll (lbls pos_scores pair_scores : Matrix E) (label : nat -> nat) : E :=
  - ((path_position_score pos_scores label (GetNumCols lbls)
      + path_transition_score pair_scores label (GetNumCols lbls))
     - log_partition (forward_table lbls pos_scores pair_scores)
                     (GetNumRows lbls) (GetNumCols lbls)).

(** Every column that the transition score reads a label from has one. *)
Definition labelled_transitions (lbls : Matrix E) : Prop :=
  forall t, t + 1 < GetNumCols lbls ->
            (0 <= find_label lbls t)%Z /\ (0 <= find_label lbls (t + 1))%Z.

(** The labels of the [i]-th of [nS] parallel sequences are one-hot. *)
Definition one_hot_sequences (lbl : Matrix E) (nS nstep : nat) (label : nat -> nat -> nat)
  : Prop :=
  forall i t, i < nS -> t < nstep ->
              one_hot_column (ColumnSlice (i * nstep) nstep lbl) t (label i t).

(** The output of the node after [EvaluateThisNode]. *)
Definition node_output (s : Node) : E := Get00Element (m_functionValues (base s)).

(** *** Gradient *)

Definition ErrorSignalToPostitionDependentNode (gradientValues labls postProb grd : Matrix E)
  : Matrix E :=
  AddScaledDifference gradientValues postProb labls grd.

Definition ErrorSignalToTransitionNode (labls alpha beta pair_scores grd : Matrix E)
  (startLbl shift : Z) : Matrix E :=
  TransGrdCompute labls alpha beta pair_scores grd startLbl shift.

Definition ComputeInputPartial (inputIndex : nat) : M Node unit :=
  when_ (negb (inputIndex =? 1) && negb (inputIndex =? 2))
        (throw (InvalidArgument "CRFNode only takes with respect to input and weight.")) ;;
  if inputIndex =? 1 then
    g <- NodeGradientValues ;;
    lbl <- InputFunctionValues 0 ;;
    postProb <- gets mPostProb ;;
    OnInputGradientValues inputIndex
      (fun grd => ErrorSignalToPostitionDependentNode g lbl postProb grd)
  else if inputIndex =? 2 then
    ncol <- gets (fun n => GetNumCols (mAlpha n)) ;;
    nS <- GetNumParallelSequences ;;
    let nstep := (ncol / nS)%nat in
    for_loop nS (fun i =>
      lbl <- InputFunctionValues 0 ;;
      pair <- InputFunctionValues inputIndex ;;
      n <- gets (fun n => n) ;;
      OnInputGradientValues inputIndex
        (fun grd => ErrorSignalToTransitionNode
                      (ColumnSlice (i * nstep) nstep lbl)
                      (ColumnSlice (i * nstep) nstep (mAlpha n))
                      (ColumnSlice (i * nstep) nstep (mBeta n))
                      pair grd (mStartLbl n) 1))
  else ret tt.

End WithScalar.

Arguments Node E : clear implicits.
End CRFNode.

(* ================================================================== *)
(** ** Concrete nodes *)
(* ================================================================== *)

(** Small nodes over the integer scalars, on which the statements about the
    nodes are instantiated and the nodes can be run. *)
Module Instances.

(** A tensor engine that leaves every target as it is.  What is proved
    about a node holds for every engine; this one serves to run the parts
    of a node that do not depend on the engine. *)
Definition idle_engine (E : Type) : TensorEngine E := {|
  InplaceExp := fun m => m;
  InplaceLogSoftmax := fun _ m => m;
  AssignSoftmaxSum := fun _ _ this => this;
  AssignNceUnnormalizedEval := fun _ _ _ _ this => this;
  AssignNoiseContrastiveEstimation := fun _ _ _ _ tmp this => (this, tmp);
  AssignNCEDerivative := fun _ _ _ _ _ this => this;
  RCRFBackwardCompute := fun _ beta functionValues _ _ _ _ => (beta, functionValues);
  RCRFTransGrdCompute := fun _ _ _ _ grd _ _ => grd
|}.

(** The tensor with the given rows, on device 0. *)
Definition dense (rows cols : nat) (cells : list (list Z)) : Matrix Z :=
  mkMatrix rows cols (fun i j => nth j (nth i cells []) 0%Z) 0%Z.

Definition input (name : string) (value gradient : Matrix Z) : InputNode Z :=
  mkInput name value gradient.

(** The inherited members: the inputs, a 1x1 output, the upstream
    gradient [g] and the Sequence Mask. *)
Definition members (children : list (InputNode Z)) (g : Z) (layout : option MBLayout)
  : ComputationNode Z :=
  mkNode children (dense 1 1 [[0%Z]]) (dense 1 1 [[g]]) layout 0 0 0.

(** A layout of one sequence whose first time step carries no label. *)
Definition first_column_masked : MBLayout :=
  mkMBLayout 1 false (fun t _ => t =? 0) (fun _ t _ => t =? 0).

(** SquareError with upstream gradient 2 and cached difference [4 5]. *)
Definition square_error : SquareErrorNode.Node Z :=
  SquareErrorNode.mk
    (members [input "InputValue" (dense 1 2 [[5; 7]]) (dense 1 2 [[0; 0]]);
              input "Times" (dense 1 2 [[1; 2]]) (dense 1 2 [[0; 0]])]%Z 2 None)
    (dense 1 2 [[4; 5]]%Z).

Definition labels : InputNode Z :=
  input "InputValue" (dense 2 2 [[1; 0]; [0; 1]]%Z) (dense 2 2 [[10; 20]; [30; 40]]%Z).

Definition logits : InputNode Z :=
  input "Times" (dense 2 2 [[3; 1]; [2; 5]]%Z) (dense 2 2 [[1; 2]; [3; 4]]%Z).

(** CrossEntropyWithSoftmax with upstream gradient 2, no mask. *)
Definition cross_entropy_with_softmax : CrossEntropyWithSoftmaxNode.Node Z :=
  CrossEntropyWithSoftmaxNode.mk
    (members [labels; logits] 2 None)
    (dense 2 2 [[-1; -2]; [-3; -4]]%Z)
    (dense 2 2 [[6; 7]; [8; 9]]%Z).

(** The same node when the first column of the minibatch is masked. *)
Definition masked_cross_entropy_with_softmax : CrossEntropyWithSoftmaxNode.Node Z :=
  CrossEntropyWithSoftmaxNode.mk
    (members [labels; logits] 2 (Some first_column_masked))
    (dense 2 2 [[-1; -2]; [-3; -4]]%Z)
    (dense 2 2 [[6; 7]; [8; 9]]%Z).

(** The label tensor of the class-based node: column 0 is word 1 of class
    0 (words 0 and 1), column 1 is word 2 of class 1 (word 2), column 2
    has no label (empty class, word 0). *)
Definition class_labels : InputNode Z :=
  input "InputValue"
        (dense 4 3 [[1; 2; 0]; [0; 1; 0]; [0; 2; 0]; [2; 3; 0]]%Z)
        (dense 4 3 []).

Definition observations : InputNode Z :=
  input "Times" (dense 1 3 [[3; 4; 5]]%Z) (dense 1 3 [[0; 0; 0]]%Z).

Definition weights : InputNode Z :=
  input "LearnableParameter" (dense 1 3 [[1; 2; 3]]%Z) (dense 1 3 [[0; 0; 0]]%Z).

Definition class_posteriors : InputNode Z :=
  input "Times" (dense 2 3 [[1; 1; 1]; [2; 2; 2]]%Z) (dense 2 3 [[7; 7; 7]; [7; 7; 7]]%Z).

(** ClassBasedCrossEntropyWithSoftmax after a forward pass: three words
    were counted, the softmax gradient is to be recomputed. *)
Definition class_based : ClassBasedCrossEntropyWithSoftmaxNode.Node Z :=
  ClassBasedCrossEntropyWithSoftmaxNode.mk
    (members [class_labels; observations; weights; class_posteriors] 2 None)
    (dense 1 3 [[0; 0; 0]]%Z)
    (dense 1 3 [[5; 6; 7]]%Z)
    (dense 2 3 [[0; 0; 0]; [0; 0; 0]]%Z)
    (dense 2 3 [[3; 4; 5]; [6; 7; 8]]%Z)
    (dense 0 0 [])
    true 2 3%N.

(** The same node with its label tensor on device 0 while the CPU is
    device -1. *)
Definition CPUDEVICE : DEVICEID_TYPE := (-1)%Z.


(** DummyCriterion whose derivatives input has three rows and no
    column. *)
Definition objective : InputNode Z :=
  input "InputValue" (dense 1 1 [[5]]%Z) (dense 1 1 [[0]]%Z).

Definition derivatives : InputNode Z :=
  input "Times" (dense 3 2 [[1; 2]; [3; 4]; [5; 6]]%Z) (dense 3 2 []).

Definition empty_derivatives : InputNode Z :=
  input "Times" (dense 3 0 []) (dense 3 0 []).

Definition prediction : InputNode Z :=
  input "Times" (dense 3 4 [[1; 2; 3; 4]; [5; 6; 7; 8]; [9; 10; 11; 12]]%Z) (dense 3 4 []).

Definition dummy_criterion : DummyCriterionNode.Node Z :=
  DummyCriterionNode.mk (members [objective; derivatives; prediction] 1 None).

Definition dummy_criterion_without_derivatives : DummyCriterionNode.Node Z :=
  DummyCriterionNode.mk (members [objective; empty_derivatives; prediction] 1 None).

(** The evaluation mode as four little-endian bytes. *)
Definition sizeof_evalMode : nat := 4.

Definition encode (v : Z) : list Z :=
  [v mod 256; (v / 256) mod 256; (v / 65536) mod 256; (v / 16777216) mod 256]%Z.

Definition decode (bytes : list Z) : Z :=
  (nth 0 bytes 0 + 256 * nth 1 bytes 0 + 65536 * nth 2 bytes 0 + 16777216 * nth 3 bytes 0)%Z.

(** An NCE node in mode Unnormalized. *)
Definition nce : NoiseContrastiveEstimationNode.Node Z :=
  NoiseContrastiveEstimationNode.mk
    (members [] 1 None) (dense 0 0 []) (dense 0 0 []) (dense 0 0 []) (dense 0 0 [])
    false NCEEvalMode.Unnormalized.

(** The base class persists nothing here. *)
Definition BaseSaveToFile (n : NoiseContrastiveEstimationNode.Node Z) : M File unit :=
  ret tt.

Definition BaseLoadFromFile (modelVersion : nat)
  : M (NoiseContrastiveEstimationNode.Node Z * File) unit :=
  ret tt.

(** Integer stand-ins for the two norms of the tensor library: the sum of
    the absolute values, and the integer square root of the sum of the
    squares. *)
Definition MatrixNorm1 (m : Matrix Z) : Z :=
  InnerProduct (with_elem m (fun i j => Z.abs (elem m i j)))
               (with_elem m (fun _ _ => 1%Z)).

Definition FrobeniusNorm (m : Matrix Z) : Z := Z.sqrt (InnerProduct m m).

(** SquareError before validation: the second input is a parameter whose
    dimensions are still to be inferred. *)
Definition square_error_unsized : SquareErrorNode.Node Z :=
  SquareErrorNode.mk
    (members [input "InputValue" (dense 2 3 [[1; 2; 3]; [4; 5; 6]]%Z) (dense 2 3 []);
              input "LearnableParameter" (dense 0 0 []) (dense 0 0 [])] 1 None)
    (dense 0 0 []).

(** MatrixL1Reg and MatrixL2Reg over a 2x2 input whose first column is
    masked. *)
Definition regularized : InputNode Z :=
  input "LearnableParameter" (dense 2 2 [[3; -4]; [5; 12]]%Z) (dense 2 2 [[1; 1]; [1; 1]]%Z).

Definition l1_reg : MatrixL1RegNode.Node Z :=
  MatrixL1RegNode.mk (members [regularized] 2 (Some first_column_masked)) (dense 0 0 []).

Definition l2_reg : MatrixL2RegNode.Node Z :=
  MatrixL2RegNode.mk (members [regularized] 2 (Some first_column_masked)) (dense 0 0 []).

(** A label column of the class-based node whose word index 0 lies below
    the first word 1 of its class (words 1 and 2). *)
Definition misplaced_word : Matrix Z := dense 4 1 [[0]; [0]; [1]; [3]]%Z.

(** DummyCriterion whose objective has one row and two columns. *)
Definition objectives_row : InputNode Z :=
  input "InputValue" (dense 1 2 [[5; 6]]%Z) (dense 1 2 [[0; 0]]%Z).

Definition dummy_criterion_of_row : DummyCriterionNode.Node Z :=
  DummyCriterionNode.mk (members [objectives_row; derivatives; prediction] 1 None).

(** CrossEntropy over the same label and prediction, the first column of
    the minibatch masked. *)
Definition cross_entropy : CrossEntropyNode.Node Z :=
  CrossEntropyNode.mk
    (members [labels; logits] 2 (Some first_column_masked))
    (dense 0 0 []) (dense 0 0 []).

(** Stand-ins for the routines of the tensor library that have no integer
    version (log-softmax, exponential, logarithm): each assigns its
    argument unchanged. *)
Definition AssignLogSoftmaxOf (a : Matrix Z) (isColWise : bool) (this : Matrix Z)
  : Matrix Z :=
  SetValue a this.

Definition InplaceExp (m : Matrix Z) : Matrix Z := m.

Definition InplaceLog (m : Matrix Z) : Matrix Z := m.

(** A class-based node over the one column [misplaced_word]. *)
Definition class_based_misplaced : ClassBasedCrossEntropyWithSoftmaxNode.Node Z :=
  ClassBasedCrossEntropyWithSoftmaxNode.mk
    (members [input "InputValue" misplaced_word (dense 4 1 []);
              observations; weights; class_posteriors] 2 None)
    (dense 1 2 [[0; 0]]%Z)
    (dense 1 2 [[0; 0]]%Z)
    (dense 2 1 [[0]; [0]]%Z)
    (dense 2 1 [[0]; [0]]%Z)
    (dense 0 0 [])
    true 2 2%N.

(** A 3x2 matrix in CUDA memory at address 100, its columns padded to
    four elements. *)
Definition padded : cuda.matrixref := cuda.mk_matrixref 100 3 2 4.

End Instances.

(** A CRF sequence of length one with one label, over the reals: position
    score 0, transition score 1. *)
Module RealInstances.

Definition one_by_one (x : R) : Matrix R := mkMatrix 1 1 (fun _ _ => x) 0%Z.

Definition lbls : Matrix R := one_by_one 1%R.
Definition pos_scores : Matrix R := one_by_one 0%R.
Definition pair_scores : Matrix R := one_by_one 1%R.
Definition scratch : Matrix R := mkMatrix 0 0 (fun _ _ => 0%R) 0%Z.

(** What [EvaluateThisNodeS] returns on it. *)
Definition evaluated : CRFNode.Evaluated :=
  CRFNode.EvaluateThisNodeS (TE := Instances.idle_engine R)
    scratch scratch scratch scratch lbls pos_scores pair_scores 1.

(** Another label tensor with the same first label. *)
Definition lbls_scaled : Matrix R := one_by_one 2%R.

(** A CRF node over two parallel sequences of one position and two
    labels each: the first sequence is labelled 0, the second 1. *)
Definition two_sequences : MBLayout :=
  mkMBLayout 2 true (fun _ _ => false) (fun _ _ _ => false).

Definition crf : CRFNode.Node R :=
  CRFNode.mk
    (mkNode [mkInput "InputValue"
                     (mkMatrix 2 2 (fun i j => if i =? j then 1%R else 0%R) 0%Z) scratch;
             mkInput "Times" (mkMatrix 2 2 (fun _ _ => 0%R) 0%Z) scratch;
             mkInput "LearnableParameter" (mkMatrix 2 2 (fun _ _ => 1%R) 0%Z) scratch]
            scratch scratch (Some two_sequences) 0 0 0)
    scratch scratch scratch 0 0.

(** Two labels over four positions: the labelled path is 1, 0, 0, 1.
    Position scores [k + 2 t], transition scores [1 + 3 k + j]. *)
Definition chain_label (t : nat) : nat :=
  match t with
  | 0 => 1
  | 1 => 0
  | 2 => 0
  | _ => 1
  end.

Definition chain_lbls : Matrix R :=
  mkMatrix 2 4 (fun i t => if i =? chain_label t then 1%R else 0%R) 0%Z.

Definition chain_pos : Matrix R := mkMatrix 2 4 (fun k t => INR (k + 2 * t)) 0%Z.

Definition chain_pair : Matrix R := mkMatrix 2 2 (fun k j => INR (1 + 3 * k + j)) 0%Z.

(** A CRF node that takes them as two parallel sequences of two positions
    each. *)
Definition crf_chains : CRFNode.Node R :=
  CRFNode.mk
    (mkNode [mkInput "InputValue" chain_lbls scratch;
             mkInput "Times" chain_pos scratch;
             mkInput "LearnableParameter" chain_pair scratch]
            scratch scratch (Some two_sequences) 0 0 0)
    scratch scratch scratch 0 0.

End RealInstances.

(* ================================================================== *)
(** * Properties of the nodes *)
(* ================================================================== *)

(** ** Loops and computations *)

Section MonadFacts.
Context {S : Type}.

Lemma for_acc_split {A : Type} (body : nat -> A -> M S A) (n1 n2 start : nat) (a : A) (s : S) :
  for_acc start (n1 + n2) body a s =
  (a' <- for_acc start n1 body a ;; for_acc (start + n1) n2 body a') s.
Proof.
  revert start a s; induction n1 as [|n1 IH]; intros start a s; simpl.
  - unfold bind, ret. rewrite Nat.add_0_r. reflexivity.
  - unfold bind.
    destruct (body start a s) as [[a'|e] s']; [|reflexivity].
    rewrite IH. unfold bind. rewrite Nat.add_succ_r. reflexivity.
Qed.

(** An iteration that throws from every state makes the whole loop throw. *)
Lemma for_acc_throws {A : Type} (body : nat -> A -> M S A) (t : nat) :
  (forall a s, threw (fst (body t a s)) = true) ->
  forall count start a s,
    start <= t < start + count ->
    threw (fst (for_acc start count body a s)) = true.
Proof.
  intros Ht count; induction count as [|c IH]; intros start a s Hr; [lia|].
  simpl. unfold bind.
  destruct (Nat.eq_dec start t) as [->|Hne].
  - specialize (Ht a s). destruct (body t a s) as [[a'|e] s']; [discriminate|reflexivity].
  - destruct (body start a s) as [[a'|e] s']; [|reflexivity].
    apply IH; lia.
Qed.

(** The same when the iteration throws from the states that satisfy an
    invariant of the loop. *)
Lemma for_acc_throws_inv {A : Type} (I : S -> Prop) (body : nat -> A -> M S A) (t : nat) :
  (forall k a s a' s', I s -> body k a s = (Returned a', s') -> I s') ->
  (forall a s, I s -> threw (fst (body t a s)) = true) ->
  forall count start a s,
    I s -> start <= t < start + count ->
    threw (fst (for_acc start count body a s)) = true.
Proof.
  intros Hinv Ht count; induction count as [|c IH]; intros start a s HI Hr; [lia|].
  simpl. unfold bind.
  destruct (Nat.eq_dec start t) as [->|Hne].
  - specialize (Ht a s HI). destruct (body t a s) as [[a'|e] s']; [discriminate|reflexivity].
  - destruct (body start a s) as [[a'|e] s'] eqn:Hb; [|reflexivity].
    apply IH; [eapply Hinv; eassumption|lia].
Qed.

(** A loop whose iterations return and keep an invariant returns and
    establishes it. *)
Lemma for_acc_invariant {A : Type} (P : nat -> A -> S -> Prop) (body : nat -> A -> M S A) :
  forall count start a s,
    P start a s ->
    (forall i x st, start <= i < start + count -> P i x st ->
                    exists x' st', body i x st = (Returned x', st') /\ P (Datatypes.S i) x' st') ->
    exists a' s', for_acc start count body a s = (Returned a', s') /\ P (start + count) a' s'.
Proof.
  induction count as [|c IH]; intros start a s HP Hstep.
  - exists a, s. rewrite Nat.add_0_r. split; [reflexivity|exact HP].
  - assert (Hin : start <= start < start + Datatypes.S c) by lia.
    destruct (Hstep start a s Hin HP) as [x' [st' [Hrun HP']]].
    destruct (IH (Datatypes.S start) x' st' HP') as [a' [s' [Hloop Hend]]].
    { intros i x st Hi. apply Hstep. lia. }
    exists a', s'. rewrite Nat.add_succ_r. split; [|exact Hend].
    simpl. unfold bind. rewrite Hrun. exact Hloop.
Qed.

(** An iteration that is a [continue] can be left out of the loop. *)
Lemma for_acc_skip {A : Type} (body : nat -> A -> M S A) (t : nat) :
  (forall a s, body t a s = (Returned a, s)) ->
  forall n a s,
    for_acc 0 (t + Datatypes.S n) body a s =
    (a' <- for_acc 0 t body a ;; for_acc (Datatypes.S t) n body a') s.
Proof.
  intros Hskip n a s. rewrite for_acc_split. unfold bind.
  destruct (for_acc 0 t body a s) as [[a'|e] s']; [|reflexivity].
  simpl. unfold bind. rewrite Hskip. reflexivity.
Qed.

Lemma commutes_ret {A : Type} (h : S -> S) (a : A) : commutes h (ret a).
Proof. intros s; reflexivity. Qed.

Lemma commutes_throw {A : Type} (h : S -> S) e : commutes h (@throw S A e).
Proof. intros s; reflexivity. Qed.

Lemma commutes_bind {A B : Type} (h : S -> S) (c : M S A) (k : A -> M S B) :
  commutes h c -> (forall a, commutes h (k a)) -> commutes h (bind c k).
Proof.
  intros Hc Hk s. unfold bind. rewrite Hc.
  destruct (c s) as [[a|e] s']; simpl; [apply Hk|reflexivity].
Qed.

Lemma commutes_gets {A : Type} (h : S -> S) (f : S -> A) :
  (forall s, f (h s) = f s) -> commutes h (gets f).
Proof. intros Hf s; unfold gets; rewrite Hf; reflexivity. Qed.

Lemma commutes_modify (h : S -> S) (f : S -> S) :
  (forall s, f (h s) = h (f s)) -> commutes h (modify f).
Proof. intros Hf s; unfold modify; rewrite Hf; reflexivity. Qed.

Lemma commutes_when (h : S -> S) (b : bool) (c : M S unit) :
  commutes h c -> commutes h (when_ b c).
Proof. intros Hc; destruct b; [exact Hc|apply commutes_ret]. Qed.

Lemma commutes_if {A : Type} (h : S -> S) (b : bool) (c1 c2 : M S A) :
  commutes h c1 -> commutes h c2 -> commutes h (if b then c1 else c2).
Proof. destruct b; auto. Qed.

Lemma commutes_for_acc {A : Type} (h : S -> S) (body : nat -> A -> M S A) :
  (forall t a, commutes h (body t a)) ->
  forall count start a, commutes h (for_acc start count body a).
Proof.
  intros Hb count; induction count as [|c IH]; intros start a; simpl.
  - apply commutes_ret.
  - apply commutes_bind; [apply Hb|intros a'; apply IH].
Qed.

End MonadFacts.

(** ** Lists, inputs and gradients *)

Section ListFacts.

Lemma nth_error_list_set_eq {A : Type} (l : list A) i x y :
  nth_error l i = Some y -> nth_error (list_set i x l) i = Some x.
Proof.
  revert i; induction l as [|hd tl IH]; intros [|i] Hy; simpl in *;
    try discriminate; auto.
Qed.

Lemma nth_error_list_set_ne {A : Type} (l : list A) i j x :
  i <> j -> nth_error (list_set i x l) j = nth_error l j.
Proof.
  revert i j; induction l as [|hd tl IH]; intros [|i] [|j] Hne; simpl;
    try reflexivity; try congruence.
  apply IH; congruence.
Qed.

Lemma length_list_set {A : Type} (l : list A) i x :
  List.length (list_set i x l) = List.length l.
Proof.
  revert i; induction l as [|hd tl IH]; intros [|i]; simpl; auto.
Qed.

End ListFacts.

Section MemberFacts.
Context {E : Type} {SE : Scalar E} {S : Type} {NS : NodeState E S}.
Local Open Scope scalar_scope.

Lemma Inputs_some i s c :
  nth_error (m_children (get_base s)) i = Some c -> Inputs i s = (Returned c, s).
Proof. intros H; unfold Inputs; rewrite H; reflexivity. Qed.

Lemma OnInputGradientValues_some i f s c :
  nth_error (m_children (get_base s)) i = Some c ->
  OnInputGradientValues i f s =
  (Returned tt,
   set_base (set_children
               (list_set i (set_GradientValues (f (GradientValues c)) c)
                         (m_children (get_base s)))
               (get_base s)) s).
Proof.
  intros H; unfold OnInputGradientValues, bind; rewrite (Inputs_some _ _ H).
  reflexivity.
Qed.

Lemma input_gradient_set_eq i c c' s :
  nth_error (m_children (get_base s)) i = Some c ->
  input_gradient i
    (set_base (set_children (list_set i c' (m_children (get_base s))) (get_base s)) s)
  = Some (GradientValues c').
Proof.
  intros H; unfold input_gradient. rewrite get_set_base; simpl.
  rewrite (nth_error_list_set_eq _ _ _ H); reflexivity.
Qed.

Lemma input_gradient_set_ne i j c' s :
  i <> j ->
  input_gradient j
    (set_base (set_children (list_set i c' (m_children (get_base s))) (get_base s)) s)
  = input_gradient j s.
Proof.
  intros H; unfold input_gradient. rewrite get_set_base; simpl.
  rewrite (nth_error_list_set_ne _ _ H); reflexivity.
Qed.

Lemma input_gradient_with i G s :
  i < List.length (m_children (get_base s)) ->
  input_gradient i (with_input_gradient i G s) = Some G.
Proof.
  intros Hi. unfold with_input_gradient.
  destruct (nth_error (m_children (get_base s)) i) as [c|] eqn:Hc.
  - erewrite input_gradient_set_eq by eassumption; reflexivity.
  - apply nth_error_None in Hc; lia.
Qed.

Lemma base_with_input_gradient i G s c :
  nth_error (m_children (get_base s)) i = Some c ->
  get_base (with_input_gradient i G s) =
  set_children (list_set i (set_GradientValues G c) (m_children (get_base s))) (get_base s).
Proof.
  intros H; unfold with_input_gradient; rewrite H. apply get_set_base.
Qed.

Lemma child_with_input_gradient i G s c :
  nth_error (m_children (get_base s)) i = Some c ->
  nth_error (m_children (get_base (with_input_gradient i G s))) i =
  Some (set_GradientValues G c).
Proof.
  intros H. erewrite base_with_input_gradient by eassumption. simpl.
  eapply nth_error_list_set_eq; eassumption.
Qed.

Lemma other_child_with_input_gradient i j G s :
  i <> j ->
  nth_error (m_children (get_base (with_input_gradient i G s))) j =
  nth_error (m_children (get_base s)) j.
Proof.
  intros H. unfold with_input_gradient.
  destruct (nth_error (m_children (get_base s)) i) eqn:Hc; [|reflexivity].
  rewrite get_set_base; simpl. apply nth_error_list_set_ne; assumption.
Qed.

Lemma node_gradient_with_input_gradient i G s :
  m_gradientValues (get_base (with_input_gradient i G s)) = m_gradientValues (get_base s).
Proof.
  unfold with_input_gradient.
  destruct (nth_error (m_children (get_base s)) i); [|reflexivity].
  rewrite get_set_base; reflexivity.
Qed.

Lemma layout_with_input_gradient i G s :
  m_pMBLayout (get_base (with_input_gradient i G s)) = m_pMBLayout (get_base s).
Proof.
  unfold with_input_gradient.
  destruct (nth_error (m_children (get_base s)) i); [|reflexivity].
  rewrite get_set_base; reflexivity.
Qed.

(** The shape of every statement of accumulation below: the call is one
    in-place operation [f] on the gradient tensor of input [i], and [f]
    adds [C]. *)
Lemma on_input_adds (c : M S unit) i f s cin C :
  nth_error (m_children (get_base s)) i = Some cin ->
  c s = OnInputGradientValues i f s ->
  same_shape (GradientValues cin) (f (GradientValues cin)) ->
  (forall r k, elem (f (GradientValues cin)) r k = elem (GradientValues cin) r k + C r k) ->
  adds_contribution c i s C.
Proof.
  intros Hc Hrun Hshape Hadd.
  exists (GradientValues cin), (f (GradientValues cin)).
  rewrite Hrun, (OnInputGradientValues_some _ _ _ Hc); simpl.
  repeat split; try apply Hshape; try apply Hadd.
  - unfold input_gradient; rewrite Hc; reflexivity.
  - erewrite input_gradient_set_eq by eassumption. reflexivity.
Qed.

Lemma list_set_twice {A : Type} (l : list A) i x y :
  list_set i x (list_set i y l) = list_set i x l.
Proof.
  revert i; induction l as [|hd tl IH]; intros [|i]; simpl; try reflexivity.
  rewrite IH; reflexivity.
Qed.

(** Two in-place operations on the same gradient tensor, one after the
    other, are one operation. *)
Lemma OnInputGradientValues_twice i f g (s : S) c :
  nth_error (m_children (get_base s)) i = Some c ->
  (OnInputGradientValues i f ;; OnInputGradientValues i g) s =
  OnInputGradientValues i (fun G => g (f G)) s.
Proof.
  intros Hc. unfold bind at 1.
  rewrite (OnInputGradientValues_some _ _ _ Hc).
  erewrite OnInputGradientValues_some
    by (rewrite get_set_base; simpl; eapply nth_error_list_set_eq; exact Hc).
  rewrite (OnInputGradientValues_some _ _ _ Hc).
  rewrite !get_set_base, set_set_base. simpl. rewrite list_set_twice.
  reflexivity.
Qed.

End MemberFacts.

Lemma int_of_size_t_small (n : nat) : (Z.of_nat n < 2 ^ 31)%Z -> int_of_size_t n = Z.of_nat n.
Proof.
  intros H. unfold int_of_size_t.
  rewrite Z.mod_small; lia.
Qed.


(** ** Gradient requests that have no derivative *)

Section InvalidGradientTarget.
Context {E : Type} {SE : Scalar E} {LS : LogScalar E} {TE : TensorEngine E}.

Lemma NCE_label_gradient_throws (s : NoiseContrastiveEstimationNode.Node E) :
  threw (fst (NoiseContrastiveEstimationNode.ComputeInputPartial 0 s)) = true /\
  gradient_tensors (snd (NoiseContrastiveEstimationNode.ComputeInputPartial 0 s))
  = gradient_tensors s.
Proof.
  unfold NoiseContrastiveEstimationNode.ComputeInputPartial.
  cbv [bind modify gets when_ throw ret fst snd].
  destruct (negb (NoiseContrastiveEstimationNode.m_evalMode _ =? NCEEvalMode.None)%Z);
    split; reflexivity.
Qed.

(** C6.  A gradient request for an input that has no derivative throws and
    modifies no gradient tensor: input 0 of the NCE node (the label),
    inputs 0 and 1 of DummyCriterion (objective and derivative features)
    and input 0 of the CRF node (the label).  The DummyCriterion and CRF
    nodes are left exactly as they were; the NCE node has only cleared its
    recomputation flag before it throws, and in training mode (mode None)
    what it throws is the error about the label. *)
Theorem invalid_gradient_target_throws :
  (forall s : NoiseContrastiveEstimationNode.Node E,
      threw (fst (NoiseContrastiveEstimationNode.ComputeInputPartial 0 s)) = true /\
      gradient_tensors (snd (NoiseContrastiveEstimationNode.ComputeInputPartial 0 s))
      = gradient_tensors s) /\
  (forall s : NoiseContrastiveEstimationNode.Node E,
      fst (NoiseContrastiveEstimationNode.ComputeInputPartial 0
             (NoiseContrastiveEstimationNode.set_evalMode NCEEvalMode.None s))
      = Thrown (InvalidArgument "ComputeInput partial should not be called for label")) /\
  (forall s : DummyCriterionNode.Node E,
      DummyCriterionNode.ComputeInputPartial 0 s
      = (Thrown (LogicError "DummyCriterionNode: derivatives with respect to objective features are not necessary, not implemented yet.\n"), s)) /\
  (forall s : DummyCriterionNode.Node E,
      DummyCriterionNode.ComputeInputPartial 1 s
      = (Thrown (LogicError "DummyCriterionNode: derivatives with respect to derivative features are not necessary, not implemented yet.\n"), s)) /\
  (forall s : CRFNode.Node E,
      CRFNode.ComputeInputPartial 0 s
      = (Thrown (InvalidArgument "CRFNode only takes with respect to input and weight."), s)).
Proof.
  split; [exact NCE_label_gradient_throws|].
  split.
  { intros s. reflexivity. }
  repeat split.
Qed.

(** X1.  A gradient request for an index that is not one of the inputs a
    node differentiates throws the invalid-argument error of the node and
    leaves the node exactly as it was: indices above 1 for SquareError,
    CrossEntropyWithSoftmax and CrossEntropy, any index but 0 for the two
    regularizers, any index but 1, 2, 3 for the class-based node, any but
    1, 2 for the CRF node, and indices above 2 for DummyCriterion. *)
Lemma other_invalid_targets_throw :
  (forall (s : SquareErrorNode.Node E) i, 1 < i ->
      SquareErrorNode.ComputeInputPartial i s
      = (Thrown (InvalidArgument "SquareError criteria only takes two inputs."), s)) /\
  (forall (s : CrossEntropyWithSoftmaxNode.Node E) i, 1 < i ->
      CrossEntropyWithSoftmaxNode.ComputeInputPartial i s
      = (Thrown (InvalidArgument
                   "CrossEntropyWithSoftmaxNode criterion only takes two inputs."), s)) /\
  (forall (s : CrossEntropyNode.Node E) i, 1 < i ->
      CrossEntropyNode.ComputeInputPartial i s
      = (Thrown (InvalidArgument "CrossEntropy criterion only takes two inputs."), s)) /\
  (forall (s : MatrixL1RegNode.Node E) i, i <> 0 ->
      MatrixL1RegNode.ComputeInputPartial i s
      = (Thrown (InvalidArgument "MatrixL1RegNode only has one input."), s)) /\
  (forall (s : MatrixL2RegNode.Node E) i, i <> 0 ->
      MatrixL2RegNode.ComputeInputPartial i s
      = (Thrown (InvalidArgument "MatrixL2RegNode only has one input."), s)) /\
  (forall (s : ClassBasedCrossEntropyWithSoftmaxNode.Node E) i, i <> 1 -> i <> 2 -> i <> 3 ->
      ClassBasedCrossEntropyWithSoftmaxNode.ComputeInputPartial i s
      = (Thrown (InvalidArgument "ClassCrossEntropyWithSoftmaxNode criterion only takes with respect to input, weight to the input and class log posterior probability."), s)) /\
  (forall (s : CRFNode.Node E) i, i <> 1 -> i <> 2 ->
      CRFNode.ComputeInputPartial i s
      = (Thrown (InvalidArgument "CRFNode only takes with respect to input and weight."), s)) /\
  (forall (s : DummyCriterionNode.Node E) i, 2 < i ->
      DummyCriterionNode.ComputeInputPartial i s
      = (Thrown (InvalidArgument "DummyCriterionNode only takes three inputs."), s)).
Proof.
  repeat split; intros s i.
  - intros Hi. unfold SquareErrorNode.ComputeInputPartial.
    apply Nat.ltb_lt in Hi. rewrite Hi. reflexivity.
  - intros Hi. unfold CrossEntropyWithSoftmaxNode.ComputeInputPartial.
    apply Nat.ltb_lt in Hi. rewrite Hi. reflexivity.
  - intros Hi. unfold CrossEntropyNode.ComputeInputPartial.
    apply Nat.ltb_lt in Hi. rewrite Hi. reflexivity.
  - intros Hi. unfold MatrixL1RegNode.ComputeInputPartial.
    apply Nat.eqb_neq in Hi. rewrite Hi. reflexivity.
  - intros Hi. unfold MatrixL2RegNode.ComputeInputPartial.
    apply Nat.eqb_neq in Hi. rewrite Hi. reflexivity.
  - intros H1 H2 H3. unfold ClassBasedCrossEntropyWithSoftmaxNode.ComputeInputPartial.
    apply Nat.eqb_neq in H1, H2, H3. rewrite H1, H2, H3. reflexivity.
  - intros H1 H2. unfold CRFNode.ComputeInputPartial.
    apply Nat.eqb_neq in H1, H2. rewrite H1, H2. reflexivity.
  - intros Hi. unfold DummyCriterionNode.ComputeInputPartial.
    apply Nat.ltb_lt in Hi. rewrite Hi. reflexivity.
Qed.

End InvalidGradientTarget.

(** ** CrossEntropyWithSoftmax: the two gradients *)

Section CrossEntropyWithSoftmaxGradient.
Context {E : Type} {SE : Scalar E}.
Local Open Scope scalar_scope.
Import CrossEntropyWithSoftmaxNode.

Lemma ComputeInputPartial_left_run (s : Node E) (label : InputNode E) :
  nth_error (m_children (base s)) 0 = Some label ->
  ComputeInputPartial 0 s =
  OnInputGradientValues 0
    (fun G => ComputeInputPartialLeft (m_logSoftmaxOfRight s) G (m_gradientValues (base s))) s.
Proof. reflexivity. Qed.

Lemma ComputeInputPartial_right_run (s : Node E) (label logits : InputNode E) :
  nth_error (m_children (base s)) 0 = Some label ->
  nth_error (m_children (base s)) 1 = Some logits ->
  ComputeInputPartial 1 s =
  OnInputGradientValues 1
    (fun G => MaskToZeroWhenLabelAndFeatureMissing (m_pMBLayout (base s))
                (ComputeInputPartialRight (m_softmaxOfRight s) (FunctionValues label) G
                                          (m_gradientValues (base s)))) s.
Proof.
  intros H0 H1.
  change (nth_error (m_children (get_base s)) 0 = Some label) in H0.
  change (nth_error (m_children (get_base s)) 1 = Some logits) in H1.
  rewrite <- (OnInputGradientValues_twice (S := Node E) 1 _ _ s H1).
  unfold ComputeInputPartial.
  cbv [bind when_ Nat.ltb Nat.leb Nat.eqb ret gets NodeGradientValues].
  rewrite (Inputs_some (S := Node E) 0 s H0).
  rewrite !(OnInputGradientValues_some (S := Node E) 1 _ s H1).
  reflexivity.
Qed.

(** C5.  A gradient request for input 0 (the label) adds [-g] times the
    cached log-softmax to every element of the label gradient, masked
    column or not, and leaves the logits gradient alone.  A request for
    input 1 (the logits) adds [g * (softmax - label)] to the logits
    gradient and then zeroes the columns of that tensor which the Sequence
    Mask marks invalid; it leaves the label gradient alone. *)
Theorem cross_entropy_with_softmax_gradients
  (s : Node E) (label logits : InputNode E) :
  nth_error (m_children (base s)) 0 = Some label ->
  nth_error (m_children (base s)) 1 = Some logits ->
  let g := upstream s in
  (exists G',
      fst (ComputeInputPartial 0 s) = Returned tt /\
      input_gradient 0 (snd (ComputeInputPartial 0 s)) = Some G' /\
      same_shape (GradientValues label) G' /\
      (forall r k, elem G' r k
                   = elem (GradientValues label) r k + (- g) * elem (m_logSoftmaxOfRight s) r k) /\
      input_gradient 1 (snd (ComputeInputPartial 0 s)) = Some (GradientValues logits)) /\
  (exists G',
      fst (ComputeInputPartial 1 s) = Returned tt /\
      input_gradient 1 (snd (ComputeInputPartial 1 s)) = Some G' /\
      same_shape (GradientValues logits) G' /\
      (forall r k, elem G' r k
                   = if invalid_column (m_pMBLayout (base s)) k then s0
                     else elem (GradientValues logits) r k
                          + g * (elem (m_softmaxOfRight s) r k
                                 - elem (FunctionValues label) r k)) /\
      input_gradient 0 (snd (ComputeInputPartial 1 s)) = Some (GradientValues label)).
Proof.
  intros H0 H1 g.
  pose proof (ComputeInputPartial_left_run s H0) as Hleft.
  pose proof (ComputeInputPartial_right_run s H0 H1) as Hright.
  change (nth_error (m_children (get_base s)) 0 = Some label) in H0.
  change (nth_error (m_children (get_base s)) 1 = Some logits) in H1.
  split.
  - rewrite Hleft.
    rewrite (OnInputGradientValues_some (S := Node E) 0 _ s H0).
    eexists. split; [reflexivity|]. cbn [snd].
    split; [erewrite (input_gradient_set_eq (S := Node E)) by exact H0; reflexivity|].
    split; [split; reflexivity|].
    split; [intros r k; reflexivity|].
    rewrite (input_gradient_set_ne (S := Node E)) by discriminate.
    unfold input_gradient. rewrite H1. reflexivity.
  - rewrite Hright.
    rewrite (OnInputGradientValues_some (S := Node E) 1 _ s H1).
    eexists. split; [reflexivity|]. cbn [snd].
    split; [erewrite (input_gradient_set_eq (S := Node E)) by exact H1; reflexivity|].
    split; [split; reflexivity|].
    split; [intros r k; reflexivity|].
    rewrite (input_gradient_set_ne (S := Node E)) by discriminate.
    unfold input_gradient. rewrite H0. reflexivity.
Qed.

End CrossEntropyWithSoftmaxGradient.

(** ** ClassBasedCrossEntropyWithSoftmax: the label tensor lives on the CPU *)

Section LabelOnCPU.
Context {E : Type} {SE : Scalar E} {TE : TensorEngine E}.
Variable CPUDEVICE : DEVICEID_TYPE.
Import ClassBasedCrossEntropyWithSoftmaxNode.

(** The guard at the head of [EvaluateThisNode]. *)
Lemma EvaluateThisNode_guard (s : Node E) (lbl in1 in2 in3 : InputNode E)
  (rest : list (InputNode E)) :
  m_children (base s) = lbl :: in1 :: in2 :: in3 :: rest ->
  EvaluateThisNode CPUDEVICE s =
  if (GetDeviceId (FunctionValues lbl) =? CPUDEVICE)%Z
  then (EvaluateThisNodeS (FunctionValues lbl) (FunctionValues in1) (FunctionValues in2)
                          (FunctionValues in3) ;;
        modify (set_needRecompute true)) s
  else (Thrown (LogicError "ClassBasedCrossEntropyWithSoftmax: evaluatethisnode. the label matrix is not using CPU device. This will make computation slow, even though the label data is probably saved on GPU. Because of the external loop over time with explicit class id retrieved from the label matrix, the computation will be very slow if the label matrix is saved on GPU. However, this is only a constraint for label matrix and other matrices such as data are suggested to reside on GPU. "), s).
Proof.
  intros Hch.
  assert (H0 : nth_error (m_children (get_base s)) 0 = Some lbl)
    by (cbn [get_base node_state]; rewrite Hch; reflexivity).
  assert (H1 : nth_error (m_children (get_base s)) 1 = Some in1)
    by (cbn [get_base node_state]; rewrite Hch; reflexivity).
  assert (H2 : nth_error (m_children (get_base s)) 2 = Some in2)
    by (cbn [get_base node_state]; rewrite Hch; reflexivity).
  assert (H3 : nth_error (m_children (get_base s)) 3 = Some in3)
    by (cbn [get_base node_state]; rewrite Hch; reflexivity).
  unfold EvaluateThisNode.
  unfold bind at 1. rewrite (Inputs_some (S := Node E) 0 s H0).
  unfold bind at 1.
  destruct (GetDeviceId (FunctionValues lbl) =? CPUDEVICE)%Z; [|reflexivity].
  cbn [negb when_ ret].
  unfold bind at 1. rewrite (Inputs_some (S := Node E) 0 s H0).
  unfold bind at 1. rewrite (Inputs_some (S := Node E) 1 s H1).
  unfold bind at 1. rewrite (Inputs_some (S := Node E) 2 s H2).
  unfold bind at 1. rewrite (Inputs_some (S := Node E) 3 s H3).
  reflexivity.
Qed.

(** C9.  When the label tensor (input 0) is not on the CPU device, forward
    evaluation throws before it computes anything: the node, with its
    output and its scratch tensors, is exactly as it was.  When the label
    tensor is on the CPU device the evaluation proper runs, whatever
    devices the other three inputs are on: the device of the label tensor
    is the only one tested. *)
Theorem label_must_be_on_cpu (s : Node E) (lbl in1 in2 in3 : InputNode E)
  (rest : list (InputNode E)) :
  m_children (base s) = lbl :: in1 :: in2 :: in3 :: rest ->
  (GetDeviceId (FunctionValues lbl) <> CPUDEVICE ->
   EvaluateThisNode CPUDEVICE s =
   (Thrown (LogicError "ClassBasedCrossEntropyWithSoftmax: evaluatethisnode. the label matrix is not using CPU device. This will make computation slow, even though the label data is probably saved on GPU. Because of the external loop over time with explicit class id retrieved from the label matrix, the computation will be very slow if the label matrix is saved on GPU. However, this is only a constraint for label matrix and other matrices such as data are suggested to reside on GPU. "), s)) /\
  (GetDeviceId (FunctionValues lbl) = CPUDEVICE ->
   EvaluateThisNode CPUDEVICE s =
   (EvaluateThisNodeS (FunctionValues lbl) (FunctionValues in1) (FunctionValues in2)
                      (FunctionValues in3) ;;
    modify (set_needRecompute true)) s).
Proof.
  intros Hch. rewrite (EvaluateThisNode_guard s Hch). split; intros Hdev.
  - apply Z.eqb_neq in Hdev. rewrite Hdev. reflexivity.
  - apply Z.eqb_eq in Hdev. rewrite Hdev. reflexivity.
Qed.

End LabelOnCPU.

(** ** DummyCriterion: validation *)

Section DummyValidation.
Context {E : Type} {SE : Scalar E}.
Import DummyCriterionNode.
Variable BaseValidate : M (Node E) unit.
Variable InferImageDimsFromInput : nat -> bool -> M (Node E) unit.

(** C10, as the code has it.  Once [Base::Validate] has returned, the
    checks of the node pass for any kind of node attached as the
    derivatives input (its operation name is never read), provided three
    inputs are attached, input 0 is an InputValue with one row, none of
    the three inputs is empty and inputs 1 and 2 have the same number of
    rows.  Differing column counts of inputs 1 and 2 are no error: the
    value tensor of input 1 is resized to the column count of input 2.
    What is left of the validation is [InferImageDimsFromInputs]. *)
Theorem dummy_validate_ignores_derivative_node_type
  (s s1 : Node E) (in0 in1 in2 : InputNode E) :
  BaseValidate s = (Returned tt, s1) ->
  m_children (base s1) = [in0; in1; in2] ->
  OperationName in0 = "InputValue"%string ->
  GetNumRows (FunctionValues in0) = 1 ->
  HasNoElements (FunctionValues in0) = false ->
  HasNoElements (FunctionValues in1) = false ->
  HasNoElements (FunctionValues in2) = false ->
  GetNumRows (FunctionValues in1) = GetNumRows (FunctionValues in2) ->
  Validate BaseValidate InferImageDimsFromInput s =
  InferImageDimsFromInputs InferImageDimsFromInput
    (mk (set_functionValues
           (Resize 1 1 (m_functionValues (base s1)))
           (set_children [in0; validated_derivatives in1 in2; in2] (base s1)))).
Proof.
  intros Hbase Hch Hname Hrow H0 H1 H2 Hrows.
  unfold Validate. unfold bind at 1. rewrite Hbase.
  destruct s1 as [[ch fv gv lay oc ow oh]]. cbn [base m_children] in Hch. subst ch.
  assert (Hn : (OperationName in0 =? "InputValue")%string = true)
    by (rewrite Hname; reflexivity).
  assert (Hr : (GetNumRows (FunctionValues in0) =? 1) = true)
    by (rewrite Hrow; reflexivity).
  assert (Hrs : (GetNumRows (FunctionValues in1) =? GetNumRows (FunctionValues in2)) = true)
    by (rewrite Hrows; apply Nat.eqb_refl).
  cbv [bind gets Inputs when_ ret throw get_base node_state base m_children nth_error
       List.length].
  change (3 =? 3) with true. cbv [negb].
  repeat first [ rewrite Hn | rewrite Hr | rewrite H0 | rewrite H1 | rewrite H2
               | rewrite Hrs | progress cbv [negb orb] ].
  unfold validated_derivatives.
  destruct (GetNumCols (FunctionValues in1) =? GetNumCols (FunctionValues in2));
    reflexivity.
Qed.

End DummyValidation.

(** ** NoiseContrastiveEstimation: which evaluation runs *)

Section NCEPathSelection.
Context {E : Type} {SE : Scalar E}.
Import NoiseContrastiveEstimationNode.









End NCEPathSelection.

(** ** NoiseContrastiveEstimation: the persisted evaluation mode *)

Section NCEPersistence.
Context {E : Type}.
Import NoiseContrastiveEstimationNode.

Variable sizeof_evalMode : nat.
Variable encode : Z -> list Z.
Variable decode : list Z -> Z.
Variable BaseSaveToFile : Node E -> M File unit.
Variable BaseLoadFromFile : nat -> M (Node E * File) unit.

(** A value of the enumeration takes [sizeof_evalMode] bytes, and the
    three enumerators are read back as they were written. *)
Hypothesis encode_length : forall v, List.length (encode v) = sizeof_evalMode.
Hypothesis decode_encode :
  forall v, (NCEEvalMode.Softmax <= v <= NCEEvalMode.None)%Z -> decode (encode v) = v.

(** What [LoadFromFile] does once [Base::LoadFromFile] has returned with
    the cursor on a stored mode. *)
Lemma LoadFromFile_run (modelVersion : nat) (n n1 : Node E) (f f1 : File) :
  BaseLoadFromFile modelVersion (n, f) = (Returned tt, (n1, f1)) ->
  position f1 + sizeof_evalMode <= List.length (contents f1) ->
  let raw := decode (bytes_at_cursor sizeof_evalMode f1) in
  LoadFromFile sizeof_evalMode decode BaseLoadFromFile modelVersion (n, f) =
  (Returned tt,
   if (NCEEvalMode.None <? raw)%Z
   then (set_evalMode NCEEvalMode.None n1, mkFile (contents f1) (position f1))
   else (set_evalMode raw n1, mkFile (contents f1) (position f1 + sizeof_evalMode))).
Proof.
  intros Hbase Hlen raw. unfold LoadFromFile.
  unfold bind at 1. rewrite Hbase.
  cbv [bind on_stream on_node ReadBytes modify gets fst snd].
  apply Nat.leb_le in Hlen. rewrite Hlen.
  cbn [m_evalMode set_evalMode].
  fold (bytes_at_cursor sizeof_evalMode f1). fold raw.
  destruct (NCEEvalMode.None <? raw)%Z; [|reflexivity].
  cbv [when_ bind on_stream on_node modify GetPosition SetPosition gets fst snd].
  cbn [position contents set_evalMode base m_logSoftmax m_softMax m_ncePrediction
       m_grdToSoftMaxInput m_needRecomputeGradientToSoftmaxInput].
  rewrite Nat.add_sub. reflexivity.
Qed.

Lemma SaveToFile_run (n : Node E) (f f1 : File) :
  BaseSaveToFile n f = (Returned tt, f1) ->
  SaveToFile encode BaseSaveToFile n f =
  (Returned tt,
   mkFile (firstn (position f1) (contents f1) ++ encode (m_evalMode n)
           ++ skipn (position f1 + sizeof_evalMode) (contents f1))
          (position f1 + sizeof_evalMode)).
Proof.
  intros Hbase. unfold SaveToFile, bind. rewrite Hbase.
  unfold WriteBytes, modify. rewrite encode_length. reflexivity.
Qed.

Lemma bytes_written_are_under_cursor (bs before after : list Z) (p : nat) :
  List.length bs = sizeof_evalMode ->
  p <= List.length before ->
  bytes_at_cursor sizeof_evalMode (mkFile (firstn p before ++ bs ++ after) p) = bs.
Proof.
  intros Hbs Hp. unfold bytes_at_cursor. cbn [position contents].
  rewrite skipn_app, skipn_all2 by (rewrite length_firstn; lia).
  rewrite length_firstn, Nat.min_l by exact Hp.
  rewrite Nat.sub_diag. cbn [skipn app].
  rewrite firstn_app, firstn_all2 by lia.
  rewrite Hbs, Nat.sub_diag. cbn [firstn]. apply app_nil_r.
Qed.

(** C4.  The stored mode round-trips: a node in mode Unnormalized that is
    saved, and loaded from a stream whose cursor [Base::LoadFromFile]
    leaves where [Base::SaveToFile] had left it, comes back in mode
    Unnormalized with the cursor just past the value.  A stored value
    greater than None is loaded as None, and the cursor is left one
    mode-width before the place the read had taken it to, that is, on the
    first byte of the value that was read.  A stored Softmax, Unnormalized
    or None is loaded as it is, with the cursor just past it. *)
Theorem nce_mode_round_trip :
  (forall (n : Node E) (f f1 : File) (modelVersion : nat) (n0 n1 : Node E) (g g1 : File),
      m_evalMode n = NCEEvalMode.Unnormalized ->
      BaseSaveToFile n f = (Returned tt, f1) ->
      position f1 <= List.length (contents f1) ->
      BaseLoadFromFile modelVersion (n0, g) = (Returned tt, (n1, g1)) ->
      contents g1 = contents (snd (SaveToFile encode BaseSaveToFile n f)) ->
      position g1 = position f1 ->
      LoadFromFile sizeof_evalMode decode BaseLoadFromFile modelVersion (n0, g) =
      (Returned tt,
       (set_evalMode NCEEvalMode.Unnormalized n1,
        mkFile (contents g1) (position f1 + sizeof_evalMode)))) /\
  (forall (modelVersion : nat) (n n1 : Node E) (f f1 : File),
      BaseLoadFromFile modelVersion (n, f) = (Returned tt, (n1, f1)) ->
      position f1 + sizeof_evalMode <= List.length (contents f1) ->
      (NCEEvalMode.None < decode (bytes_at_cursor sizeof_evalMode f1))%Z ->
      LoadFromFile sizeof_evalMode decode BaseLoadFromFile modelVersion (n, f) =
      (Returned tt,
       (set_evalMode NCEEvalMode.None n1,
        mkFile (contents f1) (position f1 + sizeof_evalMode - sizeof_evalMode))) /\
      position f1 + sizeof_evalMode - sizeof_evalMode = position f1) /\
  (forall (modelVersion : nat) (n n1 : Node E) (f f1 : File),
      BaseLoadFromFile modelVersion (n, f) = (Returned tt, (n1, f1)) ->
      position f1 + sizeof_evalMode <= List.length (contents f1) ->
      (NCEEvalMode.Softmax <= decode (bytes_at_cursor sizeof_evalMode f1) <= NCEEvalMode.None)%Z ->
      LoadFromFile sizeof_evalMode decode BaseLoadFromFile modelVersion (n, f) =
      (Returned tt,
       (set_evalMode (decode (bytes_at_cursor sizeof_evalMode f1)) n1,
        mkFile (contents f1) (position f1 + sizeof_evalMode)))).
Proof.
  split; [|split].
  - intros n f f1 mv n0 n1 g g1 Hmode Hsave Hp Hload Hcontents Hpos.
    rewrite (SaveToFile_run Hsave) in Hcontents. cbn [snd contents] in Hcontents.
    assert (Hbytes : bytes_at_cursor sizeof_evalMode g1 = encode NCEEvalMode.Unnormalized).
    { destruct g1 as [cg pg]. cbn [contents position] in *. subst cg pg.
      rewrite Hmode. apply bytes_written_are_under_cursor; [apply encode_length|exact Hp]. }
    assert (Hlen : position g1 + sizeof_evalMode <= List.length (contents g1)).
    { rewrite Hcontents, Hpos, !length_app, length_firstn, encode_length.
      rewrite Nat.min_l by exact Hp. lia. }
    rewrite (LoadFromFile_run Hload Hlen). cbv zeta.
    rewrite Hbytes, decode_encode by (unfold NCEEvalMode.Softmax, NCEEvalMode.Unnormalized,
                                      NCEEvalMode.None; lia).
    cbn. rewrite Hpos. reflexivity.
  - intros mv n n1 f f1 Hload Hlen Hraw.
    rewrite (LoadFromFile_run Hload Hlen). cbv zeta.
    apply Z.ltb_lt in Hraw. rewrite Hraw, Nat.add_sub. split; reflexivity.
  - intros mv n n1 f f1 Hload Hlen Hraw.
    rewrite (LoadFromFile_run Hload Hlen). cbv zeta.
    replace (NCEEvalMode.None <? decode (bytes_at_cursor sizeof_evalMode f1))%Z with false
      by (symmetry; apply Z.ltb_ge; lia).
    reflexivity.
Qed.

End NCEPersistence.

Unset Implicit Arguments.

(** ** ClassBasedCrossEntropyWithSoftmax: columns without a label *)

Section ColumnsWithoutLabel.
Context {E : Type} {SE : Scalar E}.
Import ClassBasedCrossEntropyWithSoftmaxNode.

Lemma size_t_sub_diag (a : N) : size_t_sub a a = 0%N.
Proof. unfold size_t_sub. rewrite Z.sub_diag. reflexivity. Qed.

Lemma InputFunctionValues_some {S : Type} {NS : NodeState E S} i (s : S) c :
  nth_error (m_children (get_base s)) i = Some c ->
  InputFunctionValues i s = (Returned (FunctionValues c), s).
Proof.
  intros H. unfold InputFunctionValues, bind. rewrite (Inputs_some _ _ H). reflexivity.
Qed.

Lemma empty_class_nbr_wrd (lbls : Matrix E) (t : nat) :
  empty_class lbls t -> nbr_wrd_of lbls t = 0%N.
Proof. unfold empty_class, nbr_wrd_of. intros ->. apply size_t_sub_diag. Qed.

Section Forward.
Context {TE : TensorEngine E}.

Lemma forward_step_skips (lbls inputs input_weight : Matrix E) (t : nat) :
  empty_class lbls t -> y_of lbls t = 0%N ->
  forall sz s, EvaluateThisNodeS_step lbls inputs input_weight t sz s = (Returned sz, s).
Proof.
  intros Hempty Hy sz s. unfold EvaluateThisNodeS_step.
  fold (y_of lbls t). fold (lft_bnd_of lbls t). fold (rgt_bnd_of lbls t).
  fold (nbr_wrd_of lbls t).
  rewrite (empty_class_nbr_wrd _ _ Hempty), Hy. reflexivity.
Qed.

Lemma forward_step_throws (lbls inputs input_weight : Matrix E) (t : nat) :
  empty_class lbls t -> y_of lbls t <> 0%N ->
  forall sz s,
    EvaluateThisNodeS_step lbls inputs input_weight t sz s =
    (Thrown (LogicError "ClassbasedCrossEntropyWithSoftmax::EvaluateThisNodeS label provided but the size of its class is zero. Should never happen. Probably misuse of ClassbasedCrossEntropyWithSoftmax."), s).
Proof.
  intros Hempty Hy sz s. unfold EvaluateThisNodeS_step.
  fold (y_of lbls t). fold (lft_bnd_of lbls t). fold (rgt_bnd_of lbls t).
  fold (nbr_wrd_of lbls t).
  rewrite (empty_class_nbr_wrd _ _ Hempty).
  apply N.eqb_neq in Hy. rewrite Hy. reflexivity.
Qed.

Lemma EvaluateThisNodeS_throws (lbls inputs input_weight cls : Matrix E) (t : nat) :
  t < GetNumCols lbls -> empty_class lbls t -> y_of lbls t <> 0%N ->
  forall s, threw (fst (EvaluateThisNodeS lbls inputs input_weight cls s)) = true.
Proof.
  intros Ht Hempty Hy s. unfold EvaluateThisNodeS.
  repeat (unfold bind at 1; unfold modify at 1).
  unfold bind at 1. unfold OnFunctionValues at 1. unfold modify at 1.
  unfold bind at 1.
  match goal with
  | |- context [for_acc 0 ?n ?body ?a ?s0] =>
      pose proof (@for_acc_throws _ _ body t
                    (fun acc st => f_equal (fun r => threw (fst r))
                                     (forward_step_throws lbls inputs input_weight t
                                                          Hempty Hy acc st))
                    n 0 a s0 (conj (Nat.le_0_l t) Ht)) as Hloop;
      destruct (for_acc 0 n body a s0) as [[a'|e] s']
  end; [discriminate Hloop|reflexivity].
Qed.

End Forward.

Lemma softmax_partial_step_skips (s : Node E) (lbl : InputNode E) (t : nat) (sz : N) :
  nth_error (m_children (base s)) 0 = Some lbl ->
  empty_class (FunctionValues lbl) t -> y_of (FunctionValues lbl) t = 0%N ->
  ComputeSoftMaxPartial_step t sz s = (Returned sz, s).
Proof.
  intros H0 Hempty Hy. to_get_base H0.
  unfold ComputeSoftMaxPartial_step. unfold bind at 1.
  rewrite (InputFunctionValues_some (S := Node E) 0 s lbl H0).
  unfold FrameSlice.
  fold (y_of (FunctionValues lbl) t). fold (lft_bnd_of (FunctionValues lbl) t).
  fold (rgt_bnd_of (FunctionValues lbl) t). fold (nbr_wrd_of (FunctionValues lbl) t).
  rewrite (empty_class_nbr_wrd _ _ Hempty), Hy. reflexivity.
Qed.

Lemma softmax_partial_step_throws (s : Node E) (lbl : InputNode E) (t : nat) (sz : N) :
  nth_error (m_children (base s)) 0 = Some lbl ->
  empty_class (FunctionValues lbl) t -> y_of (FunctionValues lbl) t <> 0%N ->
  ComputeSoftMaxPartial_step t sz s =
  (Thrown (LogicError "ClassbasedCrossEntropyWithSoftmax::ComputeSoftMaxPartial label provided but the size of its class is zero. Should never happen. Probably misuse of ClassbasedCrossEntropyWithSoftmax."), s).
Proof.
  intros H0 Hempty Hy. to_get_base H0.
  unfold ComputeSoftMaxPartial_step. unfold bind at 1.
  rewrite (InputFunctionValues_some (S := Node E) 0 s lbl H0).
  unfold FrameSlice.
  fold (y_of (FunctionValues lbl) t). fold (lft_bnd_of (FunctionValues lbl) t).
  fold (rgt_bnd_of (FunctionValues lbl) t). fold (nbr_wrd_of (FunctionValues lbl) t).
  rewrite (empty_class_nbr_wrd _ _ Hempty).
  apply N.eqb_neq in Hy. rewrite Hy. reflexivity.
Qed.

Lemma input_partial_step_skips (i : nat) (s : Node E) (lbl : InputNode E) (t : nat) (sz : N) :
  nth_error (m_children (base s)) 0 = Some lbl ->
  empty_class (FunctionValues lbl) t ->
  ComputeInputPartial_step i t sz s = (Returned sz, s).
Proof.
  intros H0 Hempty. to_get_base H0.
  unfold ComputeInputPartial_step. unfold bind at 1.
  rewrite (InputFunctionValues_some (S := Node E) 0 s lbl H0).
  unfold FrameSlice.
  fold (lft_bnd_of (FunctionValues lbl) t).
  fold (rgt_bnd_of (FunctionValues lbl) t). fold (nbr_wrd_of (FunctionValues lbl) t).
  rewrite (empty_class_nbr_wrd _ _ Hempty). reflexivity.
Qed.

End ColumnsWithoutLabel.

Section ColumnsWithoutLabelTheorem.
Context {E : Type} {SE : Scalar E} {TE : TensorEngine E}.
Import ClassBasedCrossEntropyWithSoftmaxNode.

Lemma softmax_partial_step_keeps_base (t : nat) (sz sz' : N) (s s' : Node E) :
  ComputeSoftMaxPartial_step t sz s = (Returned sz', s') -> base s' = base s.
Proof.
  unfold ComputeSoftMaxPartial_step, bind, InputFunctionValues, bind, Inputs, ret, throw,
    NodeGradientValues, gets, modify.
  destruct (nth_error (m_children (get_base s)) 0) as [c|]; [|discriminate].
  match goal with |- context [N.eqb ?n 0%N] => destruct (N.eqb n 0%N) end.
  - match goal with |- context [N.eqb ?n 0%N] => destruct (N.eqb n 0%N) end;
      [|discriminate].
    intros H; inversion H; reflexivity.
  - intros H; inversion H; reflexivity.
Qed.

Lemma ComputeSoftMaxPartial_throws (s : Node E) (lbl in1 : InputNode E) (t : nat) :
  nth_error (m_children (base s)) 0 = Some lbl ->
  nth_error (m_children (base s)) 1 = Some in1 ->
  m_needRecomputeGradientToSoftmaxInput s = true ->
  t < GetNumCols (FunctionValues in1) ->
  empty_class (FunctionValues lbl) t -> y_of (FunctionValues lbl) t <> 0%N ->
  threw (fst (ComputeSoftMaxPartial s)) = true.
Proof.
  intros H0 H1 Hstale Ht Hempty Hy.
  unfold ComputeSoftMaxPartial. unfold bind at 1, gets at 1. rewrite Hstale.
  unfold when_. unfold bind at 1, modify at 1.
  set (s1 := set_grdToSoftMaxInput _ s).
  assert (Hb : base s1 = base s) by reflexivity.
  unfold bind at 1.
  rewrite (InputFunctionValues_some (S := Node E) 1 s1 in1) by exact H1.
  unfold bind at 1.
  pose proof (@for_acc_throws_inv (Node E) N (fun st => base st = base s)
                ComputeSoftMaxPartial_step t
                (fun k a st a' st' HI Hrun =>
                   eq_trans (softmax_partial_step_keeps_base k a a' st st' Hrun) HI)) as Hloop.
  assert (Hthrow : forall a st, base st = base s ->
                                threw (fst (ComputeSoftMaxPartial_step t a st)) = true).
  { intros a st HI.
    rewrite (softmax_partial_step_throws st lbl t a); [reflexivity| |exact Hempty|exact Hy].
    rewrite HI. exact H0. }
  specialize (Hloop Hthrow (GetNumCols (FunctionValues in1)) 0 0%N s1 Hb
                    (conj (Nat.le_0_l t) Ht)).
  destruct (for_acc 0 (GetNumCols (FunctionValues in1)) ComputeSoftMaxPartial_step 0%N s1)
    as [[a'|e] s']; [discriminate Hloop|reflexivity].
Qed.

Lemma ComputeInputPartial_throws (i : nat) (s : Node E) (lbl in1 : InputNode E) (t : nat) :
  nth_error (m_children (base s)) 0 = Some lbl ->
  nth_error (m_children (base s)) 1 = Some in1 ->
  m_needRecomputeGradientToSoftmaxInput s = true ->
  t < GetNumCols (FunctionValues in1) ->
  empty_class (FunctionValues lbl) t -> y_of (FunctionValues lbl) t <> 0%N ->
  threw (fst (ComputeInputPartial i s)) = true.
Proof.
  intros H0 H1 Hstale Ht Hempty Hy.
  pose proof (ComputeSoftMaxPartial_throws s lbl in1 t H0 H1 Hstale Ht Hempty Hy) as Hsm.
  unfold ComputeInputPartial. unfold bind at 1.
  destruct (negb (i =? 1) && negb (i =? 2) && negb (i =? 3)); [reflexivity|].
  cbn [when_ ret]. unfold bind at 1.
  rewrite (InputFunctionValues_some (S := Node E) 0 s lbl) by exact H0.
  unfold bind at 1.
  destruct (ComputeSoftMaxPartial s) as [[u|e] s']; [discriminate Hsm|reflexivity].
Qed.

(** C7.  Take a column [t] of the label tensor whose class range is empty
    (right bound equal to left bound).

    If its word index is zero, the column is skipped: the iteration of the
    forward loop for [t] is a [continue] from every state of the node, so
    whatever the Sequence Mask says, and the loop gives what it gives with
    that iteration left out; the iterations for [t] of the two gradient
    loops (the softmax gradient and the gradient of any input) are
    [continue]s as well.

    If its word index is not zero, forward evaluation throws, and so does
    a gradient request that has the softmax gradient to recompute (the
    forward evaluation marks it stale). *)
Theorem column_without_label_is_skipped (lbls : Matrix E) (t : nat) :
  empty_class lbls t ->
  (y_of lbls t = 0%N ->
   (forall inputs input_weight sz s,
       EvaluateThisNodeS_step lbls inputs input_weight t sz s = (Returned sz, s)) /\
   (forall inputs input_weight n sz s,
       for_acc 0 (t + S n) (EvaluateThisNodeS_step lbls inputs input_weight) sz s =
       (sz' <- for_acc 0 t (EvaluateThisNodeS_step lbls inputs input_weight) sz ;;
        for_acc (S t) n (EvaluateThisNodeS_step lbls inputs input_weight) sz') s) /\
   (forall (s : Node E) lbl sz,
       nth_error (m_children (base s)) 0 = Some lbl -> FunctionValues lbl = lbls ->
       ComputeSoftMaxPartial_step t sz s = (Returned sz, s) /\
       forall i, ComputeInputPartial_step i t sz s = (Returned sz, s))) /\
  (y_of lbls t <> 0%N ->
   (forall inputs input_weight input_cls_log_post_prob s,
       t < GetNumCols lbls ->
       threw (fst (EvaluateThisNodeS lbls inputs input_weight input_cls_log_post_prob s))
       = true) /\
   (forall CPUDEVICE (s : Node E) lbl in1 in2 in3 rest,
       m_children (base s) = lbl :: in1 :: in2 :: in3 :: rest -> FunctionValues lbl = lbls ->
       t < GetNumCols lbls ->
       threw (fst (EvaluateThisNode CPUDEVICE s)) = true) /\
   (forall (s : Node E) lbl in1 i,
       nth_error (m_children (base s)) 0 = Some lbl -> FunctionValues lbl = lbls ->
       nth_error (m_children (base s)) 1 = Some in1 ->
       t < GetNumCols (FunctionValues in1) ->
       m_needRecomputeGradientToSoftmaxInput s = true ->
       threw (fst (ComputeSoftMaxPartial s)) = true /\
       threw (fst (ComputeInputPartial i s)) = true)).
Proof.
  intros Hempty. split.
  - intros Hy. split; [|split].
    + intros inputs W sz s. apply forward_step_skips; assumption.
    + intros inputs W n sz s. apply for_acc_skip.
      intros a st. apply forward_step_skips; assumption.
    + intros s lbl sz H0 Hl. subst lbls. split.
      * apply (softmax_partial_step_skips s lbl t sz H0 Hempty Hy).
      * intros i. apply (input_partial_step_skips i s lbl t sz H0 Hempty).
  - intros Hy. split; [|split].
    + intros inputs W cls s Ht. apply (EvaluateThisNodeS_throws lbls inputs W cls t Ht Hempty Hy).
    + intros CPUDEVICE s lbl in1 in2 in3 rest Hch Hl Ht. subst lbls.
      rewrite (@EvaluateThisNode_guard _ _ _ CPUDEVICE s lbl in1 in2 in3 rest Hch).
      destruct (GetDeviceId (FunctionValues lbl) =? CPUDEVICE)%Z; [|reflexivity].
      unfold bind.
      pose proof (EvaluateThisNodeS_throws (FunctionValues lbl) (FunctionValues in1)
                    (FunctionValues in2) (FunctionValues in3) t Ht Hempty Hy s) as Hs.
      destruct (EvaluateThisNodeS (FunctionValues lbl) (FunctionValues in1)
                  (FunctionValues in2) (FunctionValues in3) s) as [[u|e] s'];
        [discriminate Hs|reflexivity].
    + intros s lbl in1 i H0 Hl H1 Ht Hstale. subst lbls. split.
      * apply (ComputeSoftMaxPartial_throws s lbl in1 t H0 H1 Hstale Ht Hempty Hy).
      * apply (ComputeInputPartial_throws i s lbl in1 t H0 H1 Hstale Ht Hempty Hy).
Qed.

End ColumnsWithoutLabelTheorem.

(** ** CRF: the forward dynamic program *)

Section CRFForward.
Context {E : Type} {SE : Scalar E} {LS : LogScalar E}.
Import CRFNode.

Lemma iterate_invariant {A : Type} (P : nat -> A -> Prop) (f : nat -> A -> A) :
  forall count start a,
    P start a ->
    (forall i x, start <= i < start + count -> P i x -> P (S i) (f i x)) ->
    P (start + count) (iterate start count f a).
Proof.
  induction count as [|c IH]; intros start a Ha Hstep; simpl.
  - rewrite Nat.add_0_r. exact Ha.
  - rewrite Nat.add_succ_r. apply (IH (S start)).
    + apply Hstep; [lia|exact Ha].
    + intros i x Hi. apply Hstep. lia.
Qed.

Lemma logAddOver_ext (n : nat) (f g : nat -> E) :
  (forall j, j < n -> f j = g j) -> logAddOver n f = logAddOver n g.
Proof.
  induction n as [|n IH]; intros H; simpl; [reflexivity|].
  rewrite IH by (intros j Hj; apply H; lia). rewrite (H n) by lia. reflexivity.
Qed.

Lemma find_label_from_first (lbls : Matrix E) (col first : nat) :
  snonzero (elem lbls first col) = true ->
  forall count ik,
    ik <= first < ik + count ->
    (forall j, ik <= j < first -> snonzero (elem lbls j col) = false) ->
    find_label_from lbls col ik count = Z.of_nat first.
Proof.
  intros Hfirst count; induction count as [|c IH]; intros ik Hr Hzero; [lia|].
  simpl. destruct (Nat.eq_dec ik first) as [->|Hne].
  - rewrite Hfirst. reflexivity.
  - rewrite (Hzero ik) by lia. apply IH; [lia|]. intros j Hj. apply Hzero. lia.
Qed.

(** In a one-hot column the search finds the label. *)
Lemma find_label_one_hot (lbls : Matrix E) (col first : nat) :
  first < GetNumRows lbls ->
  snonzero (elem lbls first col) = true ->
  (forall j, j < GetNumRows lbls -> j <> first -> snonzero (elem lbls j col) = false) ->
  find_label lbls col = Z.of_nat first.
Proof.
  intros Hlt Hfirst Hzero. unfold find_label.
  apply find_label_from_first; [exact Hfirst|lia|].
  intros j Hj. apply Hzero; lia.
Qed.

Section Recurrence.
Variables (lbls pos_scores pair_scores : Matrix E).
Local Abbreviation L := (GetNumRows lbls).
Local Abbreviation T := (GetNumCols lbls).
Local Abbreviation firstLbl := (find_label lbls 0).
Local Abbreviation cell_value := (CRFNode.cell_value lbls pos_scores pair_scores).
Local Abbreviation filled_before := (CRFNode.filled_before lbls pos_scores pair_scores).
Local Abbreviation cell := (ForwardCompute_cell L firstLbl pos_scores pair_scores).

Lemma cell_value_SetElem (A : Matrix E) (t k t' k' : nat) (v : E) :
  t' <= t -> cell_value (SetElem k t v A) t' k' = cell_value A t' k'.
Proof.
  intros Hle. unfold cell_value. f_equal. apply logAddOver_ext. intros j Hj.
  f_equal. unfold fAlpha_at. destruct (0 <? t') eqn:Ht'; [|reflexivity].
  apply Nat.ltb_lt in Ht'. cbn [SetElem with_elem elem].
  replace (t' - 1 =? t) with false by (symmetry; apply Nat.eqb_neq; lia).
  rewrite andb_false_r. reflexivity.
Qed.

Lemma cell_step (A : Matrix E) (t k : nat) :
  k < L -> filled_before A t k -> filled_before (cell t k A) t (S k).
Proof.
  intros Hk Hinv t' k' Hk' Hbefore. unfold cell, ForwardCompute_cell.
  rewrite cell_value_SetElem by lia.
  cbn [SetElem with_elem elem].
  destruct ((k' =? k) && (t' =? t)) eqn:Hcell.
  - apply andb_true_iff in Hcell. destruct Hcell as [Hk1 Ht1].
    apply Nat.eqb_eq in Hk1, Ht1. subst. reflexivity.
  - apply Hinv; [exact Hk'|].
    apply andb_false_iff in Hcell. rewrite !Nat.eqb_neq in Hcell. lia.
Qed.

Lemma column_step (A : Matrix E) (t : nat) :
  filled_before A t 0 -> filled_before (iterate 0 L (cell t) A) (S t) 0.
Proof.
  intros Hinv.
  pose proof (iterate_invariant (fun k A' => filled_before A' t k) (cell t) L 0 A Hinv)
    as Hloop.
  cbn [Nat.add] in Hloop.
  assert (Hend : filled_before (iterate 0 L (cell t) A) t L).
  { apply Hloop. intros i x Hi. apply cell_step. lia. }
  intros t' k' Hk' Hbefore. apply Hend; [exact Hk'|lia].
Qed.

Lemma all_columns (A : Matrix E) (n : nat) :
  filled_before (iterate 0 n (fun t => iterate 0 L (cell t)) A) n 0.
Proof.
  pose proof (iterate_invariant (fun t A' => filled_before A' t 0)
                (fun t => iterate 0 L (cell t)) n 0 A) as Hloop.
  cbn [Nat.add] in Hloop. apply Hloop.
  - intros t' k' _ Hbefore. lia.
  - intros i x _. apply column_step.
Qed.

(** The recurrence the forward pass leaves in [alpha], in the order the
    code adds: log-sum-exp first, position score last. *)
Lemma ForwardCompute_cells (alpha : Matrix E) :
  (Z.of_nat T < 2 ^ 31)%Z -> (Z.of_nat L < 2 ^ 31)%Z ->
  forall t k, t < T -> k < L ->
    elem (ForwardCompute alpha lbls pos_scores pair_scores) k t
    = cell_value (ForwardCompute alpha lbls pos_scores pair_scores) t k.
Proof.
  intros HT HL t k Ht Hk. unfold ForwardCompute.
  rewrite !int_of_size_t_small by assumption. rewrite !Nat2Z.id.
  apply (all_columns (Resize L T alpha) T t k Hk). left. exact Ht.
Qed.

End Recurrence.

(** The recurrence with the position score first. *)
Lemma ForwardCompute_recursion {SL : ScalarLaws E}
  (alpha lbls pos_scores pair_scores : Matrix E) (first : nat) :
  (Z.of_nat (GetNumCols lbls) < 2 ^ 31)%Z ->
  (Z.of_nat (GetNumRows lbls) < 2 ^ 31)%Z ->
  first < GetNumRows lbls ->
  snonzero (elem lbls first 0) = true ->
  (forall j, j < GetNumRows lbls -> j <> first -> snonzero (elem lbls j 0) = false) ->
  let alpha' := ForwardCompute alpha lbls pos_scores pair_scores in
  forall t k, t < GetNumCols lbls -> k < GetNumRows lbls ->
    elem alpha' k t
    = (elem pos_scores k t
       + logAddOver (GetNumRows lbls)
           (fun j => (if t =? 0 then (if j =? first then s0 else LZERO)
                      else elem alpha' j (t - 1))
                     + elem pair_scores k j))%E.
Proof.
  intros HT HL Hfirst Hhot Hzero alpha' t k Ht Hk.
  unfold alpha'. rewrite (ForwardCompute_cells lbls pos_scores pair_scores alpha HT HL t k Ht Hk).
  unfold cell_value.
  rewrite (Radd_comm scalar_ring). f_equal.
  apply logAddOver_ext. intros j Hj. f_equal.
  unfold fAlpha_at. rewrite (find_label_one_hot lbls 0 first Hfirst Hhot Hzero).
  destruct t as [|t]; cbn [Nat.ltb Nat.leb Nat.eqb].
  - destruct (Nat.eqb_spec j first) as [->|Hne].
    + rewrite Z.eqb_refl. reflexivity.
    + replace (Z.of_nat j =? Z.of_nat first)%Z with false
        by (symmetry; apply Z.eqb_neq; lia).
      reflexivity.
  - reflexivity.
Qed.

(** C2.  After the forward pass over a sequence whose first label column is
    one-hot at [first], every cell of [alpha] satisfies
    [alpha(k,t) = pos_scores(k,t) + logAddOver_j (f j + pair_scores(k,j))]
    where [f j] is [alpha(j,t-1)] for [t > 0] and, for [t = 0], zero at
    [j = first] and the sentinel [LZERO] elsewhere; [logAddOver] chains the
    log-sum-exp [LogAdd] from [LZERO]. *)
Theorem crf_forward_recursion {SL : ScalarLaws E}
  (alpha lbls pos_scores pair_scores : Matrix E) (first : nat) :
  (Z.of_nat (GetNumCols lbls) < 2 ^ 31)%Z ->
  (Z.of_nat (GetNumRows lbls) < 2 ^ 31)%Z ->
  first < GetNumRows lbls ->
  snonzero (elem lbls first 0) = true ->
  (forall j, j < GetNumRows lbls -> j <> first -> snonzero (elem lbls j 0) = false) ->
  let alpha' := ForwardCompute alpha lbls pos_scores pair_scores in
  forall t k, t < GetNumCols lbls -> k < GetNumRows lbls ->
    elem alpha' k t
    = (elem pos_scores k t
       + logAddOver (GetNumRows lbls)
           (fun j => (if t =? 0 then (if j =? first then s0 else LZERO)
                      else elem alpha' j (t - 1))
                     + elem pair_scores k j))%E.
Proof.
  intros HT HL Hfirst Hhot Hzero alpha'.
  exact (ForwardCompute_recursion alpha lbls pos_scores pair_scores first HT HL Hfirst Hhot Hzero).
Qed.

End CRFForward.

(** ** CRF: the negative log-likelihood *)

Section CRFLikelihood.
Context {E : Type} {SE : Scalar E} {LS : LogScalar E} {SL : ScalarLaws E}.
Import CRFNode.

Add Ring scalar_ring_inst : (@scalar_ring E SE SL).

Lemma sum_upto_ext (n : nat) (f g : nat -> E) :
  (forall i, i < n -> f i = g i) -> sum_upto n f = sum_upto n g.
Proof.
  induction n as [|n IH]; intros H; simpl; [reflexivity|].
  rewrite IH by (intros i Hi; apply H; lia). rewrite (H n) by lia. reflexivity.
Qed.

Lemma sum_one_hot (lbls pos_scores : Matrix E) (t l : nat) :
  one_hot_column lbls t l ->
  forall n, n <= GetNumRows lbls ->
    sum_upto n (fun i => elem lbls i t * elem pos_scores i t)%E
    = if l <? n then elem pos_scores l t else s0.
Proof.
  intros [Hl [Hone Hzero]] n; induction n as [|n IH]; intros Hn; [reflexivity|].
  cbn [sum_upto]. rewrite IH by lia.
  destruct (Nat.eq_dec n l) as [->|Hne].
  - rewrite Nat.ltb_irrefl, Hone.
    replace (l <? S l) with true by (symmetry; apply Nat.ltb_lt; lia). ring.
  - rewrite (Hzero n) by lia.
    destruct (l <? n) eqn:Hln.
    + replace (l <? S n) with true by (symmetry; apply Nat.ltb_lt; apply Nat.ltb_lt in Hln; lia).
      ring.
    + replace (l <? S n) with false
        by (symmetry; apply Nat.ltb_ge; apply Nat.ltb_ge in Hln; lia).
      ring.
Qed.

Lemma InnerProduct_one_hot (lbls pos_scores : Matrix E) (label : nat -> nat) :
  (forall t, t < GetNumCols lbls -> one_hot_column lbls t (label t)) ->
  InnerProduct lbls pos_scores = path_position_score pos_scores label (GetNumCols lbls).
Proof.
  intros Hhot. unfold InnerProduct, path_position_score.
  apply sum_upto_ext. intros t Ht.
  rewrite (sum_one_hot lbls pos_scores t (label t) (Hhot t Ht) _ (Nat.le_refl _)).
  destruct (Hhot t Ht) as [Hl _]. apply Nat.ltb_lt in Hl. rewrite Hl. reflexivity.
Qed.

Lemma iterate_snoc {A : Type} (f : nat -> A -> A) :
  forall count start a,
    iterate start (S count) f a = f (start + count) (iterate start count f a).
Proof.
  induction count as [|c IH]; intros start a.
  - simpl. rewrite Nat.add_0_r. reflexivity.
  - change (iterate start (S (S c)) f a) with (iterate (S start) (S c) f (f start a)).
    rewrite IH. rewrite Nat.add_succ_r. reflexivity.
Qed.

Lemma iterate_sum (f : nat -> E) (n : nat) :
  iterate 0 n (fun t acc => acc + f t)%E s0 = sum_upto n f.
Proof.
  induction n as [|n IH]; [reflexivity|].
  rewrite iterate_snoc, IH. reflexivity.
Qed.

Lemma one_hot_find_label (lbls : Matrix E) (t l : nat) :
  one_hot_column lbls t l -> find_label lbls t = Z.of_nat l.
Proof.
  intros [Hl [Hone Hzero]]. apply find_label_one_hot; [exact Hl| |].
  - rewrite Hone. apply snonzero_s1.
  - intros j Hj Hne. rewrite (Hzero j Hj Hne). apply snonzero_s0.
Qed.

(** With a label in every column it reads, the loop of the transition
    score returns the sum of the transitions. *)
Lemma transition_score_some (lbls pair_scores : Matrix E) (nObs : Z) :
  (forall t, t < Z.to_nat (nObs - 1) ->
             (0 <= find_label lbls t)%Z /\ (0 <= find_label lbls (t + 1))%Z) ->
  transition_score lbls pair_scores nObs
  = Some (iterate 0 (Z.to_nat (nObs - 1))
            (fun t tscore =>
               tscore + elem pair_scores (Z.to_nat (find_label lbls (t + 1)))
                                         (Z.to_nat (find_label lbls t)))%E
            s0).
Proof.
  unfold transition_score. generalize (Z.to_nat (nObs - 1)) as n.
  induction n as [|n IH]; intros H; [reflexivity|].
  rewrite !iterate_snoc. rewrite IH by (intros t Ht; apply H; lia).
  cbn [Nat.add]. cbv zeta. unfold pair_score_at.
  destruct (H n (Nat.lt_succ_diag_r n)) as [Hi Hj].
  replace (find_label lbls (n + 1) <? 0)%Z with false by (symmetry; apply Z.ltb_ge; exact Hj).
  replace (find_label lbls n <? 0)%Z with false by (symmetry; apply Z.ltb_ge; exact Hi).
  reflexivity.
Qed.

Lemma labelled_transitions_some (lbls pair_scores : Matrix E) :
  (Z.of_nat (GetNumCols lbls) < 2 ^ 31)%Z ->
  labelled_transitions lbls ->
  exists tscore,
    transition_score lbls pair_scores (int_of_size_t (GetNumCols lbls)) = Some tscore.
Proof.
  intros HT Hlab. eexists. apply transition_score_some.
  intros t Ht. rewrite int_of_size_t_small in Ht by exact HT. apply Hlab. lia.
Qed.

Lemma one_hot_labelled (lbls : Matrix E) (label : nat -> nat) :
  (forall t, t < GetNumCols lbls -> one_hot_column lbls t (label t)) ->
  labelled_transitions lbls.
Proof.
  intros Hhot t Ht.
  rewrite (one_hot_find_label lbls t (label t)) by (apply Hhot; lia).
  rewrite (one_hot_find_label lbls (t + 1) (label (t + 1))) by (apply Hhot; lia).
  lia.
Qed.

Lemma transition_score_one_hot (lbls pair_scores : Matrix E) (label : nat -> nat) :
  0 < GetNumCols lbls ->
  (Z.of_nat (GetNumCols lbls) < 2 ^ 31)%Z ->
  (forall t, t < GetNumCols lbls -> one_hot_column lbls t (label t)) ->
  transition_score lbls pair_scores (int_of_size_t (GetNumCols lbls))
  = Some (path_transition_score pair_scores label (GetNumCols lbls)).
Proof.
  intros Hpos HT Hhot. rewrite transition_score_some.
  2: { intros t Ht. rewrite int_of_size_t_small in Ht by exact HT.
       apply (one_hot_labelled lbls label Hhot). lia. }
  f_equal. unfold path_transition_score.
  rewrite int_of_size_t_small by exact HT.
  replace (Z.to_nat (Z.of_nat (GetNumCols lbls) - 1)) with (GetNumCols lbls - 1) by lia.
  rewrite <- iterate_sum.
  set (n := GetNumCols lbls - 1).
  assert (Hn : n <= GetNumCols lbls - 1) by (subst n; lia).
  clearbody n. generalize (@s0 E SE) as a.
  induction n as [|n IH]; intros a; [reflexivity|].
  rewrite !iterate_snoc. rewrite IH by lia. cbn [Nat.add].
  rewrite (one_hot_find_label lbls n (label n)) by (apply Hhot; lia).
  rewrite (one_hot_find_label lbls (n + 1) (label (n + 1))) by (apply Hhot; lia).
  rewrite !Nat2Z.id. reflexivity.
Qed.

Lemma ForwardCompute_rows (alpha lbls pos_scores pair_scores : Matrix E) :
  GetNumRows (ForwardCompute alpha lbls pos_scores pair_scores)
  = Z.to_nat (int_of_size_t (GetNumRows lbls)).
Proof.
  unfold ForwardCompute.
  set (L := Z.to_nat (int_of_size_t (GetNumRows lbls))).
  set (T := Z.to_nat (int_of_size_t (GetNumCols lbls))).
  apply (iterate_invariant (fun _ A => GetNumRows A = L)
           (fun t => iterate 0 L (ForwardCompute_cell L (find_label lbls 0)
                                                      pos_scores pair_scores t))
           T 0 (Resize L T alpha) eq_refl).
  intros t A _ HA.
  apply (iterate_invariant (fun _ A' => GetNumRows A' = L)
           (ForwardCompute_cell L (find_label lbls 0) pos_scores pair_scores t)
           L 0 A HA).
  intros k A' _ HA'. exact HA'.
Qed.

Section PerSequence.
Context {TE : TensorEngine E}.

(** The output of [EvaluateThisNodeS] for one sequence with one-hot
    labels. *)
Lemma EvaluateThisNodeS_output
  (postprob alpha beta functionValues lbls pos_scores pair_scores : Matrix E)
  (label : nat -> nat) :
  0 < GetNumCols lbls ->
  (Z.of_nat (GetNumCols lbls) < 2 ^ 31)%Z ->
  (Z.of_nat (GetNumRows lbls) < 2 ^ 31)%Z ->
  (forall t, t < GetNumCols lbls -> one_hot_column lbls t (label t)) ->
  let r := EvaluateThisNodeS postprob alpha beta functionValues lbls pos_scores
                             pair_scores 1 in
  Get00Element (out_functionValues r)
  = (- ((path_position_score pos_scores label (GetNumCols lbls)
         + path_transition_score pair_scores label (GetNumCols lbls))
        - log_partition (out_alpha r) (GetNumRows lbls) (GetNumCols lbls)))%E.
Proof.
  intros Hpos HT HL Hhot r. unfold r, EvaluateThisNodeS. cbv zeta.
  rewrite (transition_score_one_hot lbls pair_scores label Hpos HT Hhot).
  replace (int_of_size_t (GetNumCols lbls) - 1 <? 0)%Z with false
    by (symmetry; apply Z.ltb_ge; rewrite int_of_size_t_small by exact HT; lia).
  cbn [out_functionValues out_alpha Get00Element ScaleBy SetValueScalar with_elem elem
       AssignInnerProductOfMatrices].
  rewrite (InnerProduct_one_hot lbls pos_scores label Hhot).
  unfold LogAddSumOfElements, log_partition.
  cbn [ColumnSlice GetNumRows elem].
  rewrite ForwardCompute_rows, !int_of_size_t_small by assumption.
  rewrite Nat2Z.id, Nat.add_0_r.
  replace (Z.to_nat (Z.of_nat (GetNumCols lbls) - 1)) with (GetNumCols lbls - 1) by lia.
  ring.
Qed.

(** [alpha] is written by [ForwardCompute], before any read that can be
    outside a tensor. *)
Lemma EvaluateThisNodeS_alpha
  (postprob alpha beta functionValues lbls pos_scores pair_scores : Matrix E) :
  out_alpha (EvaluateThisNodeS postprob alpha beta functionValues lbls pos_scores
                               pair_scores 1)
  = ForwardCompute alpha lbls pos_scores pair_scores.
Proof.
  unfold EvaluateThisNodeS. cbv zeta.
  destruct (int_of_size_t (GetNumCols lbls) - 1 <? 0)%Z; [reflexivity|].
  destruct (transition_score lbls pair_scores (int_of_size_t (GetNumCols lbls)));
    reflexivity.
Qed.

(** On a sequence with a column, and a label wherever a transition is
    read, [EvaluateThisNodeS] returns. *)
Lemma EvaluateThisNodeS_returns
  (postprob alpha beta functionValues lbls pos_scores pair_scores : Matrix E) :
  0 < GetNumCols lbls ->
  (Z.of_nat (GetNumCols lbls) < 2 ^ 31)%Z ->
  labelled_transitions lbls ->
  out_outcome (EvaluateThisNodeS postprob alpha beta functionValues lbls pos_scores
                                 pair_scores 1)
  = Returned tt.
Proof.
  intros Hpos HT Hlab. unfold EvaluateThisNodeS. cbv zeta.
  destruct (labelled_transitions_some lbls pair_scores HT Hlab) as [tscore Hts].
  rewrite Hts.
  replace (int_of_size_t (GetNumCols lbls) - 1 <? 0)%Z with false
    by (symmetry; apply Z.ltb_ge; rewrite int_of_size_t_small by exact HT; lia).
  reflexivity.
Qed.

End PerSequence.

End CRFLikelihood.

Section CRFBatch.
Context {E : Type} {SE : Scalar E} {LS : LogScalar E} {SL : ScalarLaws E}
        {TE : TensorEngine E}.
Import CRFNode.

Add Ring scalar_ring_batch : (@scalar_ring E SE SL).

Lemma ForwardCompute_determined (A1 A2 lbls pos_scores pair_scores : Matrix E) :
  (Z.of_nat (GetNumCols lbls) < 2 ^ 31)%Z ->
  (Z.of_nat (GetNumRows lbls) < 2 ^ 31)%Z ->
  forall t k, t < GetNumCols lbls -> k < GetNumRows lbls ->
    elem (ForwardCompute A1 lbls pos_scores pair_scores) k t
    = elem (ForwardCompute A2 lbls pos_scores pair_scores) k t.
Proof.
  intros HT HL t. induction t as [|t IH]; intros k Ht Hk.
  - rewrite !(ForwardCompute_cells lbls pos_scores pair_scores _ HT HL 0 k Ht Hk).
    reflexivity.
  - rewrite !(ForwardCompute_cells lbls pos_scores pair_scores _ HT HL (S t) k Ht Hk).
    unfold cell_value. f_equal. apply logAddOver_ext. intros j Hj. f_equal.
    unfold fAlpha_at. cbn [Nat.ltb Nat.leb].
    replace (S t - 1) with t by lia. apply IH; [lia|exact Hj].
Qed.

Lemma log_partition_determined (A1 A2 lbls pos_scores pair_scores : Matrix E) :
  0 < GetNumCols lbls ->
  (Z.of_nat (GetNumCols lbls) < 2 ^ 31)%Z ->
  (Z.of_nat (GetNumRows lbls) < 2 ^ 31)%Z ->
  log_partition (ForwardCompute A1 lbls pos_scores pair_scores)
                (GetNumRows lbls) (GetNumCols lbls)
  = log_partition (ForwardCompute A2 lbls pos_scores pair_scores)
                  (GetNumRows lbls) (GetNumCols lbls).
Proof.
  intros Hpos HT HL. unfold log_partition. apply logAddOver_ext. intros k Hk.
  apply ForwardCompute_determined; [exact HT|exact HL|lia|exact Hk].
Qed.

Lemma EvaluateThisNode_step_run (nstep i : nat) (funcVal : Matrix E) (s : Node E)
  (lblN posN pairN : InputNode E) (rest : list (InputNode E)) :
  m_children (base s) = lblN :: posN :: pairN :: rest ->
  out_outcome (EvaluateThisNodeS (ColumnSlice (i * nstep) nstep (mPostProb s))
                                 (ColumnSlice (i * nstep) nstep (mAlpha s))
                                 (ColumnSlice (i * nstep) nstep (mBeta s)) funcVal
                                 (ColumnSlice (i * nstep) nstep (FunctionValues lblN))
                                 (ColumnSlice (i * nstep) nstep (FunctionValues posN))
                                 (FunctionValues pairN) 1)
  = Returned tt ->
  exists r s',
    EvaluateThisNode_step nstep i funcVal s = (Returned (out_functionValues r), s') /\
    r = EvaluateThisNodeS (ColumnSlice (i * nstep) nstep (mPostProb s))
                          (ColumnSlice (i * nstep) nstep (mAlpha s))
                          (ColumnSlice (i * nstep) nstep (mBeta s)) funcVal
                          (ColumnSlice (i * nstep) nstep (FunctionValues lblN))
                          (ColumnSlice (i * nstep) nstep (FunctionValues posN))
                          (FunctionValues pairN) 1 /\
    m_children (base s') = m_children (base s) /\
    m_pMBLayout (base s') = m_pMBLayout (base s) /\
    node_output s' = (node_output s + Get00Element (out_functionValues r))%E.
Proof.
  intros Hch Hret.
  assert (H0 : nth_error (m_children (get_base s)) 0 = Some lblN)
    by (cbn [get_base node_state]; rewrite Hch; reflexivity).
  assert (H1 : nth_error (m_children (get_base s)) 1 = Some posN)
    by (cbn [get_base node_state]; rewrite Hch; reflexivity).
  assert (H2 : nth_error (m_children (get_base s)) 2 = Some pairN)
    by (cbn [get_base node_state]; rewrite Hch; reflexivity).
  unfold EvaluateThisNode_step.
  unfold bind at 1. rewrite (InputFunctionValues_some (S := Node E) 0 s lblN H0).
  unfold bind at 1. rewrite (InputFunctionValues_some (S := Node E) 1 s posN H1).
  unfold bind at 1. rewrite (InputFunctionValues_some (S := Node E) 2 s pairN H2).
  cbv [bind gets modify]. rewrite Hret. cbv [bind OnFunctionValues modify ret].
  eexists; eexists. split; [reflexivity|]. split; [reflexivity|].
  split; [reflexivity|]. split; reflexivity.
Qed.

End CRFBatch.

Section CRFOutput.
Context {E : Type} {SE : Scalar E} {LS : LogScalar E} {SL : ScalarLaws E}
        {TE : TensorEngine E}.
Import CRFNode.

Add Ring scalar_ring_output : (@scalar_ring E SE SL).

Lemma sequence_output (postprob alpha beta functionValues lbls pos_scores pair_scores
  : Matrix E) (label : nat -> nat) :
  0 < GetNumCols lbls ->
  (Z.of_nat (GetNumCols lbls) < 2 ^ 31)%Z ->
  (Z.of_nat (GetNumRows lbls) < 2 ^ 31)%Z ->
  (forall t, t < GetNumCols lbls -> one_hot_column lbls t (label t)) ->
  Get00Element (out_functionValues
                  (EvaluateThisNodeS postprob alpha beta functionValues lbls pos_scores
                                     pair_scores 1))
  = sequence_nll lbls pos_scores pair_scores label.
Proof.
  intros Hpos HT HL Hhot.
  rewrite (EvaluateThisNodeS_output postprob alpha beta functionValues lbls pos_scores
             pair_scores label Hpos HT HL Hhot).
  unfold sequence_nll, forward_table. rewrite EvaluateThisNodeS_alpha.
  rewrite (log_partition_determined alpha (mkMatrix 0 0 (fun _ _ => s0) 0%Z) lbls pos_scores
             pair_scores Hpos HT HL).
  reflexivity.
Qed.

Lemma EvaluateThisNode_output (s : Node E) (lblN posN pairN : InputNode E)
  (rest : list (InputNode E)) (layout : MBLayout) (label : nat -> nat -> nat) :
  m_children (base s) = lblN :: posN :: pairN :: rest ->
  m_pMBLayout (base s) = Some layout ->
  let nS := LayoutNumParallelSequences layout in
  let nstep := GetNumCols (FunctionValues lblN) / nS in
  0 < nstep ->
  (Z.of_nat nstep < 2 ^ 31)%Z ->
  (Z.of_nat (GetNumRows (FunctionValues lblN)) < 2 ^ 31)%Z ->
  one_hot_sequences (FunctionValues lblN) nS nstep label ->
  fst (EvaluateThisNode s) = Returned tt /\
  node_output (snd (EvaluateThisNode s))
  = sum_upto nS (fun i =>
      sequence_nll (ColumnSlice (i * nstep) nstep (FunctionValues lblN))
                   (ColumnSlice (i * nstep) nstep (FunctionValues posN))
                   (FunctionValues pairN) (label i)).
Proof.
  intros Hch Hlay nS nstep Hpos HT HL Hhot.
  assert (H0 : nth_error (m_children (get_base s)) 0 = Some lblN)
    by (cbn [get_base node_state]; rewrite Hch; reflexivity).
  cut (exists s', EvaluateThisNode s = (Returned tt, s') /\
                  node_output s'
                  = sum_upto nS (fun i =>
                      sequence_nll (ColumnSlice (i * nstep) nstep (FunctionValues lblN))
                                   (ColumnSlice (i * nstep) nstep (FunctionValues posN))
                                   (FunctionValues pairN) (label i))).
  { intros [s' [Hrun Hout]]. rewrite Hrun. split; [reflexivity|exact Hout]. }
  unfold EvaluateThisNode.
  unfold bind at 1. rewrite (InputFunctionValues_some (S := Node E) 0 s lblN H0).
  unfold bind at 1, modify at 1.
  unfold bind at 1, OnFunctionValues at 1, modify at 1.
  unfold bind at 1, NodeFunctionValues at 1, gets at 1.
  unfold bind at 1, GetNumParallelSequences at 1.
  cbn [get_base set_base node_state base set_functionValues m_pMBLayout m_functionValues].
  rewrite Hlay. fold nS. fold nstep. unfold bind.
  match goal with
  | |- context [for_acc 0 nS ?body ?a0 ?st0] =>
      destruct (@for_acc_invariant (Node E) (Matrix E)
                  (fun i (_ : Matrix E) (st : Node E) =>
                     m_children (base st) = lblN :: posN :: pairN :: rest /\
                     node_output st
                     = sum_upto i (fun i =>
                         sequence_nll (ColumnSlice (i * nstep) nstep (FunctionValues lblN))
                                      (ColumnSlice (i * nstep) nstep (FunctionValues posN))
                                      (FunctionValues pairN) (label i)))
                  body nS 0 a0 st0) as [a' [s' [Hloop [_ Hout]]]]
  end.
  - split; [exact Hch|reflexivity].
  - intros i x st Hi [Hst Hsum].
    assert (Hhot_i : forall t, t < nstep ->
                       one_hot_column (ColumnSlice (i * nstep) nstep (FunctionValues lblN))
                                      t (label i t))
      by (intros t Ht; apply Hhot; [lia|exact Ht]).
    destruct (EvaluateThisNode_step_run nstep i x st lblN posN pairN rest Hst)
      as [r [st' [Hrun [Hr [Hch' [_ Hout']]]]]].
    { apply EvaluateThisNodeS_returns; cbn [ColumnSlice GetNumCols];
        [exact Hpos|exact HT|].
      apply (one_hot_labelled _ (label i)). exact Hhot_i. }
    exists (out_functionValues r), st'. split; [exact Hrun|].
    split; [rewrite Hch'; exact Hst|].
    rewrite Hout', Hsum, Hr. cbn [sum_upto]. f_equal.
    apply sequence_output; cbn [ColumnSlice GetNumCols GetNumRows];
      [exact Hpos|exact HT|exact HL|].
    intros t Ht. apply Hhot; [lia|exact Ht].
  - exists s'. rewrite Hloop. split; [reflexivity|exact Hout].
Qed.

(** The forward pass on a sequence of length one. *)
Lemma length_one_sequence (postprob alpha beta functionValues lbls pos_scores pair_scores
  : Matrix E) (true_label : nat) :
  GetNumCols lbls = 1 ->
  (Z.of_nat (GetNumRows lbls) < 2 ^ 31)%Z ->
  one_hot_column lbls 0 true_label ->
  let r := EvaluateThisNodeS postprob alpha beta functionValues lbls pos_scores
                             pair_scores 1 in
  (forall k, k < GetNumRows lbls ->
     elem (out_alpha r) k 0
     = (elem pos_scores k 0
        + logAddOver (GetNumRows lbls)
            (fun j => (if j =? true_label then s0 else LZERO) + elem pair_scores k j))%E) /\
  Get00Element (out_functionValues r)
  = (- elem pos_scores true_label 0
     + logAddOver (GetNumRows lbls) (fun k => elem (out_alpha r) k 0))%E.
Proof.
  intros Hcols HL Hhot r.
  assert (HT : (Z.of_nat (GetNumCols lbls) < 2 ^ 31)%Z) by (rewrite Hcols; reflexivity).
  assert (Hpos : 0 < GetNumCols lbls) by (rewrite Hcols; lia).
  split.
  - intros k Hk. unfold r. rewrite EvaluateThisNodeS_alpha.
    destruct Hhot as [Hl [Hone Hzero]].
    assert (Hhot1 : snonzero (elem lbls true_label 0) = true)
      by (rewrite Hone; apply snonzero_s1).
    assert (Hhot0 : forall j, j < GetNumRows lbls -> j <> true_label ->
                              snonzero (elem lbls j 0) = false)
      by (intros j Hj Hne; rewrite (Hzero j Hj Hne); apply snonzero_s0).
    exact (ForwardCompute_recursion alpha lbls pos_scores pair_scores true_label
             HT HL Hl Hhot1 Hhot0 0 k Hpos Hk).
  - unfold r.
    rewrite (EvaluateThisNodeS_output postprob alpha beta functionValues lbls pos_scores
               pair_scores (fun _ => true_label) Hpos HT HL).
    + unfold path_position_score, path_transition_score, log_partition.
      rewrite Hcols. cbn [sum_upto Nat.sub]. ring.
    + intros t Ht. rewrite Hcols in Ht. replace t with 0 by lia. exact Hhot.
Qed.

(** C3, as the code has it.  On a sequence of length one whose label
    column is one-hot at [true_label], [alpha(k,0)] is the position score
    [pos_scores(k,0)] plus the log-sum-exp over [j] of the seed (zero at
    the labelled [j], [LZERO] elsewhere) plus the transition score
    [pair_scores(k,j)], and the output of the sequence is
    [- pos_scores(true_label,0) + logAddOver_k alpha(k,0)].  In general the
    output of the node is the sum, over the parallel sequences of the
    batch, of the negative of the path's position score plus the path's
    transition score minus the log partition function
    [logAddOver_k alpha(k,T-1)] of the sequence.  ([beta] is written by the
    backward routine of the tensor library.) *)
Theorem crf_negative_log_likelihood :
  (forall (postprob alpha beta functionValues lbls pos_scores pair_scores : Matrix E)
          (true_label : nat),
      GetNumCols lbls = 1 ->
      (Z.of_nat (GetNumRows lbls) < 2 ^ 31)%Z ->
      one_hot_column lbls 0 true_label ->
      let r := EvaluateThisNodeS postprob alpha beta functionValues lbls pos_scores
                                 pair_scores 1 in
      (forall k, k < GetNumRows lbls ->
         elem (out_alpha r) k 0
         = (elem pos_scores k 0
            + logAddOver (GetNumRows lbls)
                (fun j => (if j =? true_label then s0 else LZERO)
                          + elem pair_scores k j))%E) /\
      Get00Element (out_functionValues r)
      = (- elem pos_scores true_label 0
         + logAddOver (GetNumRows lbls) (fun k => elem (out_alpha r) k 0))%E) /\
  (forall (s : Node E) (lblN posN pairN : InputNode E) (rest : list (InputNode E))
          (layout : MBLayout) (label : nat -> nat -> nat),
      m_children (base s) = lblN :: posN :: pairN :: rest ->
      m_pMBLayout (base s) = Some layout ->
      let nS := LayoutNumParallelSequences layout in
      let nstep := GetNumCols (FunctionValues lblN) / nS in
      0 < nstep ->
      (Z.of_nat nstep < 2 ^ 31)%Z ->
      (Z.of_nat (GetNumRows (FunctionValues lblN)) < 2 ^ 31)%Z ->
      one_hot_sequences (FunctionValues lblN) nS nstep label ->
      fst (EvaluateThisNode s) = Returned tt /\
      node_output (snd (EvaluateThisNode s))
      = sum_upto nS (fun i =>
          sequence_nll (ColumnSlice (i * nstep) nstep (FunctionValues lblN))
                       (ColumnSlice (i * nstep) nstep (FunctionValues posN))
                       (FunctionValues pairN) (label i))).
Proof.
  split.
  - exact length_one_sequence.
  - exact EvaluateThisNode_output.
Qed.

End CRFOutput.

(** ** Accumulation into the gradient of an input *)

Section AccumulationFacts.
Context {E : Type} {SE : Scalar E} {S : Type} {NS : NodeState E S}.

Lemma with_input_gradient_some (i : nat) (G : Matrix E) (s : S) (c : InputNode E) :
  nth_error (m_children (get_base s)) i = Some c ->
  with_input_gradient i G s =
  set_base (set_children (list_set i (set_GradientValues G c) (m_children (get_base s)))
                         (get_base s)) s.
Proof. intros H. unfold with_input_gradient. rewrite H. reflexivity. Qed.

Lemma with_input_gradient_twice (i : nat) (G G' : Matrix E) (s : S) :
  with_input_gradient i G' (with_input_gradient i G s) = with_input_gradient i G' s.
Proof.
  destruct (nth_error (m_children (get_base s)) i) as [c|] eqn:Hc.
  - rewrite (with_input_gradient_some i G s c Hc).
    erewrite with_input_gradient_some
      by (rewrite get_set_base; cbn [m_children set_children];
          eapply nth_error_list_set_eq; exact Hc).
    rewrite (with_input_gradient_some i G' s c Hc).
    rewrite get_set_base, set_set_base. cbn [m_children set_children set_GradientValues
      OperationName FunctionValues]. rewrite list_set_twice. reflexivity.
  - unfold with_input_gradient. rewrite Hc. rewrite Hc. reflexivity.
Qed.

Lemma OnInputGradientValues_with (i : nat) (f : Matrix E -> Matrix E) (G : Matrix E) (s : S) :
  i < List.length (m_children (get_base s)) ->
  OnInputGradientValues i f (with_input_gradient i G s)
  = (Returned tt, with_input_gradient i (f G) s).
Proof.
  intros Hi.
  destruct (nth_error (m_children (get_base s)) i) as [c|] eqn:Hc;
    [|apply nth_error_None in Hc; lia].
  rewrite (OnInputGradientValues_some i f (with_input_gradient i G s)
             (child_with_input_gradient i G s Hc)).
  f_equal.
  rewrite <- (with_input_gradient_twice i G (f G) s).
  symmetry. apply with_input_gradient_some.
  apply (child_with_input_gradient i G s Hc).
Qed.

Lemma commutes_InputFunctionValues (i j : nat) (G : Matrix E) :
  commutes (with_input_gradient i G) (InputFunctionValues (S := S) j).
Proof.
  intros s. unfold InputFunctionValues, bind, Inputs, ret.
  destruct (Nat.eq_dec i j) as [->|Hne].
  - destruct (nth_error (m_children (get_base s)) j) as [c|] eqn:Hc.
    + rewrite (child_with_input_gradient j G s Hc). reflexivity.
    + unfold with_input_gradient. rewrite Hc. cbn [fst snd]. rewrite Hc. reflexivity.
  - rewrite (other_child_with_input_gradient G s Hne).
    destruct (nth_error (m_children (get_base s)) j); reflexivity.
Qed.

Lemma commutes_NodeGradientValues (i : nat) (G : Matrix E) :
  commutes (with_input_gradient i G) (NodeGradientValues (S := S)).
Proof.
  apply commutes_gets. intros s. apply node_gradient_with_input_gradient.
Qed.

Lemma children_length_with (i : nat) (G : Matrix E) (s : S) :
  List.length (m_children (get_base (with_input_gradient i G s)))
  = List.length (m_children (get_base s)).
Proof.
  unfold with_input_gradient.
  destruct (nth_error (m_children (get_base s)) i); [|reflexivity].
  rewrite get_set_base. cbn [m_children set_children]. apply length_list_set.
Qed.

Lemma input_value_with (i j : nat) (G : Matrix E) (s : S) :
  input_value j (with_input_gradient i G s) = input_value j s.
Proof.
  unfold input_value. destruct (Nat.eq_dec i j) as [->|Hne].
  - destruct (nth_error (m_children (get_base s)) j) as [c|] eqn:Hc.
    + rewrite (child_with_input_gradient j G s Hc). reflexivity.
    + unfold with_input_gradient. rewrite Hc, Hc. reflexivity.
  - rewrite (other_child_with_input_gradient G s Hne). reflexivity.
Qed.

(** The pattern of the nodes that update one gradient tensor in place. *)
Lemma adds_by_one_update (c : M S unit) (i : nat) (f : Matrix E -> Matrix E)
  (h : S -> S) (G : Matrix E) (s : S) (C : nat -> nat -> E) :
  i < List.length (m_children (get_base s)) ->
  c (with_input_gradient i G s) = (Returned tt, h (with_input_gradient i (f G) s)) ->
  (forall st, get_base (h st) = get_base st) ->
  same_shape G (f G) ->
  (forall r k, elem (f G) r k = (elem G r k + C r k)%E) ->
  adds_contribution c i (with_input_gradient i G s) C.
Proof.
  intros Hi Hrun Hh Hshape Hadd.
  exists G, (f G). rewrite Hrun. cbn [fst snd].
  split; [apply input_gradient_with; exact Hi|].
  split; [reflexivity|].
  split; [|split; [exact Hshape|exact Hadd]].
  unfold input_gradient. rewrite Hh.
  apply (input_gradient_with (f G) s Hi).
Qed.

End AccumulationFacts.

(** ** Nodes that update one gradient tensor in place *)

Section SimpleAccumulation.
Context {E : Type} {SE : Scalar E}.
Local Open Scope scalar_scope.

Lemma InputFunctionValues_with {S : Type} {NS : NodeState E S}
  (i j : nat) (G : Matrix E) (s : S) (c : InputNode E) :
  nth_error (m_children (get_base s)) j = Some c ->
  InputFunctionValues j (with_input_gradient i G s)
  = (Returned (FunctionValues c), with_input_gradient i G s).
Proof.
  intros Hc. rewrite (commutes_InputFunctionValues i j G s).
  rewrite (InputFunctionValues_some j s c Hc). reflexivity.
Qed.

Lemma Inputs_with {S : Type} {NS : NodeState E S}
  (i j : nat) (G : Matrix E) (s : S) (c : InputNode E) :
  nth_error (m_children (get_base s)) j = Some c ->
  exists c', Inputs j (with_input_gradient i G s) = (Returned c', with_input_gradient i G s)
             /\ FunctionValues c' = FunctionValues c.
Proof.
  intros Hc. destruct (Nat.eq_dec i j) as [->|Hne].
  - exists (set_GradientValues G c). split; [|reflexivity].
    apply Inputs_some. apply (child_with_input_gradient j G s Hc).
  - exists c. split; [|reflexivity].
    apply Inputs_some. rewrite (other_child_with_input_gradient G s Hne). exact Hc.
Qed.

Lemma SquareError_adds (s : SquareErrorNode.Node E) (G : Matrix E) (i : nat) :
  i < 2 -> i < List.length (m_children (SquareErrorNode.base s)) ->
  adds_contribution (SquareErrorNode.ComputeInputPartial i) i (with_input_gradient i G s)
                    (SquareErrorNode.contribution i s).
Proof.
  intros Hi Hlen.
  destruct (nth_error (m_children (get_base s)) i) as [c|] eqn:Hc;
    [|apply nth_error_None in Hc; simpl in Hc; lia].
  pose proof (child_with_input_gradient i G s Hc) as Hc'.
  assert (Hg : m_gradientValues (SquareErrorNode.base (with_input_gradient i G s))
               = m_gradientValues (SquareErrorNode.base s))
    by exact (node_gradient_with_input_gradient i G s).
  assert (Hd : SquareErrorNode.m_leftMinusRight (with_input_gradient i G s)
               = SquareErrorNode.m_leftMinusRight s)
    by (unfold with_input_gradient; rewrite Hc; reflexivity).
  destruct i as [|[|i]]; [| |lia].
  - eapply on_input_adds with (f := fun G0 => SquareErrorNode.ComputeInputPartialLeft G0 _ _);
      [exact Hc'|reflexivity|split; reflexivity|].
    intros r k; simpl. unfold SquareErrorNode.contribution; simpl. rewrite Hg, Hd. reflexivity.
  - eapply on_input_adds with (f := fun G0 => SquareErrorNode.ComputeInputPartialRight G0 _ _);
      [exact Hc'|reflexivity|split; reflexivity|].
    intros r k; simpl. unfold SquareErrorNode.contribution; simpl. rewrite Hg, Hd. reflexivity.
Qed.

Lemma CrossEntropyWithSoftmax_label_adds (s : CrossEntropyWithSoftmaxNode.Node E)
  (G : Matrix E) :
  0 < List.length (m_children (CrossEntropyWithSoftmaxNode.base s)) ->
  adds_contribution (CrossEntropyWithSoftmaxNode.ComputeInputPartial 0) 0
    (with_input_gradient 0 G s)
    (fun r k => (- CrossEntropyWithSoftmaxNode.upstream s)
                * elem (CrossEntropyWithSoftmaxNode.m_logSoftmaxOfRight s) r k).
Proof.
  intros Hlen.
  destruct (nth_error (m_children (get_base s)) 0) as [c|] eqn:Hc;
    [|apply nth_error_None in Hc; simpl in Hc; lia].
  pose proof (child_with_input_gradient 0 G s Hc) as Hc'.
  assert (Hg : m_gradientValues (CrossEntropyWithSoftmaxNode.base (with_input_gradient 0 G s))
               = m_gradientValues (CrossEntropyWithSoftmaxNode.base s))
    by exact (node_gradient_with_input_gradient 0 G s).
  assert (Hd : CrossEntropyWithSoftmaxNode.m_logSoftmaxOfRight (with_input_gradient 0 G s)
               = CrossEntropyWithSoftmaxNode.m_logSoftmaxOfRight s)
    by (unfold with_input_gradient; rewrite Hc; reflexivity).
  eapply on_input_adds
    with (f := fun G0 => CrossEntropyWithSoftmaxNode.ComputeInputPartialLeft _ G0 _);
    [exact Hc'|reflexivity|split; reflexivity|].
  intros r k; simpl. unfold CrossEntropyWithSoftmaxNode.upstream. rewrite Hg, Hd. reflexivity.
Qed.

(** The logits gradient of CrossEntropyWithSoftmax: the contribution is
    added, and then the columns the Sequence Mask marks invalid are set to
    zero, whatever they held. *)
Lemma CrossEntropyWithSoftmax_logits_masked (s : CrossEntropyWithSoftmaxNode.Node E)
  (label logits : InputNode E) (G : Matrix E) :
  nth_error (m_children (CrossEntropyWithSoftmaxNode.base s)) 0 = Some label ->
  nth_error (m_children (CrossEntropyWithSoftmaxNode.base s)) 1 = Some logits ->
  exists G',
    CrossEntropyWithSoftmaxNode.ComputeInputPartial 1 (with_input_gradient 1 G s)
    = (Returned tt, with_input_gradient 1 G' s) /\
    same_shape G G' /\
    forall r k,
      elem G' r k =
      if invalid_column (m_pMBLayout (CrossEntropyWithSoftmaxNode.base s)) k then s0
      else elem G r k
           + CrossEntropyWithSoftmaxNode.upstream s
             * (elem (CrossEntropyWithSoftmaxNode.m_softmaxOfRight s) r k
                - elem (FunctionValues label) r k).
Proof.
  intros H0 H1. to_get_base H0. to_get_base H1.
  assert (H0' : nth_error (m_children (CrossEntropyWithSoftmaxNode.base
                                         (with_input_gradient 1 G s))) 0 = Some label).
  { change (nth_error (m_children (get_base (with_input_gradient 1 G s))) 0 = Some label).
    rewrite (@other_child_with_input_gradient _ _ _ 1 0 G s) by discriminate. exact H0. }
  pose proof (child_with_input_gradient 1 G s H1) as H1'.
  rewrite (ComputeInputPartial_right_run (with_input_gradient 1 G s) H0' H1').
  assert (Hlen : 1 < List.length (m_children (get_base s)))
    by (apply nth_error_Some; rewrite H1; discriminate).
  rewrite (OnInputGradientValues_with 1 _ G s Hlen).
  eexists. split; [reflexivity|]. split; [split; reflexivity|].
  intros r k.
  assert (Hg : m_gradientValues (CrossEntropyWithSoftmaxNode.base (with_input_gradient 1 G s))
               = m_gradientValues (CrossEntropyWithSoftmaxNode.base s))
    by exact (node_gradient_with_input_gradient 1 G s).
  assert (Hl : m_pMBLayout (CrossEntropyWithSoftmaxNode.base (with_input_gradient 1 G s))
               = m_pMBLayout (CrossEntropyWithSoftmaxNode.base s))
    by exact (layout_with_input_gradient 1 G s).
  assert (Hd : CrossEntropyWithSoftmaxNode.m_softmaxOfRight (with_input_gradient 1 G s)
               = CrossEntropyWithSoftmaxNode.m_softmaxOfRight s)
    by (unfold with_input_gradient; rewrite H1; reflexivity).
  rewrite Hg, Hl, Hd. reflexivity.
Qed.

End SimpleAccumulation.

Section ScratchAccumulation.
Context {E : Type} {SE : Scalar E}.
Local Open Scope scalar_scope.

(** The same when the node first writes a scratch tensor of its own
    ([h], which leaves the inputs alone). *)
Lemma on_input_adds_after {S : Type} {NS : NodeState E S} (c : M S unit) (i : nat)
  (f : Matrix E -> Matrix E) (h : S -> S) (s : S) (cin : InputNode E) (C : nat -> nat -> E) :
  nth_error (m_children (get_base s)) i = Some cin ->
  (forall st, get_base (h st) = get_base st) ->
  c s = OnInputGradientValues i f (h s) ->
  same_shape (GradientValues cin) (f (GradientValues cin)) ->
  (forall r k, elem (f (GradientValues cin)) r k = elem (GradientValues cin) r k + C r k) ->
  adds_contribution c i s C.
Proof.
  intros Hc Hh Hrun Hshape Hadd.
  assert (Hc' : nth_error (m_children (get_base (h s))) i = Some cin)
    by (rewrite Hh; exact Hc).
  exists (GradientValues cin), (f (GradientValues cin)).
  rewrite Hrun, (OnInputGradientValues_some i f (h s) Hc'). cbn [fst snd].
  split; [unfold input_gradient; rewrite Hc; reflexivity|].
  split; [reflexivity|].
  split; [|split; [exact Hshape|exact Hadd]].
  rewrite (input_gradient_set_eq i _ (h s) Hc'). reflexivity.
Qed.

Lemma CrossEntropy_label_adds (s : CrossEntropyNode.Node E) (G : Matrix E) :
  0 < List.length (m_children (CrossEntropyNode.base s)) ->
  adds_contribution (CrossEntropyNode.ComputeInputPartial 0) 0
    (with_input_gradient 0 G s)
    (fun r k => (- Get00Element (m_gradientValues (CrossEntropyNode.base s)))
                * elem (CrossEntropyNode.m_logOfRight s) r k).
Proof.
  intros Hlen.
  destruct (nth_error (m_children (get_base s)) 0) as [c|] eqn:Hc;
    [|apply nth_error_None in Hc; simpl in Hc; lia].
  pose proof (child_with_input_gradient 0 G s Hc) as Hc'.
  assert (Hg : m_gradientValues (CrossEntropyNode.base (with_input_gradient 0 G s))
               = m_gradientValues (CrossEntropyNode.base s))
    by exact (node_gradient_with_input_gradient 0 G s).
  assert (Hd : CrossEntropyNode.m_logOfRight (with_input_gradient 0 G s)
               = CrossEntropyNode.m_logOfRight s)
    by (unfold with_input_gradient; rewrite Hc; reflexivity).
  eapply on_input_adds
    with (f := fun G0 => CrossEntropyNode.ComputeInputPartialLeft _ G0 _);
    [exact Hc'|reflexivity|split; reflexivity|].
  intros r k; simpl. rewrite Hg, Hd. reflexivity.
Qed.

Lemma CrossEntropy_right_adds (s : CrossEntropyNode.Node E) (in0 in1 : InputNode E)
  (G : Matrix E) :
  nth_error (m_children (CrossEntropyNode.base s)) 0 = Some in0 ->
  nth_error (m_children (CrossEntropyNode.base s)) 1 = Some in1 ->
  adds_contribution (CrossEntropyNode.ComputeInputPartial 1) 1
    (with_input_gradient 1 G s)
    (fun r k => (- Get00Element (m_gradientValues (CrossEntropyNode.base s)))
                * elem (MaskToZeroWhenLabelAndFeatureMissing
                          (m_pMBLayout (CrossEntropyNode.base s))
                          (AssignElementDivisionOf (FunctionValues in0) (FunctionValues in1)
                                                   (CrossEntropyNode.m_leftDivRight s))) r k).
Proof.
  intros H0 H1. to_get_base H0. to_get_base H1.
  assert (H0' : nth_error (m_children (get_base (with_input_gradient 1 G s))) 0 = Some in0).
  { rewrite (@other_child_with_input_gradient _ _ _ 1 0 G s) by discriminate. exact H0. }
  pose proof (child_with_input_gradient 1 G s H1) as H1'.
  assert (Hg : m_gradientValues (CrossEntropyNode.base (with_input_gradient 1 G s))
               = m_gradientValues (CrossEntropyNode.base s))
    by exact (node_gradient_with_input_gradient 1 G s).
  assert (Hl : m_pMBLayout (CrossEntropyNode.base (with_input_gradient 1 G s))
               = m_pMBLayout (CrossEntropyNode.base s))
    by exact (layout_with_input_gradient 1 G s).
  assert (Hd : CrossEntropyNode.m_leftDivRight (with_input_gradient 1 G s)
               = CrossEntropyNode.m_leftDivRight s)
    by (unfold with_input_gradient; rewrite H1; reflexivity).
  eapply on_input_adds_after with
    (h := CrossEntropyNode.set_leftDivRight _)
    (f := fun G0 => snd (CrossEntropyNode.ComputeInputPartialRight _ _ _ _ G0 _));
    [exact H1'|reflexivity| |split; reflexivity|].
  - unfold CrossEntropyNode.ComputeInputPartial.
    cbv [when_ Nat.ltb Nat.leb Nat.eqb]. unfold bind at 1, ret at 1.
    unfold bind at 1, gets at 1. unfold bind at 1.
    rewrite (Inputs_some 0 _ H0'). unfold bind at 1.
    rewrite (Inputs_some 1 _ H1'). unfold bind at 1, NodeGradientValues at 1, gets at 1.
    unfold bind at 1, gets at 1. unfold bind at 1, modify at 1.
    reflexivity.
  - intros r k. cbn [snd CrossEntropyNode.ComputeInputPartialRight ScaleAndAdd with_elem elem
                     FunctionValues set_GradientValues GradientValues].
    change (CrossEntropyNode.base (with_input_gradient 1 G s))
      with (get_base (with_input_gradient 1 G s)) in *.
    rewrite Hg, Hl, Hd. reflexivity.
Qed.

Lemma MatrixL1Reg_adds (s : MatrixL1RegNode.Node E) (in0 : InputNode E) (G : Matrix E) :
  nth_error (m_children (MatrixL1RegNode.base s)) 0 = Some in0 ->
  adds_contribution (MatrixL1RegNode.ComputeInputPartial 0) 0
    (with_input_gradient 0 G s)
    (fun r k => Get00Element (m_gradientValues (MatrixL1RegNode.base s))
                * sign_of (elem (FunctionValues in0) r k)).
Proof.
  intros H0. to_get_base H0.
  pose proof (child_with_input_gradient 0 G s H0) as H0'.
  assert (Hg : m_gradientValues (MatrixL1RegNode.base (with_input_gradient 0 G s))
               = m_gradientValues (MatrixL1RegNode.base s))
    by exact (node_gradient_with_input_gradient 0 G s).
  eapply on_input_adds_after with
    (h := fun n => MatrixL1RegNode.mk (MatrixL1RegNode.base n) _)
    (f := fun G0 => snd (MatrixL1RegNode.ComputeInputPartialS _ G0 _ _));
    [exact H0'|reflexivity| |split; reflexivity|].
  - unfold MatrixL1RegNode.ComputeInputPartial.
    cbv [when_ negb Nat.eqb]. unfold bind at 1, ret at 1.
    unfold bind at 1, gets at 1. unfold bind at 1.
    rewrite (Inputs_some 0 _ H0'). unfold bind at 1, NodeGradientValues at 1, gets at 1.
    unfold bind at 1, modify at 1.
    reflexivity.
  - intros r k. cbn [snd MatrixL1RegNode.ComputeInputPartialS AddWithScaleOf AssignSignOf
                     with_elem elem FunctionValues set_GradientValues GradientValues].
    change (MatrixL1RegNode.base (with_input_gradient 0 G s))
      with (get_base (with_input_gradient 0 G s)) in *.
    rewrite Hg. reflexivity.
Qed.

Lemma MatrixL2Reg_adds (s : MatrixL2RegNode.Node E) (in0 : InputNode E) (G : Matrix E) :
  nth_error (m_children (MatrixL2RegNode.base s)) 0 = Some in0 ->
  adds_contribution (MatrixL2RegNode.ComputeInputPartial 0) 0
    (with_input_gradient 0 G s)
    (fun r k => Get00Element (m_gradientValues (MatrixL2RegNode.base s))
                / (Get00Element (m_functionValues (MatrixL2RegNode.base s)) + EPS_IN_INVERSE)
                * elem (FunctionValues in0) r k).
Proof.
  intros H0. to_get_base H0.
  pose proof (child_with_input_gradient 0 G s H0) as H0'.
  assert (Hg : get_base (with_input_gradient 0 G s)
               = set_children (list_set 0 (set_GradientValues G in0) (m_children (get_base s)))
                              (get_base s))
    by exact (base_with_input_gradient 0 G s H0).
  eapply on_input_adds with
    (f := fun G0 => MatrixL2RegNode.ComputeInputPartialS G0 _ _ _);
    [exact H0'| |split; reflexivity|].
  - unfold MatrixL2RegNode.ComputeInputPartial.
    cbv [when_ negb Nat.eqb]. unfold bind at 1, ret at 1.
    unfold bind at 1.
    rewrite (Inputs_some 0 _ H0'). unfold bind at 1, NodeGradientValues at 1, gets at 1.
    unfold bind at 1, NodeFunctionValues at 1, gets at 1.
    reflexivity.
  - intros r k. cbn [MatrixL2RegNode.ComputeInputPartialS AddWithScaleOf
                     with_elem elem FunctionValues set_GradientValues GradientValues].
    rewrite Hg. reflexivity.
Qed.

Lemma DummyCriterion_adds (s : DummyCriterionNode.Node E) (in1 in2 : InputNode E)
  (G : Matrix E) :
  nth_error (m_children (DummyCriterionNode.base s)) 1 = Some in1 ->
  nth_error (m_children (DummyCriterionNode.base s)) 2 = Some in2 ->
  adds_contribution (DummyCriterionNode.ComputeInputPartial 2) 2
    (with_input_gradient 2 G s)
    (fun r k => Get00Element (m_gradientValues (DummyCriterionNode.base s))
                * elem (FunctionValues in1) r k).
Proof.
  intros H1 H2. to_get_base H1. to_get_base H2.
  assert (H1' : nth_error (m_children (get_base (with_input_gradient 2 G s))) 1 = Some in1).
  { rewrite (@other_child_with_input_gradient _ _ _ 2 1 G s) by discriminate. exact H1. }
  pose proof (child_with_input_gradient 2 G s H2) as H2'.
  assert (Hg : m_gradientValues (get_base (with_input_gradient 2 G s))
               = m_gradientValues (get_base s))
    by exact (node_gradient_with_input_gradient 2 G s).
  eapply on_input_adds with
    (f := fun G0 => DummyCriterionNode.ComputeInputPartialThree _ G0 _);
    [exact H2'| |split; reflexivity|].
  - unfold DummyCriterionNode.ComputeInputPartial.
    cbv [Nat.ltb Nat.leb Nat.eqb]. unfold bind at 1.
    rewrite (Inputs_some 1 _ H1'). unfold bind at 1, NodeGradientValues at 1, gets at 1.
    reflexivity.
  - intros r k. cbn [DummyCriterionNode.ComputeInputPartialThree ScaleAndAdd
                     with_elem elem FunctionValues set_GradientValues GradientValues].
    rewrite Hg. reflexivity.
Qed.

Lemma CRF_position_scores_adds {LS : LogScalar E} {TE : TensorEngine E}
  (s : CRFNode.Node E) (lbl in1 : InputNode E) (G : Matrix E) :
  nth_error (m_children (CRFNode.base s)) 0 = Some lbl ->
  nth_error (m_children (CRFNode.base s)) 1 = Some in1 ->
  adds_contribution (CRFNode.ComputeInputPartial 1) 1
    (with_input_gradient 1 G s)
    (fun r k => Get00Element (m_gradientValues (CRFNode.base s))
                * (elem (CRFNode.mPostProb s) r k - elem (FunctionValues lbl) r k)).
Proof.
  intros H0 H1. to_get_base H0. to_get_base H1.
  assert (H0' : nth_error (m_children (get_base (with_input_gradient 1 G s))) 0 = Some lbl).
  { rewrite (@other_child_with_input_gradient _ _ _ 1 0 G s) by discriminate. exact H0. }
  pose proof (child_with_input_gradient 1 G s H1) as H1'.
  assert (Hg : m_gradientValues (get_base (with_input_gradient 1 G s))
               = m_gradientValues (get_base s))
    by exact (node_gradient_with_input_gradient 1 G s).
  assert (Hd : CRFNode.mPostProb (with_input_gradient 1 G s) = CRFNode.mPostProb s)
    by (unfold with_input_gradient; rewrite H1; reflexivity).
  eapply on_input_adds with
    (f := fun G0 => CRFNode.ErrorSignalToPostitionDependentNode _ _ _ G0);
    [exact H1'| |split; reflexivity|].
  - unfold CRFNode.ComputeInputPartial.
    cbv [when_ negb andb Nat.eqb]. unfold bind at 1, ret at 1.
    unfold bind at 1, NodeGradientValues at 1, gets at 1.
    unfold bind at 1.
    rewrite (InputFunctionValues_some 0 _ lbl H0').
    unfold bind at 1, gets at 1.
    reflexivity.
  - intros r k. cbn [CRFNode.ErrorSignalToPostitionDependentNode AddScaledDifference
                     with_elem elem FunctionValues set_GradientValues GradientValues].
    change (CRFNode.base (with_input_gradient 1 G s))
      with (get_base (with_input_gradient 1 G s)) in *.
    rewrite Hg, Hd. reflexivity.
Qed.

End ScratchAccumulation.

(** ** ClassBasedCrossEntropyWithSoftmax: the gradients of inputs 1 and 2 *)

Section ClassBasedAccumulation.
Context {E : Type} {SE : Scalar E} {SL : ScalarLaws E}.
Local Open Scope scalar_scope.
Import ClassBasedCrossEntropyWithSoftmaxNode.

Add Ring scalar_ring_class_based : (@scalar_ring E SE SL).

Lemma for_acc_preserves {S A : Type} (I : S -> Prop) (body : nat -> A -> M S A) :
  (forall k a s a' s', I s -> body k a s = (Returned a', s') -> I s') ->
  forall count start a s a' s',
    I s -> for_acc start count body a s = (Returned a', s') -> I s'.
Proof.
  intros Hinv count; induction count as [|c IH]; intros start a s a' s' HI Hrun.
  - inversion Hrun; subst; exact HI.
  - simpl in Hrun. unfold bind in Hrun.
    destruct (body start a s) as [[x|e] st] eqn:Hb; [|discriminate].
    eapply IH; [eapply Hinv; eassumption|exact Hrun].
Qed.

Lemma ComputeSoftMaxPartial_keeps_base (s s1 : Node E) :
  ComputeSoftMaxPartial s = (Returned tt, s1) -> base s1 = base s.
Proof.
  unfold ComputeSoftMaxPartial. unfold bind at 1, gets at 1.
  destruct (m_needRecomputeGradientToSoftmaxInput s);
    [|intros H; inversion H; reflexivity].
  unfold when_. unfold bind at 1, modify at 1.
  set (s0' := set_grdToSoftMaxInput _ s).
  unfold bind at 1, InputFunctionValues at 1, bind at 1, Inputs at 1.
  destruct (nth_error (m_children (get_base s0')) 1) as [c|]; [|discriminate].
  unfold ret at 1. unfold bind at 1.
  destruct (for_acc 0 (GetNumCols (FunctionValues c)) ComputeSoftMaxPartial_step 0%N s0')
    as [[a|e] st] eqn:Hloop; [|discriminate].
  unfold modify. intros H; inversion H; subst. cbn [base set_needRecompute].
  apply (@for_acc_preserves (Node E) N (fun st => base st = base s)
           ComputeSoftMaxPartial_step
           (fun k a0 st0 a' st' HI Hrun =>
              eq_trans (softmax_partial_step_keeps_base k a0 a' st0 st' Hrun) HI)
           _ _ _ s0' _ _ eq_refl Hloop).
Qed.

Lemma grdToSoftMaxInput_with (i : nat) (G : Matrix E) (n : Node E) :
  m_grdToSoftMaxInput (with_input_gradient i G n) = m_grdToSoftMaxInput n.
Proof.
  unfold with_input_gradient.
  destruct (nth_error (m_children (get_base n)) i); reflexivity.
Qed.

Lemma commutes_ComputeSoftMaxPartial_step (i : nat) (G : Matrix E) (t : nat) (sz : N) :
  commutes (with_input_gradient i G) (ComputeSoftMaxPartial_step t sz).
Proof.
  unfold ComputeSoftMaxPartial_step.
  apply commutes_bind; [apply commutes_InputFunctionValues|intros lbl].
  cbv zeta.
  apply commutes_if; [apply commutes_if; [apply commutes_ret|apply commutes_throw]|].
  apply commutes_bind; [apply commutes_NodeGradientValues|intros g].
  apply commutes_bind.
  { apply commutes_modify. intros n. unfold with_input_gradient.
    cbn [get_base node_state base set_softMax m_softMax].
    destruct (nth_error (m_children (base n)) i); reflexivity. }
  intros _. apply commutes_bind; [|intros _; apply commutes_ret].
  apply commutes_modify. intros n. unfold with_input_gradient.
  cbn [get_base node_state base set_grdToSoftMaxInput m_softMax m_grdToSoftMaxInput].
  destruct (nth_error (m_children (base n)) i); reflexivity.
Qed.

Lemma commutes_ComputeSoftMaxPartial (i : nat) (G : Matrix E) :
  commutes (with_input_gradient i G) ComputeSoftMaxPartial.
Proof.
  unfold ComputeSoftMaxPartial.
  apply commutes_bind.
  { apply commutes_gets. intros n. unfold with_input_gradient.
    destruct (nth_error (m_children (get_base n)) i); reflexivity. }
  intros stale. apply commutes_when.
  apply commutes_bind.
  { apply commutes_modify. intros n. unfold with_input_gradient.
    cbn [get_base node_state base set_grdToSoftMaxInput m_totalNbrWords m_grdToSoftMaxInput].
    destruct (nth_error (m_children (base n)) i); reflexivity. }
  intros _. apply commutes_bind; [apply commutes_InputFunctionValues|intros in1].
  apply commutes_bind.
  { apply commutes_for_acc. intros t a. apply commutes_ComputeSoftMaxPartial_step. }
  intros _. apply commutes_modify. intros n. unfold with_input_gradient.
  cbn [get_base node_state base set_needRecompute].
  destruct (nth_error (m_children (base n)) i); reflexivity.
Qed.

Section Loop.
Variables (s1 : Node E) (c0 c1 c2 : InputNode E).
Hypothesis H0 : nth_error (m_children (get_base s1)) 0 = Some c0.
Hypothesis H1 : nth_error (m_children (get_base s1)) 1 = Some c1.
Hypothesis H2 : nth_error (m_children (get_base s1)) 2 = Some c2.

Lemma input_partial_step_adds (i : nat) (t : nat) (sz : N) (G : Matrix E) :
  i = 1 \/ i = 2 ->
  exists G',
    ComputeInputPartial_step i t sz (with_input_gradient i G s1)
    = (Returned (next_offset (FunctionValues c0) t sz), with_input_gradient i G' s1) /\
    same_shape G G' /\
    forall r k,
      elem G' r k
      = elem G r k
        + step_contribution i (FunctionValues c0) (FunctionValues c1) (FunctionValues c2)
                            (m_grdToSoftMaxInput s1) t sz r k.
Proof.
  intros Hi.
  assert (Hlen1 : 1 < List.length (m_children (get_base s1)))
    by (apply nth_error_Some; rewrite H1; discriminate).
  assert (Hlen2 : 2 < List.length (m_children (get_base s1)))
    by (apply nth_error_Some; rewrite H2; discriminate).
  unfold ComputeInputPartial_step. unfold bind at 1.
  rewrite (InputFunctionValues_with i 0 G s1 c0 H0). cbv zeta.
  unfold FrameSlice.
  fold (lft_bnd_of (FunctionValues c0) t).
  fold (rgt_bnd_of (FunctionValues c0) t). fold (nbr_wrd_of (FunctionValues c0) t).
  unfold next_offset, step_contribution.
  destruct (nbr_wrd_of (FunctionValues c0) t =? 0)%N eqn:Hn.
  - exists G. split; [reflexivity|]. split; [split; reflexivity|]. intros r k. ring.
  - unfold bind at 1. rewrite (InputFunctionValues_with i 2 G s1 c2 H2).
    unfold bind at 1. rewrite (InputFunctionValues_with i 1 G s1 c1 H1).
    unfold bind at 1, gets at 1. rewrite grdToSoftMaxInput_with.
    destruct Hi as [-> | ->].
    + unfold bind at 1. rewrite (OnInputGradientValues_with 1 _ G s1 Hlen1).
      eexists. split; [reflexivity|]. split; [split; reflexivity|].
      intros r k.
      unfold OnColumnSlice, PutColumnSlice, ComputeInputPartialRight, MultiplyAndAdd,
        Transposed, ColumnSlice, with_elem.
      cbn [elem GetNumCols GetNumRows].
      destruct (Nat.eqb_spec k t) as [->|Hne].
      * rewrite Nat.leb_refl. replace (t <? t + 1) with true
          by (symmetry; apply Nat.ltb_lt; lia).
        cbn [andb]. rewrite Nat.sub_diag, Nat.add_0_r. reflexivity.
      * replace ((t <=? k) && (k <? t + 1)) with false.
        { ring. }
        symmetry. apply andb_false_iff.
        destruct (Nat.leb_spec t k); [right; apply Nat.ltb_ge; lia|left; reflexivity].
    + unfold bind at 1. rewrite (OnInputGradientValues_with 2 _ G s1 Hlen2).
      eexists. split; [reflexivity|]. split; [split; reflexivity|].
      intros r k.
      unfold OnColumnSlice, PutColumnSlice, ComputeInputPartialLeft, MultiplyAndAdd,
        Transposed, ColumnSlice, with_elem.
      cbn [elem GetNumCols GetNumRows sum_upto].
      destruct ((N.to_nat (lft_bnd_of (FunctionValues c0) t) <=? k)
                && (k <? N.to_nat (lft_bnd_of (FunctionValues c0) t)
                         + N.to_nat (nbr_wrd_of (FunctionValues c0) t))) eqn:Hin.
      * apply andb_true_iff in Hin. destruct Hin as [Hle _]. apply Nat.leb_le in Hle.
        replace (N.to_nat (lft_bnd_of (FunctionValues c0) t)
                 + (k - N.to_nat (lft_bnd_of (FunctionValues c0) t)))%nat with k by lia.
        rewrite Nat.add_0_r. ring.
      * ring.
Qed.

Lemma input_partial_loop_adds (i : nat) :
  i = 1 \/ i = 2 ->
  forall count start sz G,
  exists sz' G',
    for_acc start count (ComputeInputPartial_step i) sz (with_input_gradient i G s1)
    = (Returned sz', with_input_gradient i G' s1) /\
    same_shape G G' /\
    forall r k,
      elem G' r k
      = elem G r k
        + contribution_from i (FunctionValues c0) (FunctionValues c1) (FunctionValues c2)
                            (m_grdToSoftMaxInput s1) start count sz r k.
Proof.
  intros Hi count; induction count as [|n IH]; intros start sz G.
  - exists sz, G. split; [reflexivity|]. split; [split; reflexivity|].
    intros r k. cbn [contribution_from]. ring.
  - destruct (input_partial_step_adds i start sz G Hi) as [G1 [Hstep [Hs1 Hadd1]]].
    destruct (IH (S start) (next_offset (FunctionValues c0) start sz) G1)
      as [sz' [G' [Hloop [Hs2 Hadd2]]]].
    exists sz', G'. split; [|split].
    + cbn [for_acc]. unfold bind. rewrite Hstep. exact Hloop.
    + destruct Hs1 as [Ha Hb], Hs2 as [Hc Hd]. split; congruence.
    + intros r k. rewrite Hadd2, Hadd1. cbn [contribution_from]. ring.
Qed.

End Loop.

(** A gradient request for input 1 (the observations) or input 2 (the
    weights) adds the node's contribution to what the gradient tensor
    holds, when the softmax gradient can be computed (no column carries a
    label whose class is empty). *)
Lemma ClassBased_adds (i : nat) (s s1 : Node E) (c0 c1 c2 : InputNode E) (G : Matrix E) :
  i = 1 \/ i = 2 ->
  nth_error (m_children (base s)) 0 = Some c0 ->
  nth_error (m_children (base s)) 1 = Some c1 ->
  nth_error (m_children (base s)) 2 = Some c2 ->
  ComputeSoftMaxPartial s = (Returned tt, s1) ->
  adds_contribution (ComputeInputPartial i) i (with_input_gradient i G s)
    (contribution_from i (FunctionValues c0) (FunctionValues c1) (FunctionValues c2)
                       (m_grdToSoftMaxInput s1) 0 (GetNumCols (FunctionValues c0)) 0%N).
Proof.
  intros Hi H0 H1 H2 Hsm.
  pose proof (ComputeSoftMaxPartial_keeps_base s s1 Hsm) as Hb.
  to_get_base H0. to_get_base H1. to_get_base H2.
  change (get_base s1 = get_base s) in Hb.
  assert (Hlen : i < List.length (m_children (get_base s))).
  { destruct Hi as [-> | ->]; apply nth_error_Some; [rewrite H1|rewrite H2]; discriminate. }
  assert (Hlen1 : i < List.length (m_children (get_base s1)))
    by (rewrite Hb; exact Hlen).
  assert (Hrun : exists G',
             ComputeInputPartial i (with_input_gradient i G s)
             = (Returned tt, with_input_gradient i G' s1) /\
             same_shape G G' /\
             forall r k,
               elem G' r k
               = elem G r k
                 + contribution_from i (FunctionValues c0) (FunctionValues c1)
                     (FunctionValues c2) (m_grdToSoftMaxInput s1) 0
                     (GetNumCols (FunctionValues c0)) 0%N r k).
  { rewrite <- Hb in H0, H1, H2.
    destruct (input_partial_loop_adds s1 c0 c1 c2 H0 H1 H2 i Hi
                (GetNumCols (FunctionValues c0)) 0 0%N G) as [sz' [G' [Hloop [Hs Hadd]]]].
    exists G'. split; [|split; [exact Hs|exact Hadd]].
    unfold ComputeInputPartial.
    replace (negb (i =? 1) && negb (i =? 2) && negb (i =? 3)) with false
      by (destruct Hi as [-> | ->]; reflexivity).
    cbn [when_]. unfold bind at 1, ret at 1. unfold bind at 1.
    rewrite Hb in H0.
    rewrite (InputFunctionValues_with i 0 G s c0 H0). cbv zeta.
    unfold bind at 1. rewrite (commutes_ComputeSoftMaxPartial i G s), Hsm. cbn [fst snd].
    unfold bind at 1. rewrite Hloop. reflexivity. }
  destruct Hrun as [G' [Hrun [Hs Hadd]]].
  exists G, G'. rewrite Hrun. cbn [fst snd].
  split; [apply (input_gradient_with G s Hlen)|].
  split; [reflexivity|].
  split; [apply (input_gradient_with G' s1 Hlen1)|].
  split; [exact Hs|exact Hadd].
Qed.

End ClassBasedAccumulation.

(** ** ClassBasedCrossEntropyWithSoftmax: the gradient of input 3 *)

Section ClassBasedOverwrite.
Context {E : Type} {SE : Scalar E}.
Local Open Scope scalar_scope.
Import ClassBasedCrossEntropyWithSoftmaxNode.

Lemma clsSoftmax_with (i : nat) (G : Matrix E) (n : Node E) :
  m_clsSoftmax (with_input_gradient i G n) = m_clsSoftmax n.
Proof.
  unfold with_input_gradient.
  destruct (nth_error (m_children (get_base n)) i); reflexivity.
Qed.

Section Loop.
Variables (s1 : Node E) (c0 c1 c2 c3 : InputNode E).
Hypothesis H0 : nth_error (m_children (get_base s1)) 0 = Some c0.
Hypothesis H1 : nth_error (m_children (get_base s1)) 1 = Some c1.
Hypothesis H2 : nth_error (m_children (get_base s1)) 2 = Some c2.
Hypothesis H3 : nth_error (m_children (get_base s1)) 3 = Some c3.

Lemma class_gradient_step (t : nat) (sz : N) (G : Matrix E) :
  exists G',
    ComputeInputPartial_step 3 t sz (with_input_gradient 3 G s1)
    = (Returned (next_offset (FunctionValues c0) t sz), with_input_gradient 3 G' s1) /\
    same_shape G G' /\
    forall r k,
      elem G' r k
      = class_gradient_after (FunctionValues c0) (m_clsSoftmax s1)
          (m_gradientValues (get_base s1)) G t 1 r k.
Proof.
  assert (Hlen3 : 3 < List.length (m_children (get_base s1)))
    by (apply nth_error_Some; rewrite H3; discriminate).
  unfold ComputeInputPartial_step. unfold bind at 1.
  rewrite (InputFunctionValues_with 3 0 G s1 c0 H0). cbv zeta.
  unfold FrameSlice.
  fold (c_of (FunctionValues c0) t).
  fold (lft_bnd_of (FunctionValues c0) t).
  fold (rgt_bnd_of (FunctionValues c0) t). fold (nbr_wrd_of (FunctionValues c0) t).
  unfold next_offset, class_gradient_after.
  destruct (nbr_wrd_of (FunctionValues c0) t =? 0)%N eqn:Hn.
  - exists G. split; [reflexivity|]. split; [split; reflexivity|]. intros r k.
    destruct (Nat.eqb_spec k t) as [->|Hne].
    + rewrite Hn, andb_false_r. reflexivity.
    + replace ((t <=? k) && (k <? t + 1)) with false; [reflexivity|].
      symmetry. apply andb_false_iff.
      destruct (Nat.leb_spec t k); [right; apply Nat.ltb_ge; lia|left; reflexivity].
  - unfold bind at 1. rewrite (InputFunctionValues_with 3 2 G s1 c2 H2).
    unfold bind at 1. rewrite (InputFunctionValues_with 3 1 G s1 c1 H1).
    unfold bind at 1, gets at 1.
    unfold bind at 1. unfold bind at 1, gets at 1.
    unfold bind at 1, NodeGradientValues at 1, gets at 1.
    rewrite clsSoftmax_with, node_gradient_with_input_gradient.
    rewrite (OnInputGradientValues_with 3 _ G s1 Hlen3).
    eexists. split; [reflexivity|]. split; [split; reflexivity|].
    intros r k.
    unfold OnColumnSlice, PutColumnSlice, ComputeCEPartialToSoftmaxInputs, Scale,
      MinusOneAt, SetValue, ColumnSlice, with_elem.
    cbn [elem GetNumCols GetNumRows].
    destruct (Nat.eqb_spec k t) as [->|Hne].
    + rewrite Nat.leb_refl. replace (t <? t + 1) with true
        by (symmetry; apply Nat.ltb_lt; lia).
      rewrite Hn. cbn [andb negb]. rewrite Nat.sub_diag, Nat.add_0_r.
      cbn [Nat.mul Nat.add]. reflexivity.
    + replace ((t <=? k) && (k <? t + 1)) with false; [reflexivity|].
      symmetry. apply andb_false_iff.
      destruct (Nat.leb_spec t k); [right; apply Nat.ltb_ge; lia|left; reflexivity].
Qed.

Lemma class_gradient_loop :
  forall count start sz G,
  exists sz' G',
    for_acc start count (ComputeInputPartial_step 3) sz (with_input_gradient 3 G s1)
    = (Returned sz', with_input_gradient 3 G' s1) /\
    same_shape G G' /\
    forall r k,
      elem G' r k
      = class_gradient_after (FunctionValues c0) (m_clsSoftmax s1)
          (m_gradientValues (get_base s1)) G start count r k.
Proof.
  induction count as [|n IH]; intros start sz G.
  - exists sz, G. split; [reflexivity|]. split; [split; reflexivity|].
    intros r k. unfold class_gradient_after.
    replace ((start <=? k) && (k <? start + 0)) with false; [reflexivity|].
    symmetry. apply andb_false_iff.
    destruct (Nat.leb_spec start k); [right; apply Nat.ltb_ge; lia|left; reflexivity].
  - destruct (class_gradient_step start sz G) as [G1 [Hstep [Hs1 Hadd1]]].
    destruct (IH (S start) (next_offset (FunctionValues c0) start sz) G1)
      as [sz' [G' [Hloop [Hs2 Hadd2]]]].
    exists sz', G'. split; [|split].
    + cbn [for_acc]. unfold bind. rewrite Hstep. exact Hloop.
    + destruct Hs1 as [Ha Hb], Hs2 as [Hc Hd]. split; congruence.
    + intros r k. rewrite Hadd2. unfold class_gradient_after.
      destruct (Nat.eqb_spec k start) as [->|Hne].
      * replace ((S start <=? start) && (start <? S start + n)) with false
          by (symmetry; apply andb_false_iff; left; apply Nat.leb_gt; lia).
        cbn [andb]. rewrite Hadd1. unfold class_gradient_after.
        rewrite Nat.leb_refl.
        replace (start <? start + 1) with true by (symmetry; apply Nat.ltb_lt; lia).
        replace (start <? start + S n) with true by (symmetry; apply Nat.ltb_lt; lia).
        reflexivity.
      * replace ((S start <=? k) && (k <? S start + n))
          with ((start <=? k) && (k <? start + S n)).
        2:{ destruct (Nat.leb_spec start k), (Nat.leb_spec (S start) k),
              (Nat.ltb_spec k (start + S n)), (Nat.ltb_spec k (S start + n));
              try reflexivity; lia. }
        destruct ((start <=? k) && (k <? start + S n)
                  && negb (nbr_wrd_of (FunctionValues c0) k =? 0)%N); [reflexivity|].
        rewrite Hadd1. unfold class_gradient_after.
        replace ((start <=? k) && (k <? start + 1)) with false; [reflexivity|].
        symmetry. apply andb_false_iff.
        destruct (Nat.leb_spec start k); [right; apply Nat.ltb_ge; lia|left; reflexivity].
Qed.

End Loop.

(** A gradient request for input 3 (the class posteriors) does not add:
    it sets the columns that have a class and keeps the others. *)
Lemma ClassBased_class_gradient_set (s s1 : Node E) (c0 c1 c2 c3 : InputNode E)
  (G : Matrix E) :
  nth_error (m_children (base s)) 0 = Some c0 ->
  nth_error (m_children (base s)) 1 = Some c1 ->
  nth_error (m_children (base s)) 2 = Some c2 ->
  nth_error (m_children (base s)) 3 = Some c3 ->
  ComputeSoftMaxPartial s = (Returned tt, s1) ->
  exists G',
    ComputeInputPartial 3 (with_input_gradient 3 G s)
    = (Returned tt, with_input_gradient 3 G' s1) /\
    input_gradient 3 (with_input_gradient 3 G' s1) = Some G' /\
    same_shape G G' /\
    forall r k,
      elem G' r k
      = class_gradient_after (FunctionValues c0) (m_clsSoftmax s)
          (m_gradientValues (base s)) G 0 (GetNumCols (FunctionValues c0)) r k.
Proof.
  intros H0 H1 H2 H3 Hsm.
  pose proof (ComputeSoftMaxPartial_keeps_base s s1 Hsm) as Hb.
  assert (Hcls : m_clsSoftmax s1 = m_clsSoftmax s).
  { revert Hsm. unfold ComputeSoftMaxPartial. unfold bind at 1, gets at 1.
    destruct (m_needRecomputeGradientToSoftmaxInput s);
      [|intros H; inversion H; reflexivity].
    unfold when_. unfold bind at 1, modify at 1.
    set (s0' := set_grdToSoftMaxInput _ s).
    unfold bind at 1, InputFunctionValues at 1, bind at 1, Inputs at 1.
    destruct (nth_error (m_children (get_base s0')) 1) as [c|]; [|discriminate].
    unfold ret at 1. unfold bind at 1.
    destruct (for_acc 0 (GetNumCols (FunctionValues c)) ComputeSoftMaxPartial_step 0%N s0')
      as [[a|e] st] eqn:Hloop; [|discriminate].
    unfold modify. intros H; inversion H; subst. cbn [m_clsSoftmax set_needRecompute].
    apply (@for_acc_preserves (Node E) N (fun st => m_clsSoftmax st = m_clsSoftmax s)
             ComputeSoftMaxPartial_step) with (3 := Hloop); [|reflexivity].
    intros k a0 st0 a' st' HI. 
    unfold ComputeSoftMaxPartial_step, bind, InputFunctionValues, bind, Inputs, ret, throw,
      NodeGradientValues, gets, modify.
    destruct (nth_error (m_children (get_base st0)) 0) as [c'|]; [|discriminate].
    match goal with |- context [N.eqb ?n 0%N] => destruct (N.eqb n 0%N) end.
    - match goal with |- context [N.eqb ?n 0%N] => destruct (N.eqb n 0%N) end;
        [|discriminate].
      intros H'; inversion H'; subst; exact HI.
    - intros H'; inversion H'; subst; exact HI. }
  to_get_base H0. to_get_base H1. to_get_base H2. to_get_base H3.
  change (get_base s1 = get_base s) in Hb.
  assert (Hlen1 : 3 < List.length (m_children (get_base s1)))
    by (rewrite Hb; apply nth_error_Some; rewrite H3; discriminate).
  pose proof H0 as H0s.
  rewrite <- Hb in H0, H1, H2, H3.
  destruct (class_gradient_loop s1 c0 c1 c2 c3 H0 H1 H2 H3
              (GetNumCols (FunctionValues c0)) 0 0%N G) as [sz' [G' [Hloop [Hs Hadd]]]].
  exists G'. split; [|split; [|split; [exact Hs|]]].
  - unfold ComputeInputPartial.
    cbn [when_ Nat.eqb negb andb]. unfold bind at 1, ret at 1. unfold bind at 1.
    rewrite (InputFunctionValues_with 3 0 G s c0 H0s). cbv zeta.
    unfold bind at 1. rewrite (commutes_ComputeSoftMaxPartial 3 G s), Hsm. cbn [fst snd].
    unfold bind at 1. rewrite Hloop. reflexivity.
  - apply (input_gradient_with G' s1 Hlen1).
  - intros r k. rewrite Hadd, Hcls, Hb. reflexivity.
Qed.

End ClassBasedOverwrite.

(** ** Gradient requests add to the gradient of the input *)

Section GradientAccumulation.
Context {E : Type} {SE : Scalar E} {SL : ScalarLaws E}.
Local Open Scope scalar_scope.

(** C1 (as amended).  With [G] what the gradient tensor of the requested
    input holds before the call, a gradient request leaves [G] plus the
    node's contribution in it, element by element, for: both inputs of
    SquareError; input 0 of CrossEntropyWithSoftmax; both inputs of
    CrossEntropy; the input of MatrixL1Reg and of MatrixL2Reg; input 2 of
    DummyCriterion; input 1 of the CRF node; inputs 1 and 2 of
    ClassBasedCrossEntropyWithSoftmax, when its softmax gradient can be
    computed.  For input 1 of CrossEntropyWithSoftmax the contribution is
    added and then every column the Sequence Mask marks invalid is set to
    zero, whatever [G] held there. *)
Theorem gradient_requests_accumulate :
  (forall (s : SquareErrorNode.Node E) G i,
      i < 2 -> i < List.length (m_children (SquareErrorNode.base s)) ->
      adds_contribution (SquareErrorNode.ComputeInputPartial i) i
        (with_input_gradient i G s) (SquareErrorNode.contribution i s)) /\
  (forall (s : CrossEntropyWithSoftmaxNode.Node E) G,
      0 < List.length (m_children (CrossEntropyWithSoftmaxNode.base s)) ->
      adds_contribution (CrossEntropyWithSoftmaxNode.ComputeInputPartial 0) 0
        (with_input_gradient 0 G s)
        (fun r k => (- CrossEntropyWithSoftmaxNode.upstream s)
                    * elem (CrossEntropyWithSoftmaxNode.m_logSoftmaxOfRight s) r k)) /\
  (forall (s : CrossEntropyWithSoftmaxNode.Node E) label logits G,
      nth_error (m_children (CrossEntropyWithSoftmaxNode.base s)) 0 = Some label ->
      nth_error (m_children (CrossEntropyWithSoftmaxNode.base s)) 1 = Some logits ->
      exists G',
        CrossEntropyWithSoftmaxNode.ComputeInputPartial 1 (with_input_gradient 1 G s)
        = (Returned tt, with_input_gradient 1 G' s) /\
        same_shape G G' /\
        forall r k,
          elem G' r k =
          if invalid_column (m_pMBLayout (CrossEntropyWithSoftmaxNode.base s)) k then s0
          else elem G r k
               + CrossEntropyWithSoftmaxNode.upstream s
                 * (elem (CrossEntropyWithSoftmaxNode.m_softmaxOfRight s) r k
                    - elem (FunctionValues label) r k)) /\
  (forall (s : CrossEntropyNode.Node E) G,
      0 < List.length (m_children (CrossEntropyNode.base s)) ->
      adds_contribution (CrossEntropyNode.ComputeInputPartial 0) 0
        (with_input_gradient 0 G s)
        (fun r k => (- Get00Element (m_gradientValues (CrossEntropyNode.base s)))
                    * elem (CrossEntropyNode.m_logOfRight s) r k)) /\
  (forall (s : CrossEntropyNode.Node E) in0 in1 G,
      nth_error (m_children (CrossEntropyNode.base s)) 0 = Some in0 ->
      nth_error (m_children (CrossEntropyNode.base s)) 1 = Some in1 ->
      adds_contribution (CrossEntropyNode.ComputeInputPartial 1) 1
        (with_input_gradient 1 G s)
        (fun r k => (- Get00Element (m_gradientValues (CrossEntropyNode.base s)))
                    * elem (MaskToZeroWhenLabelAndFeatureMissing
                              (m_pMBLayout (CrossEntropyNode.base s))
                              (AssignElementDivisionOf (FunctionValues in0)
                                 (FunctionValues in1)
                                 (CrossEntropyNode.m_leftDivRight s))) r k)) /\
  (forall (s : MatrixL1RegNode.Node E) in0 G,
      nth_error (m_children (MatrixL1RegNode.base s)) 0 = Some in0 ->
      adds_contribution (MatrixL1RegNode.ComputeInputPartial 0) 0
        (with_input_gradient 0 G s)
        (fun r k => Get00Element (m_gradientValues (MatrixL1RegNode.base s))
                    * sign_of (elem (FunctionValues in0) r k))) /\
  (forall (s : MatrixL2RegNode.Node E) in0 G,
      nth_error (m_children (MatrixL2RegNode.base s)) 0 = Some in0 ->
      adds_contribution (MatrixL2RegNode.ComputeInputPartial 0) 0
        (with_input_gradient 0 G s)
        (fun r k => Get00Element (m_gradientValues (MatrixL2RegNode.base s))
                    / (Get00Element (m_functionValues (MatrixL2RegNode.base s))
                       + EPS_IN_INVERSE)
                    * elem (FunctionValues in0) r k)) /\
  (forall (s : DummyCriterionNode.Node E) in1 in2 G,
      nth_error (m_children (DummyCriterionNode.base s)) 1 = Some in1 ->
      nth_error (m_children (DummyCriterionNode.base s)) 2 = Some in2 ->
      adds_contribution (DummyCriterionNode.ComputeInputPartial 2) 2
        (with_input_gradient 2 G s)
        (fun r k => Get00Element (m_gradientValues (DummyCriterionNode.base s))
                    * elem (FunctionValues in1) r k)) /\
  (forall (LS : LogScalar E) (TE : TensorEngine E) (s : CRFNode.Node E) lbl in1 G,
      nth_error (m_children (CRFNode.base s)) 0 = Some lbl ->
      nth_error (m_children (CRFNode.base s)) 1 = Some in1 ->
      adds_contribution (CRFNode.ComputeInputPartial 1) 1
        (with_input_gradient 1 G s)
        (fun r k => Get00Element (m_gradientValues (CRFNode.base s))
                    * (elem (CRFNode.mPostProb s) r k - elem (FunctionValues lbl) r k))) /\
  (forall (s s1 : ClassBasedCrossEntropyWithSoftmaxNode.Node E) c0 c1 c2 G i,
      i = 1 \/ i = 2 ->
      nth_error (m_children (ClassBasedCrossEntropyWithSoftmaxNode.base s)) 0 = Some c0 ->
      nth_error (m_children (ClassBasedCrossEntropyWithSoftmaxNode.base s)) 1 = Some c1 ->
      nth_error (m_children (ClassBasedCrossEntropyWithSoftmaxNode.base s)) 2 = Some c2 ->
      ClassBasedCrossEntropyWithSoftmaxNode.ComputeSoftMaxPartial s = (Returned tt, s1) ->
      adds_contribution (ClassBasedCrossEntropyWithSoftmaxNode.ComputeInputPartial i) i
        (with_input_gradient i G s)
        (ClassBasedCrossEntropyWithSoftmaxNode.contribution_from i
           (FunctionValues c0) (FunctionValues c1) (FunctionValues c2)
           (ClassBasedCrossEntropyWithSoftmaxNode.m_grdToSoftMaxInput s1)
           0 (GetNumCols (FunctionValues c0)) 0%N)).
Proof.
  split; [intros s G i; apply SquareError_adds|].
  split; [intros s G; apply CrossEntropyWithSoftmax_label_adds|].
  split; [intros s label logits G; apply CrossEntropyWithSoftmax_logits_masked|].
  split; [intros s G; apply CrossEntropy_label_adds|].
  split; [intros s in0 in1 G; apply CrossEntropy_right_adds|].
  split; [intros s in0 G; apply MatrixL1Reg_adds|].
  split; [intros s in0 G; apply MatrixL2Reg_adds|].
  split; [intros s in1 in2 G; apply DummyCriterion_adds|].
  split; [intros LS TE s lbl in1 G; apply CRF_position_scores_adds|].
  intros s s1 c0 c1 c2 G i. apply ClassBased_adds.
Qed.

End GradientAccumulation.

(** ** The statements on concrete nodes *)

Section OnConcreteNodes.
Import Instances.

(** The right input of [square_error] and the weights of [class_based],
    holding [10 20] and [10 20 30] before the request. *)
Lemma gradient_requests_accumulate_witness :
  adds_contribution (SquareErrorNode.ComputeInputPartial 1) 1
    (with_input_gradient 1 (dense 1 2 [[10; 20]]%Z) square_error)
    (SquareErrorNode.contribution 1 square_error) /\
  adds_contribution (ClassBasedCrossEntropyWithSoftmaxNode.ComputeInputPartial 2) 2
    (with_input_gradient 2 (dense 1 3 [[10; 20; 30]]%Z) class_based)
    (ClassBasedCrossEntropyWithSoftmaxNode.contribution_from 2
       (FunctionValues class_labels) (FunctionValues observations) (FunctionValues weights)
       (ClassBasedCrossEntropyWithSoftmaxNode.m_grdToSoftMaxInput
          (snd (ClassBasedCrossEntropyWithSoftmaxNode.ComputeSoftMaxPartial class_based)))
       0 3 0%N).
Proof.
  pose proof (@gradient_requests_accumulate Z ZScalar ZScalarLaws) as H.
  split.
  - apply (proj1 H); simpl; lia.
  - destruct H as (_ & _ & _ & _ & _ & _ & _ & _ & _ & H).
    apply (H class_based
             (snd (ClassBasedCrossEntropyWithSoftmaxNode.ComputeSoftMaxPartial class_based))
             class_labels observations weights (dense 1 3 [[10; 20; 30]]%Z) 2
             (or_intror eq_refl) eq_refl eq_refl eq_refl).
    vm_compute. reflexivity.
Defined.

End OnConcreteNodes.

Section Overwritten.
Import Instances.

(** Two requests overwrite what the gradient tensor held.  On
    [class_based], element (0, 0) of the gradient of input 3 is 4 after the
    request whether it was 7 or 8 before; on
    [masked_cross_entropy_with_softmax], element (0, 0) of the gradient of
    input 1 is 0 after the request whether it was 1 or 5 before.  So neither
    request adds a contribution of its own to what was there. *)
Lemma gradient_request_overwrites :
  (exists G7 G8,
      input_gradient 3
        (snd (ClassBasedCrossEntropyWithSoftmaxNode.ComputeInputPartial 3
                (with_input_gradient 3 (dense 2 3 [[7; 7; 7]; [7; 7; 7]]%Z) class_based)))
      = Some G7 /\
      input_gradient 3
        (snd (ClassBasedCrossEntropyWithSoftmaxNode.ComputeInputPartial 3
                (with_input_gradient 3 (dense 2 3 [[8; 8; 8]; [8; 8; 8]]%Z) class_based)))
      = Some G8 /\
      elem G7 0 0 = 4%Z /\ elem G8 0 0 = 4%Z) /\
  ~ accumulates (ClassBasedCrossEntropyWithSoftmaxNode.ComputeInputPartial 3) 3 class_based /\
  (exists G1 G5,
      input_gradient 1
        (snd (CrossEntropyWithSoftmaxNode.ComputeInputPartial 1
                (with_input_gradient 1 (dense 2 2 [[1; 2]; [3; 4]]%Z)
                   masked_cross_entropy_with_softmax)))
      = Some G1 /\
      input_gradient 1
        (snd (CrossEntropyWithSoftmaxNode.ComputeInputPartial 1
                (with_input_gradient 1 (dense 2 2 [[5; 6]; [7; 8]]%Z)
                   masked_cross_entropy_with_softmax)))
      = Some G5 /\
      elem G1 0 0 = 0%Z /\ elem G5 0 0 = 0%Z) /\
  ~ accumulates (CrossEntropyWithSoftmaxNode.ComputeInputPartial 1) 1
      masked_cross_entropy_with_softmax.
Proof.
  split; [|split; [|split]].
  - do 2 eexists. split; [vm_compute; reflexivity|]. split; [vm_compute; reflexivity|].
    split; reflexivity.
  - intros [C H].
    assert (H7 := H (dense 2 3 [[7; 7; 7]; [7; 7; 7]]%Z)).
    assert (H8 := H (dense 2 3 [[8; 8; 8]; [8; 8; 8]]%Z)).
    clear H.
    assert (A7 : adds_contribution (ClassBasedCrossEntropyWithSoftmaxNode.ComputeInputPartial 3) 3
                   (with_input_gradient 3 (dense 2 3 [[7; 7; 7]; [7; 7; 7]]%Z) class_based) C).
    { apply H7. intros G0 HG0. vm_compute in HG0. injection HG0 as <-. split; reflexivity. }
    assert (A8 : adds_contribution (ClassBasedCrossEntropyWithSoftmaxNode.ComputeInputPartial 3) 3
                   (with_input_gradient 3 (dense 2 3 [[8; 8; 8]; [8; 8; 8]]%Z) class_based) C).
    { apply H8. intros G0 HG0. vm_compute in HG0. injection HG0 as <-. split; reflexivity. }
    clear H7 H8.
    element_after A7 0 0. element_after A8 0 0. lia.
  - do 2 eexists. split; [vm_compute; reflexivity|]. split; [vm_compute; reflexivity|].
    split; reflexivity.
  - intros [C H].
    assert (H1 := H (dense 2 2 [[1; 2]; [3; 4]]%Z)).
    assert (H2 := H (dense 2 2 [[5; 6]; [7; 8]]%Z)).
    clear H.
    assert (A1 : adds_contribution (CrossEntropyWithSoftmaxNode.ComputeInputPartial 1) 1
                   (with_input_gradient 1 (dense 2 2 [[1; 2]; [3; 4]]%Z)
                      masked_cross_entropy_with_softmax) C).
    { apply H1. intros G0 HG0. vm_compute in HG0. injection HG0 as <-. split; reflexivity. }
    assert (A2 : adds_contribution (CrossEntropyWithSoftmaxNode.ComputeInputPartial 1) 1
                   (with_input_gradient 1 (dense 2 2 [[5; 6]; [7; 8]]%Z)
                      masked_cross_entropy_with_softmax) C).
    { apply H2. intros G0 HG0. vm_compute in HG0. injection HG0 as <-. split; reflexivity. }
    clear H1 H2.
    element_after A1 0 0. element_after A2 0 0. lia.
Qed.

End Overwritten.

Section OverTheIntegers.
Import Instances.

(** On [cross_entropy_with_softmax] (upstream gradient 2): the label
    gradient goes from 10 to [10 + (-2) * (-1)], the logits gradient from 1
    to [1 + 2 * (6 - 1)]. *)
Lemma cross_entropy_with_softmax_gradients_witness :
  (exists G',
      fst (CrossEntropyWithSoftmaxNode.ComputeInputPartial 0 cross_entropy_with_softmax)
      = Returned tt /\
      input_gradient 0
        (snd (CrossEntropyWithSoftmaxNode.ComputeInputPartial 0 cross_entropy_with_softmax))
      = Some G' /\
      elem G' 0 0 = 12%Z) /\
  (exists G',
      fst (CrossEntropyWithSoftmaxNode.ComputeInputPartial 1 cross_entropy_with_softmax)
      = Returned tt /\
      input_gradient 1
        (snd (CrossEntropyWithSoftmaxNode.ComputeInputPartial 1 cross_entropy_with_softmax))
      = Some G' /\
      elem G' 0 0 = 11%Z).
Proof.
  destruct (@cross_entropy_with_softmax_gradients Z ZScalar cross_entropy_with_softmax
              labels logits eq_refl eq_refl)
    as [(G0 & Hr0 & Hg0 & _ & He0 & _) (G1 & Hr1 & Hg1 & _ & He1 & _)].
  split.
  - exists G0. split; [exact Hr0|]. split; [exact Hg0|]. rewrite He0. reflexivity.
  - exists G1. split; [exact Hr1|]. split; [exact Hg1|]. rewrite He1. reflexivity.
Defined.

(** Column 2 of [class_labels] has an empty class and word index zero. *)
Lemma column_without_label_is_skipped_witness :
  ClassBasedCrossEntropyWithSoftmaxNode.empty_class (FunctionValues class_labels) 2 /\
  ClassBasedCrossEntropyWithSoftmaxNode.y_of (FunctionValues class_labels) 2 = 0%N /\
  forall sz,
    ClassBasedCrossEntropyWithSoftmaxNode.ComputeSoftMaxPartial_step 2 sz class_based
    = (Returned sz, class_based) /\
    forall i,
      ClassBasedCrossEntropyWithSoftmaxNode.ComputeInputPartial_step i 2 sz class_based
      = (Returned sz, class_based).
Proof.
  split; [reflexivity|]. split; [reflexivity|]. intros sz.
  apply (proj2 (proj2 (proj1 (@column_without_label_is_skipped Z ZScalar (idle_engine Z)
                                (FunctionValues class_labels) 2 eq_refl) eq_refl)))
    with (lbl := class_labels); reflexivity.
Defined.

(** The label tensor of [class_based] is on device 0, not on the CPU. *)
Lemma label_must_be_on_cpu_witness :
  GetDeviceId (FunctionValues class_labels) <> CPUDEVICE /\
  threw (fst (ClassBasedCrossEntropyWithSoftmaxNode.EvaluateThisNode
                (TE := idle_engine Z) CPUDEVICE class_based)) = true /\
  snd (ClassBasedCrossEntropyWithSoftmaxNode.EvaluateThisNode
         (TE := idle_engine Z) CPUDEVICE class_based) = class_based.
Proof.
  assert (Hdev : GetDeviceId (FunctionValues class_labels) <> CPUDEVICE) by discriminate.
  split; [exact Hdev|].
  rewrite (proj1 (@label_must_be_on_cpu Z ZScalar (idle_engine Z) CPUDEVICE class_based
                    class_labels observations weights class_posteriors [] eq_refl) Hdev).
  split; reflexivity.
Defined.

(** [dummy_criterion] has a Times node as its derivatives input, of two
    columns where the prediction has four. *)
Lemma dummy_validate_ignores_derivative_node_type_witness :
  OperationName derivatives = "Times"%string /\
  fst (DummyCriterionNode.Validate (ret tt) (fun _ _ => ret tt) dummy_criterion)
  = Returned tt /\
  option_map GetNumCols
    (input_value 1
       (snd (DummyCriterionNode.Validate (ret tt) (fun _ _ => ret tt) dummy_criterion)))
  = Some 4.
Proof.
  split; [reflexivity|].
  rewrite (@dummy_validate_ignores_derivative_node_type Z (ret tt) (fun _ _ => ret tt)
             dummy_criterion dummy_criterion objective derivatives prediction
             eq_refl eq_refl eq_refl eq_refl eq_refl eq_refl eq_refl eq_refl).
  split; reflexivity.
Defined.

(** Input 0 is an InputValue of one row and inputs 1 and 2 have three rows
    each, yet validation throws: input 1 has no column. *)
Lemma dummy_validate_rejects_empty_input :
  OperationName objective = "InputValue"%string /\
  GetNumRows (FunctionValues objective) = 1 /\
  GetNumRows (FunctionValues empty_derivatives) = GetNumRows (FunctionValues prediction) /\
  DummyCriterionNode.Validate (ret tt) (fun _ _ => ret tt)
    dummy_criterion_without_derivatives
  = (Thrown (LogicError "DummyCriterionNode operation: one of the operants has 0 element."),
     dummy_criterion_without_derivatives).
Proof. repeat split. Qed.


(** Mode Unnormalized is written as [1 0 0 0] and read back; the raw value
    3 at offset 2 is read as None and the cursor is back at offset 2. *)
Lemma nce_mode_round_trip_witness :
  NoiseContrastiveEstimationNode.LoadFromFile sizeof_evalMode decode BaseLoadFromFile 0
    (nce, mkFile (contents (snd (NoiseContrastiveEstimationNode.SaveToFile
                                   encode BaseSaveToFile nce (mkFile [] 0)))) 0)
  = (Returned tt,
     (NoiseContrastiveEstimationNode.set_evalMode NCEEvalMode.Unnormalized nce,
      mkFile [1; 0; 0; 0]%Z 4)) /\
  NoiseContrastiveEstimationNode.LoadFromFile sizeof_evalMode decode BaseLoadFromFile 0
    (nce, mkFile [9; 9; 3; 0; 0; 0]%Z 2)
  = (Returned tt,
     (NoiseContrastiveEstimationNode.set_evalMode NCEEvalMode.None nce,
      mkFile [9; 9; 3; 0; 0; 0]%Z 2)).
Proof.
  assert (Hlen : forall v, List.length (encode v) = sizeof_evalMode) by reflexivity.
  assert (Hdec : forall v, (NCEEvalMode.Softmax <= v <= NCEEvalMode.None)%Z ->
                           decode (encode v) = v).
  { intros v Hv. unfold NCEEvalMode.Softmax, NCEEvalMode.None in Hv.
    assert (Hc : v = 0%Z \/ v = 1%Z \/ v = 2%Z) by lia.
    destruct Hc as [-> | [-> | ->]]; reflexivity. }
  destruct (@nce_mode_round_trip Z sizeof_evalMode encode decode BaseSaveToFile
              BaseLoadFromFile Hlen Hdec) as [Hround [Hclamp _]].
  split.
  - apply (Hround nce (mkFile [] 0) (mkFile [] 0) 0 nce nce
             (mkFile (contents (snd (NoiseContrastiveEstimationNode.SaveToFile
                                       encode BaseSaveToFile nce (mkFile [] 0)))) 0)
             (mkFile (contents (snd (NoiseContrastiveEstimationNode.SaveToFile
                                       encode BaseSaveToFile nce (mkFile [] 0)))) 0));
      reflexivity.
  - apply (Hclamp 0 nce nce (mkFile [9; 9; 3; 0; 0; 0]%Z 2) (mkFile [9; 9; 3; 0; 0; 0]%Z 2));
      [reflexivity|vm_compute; lia|reflexivity].
Defined.

End OverTheIntegers.

Section OverTheReals.
Import RealInstances.
Import CRFNode.

Lemma one_label : one_hot_column lbls 0 0.
Proof.
  split; [simpl; lia|]. split; [reflexivity|].
  intros i Hi Hne. simpl in Hi. lia.
Qed.

(** Two cells of the forward table of the sequence of four positions
    labelled 1, 0, 0, 1: cell (1, 1), which adds up the cells of column 0,
    and cell (0, 0), seeded with zero at label 1 and with the sentinel at
    label 0. *)
Lemma crf_forward_recursion_witness :
  let alpha' := CRFNode.ForwardCompute scratch chain_lbls chain_pos chain_pair in
  elem alpha' 1 1
  = (elem chain_pos 1 1
     + ln (exp (ln (exp LZERO + exp (elem alpha' 0 0 + elem chain_pair 1 0)))
           + exp (elem alpha' 1 0 + elem chain_pair 1 1)))%R /\
  elem alpha' 0 0
  = (elem chain_pos 0 0
     + ln (exp (ln (exp LZERO + exp (LZERO + elem chain_pair 0 0)))
           + exp (0 + elem chain_pair 0 1)))%R.
Proof.
  assert (HT : (Z.of_nat (GetNumCols chain_lbls) < 2 ^ 31)%Z) by reflexivity.
  assert (HL : (Z.of_nat (GetNumRows chain_lbls) < 2 ^ 31)%Z) by reflexivity.
  assert (Hfirst : 1 < GetNumRows chain_lbls) by (simpl; lia).
  assert (Hhot : snonzero (elem chain_lbls 1 0) = true).
  { cbn [elem chain_lbls chain_label Nat.eqb snonzero RScalar].
    destruct (Req_dec_T 1 0) as [H|_]; [lra|reflexivity]. }
  assert (Hzero : forall j, j < GetNumRows chain_lbls -> j <> 1 ->
                            snonzero (elem chain_lbls j 0) = false).
  { intros j Hj Hne. simpl in Hj. assert (j = 0) by lia. subst j.
    cbn [elem chain_lbls chain_label Nat.eqb snonzero RScalar].
    destruct (Req_dec_T 0 0) as [_|H]; [reflexivity|contradiction]. }
  pose proof (@crf_forward_recursion R RScalar RLogScalar RScalarLaws
                scratch chain_lbls chain_pos chain_pair 1 HT HL Hfirst Hhot Hzero) as H.
  cbv zeta in H. intros alpha'. split.
  - apply (H 1 1); simpl; lia.
  - apply (H 0 0); simpl; lia.
Defined.

(** The output of that sequence. *)
Lemma crf_negative_log_likelihood_witness :
  Get00Element (CRFNode.out_functionValues evaluated)
  = (- 0 + ln (exp LZERO + exp (elem (CRFNode.out_alpha evaluated) 0 0)))%R.
Proof.
  apply (proj1 (@crf_negative_log_likelihood R RScalar RLogScalar RScalarLaws
                  (Instances.idle_engine R))
           scratch scratch scratch scratch lbls pos_scores pair_scores 0
           eq_refl eq_refl one_label).
Defined.

Lemma alpha_of_one_label :
  elem (CRFNode.out_alpha evaluated) 0 0 = ln (exp LZERO + exp 1)%R.
Proof.
  pose proof (proj1 (@length_one_sequence R RScalar RLogScalar RScalarLaws
                       (Instances.idle_engine R)
                       scratch scratch scratch scratch lbls pos_scores pair_scores 0
                       eq_refl eq_refl one_label) 0 (Nat.lt_0_succ 0)) as H.
  fold evaluated in H. rewrite H.
  cbn [CRFNode.logAddOver Nat.eqb elem pos_scores pair_scores one_by_one GetNumRows lbls
       sadd s0 RScalar LogAdd RLogScalar].
  rewrite !Rplus_0_l. reflexivity.
Qed.

Lemma alpha_of_one_label_gt_1 : (1 < elem (CRFNode.out_alpha evaluated) 0 0)%R.
Proof.
  rewrite alpha_of_one_label.
  rewrite <- (ln_exp 1) at 1.
  apply ln_increasing; [apply exp_pos|].
  pose proof (exp_pos LZERO). lra.
Qed.

(** On a sequence of length one whose transition score is not zero,
    [alpha] is not the position score and the output is not the claimed
    one. *)
Lemma crf_length_one_includes_transition :
  one_hot_column lbls 0 0 /\
  GetNumCols lbls = 1 /\
  elem (CRFNode.out_alpha evaluated) 0 0 <> elem pos_scores 0 0 /\
  Get00Element (CRFNode.out_functionValues evaluated)
  <> (- elem pos_scores 0 0
      + CRFNode.logAddOver 1 (fun k => elem pos_scores k 0))%E.
Proof.
  split; [exact one_label|]. split; [reflexivity|].
  pose proof alpha_of_one_label_gt_1 as Hgt.
  split.
  - cbn [elem pos_scores one_by_one]. lra.
  - pose proof (proj2 (@length_one_sequence R RScalar RLogScalar RScalarLaws
                         (Instances.idle_engine R)
                         scratch scratch scratch scratch lbls pos_scores pair_scores 0
                         eq_refl eq_refl one_label)) as H.
    fold evaluated in H. rewrite H.
    cbn [CRFNode.logAddOver Nat.eqb elem pos_scores pair_scores one_by_one GetNumRows lbls
         sadd sopp s0 RScalar LogAdd RLogScalar].
    intros Heq. apply Rplus_eq_reg_l in Heq.
    apply ln_inv in Heq.
    + apply Rplus_eq_reg_l in Heq. apply exp_inv in Heq. lra.
    + pose proof (exp_pos LZERO).
      pose proof (exp_pos (elem (CRFNode.out_alpha evaluated) 0 0)). lra.
    + pose proof (exp_pos LZERO). pose proof (exp_pos 0). lra.
Qed.

End OverTheReals.

(* ================================================================== *)
(** * More about the nodes *)
(* ================================================================== *)

(** ** What a computation leaves alone *)

Section PreservesFacts.
Context {S : Type}.

Lemma preserves_ret {A X : Type} (f : S -> X) (a : A) : preserves f (ret a).
Proof. intros s; reflexivity. Qed.

Lemma preserves_throw {A X : Type} (f : S -> X) (e : Exn) : preserves f (@throw S A e).
Proof. intros s; reflexivity. Qed.

Lemma preserves_gets {A X : Type} (f : S -> X) (g : S -> A) : preserves f (gets g).
Proof. intros s; reflexivity. Qed.

Lemma preserves_modify {X : Type} (f : S -> X) (g : S -> S) :
  (forall s, f (g s) = f s) -> preserves f (modify g).
Proof. intros H s; apply H. Qed.

Lemma preserves_bind {A B X : Type} (f : S -> X) (c : M S A) (k : A -> M S B) :
  preserves f c -> (forall a, preserves f (k a)) -> preserves f (bind c k).
Proof.
  intros Hc Hk s. unfold bind. specialize (Hc s).
  destruct (c s) as [[a|e] s']; cbn [snd] in *; [rewrite Hk|]; exact Hc.
Qed.

Lemma preserves_when {X : Type} (f : S -> X) (b : bool) (c : M S unit) :
  preserves f c -> preserves f (when_ b c).
Proof. intros Hc; destruct b; [exact Hc|apply preserves_ret]. Qed.

Lemma preserves_if {A X : Type} (f : S -> X) (b : bool) (c1 c2 : M S A) :
  preserves f c1 -> preserves f c2 -> preserves f (if b then c1 else c2).
Proof. destruct b; auto. Qed.

Lemma preserves_for_acc {A X : Type} (f : S -> X) (body : nat -> A -> M S A) :
  (forall t a, preserves f (body t a)) ->
  forall count start a, preserves f (for_acc start count body a).
Proof.
  intros Hb count; induction count as [|c IH]; intros start a; cbn [for_acc].
  - apply preserves_ret.
  - apply preserves_bind; [apply Hb|intros a'; apply IH].
Qed.

Lemma preserves_for_from {X : Type} (f : S -> X) (body : nat -> M S unit) :
  (forall t, preserves f (body t)) ->
  forall count start, preserves f (for_from start count body).
Proof.
  intros Hb count; induction count as [|c IH]; intros start; cbn [for_from].
  - apply preserves_ret.
  - apply preserves_bind; [apply Hb|intros _; apply IH].
Qed.

End PreservesFacts.

Section PreservesMembers.
Context {E : Type} {SE : Scalar E} {S : Type} {NS : NodeState E S}.

Lemma preserves_Inputs {X : Type} (f : S -> X) (i : nat) : preserves f (Inputs i).
Proof. intros s. unfold Inputs. destruct (nth_error _ i); reflexivity. Qed.

Lemma preserves_InputFunctionValues {X : Type} (f : S -> X) (i : nat) :
  preserves f (InputFunctionValues i).
Proof.
  unfold InputFunctionValues. apply preserves_bind; [apply preserves_Inputs|].
  intros c; apply preserves_ret.
Qed.

(** An update of the gradient tensor of input [i] leaves the value tensors
    of all inputs and the gradient tensors of the other inputs alone. *)
Lemma input_value_set (i j : nat) (c' : InputNode E) (s : S) (c : InputNode E) :
  nth_error (m_children (get_base s)) i = Some c ->
  FunctionValues c' = FunctionValues c ->
  input_value j (set_base (set_children (list_set i c' (m_children (get_base s)))
                                        (get_base s)) s)
  = input_value j s.
Proof.
  intros Hc Hv. unfold input_value. rewrite get_set_base. cbn [m_children set_children].
  destruct (Nat.eq_dec i j) as [->|Hne].
  - rewrite (nth_error_list_set_eq _ _ _ Hc), Hc. cbn [option_map]. rewrite Hv. reflexivity.
  - rewrite (nth_error_list_set_ne _ _ Hne). reflexivity.
Qed.

Lemma preserves_value_OnInputGradientValues (i j : nat) (f : Matrix E -> Matrix E) :
  preserves (input_value j) (OnInputGradientValues (S := S) i f).
Proof.
  intros s. unfold OnInputGradientValues, bind, Inputs, SetInput, modify.
  destruct (nth_error (m_children (get_base s)) i) as [c|] eqn:Hc; [|reflexivity].
  cbn [snd]. apply (input_value_set i j _ s c Hc). reflexivity.
Qed.

Lemma preserves_gradient_OnInputGradientValues (i j : nat) (f : Matrix E -> Matrix E) :
  i <> j -> preserves (input_gradient j) (OnInputGradientValues (S := S) i f).
Proof.
  intros Hne s. unfold OnInputGradientValues, bind, Inputs, SetInput, modify.
  destruct (nth_error (m_children (get_base s)) i) as [c|] eqn:Hc; [|reflexivity].
  cbn [snd]. apply (input_gradient_set_ne _ s Hne).
Qed.

Lemma preserves_own_OnInputGradientValues (i : nat) (f : Matrix E -> Matrix E) :
  preserves own_tensors (OnInputGradientValues (S := S) i f).
Proof.
  intros s. unfold OnInputGradientValues, bind, Inputs, SetInput, modify.
  destruct (nth_error (m_children (get_base s)) i) as [c|] eqn:Hc; [|reflexivity].
  cbn [snd]. unfold own_tensors. rewrite get_set_base. reflexivity.
Qed.

End PreservesMembers.

(** ** CRF: the label of a column and the forward table *)

Section CRFLabels.
Context {E : Type} {SE : Scalar E} {LS : LogScalar E}.
Import CRFNode.

Lemma find_label_from_none (lbls : Matrix E) (col : nat) :
  forall count ik,
    find_label_from lbls col ik count = (-1)%Z <->
    (forall i, ik <= i < ik + count -> snonzero (elem lbls i col) = false).
Proof.
  induction count as [|c IH]; intros ik; cbn [find_label_from].
  - split; [intros _ i Hi; lia|reflexivity].
  - destruct (snonzero (elem lbls ik col)) eqn:Hik.
    + split; [lia|]. intros H. rewrite (H ik) in Hik by lia. discriminate.
    + rewrite IH. split; intros H i Hi.
      * destruct (Nat.eq_dec i ik) as [->|Hne]; [exact Hik|apply H; lia].
      * apply H; lia.
Qed.

Lemma find_label_from_some (lbls : Matrix E) (col k : nat) :
  forall count ik,
    find_label_from lbls col ik count = Z.of_nat k <->
    (ik <= k < ik + count /\ snonzero (elem lbls k col) = true /\
     forall i, ik <= i < k -> snonzero (elem lbls i col) = false).
Proof.
  induction count as [|c IH]; intros ik; cbn [find_label_from].
  - split; [lia|intros [Hr _]; lia].
  - destruct (snonzero (elem lbls ik col)) eqn:Hik.
    + split.
      * intros Hk. apply Nat2Z.inj in Hk. subst k.
        split; [lia|]. split; [exact Hik|]. intros i Hi; lia.
      * intros [Hr [Hk Hz]]. destruct (Nat.eq_dec ik k) as [->|Hne]; [reflexivity|].
        rewrite (Hz ik) in Hik by lia. discriminate.
    + rewrite IH. split; intros [Hr [Hk Hz]].
      * split; [lia|]. split; [exact Hk|]. intros i Hi.
        destruct (Nat.eq_dec i ik) as [->|Hne]; [exact Hik|apply Hz; lia].
      * assert (ik <> k) by (intros ->; rewrite Hk in Hik; discriminate).
        split; [lia|]. split; [exact Hk|]. intros i Hi. apply Hz; lia.
Qed.

(** X2.  The label the CRF node reads off column [col] of the label tensor
    is the row of the first entry that is not zero, whatever the other
    entries are (the column need not be one-hot), and [-1] exactly when
    the whole column is zero; it is never another negative number and
    never beyond the last row. *)
Theorem find_label_first_nonzero (lbls : Matrix E) (col : nat) :
  (find_label lbls col = (-1)%Z <->
   forall i, i < GetNumRows lbls -> snonzero (elem lbls i col) = false) /\
  (forall k, find_label lbls col = Z.of_nat k <->
             (k < GetNumRows lbls /\ snonzero (elem lbls k col) = true /\
              forall i, i < k -> snonzero (elem lbls i col) = false)) /\
  (-1 <= find_label lbls col < Z.of_nat (GetNumRows lbls))%Z.
Proof.
  unfold find_label. split; [|split].
  - rewrite find_label_from_none. split; intros H i Hi; apply H; lia.
  - intros k. rewrite find_label_from_some. split; intros [Hr [Hk Hz]].
    + split; [lia|]. split; [exact Hk|]. intros i Hi; apply Hz; lia.
    + split; [lia|]. split; [exact Hk|]. intros i Hi; apply Hz; lia.
  - destruct (find_label_from lbls col 0 (GetNumRows lbls)) as [|p|p] eqn:Hf.
    + change 0%Z with (Z.of_nat 0) in Hf. apply find_label_from_some in Hf. lia.
    + rewrite <- (positive_nat_Z p) in Hf. apply find_label_from_some in Hf.
      rewrite <- (positive_nat_Z p). lia.
    + assert (Hnot : forall k, find_label_from lbls col 0 (GetNumRows lbls) <> Z.of_nat k)
        by (intros k; rewrite Hf; lia).
      assert (Hnone : find_label_from lbls col 0 (GetNumRows lbls) = (-1)%Z).
      { apply find_label_from_none. intros i Hi.
        destruct (snonzero (elem lbls i col)) eqn:Hi'; [|reflexivity]. exfalso.
        assert (Hex : forall n, n <= i ->
                  (forall j, j < n -> snonzero (elem lbls j col) = false) \/
                  exists k, k < n /\ snonzero (elem lbls k col) = true /\
                            forall j, j < k -> snonzero (elem lbls j col) = false).
        { induction n as [|n IHn]; intros Hn.
          - left. intros j Hj; lia.
          - destruct (IHn ltac:(lia)) as [Hz|[k [Hk1 [Hk2 Hk3]]]].
            + destruct (snonzero (elem lbls n col)) eqn:Hn'.
              * right. exists n. split; [lia|]. split; [exact Hn'|exact Hz].
              * left. intros j Hj. destruct (Nat.eq_dec j n) as [->|]; [exact Hn'|apply Hz; lia].
            + right. exists k. split; [lia|]. split; assumption. }
        destruct (Hex i (Nat.le_refl i)) as [Hz|[k [Hk1 [Hk2 Hk3]]]].
        - apply (Hnot i). apply find_label_from_some.
          split; [lia|]. split; [exact Hi'|]. intros j Hj; apply Hz; lia.
        - apply (Hnot k). apply find_label_from_some.
          split; [lia|]. split; [exact Hk2|]. intros j Hj; apply Hk3; lia. }
      rewrite Hf in Hnone. lia.
Qed.

(** The cells of the forward table depend on the label tensor through its
    dimensions and the label of its first column only, and not on what
    [alpha] held before. *)
Lemma ForwardCompute_same (A1 A2 lbls1 lbls2 pos_scores pair_scores : Matrix E) :
  (Z.of_nat (GetNumCols lbls1) < 2 ^ 31)%Z ->
  (Z.of_nat (GetNumRows lbls1) < 2 ^ 31)%Z ->
  GetNumRows lbls2 = GetNumRows lbls1 ->
  GetNumCols lbls2 = GetNumCols lbls1 ->
  find_label lbls2 0 = find_label lbls1 0 ->
  forall t k, t < GetNumCols lbls1 -> k < GetNumRows lbls1 ->
    elem (ForwardCompute A1 lbls1 pos_scores pair_scores) k t
    = elem (ForwardCompute A2 lbls2 pos_scores pair_scores) k t.
Proof.
  intros HT HL HR HC Hlab t.
  assert (HT2 : (Z.of_nat (GetNumCols lbls2) < 2 ^ 31)%Z) by (rewrite HC; exact HT).
  assert (HL2 : (Z.of_nat (GetNumRows lbls2) < 2 ^ 31)%Z) by (rewrite HR; exact HL).
  induction t as [|t IH]; intros k Ht Hk.
  - rewrite (ForwardCompute_cells lbls1 pos_scores pair_scores A1 HT HL 0 k Ht Hk).
    rewrite (ForwardCompute_cells lbls2 pos_scores pair_scores A2 HT2 HL2 0 k)
      by (rewrite ?HC, ?HR; assumption).
    unfold cell_value. rewrite HR. f_equal. apply logAddOver_ext. intros j Hj. f_equal.
    unfold fAlpha_at. cbn [Nat.ltb Nat.leb]. rewrite Hlab. reflexivity.
  - rewrite (ForwardCompute_cells lbls1 pos_scores pair_scores A1 HT HL (S t) k Ht Hk).
    rewrite (ForwardCompute_cells lbls2 pos_scores pair_scores A2 HT2 HL2 (S t) k)
      by (rewrite ?HC, ?HR; assumption).
    unfold cell_value. rewrite HR. f_equal. apply logAddOver_ext. intros j Hj. f_equal.
    unfold fAlpha_at. cbn [Nat.ltb Nat.leb].
    replace (S t - 1) with t by lia. apply IH; [lia|exact Hj].
Qed.

Lemma ForwardCompute_cols (alpha lbls pos_scores pair_scores : Matrix E) :
  GetNumCols (ForwardCompute alpha lbls pos_scores pair_scores)
  = Z.to_nat (int_of_size_t (GetNumCols lbls)).
Proof.
  unfold ForwardCompute.
  set (L := Z.to_nat (int_of_size_t (GetNumRows lbls))).
  set (T := Z.to_nat (int_of_size_t (GetNumCols lbls))).
  apply (iterate_invariant (fun _ A => GetNumCols A = T)
           (fun t => iterate 0 L (ForwardCompute_cell L (find_label lbls 0)
                                                      pos_scores pair_scores t))
           T 0 (Resize L T alpha) eq_refl).
  intros t A _ HA.
  apply (iterate_invariant (fun _ A' => GetNumCols A' = T)
           (ForwardCompute_cell L (find_label lbls 0) pos_scores pair_scores t)
           L 0 A HA).
  intros k A' _ HA'. exact HA'.
Qed.

(** X3.  [ForwardCompute] resizes [alpha] to the dimensions of the label
    tensor and overwrites every cell: the table it leaves does not depend
    on what [alpha] held or how large it was, and of the label tensor it
    uses the dimensions and the label of column 0 only (the labels of the
    later columns play no part in the forward table). *)
Theorem forward_table_determined (A1 A2 lbls1 lbls2 pos_scores pair_scores : Matrix E) :
  (Z.of_nat (GetNumCols lbls1) < 2 ^ 31)%Z ->
  (Z.of_nat (GetNumRows lbls1) < 2 ^ 31)%Z ->
  GetNumRows lbls2 = GetNumRows lbls1 ->
  GetNumCols lbls2 = GetNumCols lbls1 ->
  find_label lbls2 0 = find_label lbls1 0 ->
  GetNumRows (ForwardCompute A1 lbls1 pos_scores pair_scores) = GetNumRows lbls1 /\
  GetNumCols (ForwardCompute A1 lbls1 pos_scores pair_scores) = GetNumCols lbls1 /\
  forall t k, t < GetNumCols lbls1 -> k < GetNumRows lbls1 ->
    elem (ForwardCompute A1 lbls1 pos_scores pair_scores) k t
    = elem (ForwardCompute A2 lbls2 pos_scores pair_scores) k t.
Proof.
  intros HT HL HR HC Hlab. split; [|split].
  - rewrite (@ForwardCompute_rows E SE LS), int_of_size_t_small by exact HL. apply Nat2Z.id.
  - rewrite ForwardCompute_cols, int_of_size_t_small by exact HT. apply Nat2Z.id.
  - apply ForwardCompute_same; assumption.
Qed.

End CRFLabels.

(** ** What a gradient request leaves alone *)

Create HintDb frame discriminated.

#[global] Hint Resolve preserves_ret preserves_throw preserves_gets preserves_bind
  preserves_when preserves_if preserves_for_acc preserves_for_from
  preserves_Inputs preserves_InputFunctionValues : frame.
#[global] Hint Extern 1 (preserves _ (modify _)) =>
  (apply preserves_modify; intros; reflexivity) : frame.
#[global] Hint Extern 1 (preserves _ NodeGradientValues) => apply preserves_gets : frame.
#[global] Hint Extern 1 (preserves _ NodeFunctionValues) => apply preserves_gets : frame.
#[global] Hint Extern 1 (preserves _ (for_loop _ _)) => apply preserves_for_from : frame.
#[global] Hint Extern 1 (preserves (input_value _) (OnInputGradientValues _ _)) =>
  apply preserves_value_OnInputGradientValues : frame.
#[global] Hint Extern 1 (preserves own_tensors (OnInputGradientValues _ _)) =>
  apply preserves_own_OnInputGradientValues : frame.
#[global] Hint Extern 1 (preserves (input_gradient _) (OnInputGradientValues _ _)) =>
  (apply preserves_gradient_OnInputGradientValues; congruence) : frame.
#[global] Hint Extern 8 (preserves _ _) => progress cbv zeta : frame.

Section GradientFrame.
Context {E : Type} {SE : Scalar E} {LS : LogScalar E} {TE : TensorEngine E}.

Lemma preserves_member_OnInputGradientValues {S X : Type} {NS : NodeState E S}
  (f : S -> X) (i : nat) (g : Matrix E -> Matrix E) :
  (forall b s, f (set_base b s) = f s) -> preserves f (OnInputGradientValues i g).
Proof.
  intros Hf s. unfold OnInputGradientValues, bind, Inputs, SetInput, modify.
  destruct (nth_error (m_children (get_base s)) i) as [c|]; [|reflexivity].
  cbn [snd]. apply Hf.
Qed.

Lemma preserves_GetNumParallelSequences {X : Type} (f : CRFNode.Node E -> X) :
  preserves f CRFNode.GetNumParallelSequences.
Proof.
  intros s. unfold CRFNode.GetNumParallelSequences.
  destruct (m_pMBLayout (CRFNode.base s)); reflexivity.
Qed.

Lemma SquareError_frame (i : nat) :
  writes_gradient_only (SquareErrorNode.ComputeInputPartial (E := E) i) i.
Proof.
  unfold writes_gradient_only. repeat split; intros; destruct i as [|[|i]];
    try (intros s; reflexivity);
    unfold SquareErrorNode.ComputeInputPartial;
    cbn [Nat.ltb Nat.leb Nat.eqb]; auto 30 with frame.
Qed.

Lemma CrossEntropyWithSoftmax_frame (i : nat) :
  writes_gradient_only (CrossEntropyWithSoftmaxNode.ComputeInputPartial (E := E) i) i.
Proof.
  unfold writes_gradient_only. repeat split; intros;
    unfold CrossEntropyWithSoftmaxNode.ComputeInputPartial; auto 30 with frame.
Qed.

Lemma CrossEntropy_frame (i : nat) :
  writes_gradient_only (CrossEntropyNode.ComputeInputPartial (E := E) i) i.
Proof.
  unfold writes_gradient_only. repeat split; intros;
    unfold CrossEntropyNode.ComputeInputPartial; auto 30 with frame.
Qed.

Lemma MatrixL1Reg_frame (i : nat) :
  writes_gradient_only (MatrixL1RegNode.ComputeInputPartial (E := E) i) i.
Proof.
  unfold writes_gradient_only. repeat split; intros; destruct i as [|i];
    try (intros s; reflexivity);
    unfold MatrixL1RegNode.ComputeInputPartial; auto 30 with frame.
Qed.

Lemma MatrixL2Reg_frame (i : nat) :
  writes_gradient_only (MatrixL2RegNode.ComputeInputPartial (E := E) i) i.
Proof.
  unfold writes_gradient_only. repeat split; intros; destruct i as [|i];
    try (intros s; reflexivity);
    unfold MatrixL2RegNode.ComputeInputPartial; auto 30 with frame.
Qed.

Lemma DummyCriterion_frame (i : nat) :
  writes_gradient_only (DummyCriterionNode.ComputeInputPartial (E := E) i) i.
Proof.
  unfold writes_gradient_only. repeat split; intros;
    unfold DummyCriterionNode.ComputeInputPartial; auto 30 with frame.
Qed.

Lemma NCE_frame (i : nat) :
  writes_gradient_only (NoiseContrastiveEstimationNode.ComputeInputPartial (E := E) i) i.
Proof.
  unfold writes_gradient_only. repeat split; intros;
    unfold NoiseContrastiveEstimationNode.ComputeInputPartial; auto 30 with frame.
Qed.

Lemma CRF_frame (i : nat) :
  writes_gradient_only (CRFNode.ComputeInputPartial (E := E) i) i.
Proof.
  pose proof (@preserves_GetNumParallelSequences) as Hn.
  unfold writes_gradient_only. repeat split; intros;
    unfold CRFNode.ComputeInputPartial; auto 30 with frame.
Qed.

End GradientFrame.

Section ClassBasedFrame.
Context {E : Type} {SE : Scalar E} {TE : TensorEngine E}.
Import ClassBasedCrossEntropyWithSoftmaxNode.

(** The softmax gradient is computed on the node's own scratch tensors. *)
Lemma preserves_ComputeSoftMaxPartial {X : Type} (f : Node E -> X) :
  (forall s m, f (set_softMax m s) = f s) ->
  (forall s m, f (set_grdToSoftMaxInput m s) = f s) ->
  (forall s b, f (set_needRecompute b s) = f s) ->
  preserves f ComputeSoftMaxPartial.
Proof.
  intros H1 H2 H3.
  assert (Hm1 : forall g, preserves f (modify (fun n => set_softMax (g n) n)))
    by (intros g s; apply H1).
  assert (Hm2 : forall g, preserves f (modify (fun n => set_grdToSoftMaxInput (g n) n)))
    by (intros g s; apply H2).
  assert (Hm3 : forall b, preserves f (modify (set_needRecompute b)))
    by (intros b s; apply H3).
  unfold ComputeSoftMaxPartial.
  apply preserves_bind; [apply preserves_gets|]. intros stale. apply preserves_when.
  apply preserves_bind; [apply Hm2|]. intros _.
  apply preserves_bind; [apply preserves_InputFunctionValues|]. intros in1.
  apply preserves_bind; [|intros _; apply Hm3].
  apply preserves_for_acc. intros t sz. unfold ComputeSoftMaxPartial_step.
  apply preserves_bind; [apply preserves_InputFunctionValues|]. intros lbl. cbv zeta.
  apply preserves_if; [apply preserves_if; auto with frame|].
  apply preserves_bind; [apply preserves_gets|]. intros g.
  apply preserves_bind; [apply Hm1|]. intros _.
  apply preserves_bind; [apply Hm2|]. intros _. apply preserves_ret.
Qed.

Lemma ClassBased_frame (i : nat) :
  writes_gradient_only (ComputeInputPartial (E := E) i) i.
Proof.
  unfold writes_gradient_only. repeat split; intros.
  - unfold ComputeInputPartial.
    apply preserves_bind; [auto with frame|]. intros _.
    apply preserves_bind; [auto with frame|]. intros lbl. cbv zeta.
    apply preserves_bind; [apply preserves_ComputeSoftMaxPartial; reflexivity|]. intros _.
    apply preserves_bind; [|auto with frame].
    apply preserves_for_acc. intros t sz. unfold ComputeInputPartial_step.
    destruct i as [|[|[|[|i]]]]; auto 30 with frame.
  - unfold ComputeInputPartial.
    apply preserves_bind; [auto with frame|]. intros _.
    apply preserves_bind; [auto with frame|]. intros lbl. cbv zeta.
    apply preserves_bind; [apply preserves_ComputeSoftMaxPartial; reflexivity|]. intros _.
    apply preserves_bind; [|auto with frame].
    apply preserves_for_acc. intros t sz. unfold ComputeInputPartial_step.
    destruct i as [|[|[|[|i]]]]; auto 30 with frame.
  - unfold ComputeInputPartial.
    apply preserves_bind; [auto with frame|]. intros _.
    apply preserves_bind; [auto with frame|]. intros lbl. cbv zeta.
    apply preserves_bind; [apply preserves_ComputeSoftMaxPartial; reflexivity|]. intros _.
    apply preserves_bind; [|auto with frame].
    apply preserves_for_acc. intros t sz. unfold ComputeInputPartial_step.
    destruct i as [|[|[|[|i]]]]; auto 30 with frame.
Qed.

End ClassBasedFrame.

Section GradientFrameTheorem.
Context {E : Type} {SE : Scalar E} {LS : LogScalar E} {TE : TensorEngine E}.

(** X4.  A gradient request for input [i] writes, of the tensors of the
    graph, the gradient of input [i] and nothing else: the value tensors
    of all inputs, the gradient tensors of the other inputs (the inputs
    being distinct nodes), and the node's own value, gradient and layout
    are what they were, whether the request returns or throws.  This holds
    for every node of the header and every index [i]. *)
Theorem gradient_request_writes_one_gradient (i : nat) :
  writes_gradient_only (SquareErrorNode.ComputeInputPartial (E := E) i) i /\
  writes_gradient_only (CrossEntropyWithSoftmaxNode.ComputeInputPartial (E := E) i) i /\
  writes_gradient_only (CrossEntropyNode.ComputeInputPartial (E := E) i) i /\
  writes_gradient_only (MatrixL1RegNode.ComputeInputPartial (E := E) i) i /\
  writes_gradient_only (MatrixL2RegNode.ComputeInputPartial (E := E) i) i /\
  writes_gradient_only (DummyCriterionNode.ComputeInputPartial (E := E) i) i /\
  writes_gradient_only (NoiseContrastiveEstimationNode.ComputeInputPartial (E := E) i) i /\
  writes_gradient_only (ClassBasedCrossEntropyWithSoftmaxNode.ComputeInputPartial (E := E) i) i /\
  writes_gradient_only (CRFNode.ComputeInputPartial (E := E) i) i.
Proof.
  split; [apply SquareError_frame|].
  split; [apply CrossEntropyWithSoftmax_frame|].
  split; [apply CrossEntropy_frame|].
  split; [apply MatrixL1Reg_frame|].
  split; [apply MatrixL2Reg_frame|].
  split; [apply DummyCriterion_frame|].
  split; [apply NCE_frame|].
  split; [apply ClassBased_frame|].
  apply CRF_frame.
Qed.

End GradientFrameTheorem.

(** ** ClassBasedCrossEntropyWithSoftmax: the cached softmax gradient *)

Section ClassBasedCache.
Context {E : Type} {SE : Scalar E} {TE : TensorEngine E}.
Import ClassBasedCrossEntropyWithSoftmaxNode.

(** The scratch state of the softmax gradient. *)
Local Abbreviation cache :=
  (fun n : Node E => (m_softMax n, m_grdToSoftMaxInput n,
                      m_needRecomputeGradientToSoftmaxInput n)).

Lemma ComputeSoftMaxPartial_fresh (s : Node E) :
  m_needRecomputeGradientToSoftmaxInput s = false ->
  ComputeSoftMaxPartial s = (Returned tt, s).
Proof.
  intros Hf. unfold ComputeSoftMaxPartial, bind, gets. rewrite Hf. reflexivity.
Qed.

Lemma ComputeSoftMaxPartial_clears (s s' : Node E) :
  ComputeSoftMaxPartial s = (Returned tt, s') ->
  m_needRecomputeGradientToSoftmaxInput s' = false.
Proof.
  unfold ComputeSoftMaxPartial. unfold bind at 1, gets at 1.
  destruct (m_needRecomputeGradientToSoftmaxInput s) eqn:Hs.
  - cbn [when_]. unfold bind at 1, modify at 1.
    unfold bind at 1.
    match goal with |- context [InputFunctionValues 1 ?x] =>
      destruct (InputFunctionValues 1 x) as [[in1|e] s1] end; [|discriminate].
    unfold bind at 1.
    match goal with |- context [for_acc ?a ?b ?c ?d ?x] =>
      destruct (for_acc a b c d x) as [[sz|e] s2] end; [|discriminate].
    unfold modify. intros H; inversion H; reflexivity.
  - cbn [when_ ret]. intros H; inversion H; subst. exact Hs.
Qed.

Lemma preserves_cache_step (i t : nat) (sz : N) :
  preserves cache (ComputeInputPartial_step (E := E) i t sz).
Proof.
  pose proof (fun i g => @preserves_member_OnInputGradientValues E (Node E) _ _
                           cache i g (fun _ _ => eq_refl)) as Hg.
  unfold ComputeInputPartial_step.
  destruct i as [|[|[|[|i]]]]; auto 30 with frame.
Qed.

Lemma ComputeInputPartial_with_fresh_cache (j : nat) (s : Node E) :
  m_needRecomputeGradientToSoftmaxInput s = false ->
  ComputeInputPartial j s
  = (when_ (negb (j =? 1) && negb (j =? 2) && negb (j =? 3))
           (throw (InvalidArgument "ClassCrossEntropyWithSoftmaxNode criterion only takes with respect to input, weight to the input and class log posterior probability.")) ;;
     lbl <- InputFunctionValues 0 ;;
     for_acc 0 (GetNumCols lbl) (ComputeInputPartial_step j) 0%N ;;
     ret tt) s.
Proof.
  intros Hfresh. unfold ComputeInputPartial.
  unfold bind at 1 5.
  destruct (negb (j =? 1) && negb (j =? 2) && negb (j =? 3)); [reflexivity|].
  cbn [when_ ret]. unfold bind at 1 4.
  destruct (InputFunctionValues 0 s) as [[lbl|e] s1] eqn:Hl; [|reflexivity].
  assert (Hs1 : s1 = s).
  { unfold InputFunctionValues, bind, Inputs, ret in Hl.
    destruct (nth_error (m_children (get_base s)) 0); inversion Hl; reflexivity. }
  subst s1. cbv zeta. unfold bind at 1.
  rewrite (ComputeSoftMaxPartial_fresh s Hfresh). reflexivity.
Qed.

Lemma ComputeInputPartial_keeps_fresh_cache (j : nat) (s : Node E) :
  m_needRecomputeGradientToSoftmaxInput s = false ->
  cache (snd (ComputeInputPartial j s)) = cache s.
Proof.
  intros Hfresh. rewrite (ComputeInputPartial_with_fresh_cache j s Hfresh).
  pose proof (preserves_cache_step j) as Hstep.
  revert s Hfresh. 
  assert (H : preserves cache
                (when_ (negb (j =? 1) && negb (j =? 2) && negb (j =? 3))
                   (throw (InvalidArgument "ClassCrossEntropyWithSoftmaxNode criterion only takes with respect to input, weight to the input and class log posterior probability.")) ;;
                 lbl <- InputFunctionValues 0 ;;
                 for_acc 0 (GetNumCols lbl) (ComputeInputPartial_step (E := E) j) 0%N ;;
                 ret tt)) by auto 30 with frame.
  intros s _. apply H.
Qed.

Lemma ComputeInputPartial_clears (i : nat) (s s' : Node E) :
  ComputeInputPartial i s = (Returned tt, s') ->
  m_needRecomputeGradientToSoftmaxInput s' = false.
Proof.
  unfold ComputeInputPartial. unfold bind at 1.
  destruct (negb (i =? 1) && negb (i =? 2) && negb (i =? 3)); [discriminate|].
  cbn [when_ ret]. unfold bind at 1.
  destruct (InputFunctionValues 0 s) as [[lbl|e] s1]; [|discriminate].
  cbv zeta. unfold bind at 1.
  destruct (ComputeSoftMaxPartial s1) as [[[]|e] s2] eqn:Hsm; [|discriminate].
  apply ComputeSoftMaxPartial_clears in Hsm.
  intros Hrun.
  pose proof (@preserves_bind (Node E) N unit _ cache
                (for_acc 0 (GetNumCols lbl) (ComputeInputPartial_step i) 0%N)
                (fun _ => ret tt)
                (preserves_for_acc cache _ (fun t sz => preserves_cache_step i t sz) _ _ _)
                (fun _ => preserves_ret cache tt) s2) as H.
  rewrite Hrun in H. cbn [snd] in H.
  inversion H. congruence.
Qed.

(** X5.  The gradient with respect to the softmax input is computed once
    per forward evaluation: [EvaluateThisNode] marks it stale;
    [ComputeSoftMaxPartial], which turns the cached softmax into that
    gradient in place, clears the mark when it returns and does nothing
    when the mark is clear; so after one gradient request has returned, a
    further request for any input leaves the softmax tensor and the cached
    gradient exactly as they are. *)
Theorem softmax_gradient_computed_once (s : Node E) :
  (forall CPUDEVICE s', EvaluateThisNode CPUDEVICE s = (Returned tt, s') ->
                        m_needRecomputeGradientToSoftmaxInput s' = true) /\
  (forall s', ComputeSoftMaxPartial s = (Returned tt, s') ->
              m_needRecomputeGradientToSoftmaxInput s' = false /\
              ComputeSoftMaxPartial s' = (Returned tt, s')) /\
  (forall i s', ComputeInputPartial i s = (Returned tt, s') ->
                m_needRecomputeGradientToSoftmaxInput s' = false /\
                forall j,
                  m_softMax (snd (ComputeInputPartial j s')) = m_softMax s' /\
                  m_grdToSoftMaxInput (snd (ComputeInputPartial j s'))
                  = m_grdToSoftMaxInput s' /\
                  m_needRecomputeGradientToSoftmaxInput (snd (ComputeInputPartial j s'))
                  = false).
Proof.
  split; [|split].
  - intros CPUDEVICE s'. unfold EvaluateThisNode.
    repeat (unfold bind at 1;
            match goal with
            | |- context [match ?c s with _ => _ end] => destruct (c s) as [[?|?] ?]
            | |- context [match ?c ?x with _ => _ end] => destruct (c x) as [[?|?] ?]
            end; [|discriminate]).
    unfold modify. intros H; inversion H; reflexivity.
  - intros s' Hrun. pose proof (ComputeSoftMaxPartial_clears s s' Hrun) as Hc.
    split; [exact Hc|apply ComputeSoftMaxPartial_fresh; exact Hc].
  - intros i s' Hrun. pose proof (ComputeInputPartial_clears i s s' Hrun) as Hc.
    split; [exact Hc|]. intros j.
    pose proof (ComputeInputPartial_keeps_fresh_cache j s' Hc) as H.
    inversion H as [[H1 H2 H3]]. rewrite H1, H2, H3. repeat split. exact Hc.
Qed.

End ClassBasedCache.

(** ** ClassBasedCrossEntropyWithSoftmax: offsets and word indices *)

Section ClassBasedOffsets.
Context {E : Type} {SE : Scalar E} {TE : TensorEngine E}.
Import ClassBasedCrossEntropyWithSoftmaxNode.

Lemma bind_returns {S A B : Type} (c : M S A) (k : A -> M S B) (v : B) :
  (forall a s b s', k a s = (Returned b, s') -> b = v) ->
  forall s b s', bind c k s = (Returned b, s') -> b = v.
Proof.
  intros Hk s b s'. unfold bind. destruct (c s) as [[a|e] s1]; [apply Hk|discriminate].
Qed.

Lemma forward_step_offset (lbls inputs input_weight : Matrix E) (t : nat) (sz sz' : N)
  (s s' : Node E) :
  EvaluateThisNodeS_step lbls inputs input_weight t sz s = (Returned sz', s') ->
  sz' = next_offset lbls t sz.
Proof.
  unfold EvaluateThisNodeS_step, next_offset.
  fold (y_of lbls t). fold (lft_bnd_of lbls t). fold (rgt_bnd_of lbls t).
  fold (nbr_wrd_of lbls t).
  destruct (nbr_wrd_of lbls t =? 0)%N.
  - destruct (y_of lbls t =? 0)%N; [|discriminate].
    intros H; inversion H; reflexivity.
  - revert s sz' s'.
    repeat (apply bind_returns; intros ?).
    intros s0 b s1 H; inversion H; reflexivity.
Qed.

Lemma total_words_lt (lbls : Matrix E) (n : nat) : (total_words lbls n < 2 ^ 64)%N.
Proof.
  destruct n as [|n]; cbn [total_words]; [reflexivity|].
  unfold size_t_add. apply N.mod_lt. discriminate.
Qed.

Lemma next_offset_total_words (lbls : Matrix E) (t : nat) :
  next_offset lbls t (total_words lbls t) = total_words lbls (S t).
Proof.
  unfold next_offset. cbn [total_words].
  destruct (nbr_wrd_of lbls t =? 0)%N eqn:Hn; [|reflexivity].
  apply N.eqb_eq in Hn. rewrite Hn. unfold size_t_add.
  rewrite N.add_0_r, N.mod_small; [reflexivity|apply total_words_lt].
Qed.

Lemma forward_loop_offset (lbls inputs input_weight : Matrix E) :
  forall count start sz' (s s' : Node E),
    for_acc start count (EvaluateThisNodeS_step lbls inputs input_weight)
            (total_words lbls start) s = (Returned sz', s') ->
    sz' = total_words lbls (start + count).
Proof.
  induction count as [|c IH]; intros start sz' s s'; cbn [for_acc].
  - rewrite Nat.add_0_r. intros H; inversion H; reflexivity.
  - unfold bind.
    destruct (EvaluateThisNodeS_step lbls inputs input_weight start
                (total_words lbls start) s) as [[a|e] s1] eqn:Hstep; [|discriminate].
    apply forward_step_offset in Hstep. rewrite next_offset_total_words in Hstep.
    subst a. intros Hloop. apply IH in Hloop. rewrite Nat.add_succ_r. exact Hloop.
Qed.

Lemma words_before_mono (lbls : Matrix E) (n m : nat) :
  n <= m -> (words_before lbls n <= words_before lbls m)%N.
Proof.
  induction 1 as [|m Hle IH]; [reflexivity|].
  cbn [words_before]. lia.
Qed.

Lemma total_words_exact (lbls : Matrix E) (n : nat) :
  (words_before lbls n < 2 ^ 64)%N -> total_words lbls n = words_before lbls n.
Proof.
  induction n as [|n IH]; intros Hlt; [reflexivity|].
  cbn [total_words words_before] in *.
  rewrite IH by lia. unfold size_t_add. apply N.mod_small. exact Hlt.
Qed.

Lemma InputFunctionValues_of_value (i : nat) (s : Node E) (m : Matrix E) :
  input_value i s = Some m -> InputFunctionValues i s = (Returned m, s).
Proof.
  unfold input_value, InputFunctionValues, bind, Inputs, ret.
  destruct (nth_error (m_children (get_base s)) i) as [c|]; [|discriminate].
  cbn [option_map]. intros H; inversion H; reflexivity.
Qed.

Lemma softmax_partial_step_offset (lbls : Matrix E) (t : nat) (sz sz' : N) (s s' : Node E) :
  input_value 0 s = Some lbls ->
  ComputeSoftMaxPartial_step t sz s = (Returned sz', s') ->
  sz' = next_offset lbls t sz /\ input_value 0 s' = Some lbls.
Proof.
  intros Hl Hrun. split.
  - revert Hrun. unfold ComputeSoftMaxPartial_step, next_offset. unfold bind at 1.
    rewrite (InputFunctionValues_of_value 0 s lbls Hl). unfold FrameSlice.
    fold (y_of lbls t). fold (lft_bnd_of lbls t). fold (rgt_bnd_of lbls t).
    fold (nbr_wrd_of lbls t).
    destruct (nbr_wrd_of lbls t =? 0)%N.
    + destruct (y_of lbls t =? 0)%N; [|discriminate].
      intros H; inversion H; reflexivity.
    + revert s sz' s' Hl.
      intros s0 sz0 s1 _. revert s0 sz0 s1.
      repeat (apply bind_returns; intros ?).
      intros s0 b s1 H; inversion H; reflexivity.
  - assert (Hp : preserves (input_value 0) (ComputeSoftMaxPartial_step (E := E) t sz))
      by (unfold ComputeSoftMaxPartial_step; auto 30 with frame).
    specialize (Hp s). rewrite Hrun in Hp. cbn [snd] in Hp. rewrite Hp. exact Hl.
Qed.

Lemma input_partial_step_offset (lbls : Matrix E) (i t : nat) (sz sz' : N) (s s' : Node E) :
  input_value 0 s = Some lbls ->
  ComputeInputPartial_step i t sz s = (Returned sz', s') ->
  sz' = next_offset lbls t sz /\ input_value 0 s' = Some lbls.
Proof.
  intros Hl Hrun. split.
  - revert Hrun. unfold ComputeInputPartial_step, next_offset. unfold bind at 1.
    rewrite (InputFunctionValues_of_value 0 s lbls Hl). unfold FrameSlice.
    fold (lft_bnd_of lbls t). fold (rgt_bnd_of lbls t). fold (nbr_wrd_of lbls t).
    destruct (nbr_wrd_of lbls t =? 0)%N.
    + intros H; inversion H; reflexivity.
    + revert s sz' s' Hl.
      intros s0 sz0 s1 _. revert s0 sz0 s1.
      repeat (apply bind_returns; intros ?).
      intros s0 b s1 H; inversion H; reflexivity.
  - assert (Hp : preserves (input_value 0) (ComputeInputPartial_step (E := E) i t sz))
      by (unfold ComputeInputPartial_step; destruct i as [|[|[|[|i]]]]; auto 30 with frame).
    specialize (Hp s). rewrite Hrun in Hp. cbn [snd] in Hp. rewrite Hp. exact Hl.
Qed.

Lemma gradient_loop_offset (lbls : Matrix E) (body : nat -> N -> M (Node E) N) :
  (forall t sz sz' s s', input_value 0 s = Some lbls ->
                         body t sz s = (Returned sz', s') ->
                         sz' = next_offset lbls t sz /\ input_value 0 s' = Some lbls) ->
  forall count start sz' (s s' : Node E),
    input_value 0 s = Some lbls ->
    for_acc start count body (total_words lbls start) s = (Returned sz', s') ->
    sz' = total_words lbls (start + count).
Proof.
  intros Hbody count; induction count as [|c IH]; intros start sz' s s' Hl; cbn [for_acc].
  - rewrite Nat.add_0_r. intros H; inversion H; reflexivity.
  - unfold bind.
    destruct (body start (total_words lbls start) s) as [[a|e] s1] eqn:Hstep; [|discriminate].
    destruct (Hbody _ _ _ _ _ Hl Hstep) as [Ha Hl1].
    rewrite next_offset_total_words in Ha. subst a.
    intros Hloop. apply (IH (S start) sz' s1 s' Hl1) in Hloop.
    rewrite Nat.add_succ_r. exact Hloop.
Qed.

(** X6.  For a label tensor of four rows whose class sizes add up to less
    than [2^64]: in the forward loop, in the loop that computes the
    softmax gradient and in the loop of a gradient request alike, the
    offset [sz] at which column [t] finds its slice of the per-word
    tensors is the number of words of the classes of the columns before
    it, so the gradient of a column reads the slice that forward
    evaluation wrote for it; [totalWords] is that number over all columns;
    and the slices of different columns do not overlap. *)
Theorem class_slices_do_not_overlap (lbls : Matrix E) :
  GetNumRows lbls = 4 ->
  (words_before lbls (GetNumCols lbls) < 2 ^ 64)%N ->
  (forall inputs input_weight t sz (s s' : Node E),
      t <= GetNumCols lbls ->
      for_acc 0 t (EvaluateThisNodeS_step lbls inputs input_weight) 0%N s
      = (Returned sz, s') ->
      sz = words_before lbls t) /\
  (forall t sz (s s' : Node E),
      t <= GetNumCols lbls -> input_value 0 s = Some lbls ->
      for_acc 0 t ComputeSoftMaxPartial_step 0%N s = (Returned sz, s') ->
      sz = words_before lbls t) /\
  (forall i t sz (s s' : Node E),
      t <= GetNumCols lbls -> input_value 0 s = Some lbls ->
      for_acc 0 t (ComputeInputPartial_step i) 0%N s = (Returned sz, s') ->
      sz = words_before lbls t) /\
  total_words lbls (GetNumCols lbls) = words_before lbls (GetNumCols lbls) /\
  (forall t1 t2, t1 < t2 -> t2 <= GetNumCols lbls ->
                 (words_before lbls t1 + nbr_wrd_of lbls t1 <= words_before lbls t2)%N).
Proof.
  intros _ Hsum.
  assert (Hexact : forall t, t <= GetNumCols lbls -> total_words lbls t = words_before lbls t).
  { intros t Ht. apply total_words_exact.
    pose proof (words_before_mono lbls t (GetNumCols lbls) Ht). lia. }
  split; [|split; [|split; [|split]]].
  - intros inputs W t sz s s' Ht Hrun.
    apply (forward_loop_offset lbls inputs W t 0 sz s s') in Hrun.
    cbn [Nat.add] in Hrun. subst sz. apply Hexact; exact Ht.
  - intros t sz s s' Ht Hl Hrun.
    apply (gradient_loop_offset lbls ComputeSoftMaxPartial_step
             (softmax_partial_step_offset lbls) t 0 sz s s' Hl) in Hrun.
    cbn [Nat.add] in Hrun. subst sz. apply Hexact; exact Ht.
  - intros i t sz s s' Ht Hl Hrun.
    apply (gradient_loop_offset lbls (ComputeInputPartial_step i)
             (input_partial_step_offset lbls i) t 0 sz s s' Hl) in Hrun.
    cbn [Nat.add] in Hrun. subst sz. apply Hexact; exact Ht.
  - apply Hexact. apply Nat.le_refl.
  - intros t1 t2 Hlt Hle.
    change (words_before lbls (S t1) <= words_before lbls t2)%N.
    apply words_before_mono. lia.
Qed.

Lemma Mask_of_labelled_column (layout : option MBLayout) (m : Matrix E) (t : nat) :
  column_has_no_label layout t = false ->
  MaskToZeroWhenLabelAndFeatureMissing_t layout m t = (false, m).
Proof.
  unfold column_has_no_label, MaskToZeroWhenLabelAndFeatureMissing_t.
  destruct layout as [L|]; [|reflexivity].
  destruct (IsAllNone L); [reflexivity|]. cbn [negb andb].
  destruct (Is L _ NoLabel); [|reflexivity]. cbn [andb].
  intros ->. reflexivity.
Qed.

Lemma forward_step_word_index (lbls inputs input_weight : Matrix E) (t : nat) (sz : N)
  (s : Node E) :
  nbr_wrd_of lbls t <> 0%N ->
  (y_of lbls t < lft_bnd_of lbls t)%N ->
  column_has_no_label (m_pMBLayout (base s)) t = false ->
  fst (EvaluateThisNodeS_step lbls inputs input_weight t sz s)
  = Thrown (LogicError "ClassBasedCrossEntropyWithSoftmax::EvaluateThisNodeS : the word index is smaller than its left bound of its class. This could happen because of reader issues. ") /\
  base (snd (EvaluateThisNodeS_step lbls inputs input_weight t sz s)) = base s.
Proof.
  intros Hn Hy Hlab. unfold EvaluateThisNodeS_step.
  fold (y_of lbls t). fold (lft_bnd_of lbls t). fold (rgt_bnd_of lbls t).
  fold (nbr_wrd_of lbls t).
  apply N.eqb_neq in Hn. rewrite Hn.
  apply N.ltb_lt in Hy. rewrite Hy.
  cbv [bind gets modify]. rewrite !Mask_of_labelled_column by exact Hlab.
  cbn [fst snd negb when_]. cbv [bind modify throw]. split; reflexivity.
Qed.

Lemma preserves_AddToFunctionValues (a : Matrix E) (ai aj : nat) :
  preserves (fun n : Node E => m_pMBLayout (base n)) (AddToFunctionValues a ai aj).
Proof.
  unfold AddToFunctionValues. apply preserves_bind; [apply preserves_gets|]. intros fv.
  destruct (AddElementToElement a ai aj fv 0 0); [|apply preserves_throw].
  intros s. reflexivity.
Qed.

Lemma forward_step_keeps_layout (lbls inputs input_weight : Matrix E) (t : nat) (sz : N) :
  preserves (fun n : Node E => m_pMBLayout (base n))
            (EvaluateThisNodeS_step lbls inputs input_weight t sz).
Proof.
  pose proof preserves_AddToFunctionValues as Hadd.
  unfold EvaluateThisNodeS_step. auto 40 with frame.
Qed.

(** X7.  A column of the minibatch that carries a label, whose class is
    not empty and whose word index is below the left bound of its class
    is an error of forward evaluation: the iteration for that column
    throws the logic error about the word index and has added nothing to
    the output, and so the evaluation of a minibatch that holds such a
    column throws (this error, or that of an earlier column). *)
Theorem word_index_below_class_bound (lbls inputs input_weight cls : Matrix E) (t : nat)
  (s : Node E) :
  GetNumRows lbls = 4 ->
  t < GetNumCols lbls ->
  nbr_wrd_of lbls t <> 0%N ->
  (y_of lbls t < lft_bnd_of lbls t)%N ->
  column_has_no_label (m_pMBLayout (base s)) t = false ->
  (forall sz,
      fst (EvaluateThisNodeS_step lbls inputs input_weight t sz s)
      = Thrown (LogicError "ClassBasedCrossEntropyWithSoftmax::EvaluateThisNodeS : the word index is smaller than its left bound of its class. This could happen because of reader issues. ") /\
      m_functionValues (base (snd (EvaluateThisNodeS_step lbls inputs input_weight t sz s)))
      = m_functionValues (base s)) /\
  threw (fst (EvaluateThisNodeS lbls inputs input_weight cls s)) = true.
Proof.
  intros _ Ht Hn Hy Hlab. split.
  - intros sz.
    destruct (forward_step_word_index lbls inputs input_weight t sz s Hn Hy Hlab) as [H1 H2].
    split; [exact H1|rewrite H2; reflexivity].
  - unfold EvaluateThisNodeS.
    repeat (unfold bind at 1; unfold modify at 1).
    unfold bind at 1. unfold OnFunctionValues at 1. unfold modify at 1.
    unfold bind at 1.
    match goal with
    | |- context [for_acc 0 ?n ?body ?a ?s0] =>
        pose proof (@for_acc_throws_inv (Node E) N
                      (fun st => m_pMBLayout (base st) = m_pMBLayout (base s)) body t) as Hloop;
        specialize (Hloop
          (fun k acc st acc' st' HI Hrun =>
             eq_trans (eq_trans (f_equal (fun r => m_pMBLayout (base (snd r))) (eq_sym Hrun))
                                (forward_step_keeps_layout lbls inputs input_weight k acc st))
                      HI));
        specialize (Hloop
          (fun acc st HI =>
             f_equal threw
               (proj1 (forward_step_word_index lbls inputs input_weight t acc st Hn Hy
                         (eq_trans (f_equal (fun l => column_has_no_label l t) HI) Hlab)))));
        specialize (Hloop n 0 a s0 eq_refl (conj (Nat.le_0_l t) Ht));
        destruct (for_acc 0 n body a s0) as [[a'|e] s']
    end; [discriminate Hloop|reflexivity].
Qed.

End ClassBasedOffsets.

(** ** NoiseContrastiveEstimation: modes and the prediction tensor *)

Section NCEModes.
Context {E : Type} {SE : Scalar E} {TE : TensorEngine E}.
Import NoiseContrastiveEstimationNode.

(** X8.  Outside training mode (a stored mode other than [None]) a
    gradient request throws the logic error about the training mode for
    every input index, the label included; the node has then cleared its
    recomputation flag and changed nothing else. *)
Theorem nce_gradient_needs_training_mode (s : Node E) (i : nat) :
  m_evalMode s <> NCEEvalMode.None ->
  ComputeInputPartial i s
  = (Thrown (LogicError "ComputeInputPartial should only be called in training mode"),
     set_needRecompute false s).
Proof.
  intros Hmode. unfold ComputeInputPartial.
  cbv [bind modify gets]. cbn [m_evalMode set_needRecompute].
  apply Z.eqb_neq in Hmode. rewrite Hmode. reflexivity.
Qed.

Lemma preserves_OnFunctionValues {S X : Type} {NS : NodeState E S} (f : S -> X)
  (g : Matrix E -> Matrix E) :
  (forall b s, f (set_base b s) = f s) -> preserves f (OnFunctionValues g).
Proof. intros Hf s. apply Hf. Qed.

Lemma EvaluateWithSoftmax_keeps_prediction :
  preserves (fun n : Node E => m_ncePrediction n) EvaluateWithSoftmax.
Proof.
  pose proof (fun g => @preserves_OnFunctionValues (Node E) _ _
                         (fun n : Node E => m_ncePrediction n) g (fun _ _ => eq_refl)) as Hfv.
  unfold EvaluateWithSoftmax. auto 40 with frame.
Qed.

Lemma EvaluateUnnormalized_keeps_prediction :
  preserves (fun n : Node E => m_ncePrediction n) EvaluateUnnormalized.
Proof.
  pose proof (fun g => @preserves_OnFunctionValues (Node E) _ _
                         (fun n : Node E => m_ncePrediction n) g (fun _ _ => eq_refl)) as Hfv.
  unfold EvaluateUnnormalized. auto 40 with frame.
Qed.

Lemma EvaluateThisNode_keeps_mode (NDEBUG : bool) :
  preserves (fun n : Node E => m_evalMode n) (EvaluateThisNode NDEBUG).
Proof.
  pose proof (fun g => @preserves_OnFunctionValues (Node E) _ _
                         (fun n : Node E => m_evalMode n) g (fun _ _ => eq_refl)) as Hfv.
  unfold EvaluateThisNode.
  apply preserves_bind; [auto with frame|]. intros lbl.
  apply preserves_bind; [auto with frame|]. intros mode.
  apply preserves_bind; [|auto with frame].
  destruct (selected_path NDEBUG mode (FunctionValues lbl)) as [[| |]|e];
    [unfold EvaluateWithSoftmax|unfold EvaluateUnnormalized|unfold EvaluateNCE|];
    auto 40 with frame.
Qed.

(** X9.  Forward evaluation, in a build with or without assertions, never
    changes the stored mode.  When it takes the softmax or the unnormalized
    path, be it for the stored mode or for the signs of the label row, it
    leaves the prediction tensor [m_ncePrediction], which a gradient
    request reads, as it was (as it does when it stops at the assertion on
    the signs).  An evaluation that returns sets the recomputation
    flag. *)
Theorem nce_forward_keeps_mode_and_prediction (NDEBUG : bool) (s : Node E) :
  m_evalMode (snd (EvaluateThisNode NDEBUG s)) = m_evalMode s /\
  (forall lbl, nth_error (m_children (base s)) 0 = Some lbl ->
               selected_path NDEBUG (m_evalMode s) (FunctionValues lbl) <> Returned NCEPath ->
               m_ncePrediction (snd (EvaluateThisNode NDEBUG s)) = m_ncePrediction s) /\
  (forall s', EvaluateThisNode NDEBUG s = (Returned tt, s') ->
              m_needRecomputeGradientToSoftmaxInput s' = true).
Proof.
  split; [apply EvaluateThisNode_keeps_mode|]. split.
  - intros lbl Hl Hpath. to_get_base Hl. unfold EvaluateThisNode.
    unfold bind at 1. rewrite (Inputs_some _ _ Hl).
    unfold bind at 1. unfold gets at 1.
    pose proof EvaluateWithSoftmax_keeps_prediction as H1.
    pose proof EvaluateUnnormalized_keeps_prediction as H2.
    destruct (selected_path NDEBUG (m_evalMode s) (FunctionValues lbl)) as [[| |]|e];
      [| |congruence|reflexivity].
    + apply (preserves_bind (fun n : Node E => m_ncePrediction n)
               EvaluateWithSoftmax (fun _ => modify (set_needRecompute true)) H1).
      intros _ st. reflexivity.
    + apply (preserves_bind (fun n : Node E => m_ncePrediction n)
               EvaluateUnnormalized (fun _ => modify (set_needRecompute true)) H2).
      intros _ st. reflexivity.
  - intros s'. unfold EvaluateThisNode.
    unfold bind at 1. destruct (Inputs 0 s) as [[lbl|e] s1]; [|discriminate].
    unfold bind at 1. unfold gets at 1.
    unfold bind.
    match goal with
    | |- context [match ?c s1 with _ => _ end] => destruct (c s1) as [[u|e] s2]
    end; [|discriminate].
    unfold modify. intros H; inversion H; reflexivity.
Qed.

End NCEModes.

(** ** CRF: what forward evaluation leaves in the node *)

Section CRFState.
Context {E : Type} {SE : Scalar E} {LS : LogScalar E} {TE : TensorEngine E}.
Import CRFNode.

Lemma EvaluateThisNode_step_state (nstep i : nat) (funcVal : Matrix E) (s : Node E)
  (lblN posN pairN : InputNode E) (rest : list (InputNode E)) :
  m_children (base s) = lblN :: posN :: pairN :: rest ->
  0 < nstep ->
  (Z.of_nat nstep < 2 ^ 31)%Z ->
  labelled_transitions (ColumnSlice (i * nstep) nstep (FunctionValues lblN)) ->
  exists r s',
    EvaluateThisNode_step nstep i funcVal s = (Returned (out_functionValues r), s') /\
    out_alpha r = ForwardCompute (ColumnSlice (i * nstep) nstep (mAlpha s))
                                 (ColumnSlice (i * nstep) nstep (FunctionValues lblN))
                                 (ColumnSlice (i * nstep) nstep (FunctionValues posN))
                                 (FunctionValues pairN) /\
    m_children (base s') = m_children (base s) /\
    m_pMBLayout (base s') = m_pMBLayout (base s) /\
    mAlpha s' = PutColumnSlice (i * nstep) nstep (out_alpha r) (mAlpha s) /\
    GetNumRows (mBeta s') = GetNumRows (mBeta s) /\
    GetNumCols (mBeta s') = GetNumCols (mBeta s) /\
    GetNumRows (mPostProb s') = GetNumRows (mPostProb s) /\
    GetNumCols (mPostProb s') = GetNumCols (mPostProb s) /\
    mStartLbl s' = find_label (ColumnSlice (i * nstep) nstep (FunctionValues lblN)) 0 /\
    mEndLbl s' = find_label (ColumnSlice (i * nstep) nstep (FunctionValues lblN))
                            (Z.to_nat (int_of_size_t nstep - 1)).
Proof.
  intros Hch Hpos HT Hlab.
  pose proof (EvaluateThisNodeS_returns
                (ColumnSlice (i * nstep) nstep (mPostProb s))
                (ColumnSlice (i * nstep) nstep (mAlpha s))
                (ColumnSlice (i * nstep) nstep (mBeta s)) funcVal
                (ColumnSlice (i * nstep) nstep (FunctionValues lblN))
                (ColumnSlice (i * nstep) nstep (FunctionValues posN))
                (FunctionValues pairN) Hpos HT Hlab) as Hret.
  pose proof (EvaluateThisNodeS_alpha
                (ColumnSlice (i * nstep) nstep (mPostProb s))
                (ColumnSlice (i * nstep) nstep (mAlpha s))
                (ColumnSlice (i * nstep) nstep (mBeta s)) funcVal
                (ColumnSlice (i * nstep) nstep (FunctionValues lblN))
                (ColumnSlice (i * nstep) nstep (FunctionValues posN))
                (FunctionValues pairN)) as Halpha.
  assert (H0 : nth_error (m_children (get_base s)) 0 = Some lblN)
    by (cbn [get_base node_state]; rewrite Hch; reflexivity).
  assert (H1 : nth_error (m_children (get_base s)) 1 = Some posN)
    by (cbn [get_base node_state]; rewrite Hch; reflexivity).
  assert (H2 : nth_error (m_children (get_base s)) 2 = Some pairN)
    by (cbn [get_base node_state]; rewrite Hch; reflexivity).
  unfold EvaluateThisNode_step.
  unfold bind at 1. rewrite (InputFunctionValues_some (S := Node E) 0 s lblN H0).
  unfold bind at 1. rewrite (InputFunctionValues_some (S := Node E) 1 s posN H1).
  unfold bind at 1. rewrite (InputFunctionValues_some (S := Node E) 2 s pairN H2).
  cbv [bind gets modify]. rewrite Hret. cbv [bind OnFunctionValues modify ret].
  eexists; eexists. split; [reflexivity|]. split; [exact Halpha|].
  cbn [base mAlpha mBeta mPostProb mStartLbl mEndLbl set_base get_base node_state
       PutColumnSlice with_elem GetNumRows GetNumCols].
  do 7 (split; [reflexivity|]).
  revert Hret. unfold EvaluateThisNodeS. cbv zeta.
  cbn [ColumnSlice GetNumCols].
  replace (int_of_size_t nstep - 1 <? 0)%Z with false
    by (symmetry; apply Z.ltb_ge; rewrite int_of_size_t_small by exact HT; lia).
  destruct (transition_score _ _ _); intros Hret;
    [split; reflexivity|discriminate Hret].
Qed.

(** What the loop over the parallel sequences has established before
    sequence [i]. *)
Local Abbreviation sequences_done lblN posN pairN rest layout nstep :=
  (fun (i : nat) (_ : Matrix E) (st : Node E) =>
     m_children (base st) = lblN :: posN :: pairN :: rest /\
     m_pMBLayout (base st) = Some layout /\
     GetNumRows (mAlpha st) = GetNumRows (FunctionValues lblN) /\
     GetNumCols (mAlpha st) = GetNumCols (FunctionValues lblN) /\
     GetNumRows (mBeta st) = GetNumRows (FunctionValues lblN) /\
     GetNumCols (mBeta st) = GetNumCols (FunctionValues lblN) /\
     GetNumRows (mPostProb st) = GetNumRows (FunctionValues lblN) /\
     GetNumCols (mPostProb st) = GetNumCols (FunctionValues lblN) /\
     (forall i' t k, i' < i -> t < nstep -> k < GetNumRows (FunctionValues lblN) ->
        elem (mAlpha st) k (i' * nstep + t)
        = elem (forward_table (ColumnSlice (i' * nstep) nstep (FunctionValues lblN))
                              (ColumnSlice (i' * nstep) nstep (FunctionValues posN))
                              (FunctionValues pairN)) k t) /\
     (0 < i ->
      mStartLbl st = find_label (ColumnSlice ((i - 1) * nstep) nstep (FunctionValues lblN)) 0 /\
      mEndLbl st = find_label (ColumnSlice ((i - 1) * nstep) nstep (FunctionValues lblN))
                              (nstep - 1))).

(** X10.  Forward evaluation of a batch of [nS] parallel sequences of
    [nstep] columns each ([nstep] not zero), with a label in every column
    from which the transition score reads one, returns.  After it [alpha],
    [beta] and the posterior have the dimensions of the label tensor; the
    columns of [alpha] that belong to sequence [i] hold the forward table
    of that sequence (the passes over the later sequences do not write
    them); and the start and end labels the node keeps for the gradient
    are those of the last sequence. *)
Theorem crf_state_after_forward (s : Node E) (lblN posN pairN : InputNode E)
  (rest : list (InputNode E)) (layout : MBLayout) :
  m_children (base s) = lblN :: posN :: pairN :: rest ->
  m_pMBLayout (base s) = Some layout ->
  let nS := LayoutNumParallelSequences layout in
  let nstep := GetNumCols (FunctionValues lblN) / nS in
  0 < nstep ->
  (Z.of_nat nstep < 2 ^ 31)%Z ->
  (Z.of_nat (GetNumRows (FunctionValues lblN)) < 2 ^ 31)%Z ->
  (forall i, i < nS ->
             labelled_transitions (ColumnSlice (i * nstep) nstep (FunctionValues lblN))) ->
  exists s',
    EvaluateThisNode s = (Returned tt, s') /\
    (GetNumRows (mAlpha s') = GetNumRows (FunctionValues lblN) /\
     GetNumCols (mAlpha s') = GetNumCols (FunctionValues lblN) /\
     GetNumRows (mBeta s') = GetNumRows (FunctionValues lblN) /\
     GetNumCols (mBeta s') = GetNumCols (FunctionValues lblN) /\
     GetNumRows (mPostProb s') = GetNumRows (FunctionValues lblN) /\
     GetNumCols (mPostProb s') = GetNumCols (FunctionValues lblN)) /\
    (forall i t k, i < nS -> t < nstep -> k < GetNumRows (FunctionValues lblN) ->
       elem (mAlpha s') k (i * nstep + t)
       = elem (forward_table (ColumnSlice (i * nstep) nstep (FunctionValues lblN))
                             (ColumnSlice (i * nstep) nstep (FunctionValues posN))
                             (FunctionValues pairN)) k t) /\
    (0 < nS ->
     mStartLbl s' = find_label (ColumnSlice ((nS - 1) * nstep) nstep (FunctionValues lblN)) 0 /\
     mEndLbl s' = find_label (ColumnSlice ((nS - 1) * nstep) nstep (FunctionValues lblN))
                             (nstep - 1)).
Proof.
  intros Hch Hlay nS nstep Hpos HT HL Hlab.
  assert (H0 : nth_error (m_children (get_base s)) 0 = Some lblN)
    by (cbn [get_base node_state]; rewrite Hch; reflexivity).
  unfold EvaluateThisNode.
  unfold bind at 1. rewrite (InputFunctionValues_some (S := Node E) 0 s lblN H0).
  unfold bind at 1, modify at 1.
  unfold bind at 1, OnFunctionValues at 1, modify at 1.
  unfold bind at 1, NodeFunctionValues at 1, gets at 1.
  unfold bind at 1, GetNumParallelSequences at 1.
  cbn [get_base set_base node_state base set_functionValues m_pMBLayout m_functionValues].
  rewrite Hlay. fold nS. fold nstep. unfold bind.
  match goal with
  | |- context [for_acc 0 nS ?body ?a0 ?st0] =>
      destruct (@for_acc_invariant (Node E) (Matrix E)
                  (sequences_done lblN posN pairN rest layout nstep)
                  body nS 0 a0 st0) as [a' [s' [Hloop Hend]]]
  end.
  - cbn [base mAlpha mBeta mPostProb Resize GetNumRows GetNumCols set_functionValues
         m_children m_pMBLayout].
    repeat (split; [first [exact Hch | exact Hlay | reflexivity]|]).
    split; [intros i' t k Hi'; lia|intros Hi; lia].
  - intros i x st Hi [Hst [Hl [Ha1 [Ha2 [Hb1 [Hb2 [Hp1 [Hp2 [Hdone _]]]]]]]]].
    destruct (EvaluateThisNode_step_state nstep i x st lblN posN pairN rest Hst Hpos HT
                (Hlab i (proj2 Hi)))
      as [r [st' [Hrun [Hr [Hch' [Hl' [HA [HB1 [HB2 [HP1 [HP2 [Hs He]]]]]]]]]]]].
    exists (out_functionValues r), st'. split; [exact Hrun|].
    split; [rewrite Hch'; exact Hst|]. split; [rewrite Hl'; exact Hl|].
    rewrite HA, HB1, HB2, HP1, HP2.
    cbn [PutColumnSlice with_elem GetNumRows GetNumCols elem].
    repeat (split; [assumption|]).
    split.
    + intros i' t k Hi' Ht Hk.
      destruct (Nat.eq_dec i' i) as [->|Hne].
      * replace ((i * nstep <=? i * nstep + t) && (i * nstep + t <? i * nstep + nstep))
          with true
          by (symmetry; apply andb_true_iff; split;
              [apply Nat.leb_le|apply Nat.ltb_lt]; lia).
        replace (i * nstep + t - i * nstep) with t by lia.
        rewrite Hr. unfold forward_table.
        apply ForwardCompute_same; cbn [ColumnSlice GetNumRows GetNumCols];
          solve [assumption | reflexivity].
      * replace ((i * nstep <=? i' * nstep + t) && (i' * nstep + t <? i * nstep + nstep))
          with false
          by (symmetry; apply andb_false_iff; left; apply Nat.leb_gt; nia).
        apply Hdone; [lia|exact Ht|exact Hk].
    + intros _. rewrite Hs, He. rewrite int_of_size_t_small by exact HT.
      replace (S i - 1) with i by lia.
      replace (Z.to_nat (Z.of_nat nstep - 1)) with (nstep - 1) by lia.
      split; reflexivity.
  - exists s'. rewrite Hloop. split; [reflexivity|].
    destruct Hend as [_ [_ [Ha1 [Ha2 [Hb1 [Hb2 [Hp1 [Hp2 [Hdone Hlast]]]]]]]]].
    split; [repeat split; assumption|]. split.
    + intros i t k Hi. apply Hdone. exact Hi.
    + exact Hlast.
Qed.

End CRFState.

(** ** SquareError: forward evaluation, gradient and validation *)

Section SquareErrorForward.
Context {E : Type} {SE : Scalar E}.
Import SquareErrorNode.
Local Open Scope scalar_scope.
Variable FrobeniusNorm : Matrix E -> E.

Lemma SquareError_EvaluateThisNode_run (s : Node E) (l r : InputNode E)
  (rest : list (InputNode E)) :
  m_children (base s) = l :: r :: rest ->
  EvaluateThisNode FrobeniusNorm s
  = (Returned tt,
     let R := EvaluateThisNodeS FrobeniusNorm (m_pMBLayout (base s))
                (m_functionValues (base s)) (FunctionValues l) (FunctionValues r)
                (m_leftMinusRight s) in
     mk (set_functionValues (fst R) (base s)) (snd R)).
Proof.
  intros Hch.
  assert (H0 : nth_error (m_children (get_base s)) 0 = Some l)
    by (cbn [get_base node_state]; rewrite Hch; reflexivity).
  assert (H1 : nth_error (m_children (get_base s)) 1 = Some r)
    by (cbn [get_base node_state]; rewrite Hch; reflexivity).
  unfold EvaluateThisNode.
  unfold bind at 1, NodeFunctionValues at 1, gets at 1.
  unfold bind at 1. rewrite (Inputs_some _ _ H0).
  unfold bind at 1. rewrite (Inputs_some _ _ H1).
  reflexivity.
Qed.

(** X11.  Forward evaluation of SquareError on two inputs of the same
    dimensions caches their difference with the columns the Sequence Mask marks invalid set to
    zero, and writes half the square of the norm of that difference into
    a 1x1 output.  A gradient request after it then adds [g] times the
    masked difference to the gradient of the left input and [-g] times it
    to the gradient of the right input, [g] being the upstream gradient:
    an invalid column receives [g * 0]. *)
Theorem square_error_forward_then_gradient (s : Node E) (l r : InputNode E)
  (rest : list (InputNode E)) :
  m_children (base s) = l :: r :: rest ->
  same_shape (FunctionValues l) (FunctionValues r) ->
  let g := Get00Element (m_gradientValues (base s)) in
  let d := fun i k => if invalid_column (m_pMBLayout (base s)) k then s0
                      else elem (FunctionValues l) i k - elem (FunctionValues r) i k in
  exists s',
    EvaluateThisNode FrobeniusNorm s = (Returned tt, s') /\
    GetNumRows (m_functionValues (base s')) = 1 /\
    GetNumCols (m_functionValues (base s')) = 1 /\
    Get00Element (m_functionValues (base s'))
    = FrobeniusNorm (m_leftMinusRight s') * FrobeniusNorm (m_leftMinusRight s') / (s1 + s1) /\
    same_shape (m_leftMinusRight s') (FunctionValues l) /\
    (forall i k, elem (m_leftMinusRight s') i k = d i k) /\
    adds_contribution (ComputeInputPartial 0) 0 s' (fun i k => g * d i k) /\
    adds_contribution (ComputeInputPartial 1) 1 s' (fun i k => - g * d i k).
Proof.
  intros Hch _ g d. eexists. split; [apply (SquareError_EvaluateThisNode_run s l r rest Hch)|].
  cbv zeta.
  set (s' := mk _ _).
  assert (H0 : nth_error (m_children (get_base s')) 0 = Some l)
    by (subst s'; cbn [get_base node_state base set_functionValues m_children];
        rewrite Hch; reflexivity).
  assert (H1 : nth_error (m_children (get_base s')) 1 = Some r)
    by (subst s'; cbn [get_base node_state base set_functionValues m_children];
        rewrite Hch; reflexivity).
  split; [reflexivity|]. split; [reflexivity|]. split; [reflexivity|].
  split; [split; reflexivity|]. split; [intros i k; reflexivity|].
  split.
  - eapply on_input_adds with (f := fun G0 => ComputeInputPartialLeft G0 _ _);
      [exact H0|reflexivity|split; reflexivity|].
    intros i k. reflexivity.
  - eapply on_input_adds with (f := fun G0 => ComputeInputPartialRight G0 _ _);
      [exact H1|reflexivity|split; reflexivity|].
    intros i k. reflexivity.
Qed.

End SquareErrorForward.

Section SquareErrorValidation.
Context {E : Type} {SE : Scalar E}.
Import SquareErrorNode.
Variable BaseValidate : M (Node E) unit.
Variable InferImageDimsFromInput : nat -> bool -> M (Node E) unit.

Lemma ResizeLearnableParameter_left (ch : ComputationNode E) (d : Matrix E)
  (a b : InputNode E) :
  m_children ch = [a; b] ->
  ResizeLearnableParameter 0 (mk ch d)
  = (Returned tt, mk (set_children [with_inferred_shape a b; b] ch) d).
Proof.
  destruct ch as [c fv gv lay oc ow oh]. cbn [m_children]. intros ->.
  unfold ResizeLearnableParameter, with_inferred_shape.
  cbv [bind Inputs get_base node_state base m_children nth_error ret Nat.sub].
  destruct (String.eqb (OperationName a) "LearnableParameter"); [|reflexivity].
  cbn [when_].
  cbv [bind Inputs get_base node_state base m_children nth_error ret Nat.sub].
  destruct (GetNumRows (FunctionValues a) =? 0), (GetNumCols (FunctionValues a) =? 0);
    reflexivity.
Qed.

Lemma ResizeLearnableParameter_right (ch : ComputationNode E) (d : Matrix E)
  (a b : InputNode E) :
  m_children ch = [a; b] ->
  ResizeLearnableParameter 1 (mk ch d)
  = (Returned tt, mk (set_children [a; with_inferred_shape b a] ch) d).
Proof.
  destruct ch as [c fv gv lay oc ow oh]. cbn [m_children]. intros ->.
  unfold ResizeLearnableParameter, with_inferred_shape.
  cbv [bind Inputs get_base node_state base m_children nth_error ret Nat.sub].
  destruct (String.eqb (OperationName b) "LearnableParameter"); [|reflexivity].
  cbn [when_].
  cbv [bind Inputs get_base node_state base m_children nth_error ret Nat.sub].
  destruct (GetNumRows (FunctionValues b) =? 0), (GetNumCols (FunctionValues b) =? 0);
    reflexivity.
Qed.

(** X12.  Once [Base::Validate] has returned on a node with two inputs,
    SquareError's validation first gives an input that is a
    LearnableParameter the dimensions it lacks (a zero row or column
    count) from the other input, input 0 first and input 1 from the
    input 0 so resized; it then rejects, in this order, an input without
    elements and two inputs of different dimensions; otherwise it sizes
    the output 1x1 and the cached difference like input 0, and what is
    left is [InferImageDimsFromInputs]. *)
Theorem square_error_validate (s s1 : Node E) (a b : InputNode E) :
  BaseValidate s = (Returned tt, s1) ->
  m_children (base s1) = [a; b] ->
  let a' := with_inferred_shape a b in
  let b' := with_inferred_shape b a' in
  let inferred := mk (set_children [a'; b'] (base s1)) (m_leftMinusRight s1) in
  Validate BaseValidate InferImageDimsFromInput s =
  if HasNoElements (FunctionValues a') || HasNoElements (FunctionValues b')
  then (Thrown (LogicError "SquareError operation: one of the operants has 0 element."),
        inferred)
  else if negb ((GetNumRows (FunctionValues a') =? GetNumRows (FunctionValues b'))
                && (GetNumCols (FunctionValues a') =? GetNumCols (FunctionValues b')))
  then (Thrown (LogicError
                  "The Matrix dimension in the SquareError operation does not match."),
        inferred)
  else InferImageDimsFromInputs InferImageDimsFromInput
         (mk (set_functionValues (Resize 1 1 (m_functionValues (base s1)))
                                 (set_children [a'; b'] (base s1)))
             (Resize (GetNumRows (FunctionValues a')) (GetNumCols (FunctionValues a'))
                     (m_leftMinusRight s1))).
Proof.
  intros Hbase Hch a' b' inferred.
  unfold Validate. unfold bind at 1. rewrite Hbase.
  destruct s1 as [ch d]. cbn [base m_leftMinusRight] in *.
  unfold bind at 1, gets at 1. cbn [base]. rewrite Hch. cbn [List.length].
  change (2 =? 2) with true. cbn [negb when_]. unfold bind at 1, ret at 1.
  unfold bind at 1. rewrite (ResizeLearnableParameter_left ch d a b Hch). fold a'.
  unfold bind at 1.
  rewrite (ResizeLearnableParameter_right (set_children [a'; b] ch) d a' b eq_refl).
  fold b'.
  cbv [bind gets Inputs when_ ret throw get_base set_base node_state base m_children
       nth_error set_children OnFunctionValues modify set_leftMinusRight m_leftMinusRight
       set_functionValues m_functionValues m_gradientValues m_pMBLayout
       m_outputChannels m_outputWidth m_outputHeight].
  subst inferred. cbv [set_children].
  destruct (HasNoElements (FunctionValues a') || HasNoElements (FunctionValues b'));
    [reflexivity|].
  destruct (negb ((GetNumRows (FunctionValues a') =? GetNumRows (FunctionValues b'))
                  && (GetNumCols (FunctionValues a') =? GetNumCols (FunctionValues b'))));
    reflexivity.
Qed.

End SquareErrorValidation.

(** ** CrossEntropyWithSoftmax and CrossEntropy: forward evaluation *)

Section CrossEntropyWithSoftmaxForward.
Context {E : Type} {SE : Scalar E}.
Import CrossEntropyWithSoftmaxNode.
Local Open Scope scalar_scope.
Variable AssignLogSoftmaxOf : Matrix E -> bool -> Matrix E -> Matrix E.
Variable InplaceExp : Matrix E -> Matrix E.

Lemma CrossEntropyWithSoftmax_EvaluateThisNode_run (s : Node E) (label logits : InputNode E)
  (rest : list (InputNode E)) :
  m_children (base s) = label :: logits :: rest ->
  EvaluateThisNode AssignLogSoftmaxOf InplaceExp s
  = (Returned tt,
     let R := EvaluateThisNodeS AssignLogSoftmaxOf InplaceExp (m_pMBLayout (base s))
                (m_functionValues (base s)) (FunctionValues label) (FunctionValues logits)
                (m_softmaxOfRight s) (m_logSoftmaxOfRight s) in
     mk (set_functionValues (out_functionValues R) (base s))
        (out_logSoftmaxOfRight R) (out_softmaxOfRight R)).
Proof.
  intros Hch.
  assert (H0 : nth_error (m_children (get_base s)) 0 = Some label)
    by (cbn [get_base node_state]; rewrite Hch; reflexivity).
  assert (H1 : nth_error (m_children (get_base s)) 1 = Some logits)
    by (cbn [get_base node_state]; rewrite Hch; reflexivity).
  unfold EvaluateThisNode.
  unfold bind at 1, NodeFunctionValues at 1, gets at 1.
  unfold bind at 1. rewrite (Inputs_some _ _ H0).
  unfold bind at 1. rewrite (Inputs_some _ _ H1).
  reflexivity.
Qed.

(** X13.  Forward evaluation of CrossEntropyWithSoftmax, on a label and
    logits of the same dimensions, computes the log-softmax of the logits, caches its exponential as the softmax, and
    only then sets the columns the Sequence Mask marks invalid to zero in
    the log-softmax: the cached softmax is not masked.  The output is 1x1
    and holds minus the inner product of the label with the masked
    log-softmax.  A gradient request after it adds [-g] times the masked
    log-softmax to the label gradient, and leaves in the logits gradient
    zero in the invalid columns and, elsewhere, what was there plus [g]
    times (softmax minus label). *)
Theorem cross_entropy_with_softmax_forward_then_gradient
  (s : Node E) (label logits : InputNode E) (rest : list (InputNode E)) :
  m_children (base s) = label :: logits :: rest ->
  same_shape (FunctionValues label) (FunctionValues logits) ->
  let g := upstream s in
  let layout := m_pMBLayout (base s) in
  let logSoftmax :=
    AssignLogSoftmaxOf (FunctionValues logits) true (m_logSoftmaxOfRight s) in
  let softmax := InplaceExp (SetValue logSoftmax (m_softmaxOfRight s)) in
  exists s',
    EvaluateThisNode AssignLogSoftmaxOf InplaceExp s = (Returned tt, s') /\
    m_softmaxOfRight s' = softmax /\
    m_logSoftmaxOfRight s' = ZeroColumns (invalid_column layout) logSoftmax /\
    GetNumRows (m_functionValues (base s')) = 1 /\
    GetNumCols (m_functionValues (base s')) = 1 /\
    Get00Element (m_functionValues (base s'))
    = InnerProduct (FunctionValues label) (ZeroColumns (invalid_column layout) logSoftmax)
      * - s1 /\
    adds_contribution (ComputeInputPartial 0) 0 s'
      (fun i k => - g * (if invalid_column layout k then s0 else elem logSoftmax i k)) /\
    exists G',
      fst (ComputeInputPartial 1 s') = Returned tt /\
      input_gradient 1 (snd (ComputeInputPartial 1 s')) = Some G' /\
      same_shape (GradientValues logits) G' /\
      forall i k, elem G' i k
                  = if invalid_column layout k then s0
                    else elem (GradientValues logits) i k
                         + g * (elem softmax i k - elem (FunctionValues label) i k).
Proof.
  intros Hch _ g layout logSoftmax softmax. eexists.
  split; [apply (CrossEntropyWithSoftmax_EvaluateThisNode_run s label logits rest Hch)|].
  cbv zeta. set (s' := mk _ _ _).
  assert (H0 : nth_error (m_children (base s')) 0 = Some label)
    by (subst s'; cbn [base set_functionValues m_children]; rewrite Hch; reflexivity).
  assert (H1 : nth_error (m_children (base s')) 1 = Some logits)
    by (subst s'; cbn [base set_functionValues m_children]; rewrite Hch; reflexivity).
  split; [reflexivity|]. split; [reflexivity|]. split; [reflexivity|].
  split; [reflexivity|]. split; [reflexivity|].
  split.
  - eapply on_input_adds with (f := fun G0 => ComputeInputPartialLeft _ G0 _);
      [exact H0|reflexivity|split; reflexivity|].
    intros i k. reflexivity.
  - rewrite (ComputeInputPartial_right_run s' H0 H1).
    change (nth_error (m_children (get_base s')) 1 = Some logits) in H1.
    rewrite (OnInputGradientValues_some (S := Node E) 1 _ s' H1).
    eexists. split; [reflexivity|]. cbn [snd].
    split; [erewrite (input_gradient_set_eq (S := Node E)) by exact H1; reflexivity|].
    split; [split; reflexivity|].
    intros i k. reflexivity.
Qed.

End CrossEntropyWithSoftmaxForward.

Section CrossEntropyForward.
Context {E : Type} {SE : Scalar E}.
Import CrossEntropyNode.
Local Open Scope scalar_scope.
Variable InplaceLog : Matrix E -> Matrix E.

Lemma CrossEntropy_EvaluateThisNode_run (s : Node E) (label prediction : InputNode E)
  (rest : list (InputNode E)) :
  m_children (base s) = label :: prediction :: rest ->
  EvaluateThisNode InplaceLog s
  = (Returned tt,
     let R := EvaluateThisNodeS InplaceLog (m_pMBLayout (base s))
                (m_functionValues (base s)) (FunctionValues label)
                (FunctionValues prediction) (m_logOfRight s) in
     mk (set_functionValues (fst R) (base s)) (snd R) (m_leftDivRight s)).
Proof.
  intros Hch.
  assert (H0 : nth_error (m_children (get_base s)) 0 = Some label)
    by (cbn [get_base node_state]; rewrite Hch; reflexivity).
  assert (H1 : nth_error (m_children (get_base s)) 1 = Some prediction)
    by (cbn [get_base node_state]; rewrite Hch; reflexivity).
  unfold EvaluateThisNode.
  unfold bind at 1, NodeFunctionValues at 1, gets at 1.
  unfold bind at 1. rewrite (Inputs_some _ _ H0).
  unfold bind at 1. rewrite (Inputs_some _ _ H1).
  reflexivity.
Qed.

Lemma CrossEntropy_right_run (s : Node E) (label prediction : InputNode E) :
  nth_error (m_children (base s)) 0 = Some label ->
  nth_error (m_children (base s)) 1 = Some prediction ->
  ComputeInputPartial 1 s
  = (let R := fun G => ComputeInputPartialRight (m_pMBLayout (base s)) (m_leftDivRight s)
                         (FunctionValues label) (FunctionValues prediction) G
                         (m_gradientValues (base s)) in
     OnInputGradientValues 1 (fun G => snd (R G))
       (set_leftDivRight (fst (R (GradientValues prediction))) s)).
Proof.
  intros H0 H1. to_get_base H0. to_get_base H1.
  unfold ComputeInputPartial.
  cbv [bind when_ Nat.ltb Nat.leb Nat.eqb ret gets NodeGradientValues modify].
  rewrite (Inputs_some (S := Node E) 0 s H0).
  rewrite (Inputs_some (S := Node E) 1 s H1).
  reflexivity.
Qed.

(** X14.  Forward evaluation of CrossEntropy, on a label and a prediction
    of the same dimensions, caches the logarithm of the prediction with the columns the Sequence Mask marks invalid set to
    zero, and writes minus the inner product of the label with it into a
    1x1 output.  A gradient request after it adds [-g] times that masked
    logarithm to the label gradient, and [-g] times the masked quotient
    label / prediction to the prediction gradient: an invalid column
    receives [-g * 0] in both. *)
Theorem cross_entropy_forward_then_gradient
  (s : Node E) (label prediction : InputNode E) (rest : list (InputNode E)) :
  m_children (base s) = label :: prediction :: rest ->
  same_shape (FunctionValues label) (FunctionValues prediction) ->
  let g := Get00Element (m_gradientValues (base s)) in
  let layout := m_pMBLayout (base s) in
  let logOfRight := InplaceLog (SetValue (FunctionValues prediction) (m_logOfRight s)) in
  exists s',
    EvaluateThisNode InplaceLog s = (Returned tt, s') /\
    m_logOfRight s' = ZeroColumns (invalid_column layout) logOfRight /\
    GetNumRows (m_functionValues (base s')) = 1 /\
    GetNumCols (m_functionValues (base s')) = 1 /\
    Get00Element (m_functionValues (base s'))
    = InnerProduct (FunctionValues label) (ZeroColumns (invalid_column layout) logOfRight)
      * - s1 /\
    adds_contribution (ComputeInputPartial 0) 0 s'
      (fun i k => - g * (if invalid_column layout k then s0 else elem logOfRight i k)) /\
    adds_contribution (ComputeInputPartial 1) 1 s'
      (fun i k => - g * (if invalid_column layout k then s0
                         else elem (FunctionValues label) i k
                              / elem (FunctionValues prediction) i k)).
Proof.
  intros Hch _ g layout logOfRight. eexists.
  split; [apply (CrossEntropy_EvaluateThisNode_run s label prediction rest Hch)|].
  cbv zeta. set (s' := mk _ _ _).
  assert (H0 : nth_error (m_children (base s')) 0 = Some label)
    by (subst s'; cbn [base set_functionValues m_children]; rewrite Hch; reflexivity).
  assert (H1 : nth_error (m_children (base s')) 1 = Some prediction)
    by (subst s'; cbn [base set_functionValues m_children]; rewrite Hch; reflexivity).
  split; [reflexivity|]. split; [reflexivity|]. split; [reflexivity|].
  split; [reflexivity|].
  split.
  - eapply on_input_adds with (f := fun G0 => ComputeInputPartialLeft _ G0 _);
      [exact H0|reflexivity|split; reflexivity|].
    intros i k. reflexivity.
  - exists (GradientValues prediction).
    rewrite (CrossEntropy_right_run s' label prediction H0 H1). cbv zeta.
    set (s2 := set_leftDivRight _ s').
    assert (H1' : nth_error (m_children (get_base s2)) 1 = Some prediction) by exact H1.
    rewrite (OnInputGradientValues_some (S := Node E) 1 _ s2 H1').
    eexists. cbn [fst snd].
    split; [unfold input_gradient; to_get_base H1; rewrite H1; reflexivity|].
    split; [reflexivity|].
    split; [erewrite (input_gradient_set_eq (S := Node E)) by exact H1'; reflexivity|].
    split; [split; reflexivity|].
    intros i k. reflexivity.
Qed.

End CrossEntropyForward.

Section CrossEntropyValidation.
Context {E : Type} {SE : Scalar E}.
Import CrossEntropyNode.
Variable BaseValidate : M (Node E) unit.
Variable InferImageDimsFromInput : nat -> bool -> M (Node E) unit.

Lemma CrossEntropy_label_keeps_shape (s : Node E) (a : InputNode E) :
  nth_error (m_children (base s)) 0 = Some a ->
  OperationName a = "InputValue"%string ->
  ResizeLearnableParameter 0 s = (Returned tt, s).
Proof.
  intros H0 Hname. to_get_base H0. unfold ResizeLearnableParameter.
  unfold bind at 1. rewrite (Inputs_some _ _ H0). rewrite Hname. reflexivity.
Qed.

Lemma CrossEntropy_prediction_shape (ch : ComputationNode E) (l d : Matrix E)
  (a b : InputNode E) :
  m_children ch = [a; b] ->
  ResizeLearnableParameter 1 (mk ch l d)
  = (Returned tt, mk (set_children [a; with_inferred_shape b a] ch) l d).
Proof.
  destruct ch as [c fv gv lay oc ow oh]. cbn [m_children]. intros ->.
  unfold ResizeLearnableParameter, with_inferred_shape.
  cbv [bind Inputs get_base node_state base m_children nth_error ret Nat.sub].
  destruct (String.eqb (OperationName b) "LearnableParameter"); [|reflexivity].
  cbn [when_].
  cbv [bind Inputs get_base node_state base m_children nth_error ret Nat.sub].
  destruct (GetNumRows (FunctionValues b) =? 0), (GetNumCols (FunctionValues b) =? 0);
    reflexivity.
Qed.

(** X15.  CrossEntropy's validation requires input 0 to be an InputValue
    and throws otherwise, leaving the node as [Base::Validate] left it.
    The dimension inference for LearnableParameter inputs that follows can
    therefore never apply to input 0, whose value tensor validation never
    resizes; input 1, when it is a LearnableParameter, takes the
    dimensions it lacks from input 0.  An input without elements and two
    inputs of different dimensions are then rejected, in this order;
    otherwise the output is sized 1x1, both scratch tensors are sized like
    input 1, and what is left is [InferImageDimsFromInputs]. *)
Theorem cross_entropy_validate (s s1 : Node E) (a b : InputNode E) :
  BaseValidate s = (Returned tt, s1) ->
  m_children (base s1) = [a; b] ->
  (OperationName a <> "InputValue"%string ->
   Validate BaseValidate InferImageDimsFromInput s
   = (Thrown (LogicError
                "CrossEntropyNode criterion requires the first input to be the label."),
      s1)) /\
  (OperationName a = "InputValue"%string ->
   let b' := with_inferred_shape b a in
   let inferred :=
     mk (set_children [a; b'] (base s1)) (m_logOfRight s1) (m_leftDivRight s1) in
   Validate BaseValidate InferImageDimsFromInput s =
   if HasNoElements (FunctionValues a) || HasNoElements (FunctionValues b')
   then (Thrown (LogicError
                   "CrossEntropyNode operation: one of the operants has 0 element."),
         inferred)
   else if negb ((GetNumRows (FunctionValues a) =? GetNumRows (FunctionValues b'))
                 && (GetNumCols (FunctionValues a) =? GetNumCols (FunctionValues b')))
   then (Thrown (LogicError
                   "The Matrix dimension in the CrossEntropyNode operation does not match."),
         inferred)
   else InferImageDimsFromInputs InferImageDimsFromInput
          (mk (set_functionValues (Resize 1 1 (m_functionValues (base s1)))
                                  (set_children [a; b'] (base s1)))
              (Resize (GetNumRows (FunctionValues b')) (GetNumCols (FunctionValues b'))
                      (m_logOfRight s1))
              (Resize (GetNumRows (FunctionValues b')) (GetNumCols (FunctionValues b'))
                      (m_leftDivRight s1)))).
Proof.
  intros Hbase Hch.
  assert (H0 : nth_error (m_children (base s1)) 0 = Some a) by (rewrite Hch; reflexivity).
  split.
  - intros Hname. unfold Validate. unfold bind at 1. rewrite Hbase.
    unfold bind at 1, gets at 1. rewrite Hch. cbn [List.length].
    change (2 =? 2) with true. cbn [negb when_]. unfold bind at 1, ret at 1.
    unfold bind at 1. to_get_base H0. rewrite (Inputs_some _ _ H0).
    apply String.eqb_neq in Hname. rewrite Hname. reflexivity.
  - intros Hname b' inferred. unfold Validate. unfold bind at 1. rewrite Hbase.
    unfold bind at 1, gets at 1. rewrite Hch. cbn [List.length].
    change (2 =? 2) with true. cbn [negb when_]. unfold bind at 1, ret at 1.
    unfold bind at 1. pose proof H0 as H0'. to_get_base H0'. rewrite (Inputs_some _ _ H0').
    rewrite Hname. cbn [String.eqb Ascii.eqb Bool.eqb negb when_].
    unfold bind at 1, ret at 1.
    unfold bind at 1. rewrite (CrossEntropy_label_keeps_shape s1 a H0 Hname).
    destruct s1 as [ch l d]. cbn [base m_logOfRight m_leftDivRight] in *.
    unfold bind at 1. rewrite (CrossEntropy_prediction_shape ch l d a b Hch). fold b'.
    cbv [bind gets Inputs when_ ret throw get_base set_base node_state base m_children
         nth_error set_children OnFunctionValues modify set_logOfRight set_leftDivRight
         m_logOfRight m_leftDivRight
         set_functionValues m_functionValues m_gradientValues m_pMBLayout
         m_outputChannels m_outputWidth m_outputHeight].
    subst inferred. cbv [set_children].
    destruct (HasNoElements (FunctionValues a) || HasNoElements (FunctionValues b'));
      [reflexivity|].
    destruct (negb ((GetNumRows (FunctionValues a) =? GetNumRows (FunctionValues b'))
                    && (GetNumCols (FunctionValues a) =? GetNumCols (FunctionValues b'))));
      reflexivity.
Qed.

End CrossEntropyValidation.

(** ** MatrixL1Reg and MatrixL2Reg: forward evaluation *)

Section Regularizers.
Context {E : Type} {SE : Scalar E}.
Local Open Scope scalar_scope.
Variable MatrixNorm1 : Matrix E -> E.
Variable FrobeniusNorm : Matrix E -> E.

Lemma OnInputFunctionValues_some {S : Type} {NS : NodeState E S} (i : nat)
  (f : Matrix E -> Matrix E) (s : S) (c : InputNode E) :
  nth_error (m_children (get_base s)) i = Some c ->
  OnInputFunctionValues i f s =
  (Returned tt,
   set_base (set_children
               (list_set i (set_FunctionValues (f (FunctionValues c)) c)
                         (m_children (get_base s)))
               (get_base s)) s).
Proof.
  intros H; unfold OnInputFunctionValues, bind; rewrite (Inputs_some _ _ H).
  reflexivity.
Qed.

Lemma MatrixL1Reg_EvaluateThisNode_run (s : MatrixL1RegNode.Node E) (in0 : InputNode E)
  (rest : list (InputNode E)) :
  m_children (MatrixL1RegNode.base s) = in0 :: rest ->
  MatrixL1RegNode.EvaluateThisNode MatrixNorm1 s
  = (Returned tt,
     let x := MaskToZeroWhenLabelAndFeatureMissing
                (m_pMBLayout (MatrixL1RegNode.base s)) (FunctionValues in0) in
     MatrixL1RegNode.mk
       (set_functionValues
          (MatrixL1RegNode.EvaluateThisNodeS MatrixNorm1
             (m_functionValues (MatrixL1RegNode.base s)) x)
          (set_children (set_FunctionValues x in0 :: rest) (MatrixL1RegNode.base s)))
       (MatrixL1RegNode.m_gradientOfL1Norm s)).
Proof.
  intros Hch.
  assert (H0 : nth_error (m_children (get_base s)) 0 = Some in0)
    by (cbn [get_base MatrixL1RegNode.node_state]; rewrite Hch; reflexivity).
  unfold MatrixL1RegNode.EvaluateThisNode.
  unfold bind at 1, gets at 1.
  unfold bind at 1. rewrite (OnInputFunctionValues_some 0 _ s in0 H0).
  cbn [get_base set_base MatrixL1RegNode.node_state]. rewrite Hch. cbn [list_set].
  reflexivity.
Qed.

Lemma MatrixL2Reg_EvaluateThisNode_run (s : MatrixL2RegNode.Node E) (in0 : InputNode E)
  (rest : list (InputNode E)) :
  m_children (MatrixL2RegNode.base s) = in0 :: rest ->
  MatrixL2RegNode.EvaluateThisNode FrobeniusNorm s
  = (Returned tt,
     let x := MaskToZeroWhenLabelAndFeatureMissing
                (m_pMBLayout (MatrixL2RegNode.base s)) (FunctionValues in0) in
     MatrixL2RegNode.mk
       (set_functionValues
          (MatrixL2RegNode.EvaluateThisNodeS FrobeniusNorm
             (m_functionValues (MatrixL2RegNode.base s)) x)
          (set_children (set_FunctionValues x in0 :: rest) (MatrixL2RegNode.base s)))
       (MatrixL2RegNode.m_temp s)).
Proof.
  intros Hch.
  assert (H0 : nth_error (m_children (get_base s)) 0 = Some in0)
    by (cbn [get_base MatrixL2RegNode.node_state]; rewrite Hch; reflexivity).
  unfold MatrixL2RegNode.EvaluateThisNode.
  unfold bind at 1, gets at 1.
  unfold bind at 1. rewrite (OnInputFunctionValues_some 0 _ s in0 H0).
  cbn [get_base set_base MatrixL2RegNode.node_state]. rewrite Hch. cbn [list_set].
  reflexivity.
Qed.

(** X16.  Forward evaluation of MatrixL1Reg and of MatrixL2Reg applies the
    Sequence Mask to the value tensor of the input node itself: after it,
    the input's value has zero in the columns the mask marks invalid, the
    1x1 output is the norm of that masked tensor, and the gradient request
    that follows works from the masked values.  MatrixL1Reg adds [g] times
    the sign of the masked value to the input's gradient; MatrixL2Reg adds
    [g / (norm + eps)] times the masked value, [norm] being the output. *)
Theorem regularizers_mask_their_input :
  (forall (s : MatrixL1RegNode.Node E) (in0 : InputNode E) (rest : list (InputNode E)),
      m_children (MatrixL1RegNode.base s) = in0 :: rest ->
      let g := Get00Element (m_gradientValues (MatrixL1RegNode.base s)) in
      let x := ZeroColumns (invalid_column (m_pMBLayout (MatrixL1RegNode.base s)))
                           (FunctionValues in0) in
      exists s',
        MatrixL1RegNode.EvaluateThisNode MatrixNorm1 s = (Returned tt, s') /\
        input_value 0 s' = Some x /\
        GetNumRows (m_functionValues (MatrixL1RegNode.base s')) = 1 /\
        GetNumCols (m_functionValues (MatrixL1RegNode.base s')) = 1 /\
        Get00Element (m_functionValues (MatrixL1RegNode.base s')) = MatrixNorm1 x /\
        adds_contribution (MatrixL1RegNode.ComputeInputPartial 0) 0 s'
          (fun i k => g * sign_of (elem x i k))) /\
  (forall (s : MatrixL2RegNode.Node E) (in0 : InputNode E) (rest : list (InputNode E)),
      m_children (MatrixL2RegNode.base s) = in0 :: rest ->
      let g := Get00Element (m_gradientValues (MatrixL2RegNode.base s)) in
      let x := ZeroColumns (invalid_column (m_pMBLayout (MatrixL2RegNode.base s)))
                           (FunctionValues in0) in
      exists s',
        MatrixL2RegNode.EvaluateThisNode FrobeniusNorm s = (Returned tt, s') /\
        input_value 0 s' = Some x /\
        GetNumRows (m_functionValues (MatrixL2RegNode.base s')) = 1 /\
        GetNumCols (m_functionValues (MatrixL2RegNode.base s')) = 1 /\
        Get00Element (m_functionValues (MatrixL2RegNode.base s')) = FrobeniusNorm x /\
        adds_contribution (MatrixL2RegNode.ComputeInputPartial 0) 0 s'
          (fun i k => g / (FrobeniusNorm x + EPS_IN_INVERSE) * elem x i k)).
Proof.
  split.
  - intros s in0 rest Hch g x. eexists.
    split; [apply (MatrixL1Reg_EvaluateThisNode_run s in0 rest Hch)|].
    cbv zeta. set (s' := MatrixL1RegNode.mk _ _).
    assert (H0 : nth_error (m_children (get_base s')) 0
                 = Some (set_FunctionValues x in0)) by reflexivity.
    split; [reflexivity|]. split; [reflexivity|]. split; [reflexivity|].
    split; [reflexivity|].
    exists (GradientValues in0).
    unfold MatrixL1RegNode.ComputeInputPartial.
    cbv [bind when_ Nat.eqb negb ret gets NodeGradientValues modify].
    rewrite (Inputs_some _ _ H0).
    match goal with
    | |- context [OnInputGradientValues 0 ?f ?st] =>
        assert (H0' : nth_error (m_children (get_base st)) 0
                      = Some (set_FunctionValues x in0)) by reflexivity;
        rewrite (OnInputGradientValues_some (S := MatrixL1RegNode.Node E) 0 f st H0')
    end.
    eexists. cbn [fst snd].
    split; [reflexivity|]. split; [reflexivity|].
    split; [erewrite (input_gradient_set_eq (S := MatrixL1RegNode.Node E)) by reflexivity;
            reflexivity|].
    split; [split; reflexivity|].
    intros i k. reflexivity.
  - intros s in0 rest Hch g x. eexists.
    split; [apply (MatrixL2Reg_EvaluateThisNode_run s in0 rest Hch)|].
    cbv zeta. set (s' := MatrixL2RegNode.mk _ _).
    assert (H0 : nth_error (m_children (get_base s')) 0
                 = Some (set_FunctionValues x in0)) by reflexivity.
    split; [reflexivity|]. split; [reflexivity|]. split; [reflexivity|].
    split; [reflexivity|].
    eapply on_input_adds
      with (f := fun G0 => MatrixL2RegNode.ComputeInputPartialS G0 _ _ _);
      [exact H0|reflexivity|split; reflexivity|].
    intros i k. reflexivity.
Qed.

End Regularizers.

(** ** DummyCriterion: validation and forward evaluation *)

Section DummyEvaluation.
Context {E : Type} {SE : Scalar E}.
Import DummyCriterionNode.
Variable BaseValidate : M (Node E) unit.
Variable InferImageDimsFromInput : nat -> bool -> M (Node E) unit.

Lemma DummyCriterion_checks_pass (s s1 : Node E) (in0 in1 in2 : InputNode E) :
  BaseValidate s = (Returned tt, s1) ->
  m_children (base s1) = [in0; in1; in2] ->
  OperationName in0 = "InputValue"%string ->
  GetNumRows (FunctionValues in0) = 1 ->
  HasNoElements (FunctionValues in0) = false ->
  HasNoElements (FunctionValues in1) = false ->
  HasNoElements (FunctionValues in2) = false ->
  GetNumRows (FunctionValues in1) = GetNumRows (FunctionValues in2) ->
  exists in1',
    Validate BaseValidate InferImageDimsFromInput s =
    InferImageDimsFromInputs InferImageDimsFromInput
      (mk (set_functionValues (Resize 1 1 (m_functionValues (base s1)))
                              (set_children [in0; in1'; in2] (base s1)))).
Proof.
  intros Hbase Hch Hname Hrow H0 H1 H2 Hrows.
  unfold Validate. unfold bind at 1. rewrite Hbase.
  destruct s1 as [[ch fv gv lay oc ow oh]]. cbn [base m_children] in Hch. subst ch.
  assert (Hn : (OperationName in0 =? "InputValue")%string = true)
    by (rewrite Hname; reflexivity).
  assert (Hr : (GetNumRows (FunctionValues in0) =? 1) = true)
    by (rewrite Hrow; reflexivity).
  assert (Hrs : (GetNumRows (FunctionValues in1) =? GetNumRows (FunctionValues in2)) = true)
    by (rewrite Hrows; apply Nat.eqb_refl).
  cbv [bind gets Inputs when_ ret throw get_base node_state base m_children nth_error
       List.length].
  change (3 =? 3) with true. cbv [negb].
  repeat first [ rewrite Hn | rewrite Hr | rewrite H0 | rewrite H1 | rewrite H2
               | rewrite Hrs | progress cbv [negb orb] ].
  destruct (GetNumCols (FunctionValues in1) =? GetNumCols (FunctionValues in2));
    eexists; reflexivity.
Qed.

(** X17.  Validation of DummyCriterion asks of the objective (input 0) one
    row and at least one element; forward evaluation asks for exactly one
    row and one column.  So a node whose objective is a row of several
    values passes validation (with a base class that leaves the inputs
    alone) and then throws the logic error about the dimension (1, 1) on
    evaluation, changing nothing; with a 1x1 objective the evaluation
    returns and the output is 1x1 and holds the objective. *)
Theorem dummy_objective_row_validates_but_does_not_evaluate
  (s s1 : Node E) (in0 in1 in2 : InputNode E) :
  BaseValidate s = (Returned tt, s1) ->
  m_children (base s1) = [in0; in1; in2] ->
  OperationName in0 = "InputValue"%string ->
  GetNumRows (FunctionValues in0) = 1 ->
  HasNoElements (FunctionValues in0) = false ->
  HasNoElements (FunctionValues in1) = false ->
  HasNoElements (FunctionValues in2) = false ->
  GetNumRows (FunctionValues in1) = GetNumRows (FunctionValues in2) ->
  (forall st, exists st',
      InferImageDimsFromInput 0 false st = (Returned tt, st') /\
      nth_error (m_children (base st')) 0 = nth_error (m_children (base st)) 0) ->
  exists s',
    Validate BaseValidate InferImageDimsFromInput s = (Returned tt, s') /\
    (GetNumCols (FunctionValues in0) <> 1 ->
     EvaluateThisNode s'
     = (Thrown (LogicError "DummyCriterionNode expects first input has dimension (1, 1).\n"),
        s')) /\
    (GetNumCols (FunctionValues in0) = 1 ->
     exists s'',
       EvaluateThisNode s' = (Returned tt, s'') /\
       GetNumRows (m_functionValues (base s'')) = 1 /\
       GetNumCols (m_functionValues (base s'')) = 1 /\
       Get00Element (m_functionValues (base s'')) = Get00Element (FunctionValues in0) /\
       m_children (base s'') = m_children (base s')).
Proof.
  intros Hbase Hch Hname Hrow H0 H1 H2 Hrows Hinfer.
  destruct (DummyCriterion_checks_pass s s1 in0 in1 in2 Hbase Hch Hname Hrow H0 H1 H2 Hrows)
    as [in1' Hrun].
  rewrite Hrun. unfold InferImageDimsFromInputs. unfold bind at 1.
  match goal with
  | |- context [InferImageDimsFromInput 0 false ?st] =>
      destruct (Hinfer st) as [st' [Hi Hc0]]; rewrite Hi
  end.
  cbn [base set_functionValues set_children m_children nth_error] in Hc0.
  unfold modify. eexists. split; [reflexivity|].
  set (s' := mk _).
  assert (Hin0 : nth_error (m_children (get_base s')) 0 = Some in0) by exact Hc0.
  split.
  - intros Hcols. unfold EvaluateThisNode.
    unfold bind at 1, NodeFunctionValues at 1, gets at 1.
    unfold bind at 1. rewrite (Inputs_some _ _ Hin0).
    unfold EvaluateThisNodeS. rewrite Hrow.
    apply Nat.eqb_neq in Hcols. rewrite Hcols. reflexivity.
  - intros Hcols. unfold EvaluateThisNode.
    unfold bind at 1, NodeFunctionValues at 1, gets at 1.
    unfold bind at 1. rewrite (Inputs_some _ _ Hin0).
    unfold EvaluateThisNodeS. rewrite Hrow, Hcols.
    cbn [Nat.eqb negb orb]. unfold OnFunctionValues, modify.
    eexists. split; [reflexivity|]. repeat split.
Qed.

End DummyEvaluation.

(** ** References to matrices in CUDA memory *)

Section CudaMatrices.
Import cuda.
Local Open Scope N_scope.

Lemma locate_exact (m : matrixref) (i j : N) :
  i < colstride m -> j < numcols m -> numcols m * colstride m < 2 ^ 64 ->
  locate m i j = j * colstride m + i.
Proof.
  intros Hi Hj Hfit. unfold locate, size_t_add, size_t_mul.
  assert (Hlt : j * colstride m + i < 2 ^ 64) by nia.
  rewrite (N.mod_small (j * colstride m)) by nia.
  apply N.mod_small. exact Hlt.
Qed.

(** X18.  In a [matrixref] whose columns are [colstride] elements apart,
    with no more rows than [colstride] and [numcols * colstride] below
    [2^64], the cells inside the dimensions are [numcols * colstride]
    consecutive elements from the pointer on and no two of them share an
    address: writing cell [(i, j)] and reading cell [(i', j')] gives the
    value written when the two index pairs are equal and what memory held
    before otherwise. *)
Theorem matrix_cells_do_not_alias (T : Type) (m : matrixref) (mem : memory T)
  (i j i' j' : N) :
  numrows m <= colstride m ->
  numcols m * colstride m < 2 ^ 64 ->
  i < numrows m -> j < numcols m -> i' < numrows m -> j' < numcols m ->
  locate m i j < numcols m * colstride m /\
  (locate m i j = locate m i' j' <-> i = i' /\ j = j') /\
  forall v, get m (put m mem i j v) i' j'
            = if (i =? i') && (j =? j') then v else get m mem i' j'.
Proof.
  intros Hrows Hfit Hi Hj Hi' Hj'.
  rewrite (locate_exact m i j) by lia.
  rewrite (locate_exact m i' j') by lia.
  assert (Hinj : j * colstride m + i = j' * colstride m + i' <-> i = i' /\ j = j').
  { split; [|intros [-> ->]; reflexivity].
    intros Heq.
    assert (Hjj : j = j') by nia.
    subst j'. split; [lia|reflexivity]. }
  split; [nia|]. split; [exact Hinj|].
  intros v. unfold get, put.
  rewrite (locate_exact m i j) by lia.
  rewrite (locate_exact m i' j') by lia.
  destruct (N.eqb_spec i i') as [->|Hne].
  - destruct (N.eqb_spec j j') as [->|Hne'].
    + rewrite N.eqb_refl. reflexivity.
    + cbn [andb].
      destruct (N.eqb_spec (p m + (j' * colstride m + i')) (p m + (j * colstride m + i')))
        as [Heq|]; [|reflexivity].
      exfalso. apply Hne'. assert (j * colstride m + i' = j' * colstride m + i') by lia.
      apply Hinj in H. lia.
  - cbn [andb].
    destruct (N.eqb_spec (p m + (j' * colstride m + i')) (p m + (j * colstride m + i)))
      as [Heq|]; [|reflexivity].
    exfalso. apply Hne. assert (j * colstride m + i = j' * colstride m + i') by lia.
    apply Hinj in H. lia.
Qed.

(** X19.  [reshape] replaces the two dimensions and keeps the pointer and
    the column stride, so cell [(i, j)] of the reshaped matrix is the
    memory cell that [(i, j)] was before: elements do not keep their
    linear position unless the stride equals both row counts.  When the
    new shape has more columns than the old one, its last column starts at
    or beyond the end of the [numcols * colstride] elements the old shape
    covered. *)
Theorem reshape_keeps_column_stride (m m' : matrixref) (newrows newcols : N) :
  reshape newrows newcols m = Some m' ->
  p m' = p m /\ colstride m' = colstride m /\
  rows m' = newrows /\ cols m' = newcols /\
  size_t_mul (rows m) (cols m) = size_t_mul newrows newcols /\
  (forall i j, locate m' i j = locate m i j) /\
  (numcols m < newcols -> newcols * colstride m < 2 ^ 64 -> 0 < colstride m ->
   numcols m * colstride m <= locate m' 0 (newcols - 1)).
Proof.
  unfold reshape.
  destruct (N.eqb_spec (size_t_mul (rows m) (cols m)) (size_t_mul newrows newcols))
    as [Heq|]; [|discriminate].
  intros H; inversion H; subst m'; clear H.
  cbn [p colstride rows cols numrows numcols].
  repeat split; try assumption.
  intros Hmore Hfit Hpos.
  rewrite (locate_exact (mk_matrixref (p m) newrows newcols (colstride m)) 0 (newcols - 1));
    cbn [colstride numcols]; try lia.
  nia.
Qed.

End CudaMatrices.

(** ** What forward evaluation leaves alone *)

Section ForwardFrame.
Context {E : Type} {SE : Scalar E} {LS : LogScalar E} {TE : TensorEngine E}.

Lemma preserves_inputs_OnFunctionValues {S : Type} {NS : NodeState E S}
  (g : Matrix E -> Matrix E) :
  leaves_inputs (OnFunctionValues (S := S) g).
Proof.
  split; intros j s; unfold OnFunctionValues, modify; cbn [snd];
    [unfold input_value|unfold input_gradient]; rewrite get_set_base; reflexivity.
Qed.

Lemma preserves_OnInputFunctionValues_gradient {S : Type} {NS : NodeState E S}
  (i j : nat) (g : Matrix E -> Matrix E) :
  preserves (input_gradient j) (OnInputFunctionValues (S := S) i g).
Proof.
  intros s. unfold OnInputFunctionValues, bind, Inputs, SetInput, modify.
  destruct (nth_error (m_children (get_base s)) i) as [c|] eqn:Hc; [|reflexivity].
  cbn [snd]. unfold input_gradient. rewrite get_set_base. cbn [m_children set_children].
  destruct (Nat.eq_dec i j) as [->|Hne].
  - rewrite (nth_error_list_set_eq _ _ _ Hc), Hc. reflexivity.
  - rewrite (nth_error_list_set_ne _ _ Hne). reflexivity.
Qed.

Lemma preserves_OnInputFunctionValues_value {S : Type} {NS : NodeState E S}
  (i j : nat) (g : Matrix E -> Matrix E) :
  i <> j -> preserves (input_value j) (OnInputFunctionValues (S := S) i g).
Proof.
  intros Hne s. unfold OnInputFunctionValues, bind, Inputs, SetInput, modify.
  destruct (nth_error (m_children (get_base s)) i) as [c|] eqn:Hc; [|reflexivity].
  cbn [snd]. unfold input_value. rewrite get_set_base. cbn [m_children set_children].
  rewrite (nth_error_list_set_ne _ _ Hne). reflexivity.
Qed.

Lemma preserves_AddToFunctionValues_inputs (a : Matrix E) (ai aj : nat) :
  leaves_inputs (ClassBasedCrossEntropyWithSoftmaxNode.AddToFunctionValues a ai aj).
Proof.
  split; intros j; unfold ClassBasedCrossEntropyWithSoftmaxNode.AddToFunctionValues;
    (apply preserves_bind; [apply preserves_gets|]); intros fv;
    (destruct (AddElementToElement a ai aj fv 0 0); [|apply preserves_throw]);
    apply preserves_inputs_OnFunctionValues.
Qed.

Lemma SquareError_forward_frame (FrobeniusNorm : Matrix E -> E) :
  leaves_inputs (SquareErrorNode.EvaluateThisNode FrobeniusNorm).
Proof.
  pose proof (fun g => proj1 (@preserves_inputs_OnFunctionValues
                                (SquareErrorNode.Node E) _ g)) as Hv.
  pose proof (fun g => proj2 (@preserves_inputs_OnFunctionValues
                                (SquareErrorNode.Node E) _ g)) as Hg.
  split; intros j; unfold SquareErrorNode.EvaluateThisNode; auto 30 with frame.
Qed.

Lemma CrossEntropyWithSoftmax_forward_frame
  (AssignLogSoftmaxOf : Matrix E -> bool -> Matrix E -> Matrix E)
  (Exp : Matrix E -> Matrix E) :
  leaves_inputs (CrossEntropyWithSoftmaxNode.EvaluateThisNode AssignLogSoftmaxOf Exp).
Proof.
  pose proof (fun g => proj1 (@preserves_inputs_OnFunctionValues
                                (CrossEntropyWithSoftmaxNode.Node E) _ g)) as Hv.
  pose proof (fun g => proj2 (@preserves_inputs_OnFunctionValues
                                (CrossEntropyWithSoftmaxNode.Node E) _ g)) as Hg.
  split; intros j; unfold CrossEntropyWithSoftmaxNode.EvaluateThisNode;
    auto 30 with frame.
Qed.

Lemma CrossEntropy_forward_frame (InplaceLog : Matrix E -> Matrix E) :
  leaves_inputs (CrossEntropyNode.EvaluateThisNode InplaceLog).
Proof.
  pose proof (fun g => proj1 (@preserves_inputs_OnFunctionValues
                                (CrossEntropyNode.Node E) _ g)) as Hv.
  pose proof (fun g => proj2 (@preserves_inputs_OnFunctionValues
                                (CrossEntropyNode.Node E) _ g)) as Hg.
  split; intros j; unfold CrossEntropyNode.EvaluateThisNode; auto 30 with frame.
Qed.

Lemma DummyCriterion_forward_frame :
  leaves_inputs (DummyCriterionNode.EvaluateThisNode (E := E)).
Proof.
  split; intros j; unfold DummyCriterionNode.EvaluateThisNode;
    (apply preserves_bind; [auto with frame|]); intros fv;
    (apply preserves_bind; [auto with frame|]); intros in0;
    (destruct (DummyCriterionNode.EvaluateThisNodeS fv (FunctionValues in0));
     [|apply preserves_throw]);
    apply preserves_inputs_OnFunctionValues.
Qed.

Lemma NCE_forward_frame (NDEBUG : bool) :
  leaves_inputs (NoiseContrastiveEstimationNode.EvaluateThisNode (E := E) NDEBUG).
Proof.
  pose proof (fun g => proj1 (@preserves_inputs_OnFunctionValues
                                (NoiseContrastiveEstimationNode.Node E) _ g)) as Hv.
  pose proof (fun g => proj2 (@preserves_inputs_OnFunctionValues
                                (NoiseContrastiveEstimationNode.Node E) _ g)) as Hg.
  split; intros j; unfold NoiseContrastiveEstimationNode.EvaluateThisNode;
    (apply preserves_bind; [auto with frame|]); intros lbl;
    (apply preserves_bind; [auto with frame|]); intros mode;
    (apply preserves_bind; [|auto with frame]);
    destruct (NoiseContrastiveEstimationNode.selected_path NDEBUG mode (FunctionValues lbl))
      as [[| |]|e];
    [unfold NoiseContrastiveEstimationNode.EvaluateWithSoftmax
    |unfold NoiseContrastiveEstimationNode.EvaluateUnnormalized
    |unfold NoiseContrastiveEstimationNode.EvaluateNCE
    |
    |unfold NoiseContrastiveEstimationNode.EvaluateWithSoftmax
    |unfold NoiseContrastiveEstimationNode.EvaluateUnnormalized
    |unfold NoiseContrastiveEstimationNode.EvaluateNCE
    |];
    auto 40 with frame.
Qed.

Lemma ClassBased_forward_frame (CPUDEVICE : DEVICEID_TYPE) :
  leaves_inputs (ClassBasedCrossEntropyWithSoftmaxNode.EvaluateThisNode (E := E) CPUDEVICE).
Proof.
  assert (Hany : forall (X : Type) (f : ClassBasedCrossEntropyWithSoftmaxNode.Node E -> X),
             (forall g, preserves f (OnFunctionValues g)) ->
             (forall n b, f (ClassBasedCrossEntropyWithSoftmaxNode.mk
                               (ClassBasedCrossEntropyWithSoftmaxNode.base n)
                               (fst b) (fst (snd b)) (fst (snd (snd b)))
                               (fst (snd (snd (snd b))))
                               (fst (snd (snd (snd (snd b)))))
                               (fst (snd (snd (snd (snd (snd b))))))
                               (fst (snd (snd (snd (snd (snd (snd b)))))))
                               (snd (snd (snd (snd (snd (snd (snd b)))))))) = f n) ->
             preserves f (ClassBasedCrossEntropyWithSoftmaxNode.EvaluateThisNode CPUDEVICE)).
  { intros X f Hfv Hmem.
    assert (Hmod : forall h : ClassBasedCrossEntropyWithSoftmaxNode.Node E ->
                             ClassBasedCrossEntropyWithSoftmaxNode.Node E,
               (forall n, ClassBasedCrossEntropyWithSoftmaxNode.base (h n)
                          = ClassBasedCrossEntropyWithSoftmaxNode.base n) ->
               preserves f (modify h)).
    { intros h Hh n. unfold modify. cbn [snd].
      specialize (Hmem n
        (ClassBasedCrossEntropyWithSoftmaxNode.m_logSoftmax (h n),
         (ClassBasedCrossEntropyWithSoftmaxNode.m_softMax (h n),
          (ClassBasedCrossEntropyWithSoftmaxNode.m_clsLogSoftmax (h n),
           (ClassBasedCrossEntropyWithSoftmaxNode.m_clsSoftmax (h n),
            (ClassBasedCrossEntropyWithSoftmaxNode.m_grdToSoftMaxInput (h n),
             (ClassBasedCrossEntropyWithSoftmaxNode.m_needRecomputeGradientToSoftmaxInput (h n),
              (ClassBasedCrossEntropyWithSoftmaxNode.m_nbrCls (h n),
               ClassBasedCrossEntropyWithSoftmaxNode.m_totalNbrWords (h n))))))))).
      cbn [fst snd] in Hmem. rewrite <- Hh in Hmem. destruct (h n). exact Hmem. }
    assert (Hadd : forall a ai aj,
               preserves f (ClassBasedCrossEntropyWithSoftmaxNode.AddToFunctionValues
                              a ai aj)).
    { intros a ai aj. unfold ClassBasedCrossEntropyWithSoftmaxNode.AddToFunctionValues.
      apply preserves_bind; [apply preserves_gets|]. intros fv.
      destruct (AddElementToElement a ai aj fv 0 0); [apply Hfv|apply preserves_throw]. }
    assert (Hstep : forall lbls inputs w t sz,
               preserves f (ClassBasedCrossEntropyWithSoftmaxNode.EvaluateThisNodeS_step
                              lbls inputs w t sz)).
    { intros lbls inputs w t sz.
      unfold ClassBasedCrossEntropyWithSoftmaxNode.EvaluateThisNodeS_step. cbv zeta.
      apply preserves_if; [apply preserves_if; auto with frame|].
      repeat first [ apply preserves_ret | apply preserves_throw | apply preserves_gets
                   | apply Hadd | apply Hfv
                   | apply Hmod; intros; reflexivity
                   | apply preserves_when
                   | apply preserves_bind; [|intros ?] ]. }
    unfold ClassBasedCrossEntropyWithSoftmaxNode.EvaluateThisNode,
      ClassBasedCrossEntropyWithSoftmaxNode.EvaluateThisNodeS. cbv zeta.
    repeat first [ apply preserves_ret | apply preserves_throw | apply preserves_gets
                 | apply preserves_Inputs
                 | apply Hfv
                 | apply Hmod; intros; reflexivity
                 | apply preserves_when
                 | apply preserves_for_acc; intros; apply Hstep
                 | apply preserves_bind; [|intros ?] ]. }
  split; intros j; apply Hany.
  - intros g. apply (proj1 (preserves_inputs_OnFunctionValues g)).
  - intros n b. reflexivity.
  - intros g. apply (proj2 (preserves_inputs_OnFunctionValues g)).
  - intros n b. reflexivity.
Qed.

Lemma CRF_forward_frame : leaves_inputs (CRFNode.EvaluateThisNode (E := E)).
Proof.
  assert (Hany : forall (X : Type) (f : CRFNode.Node E -> X),
             (forall g, preserves f (OnFunctionValues g)) ->
             (forall n a b p x y,
                 f (CRFNode.mk (CRFNode.base n) a b p x y) = f n) ->
             preserves f CRFNode.EvaluateThisNode).
  { intros X f Hfv Hmem.
    assert (Hstep : forall nstep i funcVal,
               preserves f (CRFNode.EvaluateThisNode_step nstep i funcVal)).
    { intros nstep i funcVal. unfold CRFNode.EvaluateThisNode_step. cbv zeta.
      repeat first [ apply preserves_ret | apply preserves_gets | apply preserves_throw
                   | apply preserves_InputFunctionValues
                   | apply Hfv
                   | apply preserves_modify; intros; apply Hmem
                   | match goal with
                     | |- preserves _ (match ?o with _ => _ end) => destruct o
                     end
                   | apply preserves_bind; [|intros ?] ]. }
    unfold CRFNode.EvaluateThisNode. cbv zeta.
    repeat first [ apply preserves_ret | apply preserves_gets
                 | apply preserves_InputFunctionValues
                 | apply preserves_GetNumParallelSequences
                 | apply Hfv
                 | apply preserves_modify; intros; apply Hmem
                 | apply preserves_for_acc; intros; apply Hstep
                 | apply preserves_bind; [|intros ?] ]. }
  split; intros j; apply Hany.
  - intros g. apply (proj1 (preserves_inputs_OnFunctionValues g)).
  - intros n a b p x y. reflexivity.
  - intros g. apply (proj2 (preserves_inputs_OnFunctionValues g)).
  - intros n a b p x y. reflexivity.
Qed.

Lemma MatrixL1Reg_forward_frame (MatrixNorm1 : Matrix E -> E) :
  (forall j, preserves (input_gradient j) (MatrixL1RegNode.EvaluateThisNode MatrixNorm1)) /\
  (forall j, j <> 0 ->
             preserves (input_value j) (MatrixL1RegNode.EvaluateThisNode MatrixNorm1)).
Proof.
  pose proof (fun g => proj1 (@preserves_inputs_OnFunctionValues
                                (MatrixL1RegNode.Node E) _ g)) as Hv.
  pose proof (fun g => proj2 (@preserves_inputs_OnFunctionValues
                                (MatrixL1RegNode.Node E) _ g)) as Hg.
  split; intros j.
  - pose proof (fun g => @preserves_OnInputFunctionValues_gradient
                           (MatrixL1RegNode.Node E) _ 0 j g) as Hi.
    unfold MatrixL1RegNode.EvaluateThisNode; auto 30 with frame.
  - intros Hne.
    pose proof (fun g => @preserves_OnInputFunctionValues_value
                           (MatrixL1RegNode.Node E) _ 0 j g (not_eq_sym Hne)) as Hi.
    unfold MatrixL1RegNode.EvaluateThisNode; auto 30 with frame.
Qed.

Lemma MatrixL2Reg_forward_frame (FrobeniusNorm : Matrix E -> E) :
  (forall j, preserves (input_gradient j) (MatrixL2RegNode.EvaluateThisNode FrobeniusNorm)) /\
  (forall j, j <> 0 ->
             preserves (input_value j) (MatrixL2RegNode.EvaluateThisNode FrobeniusNorm)).
Proof.
  pose proof (fun g => proj1 (@preserves_inputs_OnFunctionValues
                                (MatrixL2RegNode.Node E) _ g)) as Hv.
  pose proof (fun g => proj2 (@preserves_inputs_OnFunctionValues
                                (MatrixL2RegNode.Node E) _ g)) as Hg.
  split; intros j.
  - pose proof (fun g => @preserves_OnInputFunctionValues_gradient
                           (MatrixL2RegNode.Node E) _ 0 j g) as Hi.
    unfold MatrixL2RegNode.EvaluateThisNode; auto 30 with frame.
  - intros Hne.
    pose proof (fun g => @preserves_OnInputFunctionValues_value
                           (MatrixL2RegNode.Node E) _ 0 j g (not_eq_sym Hne)) as Hi.
    unfold MatrixL2RegNode.EvaluateThisNode; auto 30 with frame.
Qed.

(** X20.  Forward evaluation writes no tensor of an input, with one
    exception: for SquareError, CrossEntropyWithSoftmax, CrossEntropy,
    DummyCriterion, NoiseContrastiveEstimation,
    ClassBasedCrossEntropyWithSoftmax and CRF the values and the gradients
    of all inputs are after [EvaluateThisNode] what they were before it,
    whether it returns or throws; MatrixL1Reg and MatrixL2Reg, which mask
    the value of input 0 in place, leave all gradients and the values of
    the other inputs alone. *)
Theorem forward_evaluation_leaves_inputs
  (FrobeniusNorm MatrixNorm1 : Matrix E -> E)
  (AssignLogSoftmaxOf : Matrix E -> bool -> Matrix E -> Matrix E)
  (InplaceLog : Matrix E -> Matrix E) (CPUDEVICE : DEVICEID_TYPE) (NDEBUG : bool) :
  leaves_inputs (SquareErrorNode.EvaluateThisNode FrobeniusNorm) /\
  leaves_inputs (CrossEntropyWithSoftmaxNode.EvaluateThisNode AssignLogSoftmaxOf InplaceExp) /\
  leaves_inputs (CrossEntropyNode.EvaluateThisNode InplaceLog) /\
  leaves_inputs (DummyCriterionNode.EvaluateThisNode (E := E)) /\
  leaves_inputs (NoiseContrastiveEstimationNode.EvaluateThisNode (E := E) NDEBUG) /\
  leaves_inputs (ClassBasedCrossEntropyWithSoftmaxNode.EvaluateThisNode (E := E) CPUDEVICE) /\
  leaves_inputs (CRFNode.EvaluateThisNode (E := E)) /\
  ((forall j, preserves (input_gradient j) (MatrixL1RegNode.EvaluateThisNode MatrixNorm1)) /\
   (forall j, j <> 0 ->
              preserves (input_value j) (MatrixL1RegNode.EvaluateThisNode MatrixNorm1))) /\
  ((forall j, preserves (input_gradient j) (MatrixL2RegNode.EvaluateThisNode FrobeniusNorm)) /\
   (forall j, j <> 0 ->
              preserves (input_value j) (MatrixL2RegNode.EvaluateThisNode FrobeniusNorm))).
Proof.
  split; [apply SquareError_forward_frame|].
  split; [apply CrossEntropyWithSoftmax_forward_frame|].
  split; [apply CrossEntropy_forward_frame|].
  split; [apply DummyCriterion_forward_frame|].
  split; [apply NCE_forward_frame|].
  split; [apply ClassBased_forward_frame|].
  split; [apply CRF_forward_frame|].
  split; [apply MatrixL1Reg_forward_frame|apply MatrixL2Reg_forward_frame].
Qed.

End ForwardFrame.

(** ** ClassBasedCrossEntropyWithSoftmax: the shapes of the per-word tensors *)

Section ClassBasedShapes.
Context {E : Type} {SE : Scalar E} {TE : TensorEngine E}.
Import ClassBasedCrossEntropyWithSoftmaxNode.

(** The word count and the dimensions of the two per-word tensors of
    forward evaluation. *)
Local Abbreviation per_word :=
  (fun n : Node E =>
     (m_totalNbrWords n,
      (GetNumRows (m_softMax n), GetNumCols (m_softMax n)),
      (GetNumRows (m_logSoftmax n), GetNumCols (m_logSoftmax n)))).

(** The dimensions of the softmax tensor and of the cached gradient. *)
Local Abbreviation gradient_shape :=
  (fun n : Node E =>
     (m_totalNbrWords n,
      (GetNumRows (m_softMax n), GetNumCols (m_softMax n)),
      (GetNumRows (m_grdToSoftMaxInput n), GetNumCols (m_grdToSoftMaxInput n)))).

Lemma shape_components (a a' : N) (b c d e b' c' d' e' : nat) :
  (a, (b, c), (d, e)) = (a', (b', c'), (d', e')) ->
  a = a' /\ b = b' /\ c = c' /\ d = d' /\ e = e'.
Proof. intros H. injection H. intros. repeat split; assumption. Qed.

Lemma keeps_bind {S A B : Type} (P : S -> Prop) (c : M S A) (k : A -> M S B) :
  (forall s, P s -> P (snd (c s))) ->
  (forall a s, P s -> P (snd (k a s))) ->
  forall s, P s -> P (snd (bind c k s)).
Proof.
  intros Hc Hk s Hs. unfold bind. specialize (Hc s Hs).
  destruct (c s) as [[a|e] s1]; cbn [snd] in *; [apply Hk|]; exact Hc.
Qed.

(** What is read from a state that satisfies [P] can be used after the
    read. *)
Lemma keeps_gets_bind {S A B : Type} (P : S -> Prop) (g : S -> A) (k : A -> M S B) :
  (forall v, (exists s0, P s0 /\ v = g s0) -> forall s, P s -> P (snd (k v s))) ->
  forall s, P s -> P (snd (bind (gets g) k s)).
Proof.
  intros Hk s Hs. unfold bind, gets. apply Hk; [exists s; split; [exact Hs|reflexivity]|exact Hs].
Qed.

Lemma keeps_when {S : Type} (P : S -> Prop) (b : bool) (c : M S unit) :
  (forall s, P s -> P (snd (c s))) -> forall s, P s -> P (snd (when_ b c s)).
Proof. intros Hc s Hs. destruct b; [apply Hc; exact Hs|exact Hs]. Qed.

Lemma keeps_for_acc {S A : Type} (P : S -> Prop) (body : nat -> A -> M S A) :
  (forall t a s, P s -> P (snd (body t a s))) ->
  forall count start a s, P s -> P (snd (for_acc start count body a s)).
Proof.
  intros Hb count; induction count as [|c IH]; intros start a s Hs; cbn [for_acc].
  - exact Hs.
  - apply keeps_bind; [intros s0; apply Hb|intros a0 s0; apply IH|exact Hs].
Qed.

Lemma Mask_t_shape (layout : option MBLayout) (m : Matrix E) (t : nat) :
  GetNumRows (snd (MaskToZeroWhenLabelAndFeatureMissing_t layout m t)) = GetNumRows m /\
  GetNumCols (snd (MaskToZeroWhenLabelAndFeatureMissing_t layout m t)) = GetNumCols m.
Proof.
  unfold MaskToZeroWhenLabelAndFeatureMissing_t.
  destruct layout as [L|]; [|split; reflexivity].
  destruct (negb (IsAllNone L)); [|split; reflexivity].
  destruct (Is L _ NoLabel); [|split; reflexivity].
  destruct (IsAt L _ _ NoLabel); split; reflexivity.
Qed.

Lemma forward_step_keeps_per_word (lbls inputs input_weight : Matrix E) (t : nat) (sz : N)
  (words : N) (columns : nat) (s : Node E) :
  per_word s = (words, (1, columns), (1, columns)) ->
  per_word (snd (EvaluateThisNodeS_step lbls inputs input_weight t sz s))
  = (words, (1, columns), (1, columns)).
Proof.
  set (P := fun n : Node E => per_word n = (words, (1, columns), (1, columns))).
  change (P s -> P (snd (EvaluateThisNodeS_step lbls inputs input_weight t sz s))).
  assert (Hadd : forall a ai aj (st : Node E),
             P st -> P (snd (AddToFunctionValues a ai aj st))).
  { intros a ai aj st Hst. unfold AddToFunctionValues, bind, NodeFunctionValues, gets.
    destruct (AddElementToElement a ai aj (m_functionValues (get_base st)) 0 0);
      exact Hst. }
  revert s. unfold EvaluateThisNodeS_step. cbv zeta.
  destruct (_ =? 0)%N.
  { destruct (_ =? 0)%N; intros s Hs; exact Hs. }
  apply keeps_gets_bind. intros layout _.
  apply keeps_gets_bind. intros logSoftmax [s0 [Hs0 Hv]].
  assert (Hdims : GetNumRows logSoftmax = 1 /\ GetNumCols logSoftmax = columns).
  { subst logSoftmax. unfold P in Hs0.
    pose proof (f_equal (fun x => fst (snd x)) Hs0) as Hr.
    pose proof (f_equal (fun x => snd (snd x)) Hs0) as Hc.
    cbn [fst snd] in Hr, Hc. split; assumption. }
  destruct Hdims as [Hr Hc].
  apply keeps_bind.
  { intros st Hst. unfold modify, P in *. cbn [snd].
    pose proof (f_equal fst Hst) as H1.
    cbn [fst snd] in H1.
    cbn [m_totalNbrWords m_softMax m_logSoftmax set_logSoftmax PutColumnSlice with_elem
         GetNumRows GetNumCols].
    rewrite H1, Hr, Hc. reflexivity. }
  intros _.
  apply keeps_bind.
  { apply keeps_when.
    repeat first [ apply Hadd
                 | apply keeps_gets_bind; intros ? _
                 | apply keeps_when; intros st Hst; exact Hst
                 | apply keeps_bind; [|intros ?]
                 | (intros st Hst; exact Hst) ]. }
  intros _.
  apply keeps_gets_bind. intros clsLogSoftmax _.
  repeat first [ apply Hadd
               | apply keeps_when
               | apply keeps_bind; [|intros ?]
               | (intros st Hst; exact Hst) ].
Qed.

Lemma EvaluateThisNodeS_per_word (lbls inputs input_weight cls : Matrix E) (s : Node E) :
  per_word (snd (EvaluateThisNodeS lbls inputs input_weight cls s))
  = (total_words lbls (GetNumCols lbls),
     (1, N.to_nat (total_words lbls (GetNumCols lbls))),
     (1, N.to_nat (total_words lbls (GetNumCols lbls)))).
Proof.
  set (P := fun n : Node E =>
              per_word n = (total_words lbls (GetNumCols lbls),
                            (1, N.to_nat (total_words lbls (GetNumCols lbls))),
                            (1, N.to_nat (total_words lbls (GetNumCols lbls))))).
  change (P (snd (EvaluateThisNodeS lbls inputs input_weight cls s))).
  unfold EvaluateThisNodeS. cbv zeta.
  unfold bind at 1, modify at 1. unfold bind at 1, modify at 1.
  unfold bind at 1, modify at 1.
  match goal with
  | |- P (snd (?c ?st)) =>
      assert (Hp : forall s0, P s0 -> P (snd (c s0)));
      [|apply Hp; reflexivity]
  end.
  repeat first [ apply keeps_bind; [|intros ?]
               | (intros st Hst; exact Hst) ].
  intros st Hst.
  apply (keeps_for_acc P (EvaluateThisNodeS_step lbls inputs input_weight)); [|exact Hst].
  intros t sz s0 Hs0. apply forward_step_keeps_per_word. exact Hs0.
Qed.

Lemma softmax_partial_step_keeps_shape (t : nat) (sz : N) :
  preserves gradient_shape (ComputeSoftMaxPartial_step (E := E) t sz).
Proof.
  unfold ComputeSoftMaxPartial_step.
  apply preserves_bind; [apply preserves_InputFunctionValues|]. intros lbl. cbv zeta.
  apply preserves_if; [apply preserves_if; auto with frame|].
  repeat first [ apply preserves_ret | apply preserves_gets
               | apply preserves_modify; intros; reflexivity
               | apply preserves_bind; [|intros ?] ].
Qed.

(** X21.  Forward evaluation of ClassBasedCrossEntropyWithSoftmax, whether
    it returns or throws, leaves in [m_totalNbrWords] the ([size_t]) sum of
    the class sizes of the columns of the label tensor, and its two
    per-word tensors, the softmax and the log-softmax, with one row and
    that many columns.  [ComputeSoftMaxPartial], when it has the gradient
    to recompute, gives the cached gradient one row and [m_totalNbrWords]
    columns and keeps the dimensions of the softmax tensor: after a
    forward evaluation the cached gradient has the shape of the
    softmax. *)
Theorem per_word_tensors_have_total_words_columns :
  (forall (CPUDEVICE : DEVICEID_TYPE) (s : Node E) (lbl in1 in2 in3 : InputNode E)
          (rest : list (InputNode E)),
      m_children (base s) = lbl :: in1 :: in2 :: in3 :: rest ->
      GetDeviceId (FunctionValues lbl) = CPUDEVICE ->
      let s' := snd (EvaluateThisNode CPUDEVICE s) in
      let totalWords := total_words (FunctionValues lbl) (GetNumCols (FunctionValues lbl)) in
      m_totalNbrWords s' = totalWords /\
      GetNumRows (m_softMax s') = 1 /\ GetNumCols (m_softMax s') = N.to_nat totalWords /\
      GetNumRows (m_logSoftmax s') = 1 /\
      GetNumCols (m_logSoftmax s') = N.to_nat totalWords) /\
  (forall s : Node E,
      m_needRecomputeGradientToSoftmaxInput s = true ->
      let s' := snd (ComputeSoftMaxPartial s) in
      GetNumRows (m_grdToSoftMaxInput s') = 1 /\
      GetNumCols (m_grdToSoftMaxInput s') = N.to_nat (m_totalNbrWords s) /\
      GetNumRows (m_softMax s') = GetNumRows (m_softMax s) /\
      GetNumCols (m_softMax s') = GetNumCols (m_softMax s) /\
      m_totalNbrWords s' = m_totalNbrWords s).
Proof.
  split.
  - intros CPUDEVICE s lbl in1 in2 in3 rest Hch Hdev s' totalWords. subst s'.
    rewrite (@EvaluateThisNode_guard _ _ _ CPUDEVICE s lbl in1 in2 in3 rest Hch).
    rewrite Hdev, Z.eqb_refl.
    pose proof (EvaluateThisNodeS_per_word (FunctionValues lbl) (FunctionValues in1)
                  (FunctionValues in2) (FunctionValues in3) s) as Hs.
    unfold bind.
    destruct (EvaluateThisNodeS (FunctionValues lbl) (FunctionValues in1)
                (FunctionValues in2) (FunctionValues in3) s) as [[u|e] s1];
      cbn [snd] in *; unfold modify; cbn [snd];
      apply shape_components in Hs; exact Hs.
  - intros s Hstale s'. subst s'.
    assert (Heq : ComputeSoftMaxPartial s
                  = (in1 <- InputFunctionValues 1 ;;
                     for_acc 0 (GetNumCols in1) ComputeSoftMaxPartial_step 0%N ;;
                     modify (set_needRecompute false))
                      (set_grdToSoftMaxInput
                         (Resize 1 (N.to_nat (m_totalNbrWords s)) (m_grdToSoftMaxInput s)) s)).
    { unfold ComputeSoftMaxPartial. unfold bind at 1, gets at 1. rewrite Hstale.
      cbn [when_]. unfold bind at 1, modify at 1. reflexivity. }
    rewrite Heq. clear Heq.
    match goal with
    | |- context [snd (?c ?st)] =>
        assert (Hp : preserves gradient_shape c);
        [|pose proof (Hp st) as Hs]
    end.
    { repeat first [ apply preserves_InputFunctionValues
                   | apply preserves_modify; intros; reflexivity
                   | apply preserves_for_acc; intros; apply softmax_partial_step_keeps_shape
                   | apply preserves_bind; [|intros ?] ]. }
    cbn [m_totalNbrWords m_softMax m_grdToSoftMaxInput set_grdToSoftMaxInput Resize
         GetNumRows GetNumCols] in Hs.
    apply shape_components in Hs.
    destruct Hs as [H1 [H2 [H3 [H4 H5]]]].
    split; [exact H4|]. split; [exact H5|]. split; [exact H2|]. split; [exact H3|exact H1].
Qed.

End ClassBasedShapes.

(** ** The further statements on the concrete nodes *)

Section FurtherOverTheIntegers.
Import Instances.

(** X6 on the label tensor of [class_based]: the class sizes 2, 1 and 0
    add up to 3. *)
Lemma class_slices_do_not_overlap_witness :
  ClassBasedCrossEntropyWithSoftmaxNode.total_words
    (FunctionValues class_labels) (GetNumCols (FunctionValues class_labels)) = 3%N /\
  (ClassBasedCrossEntropyWithSoftmaxNode.words_before (FunctionValues class_labels) 0
   + ClassBasedCrossEntropyWithSoftmaxNode.nbr_wrd_of (FunctionValues class_labels) 0
   <= ClassBasedCrossEntropyWithSoftmaxNode.words_before (FunctionValues class_labels) 1)%N.
Proof.
  assert (Hsum : (ClassBasedCrossEntropyWithSoftmaxNode.words_before
                    (FunctionValues class_labels) (GetNumCols (FunctionValues class_labels))
                  < 2 ^ 64)%N) by (vm_compute; reflexivity).
  destruct (class_slices_do_not_overlap (SE := ZScalar) (TE := idle_engine Z)
              (FunctionValues class_labels) eq_refl Hsum)
    as [_ [_ [_ [Htotal Hslices]]]].
  split.
  - rewrite Htotal. vm_compute. reflexivity.
  - apply (Hslices 0 1); cbn; lia.
Defined.

(** X7 on [class_based_misplaced]: word 0 of a class that starts at word
    1. *)
Lemma word_index_below_class_bound_witness :
  threw (fst (ClassBasedCrossEntropyWithSoftmaxNode.EvaluateThisNodeS
                (TE := idle_engine Z)
                misplaced_word (FunctionValues observations) (FunctionValues weights)
                (FunctionValues class_posteriors) class_based_misplaced)) = true.
Proof.
  assert (Ht : 0 < GetNumCols misplaced_word) by (cbn; lia).
  assert (Hn : ClassBasedCrossEntropyWithSoftmaxNode.nbr_wrd_of misplaced_word 0 <> 0%N)
    by (vm_compute; discriminate).
  assert (Hy : (ClassBasedCrossEntropyWithSoftmaxNode.y_of misplaced_word 0
                < ClassBasedCrossEntropyWithSoftmaxNode.lft_bnd_of misplaced_word 0)%N)
    by (vm_compute; reflexivity).
  apply (proj2 (word_index_below_class_bound (SE := ZScalar) (TE := idle_engine Z)
                  misplaced_word (FunctionValues observations) (FunctionValues weights)
                  (FunctionValues class_posteriors) 0 class_based_misplaced
                  eq_refl Ht Hn Hy eq_refl)).
Defined.

(** X8 on [nce], whose mode is Unnormalized. *)
Lemma nce_gradient_needs_training_mode_witness :
  NoiseContrastiveEstimationNode.ComputeInputPartial (TE := idle_engine Z) 1 nce
  = (Thrown (LogicError "ComputeInputPartial should only be called in training mode"),
     NoiseContrastiveEstimationNode.set_needRecompute false nce).
Proof.
  apply (nce_gradient_needs_training_mode (TE := idle_engine Z) nce 1).
  vm_compute. discriminate.
Defined.

(** X11 on [square_error]: the inputs [5 7] and [1 2] differ by [4 5], the
    norm stand-in of which is 6, so the output is 18. *)
Lemma square_error_forward_then_gradient_witness :
  exists s',
    SquareErrorNode.EvaluateThisNode FrobeniusNorm square_error = (Returned tt, s') /\
    Get00Element (m_functionValues (SquareErrorNode.base s')) = 18%Z /\
    elem (SquareErrorNode.m_leftMinusRight s') 0 1 = 5%Z /\
    adds_contribution (SquareErrorNode.ComputeInputPartial 1) 1 s'
      (fun i k => (- 2 * (elem (dense 1 2 [[5; 7]]) i k - elem (dense 1 2 [[1; 2]]) i k))%Z).
Proof.
  destruct (square_error_forward_then_gradient FrobeniusNorm square_error
              (input "InputValue" (dense 1 2 [[5; 7]]%Z) (dense 1 2 [[0; 0]]%Z))
              (input "Times" (dense 1 2 [[1; 2]]%Z) (dense 1 2 [[0; 0]]%Z))
              [] eq_refl (conj eq_refl eq_refl))
    as [s' [Hrun [_ [_ [Hout [_ [Hd [_ Hright]]]]]]]].
  exists s'. split; [exact Hrun|].
  split.
  - rewrite Hout. inversion Hrun. vm_compute. reflexivity.
  - split; [rewrite Hd; reflexivity|exact Hright].
Defined.

(** X12 on [square_error_unsized]: the parameter takes the dimensions 2x3
    of the other input. *)
Lemma square_error_validate_witness :
  fst (SquareErrorNode.Validate (ret tt) (fun _ _ => ret tt) square_error_unsized)
  = Returned tt /\
  option_map (fun m => (GetNumRows m, GetNumCols m))
    (input_value 1
       (snd (SquareErrorNode.Validate (ret tt) (fun _ _ => ret tt) square_error_unsized)))
  = Some (2, 3).
Proof.
  rewrite (square_error_validate (ret tt) (fun _ _ => ret tt)
             square_error_unsized square_error_unsized
             (input "InputValue" (dense 2 3 [[1; 2; 3]; [4; 5; 6]]%Z) (dense 2 3 []))
             (input "LearnableParameter" (dense 0 0 []) (dense 0 0 []))
             eq_refl eq_refl).
  split; reflexivity.
Defined.

(** X13 on [masked_cross_entropy_with_softmax]: the first column of the
    logits gradient is zero after the request. *)
Lemma cross_entropy_with_softmax_forward_then_gradient_witness :
  exists s' G',
    CrossEntropyWithSoftmaxNode.EvaluateThisNode AssignLogSoftmaxOf InplaceExp
      masked_cross_entropy_with_softmax = (Returned tt, s') /\
    input_gradient 1 (snd (CrossEntropyWithSoftmaxNode.ComputeInputPartial 1 s')) = Some G' /\
    elem G' 0 0 = 0%Z /\ elem G' 0 1 = (2 + 2 * (1 - 0))%Z.
Proof.
  destruct (cross_entropy_with_softmax_forward_then_gradient
              AssignLogSoftmaxOf InplaceExp masked_cross_entropy_with_softmax
              labels logits [] eq_refl (conj eq_refl eq_refl))
    as [s' [Hrun [_ [_ [_ [_ [_ [_ [G' [_ [HG [_ Helem]]]]]]]]]]]].
  exists s', G'. split; [exact Hrun|]. split; [exact HG|].
  split; rewrite Helem; reflexivity.
Defined.

(** X14 on [cross_entropy]. *)
Lemma cross_entropy_forward_then_gradient_witness :
  exists s',
    CrossEntropyNode.EvaluateThisNode InplaceLog cross_entropy = (Returned tt, s') /\
    elem (CrossEntropyNode.m_logOfRight s') 0 0 = 0%Z /\
    elem (CrossEntropyNode.m_logOfRight s') 0 1 = 1%Z.
Proof.
  destruct (cross_entropy_forward_then_gradient InplaceLog cross_entropy
              labels logits [] eq_refl (conj eq_refl eq_refl))
    as [s' [Hrun [Hlog _]]].
  exists s'. split; [exact Hrun|]. rewrite Hlog. split; reflexivity.
Defined.

(** X15 on [cross_entropy]: the label is an InputValue and the two inputs
    are 2x2. *)
Lemma cross_entropy_validate_witness :
  fst (CrossEntropyNode.Validate (ret tt) (fun _ _ => ret tt) cross_entropy) = Returned tt.
Proof.
  rewrite (proj2 (cross_entropy_validate (ret tt) (fun _ _ => ret tt)
                    cross_entropy cross_entropy labels logits eq_refl eq_refl) eq_refl).
  reflexivity.
Defined.

(** X17 on [dummy_criterion_of_row], whose objective is 1x2. *)
Lemma dummy_objective_row_validates_but_does_not_evaluate_witness :
  exists s',
    DummyCriterionNode.Validate (ret tt) (fun _ _ => ret tt) dummy_criterion_of_row
    = (Returned tt, s') /\
    DummyCriterionNode.EvaluateThisNode s'
    = (Thrown (LogicError "DummyCriterionNode expects first input has dimension (1, 1).\n"),
       s').
Proof.
  destruct (dummy_objective_row_validates_but_does_not_evaluate
              (ret tt) (fun _ _ => ret tt)
              dummy_criterion_of_row dummy_criterion_of_row
              objectives_row derivatives prediction
              eq_refl eq_refl eq_refl eq_refl eq_refl eq_refl eq_refl eq_refl
              (fun st => ex_intro _ st (conj eq_refl eq_refl)))
    as [s' [Hrun [Hthrow _]]].
  exists s'. split; [exact Hrun|]. apply Hthrow. cbn. lia.
Defined.

(** X18 on [padded]: cell (2, 1) is at offset 6 of 8, and a write to it
    does not reach cell (0, 1). *)
Lemma matrix_cells_do_not_alias_witness :
  (cuda.locate padded 2 1 < 8)%N /\
  cuda.get padded (cuda.put padded (fun _ => 0%Z) 2 1 7%Z) 0 1 = 0%Z /\
  cuda.get padded (cuda.put padded (fun _ => 0%Z) 2 1 7%Z) 2 1 = 7%Z.
Proof.
  assert (Hrows : (cuda.numrows padded <= cuda.colstride padded)%N)
    by (vm_compute; discriminate).
  destruct (matrix_cells_do_not_alias Z padded (fun _ => 0%Z) 2 1 0 1
              Hrows eq_refl eq_refl eq_refl eq_refl eq_refl)
    as [Hin [_ Hrw]].
  split; [exact Hin|]. split; [apply (Hrw 7%Z)|reflexivity].
Defined.

(** X19 on [padded] reshaped from 3x2 to 2x3: column 2 starts at offset
    8, where the two columns of the old shape end. *)
Lemma reshape_keeps_column_stride_witness :
  cuda.reshape 2 3 padded = Some (cuda.mk_matrixref 100 2 3 4) /\
  (8 <= cuda.locate (cuda.mk_matrixref 100 2 3 4) 0 2)%N.
Proof.
  split; [reflexivity|].
  apply (proj2 (proj2 (proj2 (proj2 (proj2 (proj2
           (reshape_keeps_column_stride padded (cuda.mk_matrixref 100 2 3 4) 2 3
              eq_refl)))))));
    reflexivity.
Defined.

End FurtherOverTheIntegers.

Section FurtherOverTheReals.
Import RealInstances.
Import CRFNode.

Lemma find_label_scaled : find_label lbls_scaled 0 = find_label lbls 0.
Proof.
  unfold find_label, lbls_scaled, lbls, one_by_one.
  cbn [GetNumRows find_label_from elem snonzero RScalar].
  destruct (Req_dec_T 2 0) as [H|_]; [lra|].
  destruct (Req_dec_T 1 0) as [H|_]; [lra|]. reflexivity.
Qed.

(** X3 on the sequence of [RealInstances]: the table does not change when
    the pass starts from another tensor and the label 1 is written 2. *)
Lemma forward_table_determined_witness :
  GetNumRows (ForwardCompute scratch lbls pos_scores pair_scores) = 1 /\
  GetNumCols (ForwardCompute scratch lbls pos_scores pair_scores) = 1 /\
  elem (ForwardCompute scratch lbls pos_scores pair_scores) 0 0
  = elem (ForwardCompute pair_scores lbls_scaled pos_scores pair_scores) 0 0.
Proof.
  destruct (forward_table_determined
              scratch pair_scores lbls lbls_scaled pos_scores pair_scores
              eq_refl eq_refl eq_refl eq_refl find_label_scaled)
    as [Hr [Hc Hcells]].
  split; [exact Hr|]. split; [exact Hc|].
  apply Hcells; cbn; lia.
Defined.

Lemma chain_labelled (i : nat) :
  i < 2 -> labelled_transitions (ColumnSlice (i * 2) 2 chain_lbls).
Proof.
  intros Hi t Ht. cbn [ColumnSlice GetNumCols] in Ht. assert (t = 0) by lia. subst t.
  unfold find_label. cbn [ColumnSlice GetNumRows chain_lbls elem find_label_from Nat.add].
  destruct i as [|[|i]]; [| |lia];
    cbn [Nat.mul Nat.add chain_label Nat.eqb snonzero RScalar];
    repeat (destruct (Req_dec_T _ 0) as [?H|?H]; try lra); cbn; lia.
Qed.

(** X10 on [crf_chains]: two sequences of two positions, each with a
    transition between two labelled columns; the labels kept are those of
    the second sequence, and cell (1, 1) of the first sequence is in
    [alpha]. *)
Lemma crf_state_after_forward_witness :
  exists s',
    EvaluateThisNode (TE := Instances.idle_engine R) crf_chains = (Returned tt, s') /\
    GetNumRows (mAlpha s') = 2 /\ GetNumCols (mAlpha s') = 4 /\
    elem (mAlpha s') 1 1
    = elem (forward_table (ColumnSlice 0 2 chain_lbls) (ColumnSlice 0 2 chain_pos)
                          chain_pair) 1 1 /\
    mStartLbl s' = find_label (ColumnSlice 2 2 chain_lbls) 0 /\
    mEndLbl s' = find_label (ColumnSlice 2 2 chain_lbls) 1.
Proof.
  assert (Hpos : 0 < GetNumCols chain_lbls / LayoutNumParallelSequences two_sequences)
    by (cbn; lia).
  assert (HT : (Z.of_nat (GetNumCols chain_lbls / LayoutNumParallelSequences two_sequences)
                < 2 ^ 31)%Z) by reflexivity.
  assert (HL : (Z.of_nat (GetNumRows chain_lbls) < 2 ^ 31)%Z) by reflexivity.
  destruct (crf_state_after_forward (TE := Instances.idle_engine R) crf_chains
              (mkInput "InputValue" chain_lbls scratch)
              (mkInput "Times" chain_pos scratch)
              (mkInput "LearnableParameter" chain_pair scratch)
              [] two_sequences eq_refl eq_refl Hpos HT HL chain_labelled)
    as [s' [Hrun [[Hr [Hc _]] [Hcells Hlast]]]].
  exists s'. split; [exact Hrun|]. split; [exact Hr|]. split; [exact Hc|].
  split; [apply (Hcells 0 1 1); cbn; lia|].
  apply Hlast. cbn. lia.
Defined.

End FurtherOverTheReals.
